(** * The CAN message map of libopeninv (canmap.cpp, canhardware.cpp)

    A shallow embedding of the mapping table, the bit codec, the SDO
    handler and the flash loader, followed by the properties checked
    against the specification.

    Arrays are lists indexed with stdpp's lookup; the pool links and the
    head links are small indices (uint8_t in the firmware) and are kept as
    [nat]; identifiers, bit positions and payload words are [Z] with the
    32-bit wrap-around written out; [float] is IEEE binary32 through the
    standard library's [SpecFloat]. *)

From Stdlib Require Import ZArith List Bool Lia.
From Stdlib Require Import Floats.SpecFloat.
From stdpp Require Import base list.
Import ListNotations.
Local Open Scope Z_scope.

(** ** 32-bit words *)

Module Word.

Definition u32 (z : Z) : Z := z mod 2 ^ 32.

(** [x << n] on a 32-bit register.  For [n >= 32] C leaves the shift
    undefined; the Cortex-M shifter the firmware runs on yields 0, which is
    also what the wrap-around gives. *)
Definition shl (x n : Z) : Z := u32 (Z.shiftl x n).

Definition shr (x n : Z) : Z := Z.shiftr x n.

(** [(1 << numBits) - 1], read as an unsigned word. *)
Definition mask (numBits : Z) : Z := u32 (shl 1 numBits - 1).

(** conversion of an unsigned word to [int32_t] *)
Definition s32 (z : Z) : Z :=
  let w := u32 z in if w <? 2 ^ 31 then w else w - 2 ^ 32.

End Word.

(** ** binary32 *)

Module F32.

Definition prec : Z := 24.
Definition emax : Z := 128.

Definition float : Type := spec_float.

Definition add : float -> float -> float := SFadd prec emax.
Definition mul : float -> float -> float := SFmul prec emax.

(** integer to float conversion, round to nearest even *)
Definition of_Z (z : Z) : float := binary_normalize prec emax z 0 false.

(** the integer part of a finite float, rounding toward zero *)
Definition trunc (f : float) : Z :=
  match f with
  | S754_finite s m e =>
      let a := match e with
               | Zneg p => Zpos m / 2 ^ Zpos p
               | _ => Zpos m * 2 ^ e
               end in
      if s then - a else a
  | _ => 0
  end.

(** [int ival = val;]: truncation.  Outside the range of [int] (and for
    NaN) C leaves the conversion undefined; the model saturates, as the
    target's conversion does, and maps NaN to 0. *)
Definition to_int (f : float) : Z :=
  match f with
  | S754_infinity s => if s then - 2 ^ 31 else 2 ^ 31 - 1
  | _ => Z.max (- 2 ^ 31) (Z.min (2 ^ 31 - 1) (trunc f))
  end.

End F32.

(** ** Build-time configuration

    [MAX_ITEMS], [MAX_MESSAGES] (canmap.h), [MAX_USER_MESSAGES]
    (canhardware.h) and [CAN_EXT] are preprocessor symbols defined outside
    the two source files; they are parameters of the development. *)

Class BuildConfig := {
  MAX_ITEMS : nat;
  MAX_MESSAGES : nat;
  MAX_USER_MESSAGES : nat;
  CAN_EXT : bool
}.

Definition ITEM_UNSET : nat := 255.

Definition SDO_WRITE : Z := 0x40.
Definition SDO_READ : Z := 0x22.
Definition SDO_ABORT : Z := 0x80.
Definition SDO_WRITE_REPLY : Z := 0x23.
Definition SDO_READ_REPLY : Z := 0x43.
Definition SDO_ERR_INVIDX : Z := 0x06020000.
Definition SDO_ERR_RANGE : Z := 0x06090030.

(** ** The parameter store

    [Param::...] is an external collaborator whose code is not part of the
    two files.  Its operations are taken as an interface: the store is
    passed explicitly, [Param_Set] returns the new store and the result
    code (0 on success), [Param_attr_id p] stands for
    [Param::GetAttrib(p)->id], and [FP_FROMFLT] for the macro of that
    name. *)

Class ParamStore (store : Type) := {
  PARAM_LAST : Z;
  Param_IsParam : Z -> bool;
  Param_Set : store -> Z -> Z -> store * Z;
  Param_SetFloat : store -> Z -> F32.float -> store;
  Param_Get : store -> Z -> Z;
  Param_GetFloat : store -> Z -> F32.float;
  Param_NumFromId : Z -> Z;
  Param_attr_id : Z -> Z;
  FP_FROMFLT : F32.float -> Z
}.

(** ** Data model *)

(** [CANIDMAP]: a message identifier and the pool index of the head of its
    chain. *)
Record CANIDMAP := {
  canId : Z;
  first : nat
}.

(** [CANPOS]: one binding.  [next] is the pool index of the successor,
    [MAX_ITEMS] at the end of a chain, [ITEM_UNSET] in a free slot. *)
Record CANPOS := {
  mapParam : Z;
  gain : F32.float;
  offset : Z;
  offsetBits : Z;
  numBits : Z;
  next : nat
}.

Definition set_canId (v : Z) (m : CANIDMAP) : CANIDMAP :=
  {| canId := v; first := first m |}.

Definition set_first (v : nat) (m : CANIDMAP) : CANIDMAP :=
  {| canId := canId m; first := v |}.

Definition set_next (v : nat) (c : CANPOS) : CANPOS :=
  {| mapParam := mapParam c; gain := gain c; offset := offset c;
     offsetBits := offsetBits c; numBits := numBits c; next := v |}.

Definition set_mapParam (v : Z) (c : CANPOS) : CANPOS :=
  {| mapParam := v; gain := gain c; offset := offset c;
     offsetBits := offsetBits c; numBits := numBits c; next := next c |}.

(** A frame: identifier and the two payload words [data[0]], [data[1]]. *)
Definition Frame : Type := Z * (Z * Z).

(** ** canhardware.cpp *)

(** The state of [CanHardware] that the map touches.  [ConfigureFilters] and
    [Send] are pure virtual; the model counts the former and logs the
    frames given to the latter, oldest first. *)
Record CanHardware := {
  userIds : list Z;
  nextUserMessageIndex : nat;
  filterConfigs : nat;
  sent : list Frame
}.

Definition Send (hw : CanHardware) (id : Z) (data : Z * Z) : CanHardware :=
  {| userIds := userIds hw;
     nextUserMessageIndex := nextUserMessageIndex hw;
     filterConfigs := filterConfigs hw;
     sent := sent hw ++ [(id, data)] |}.

Section Hardware.
Context {cfg : BuildConfig}.

Definition RegisterUserMessage (hw : CanHardware) (id : Z) : CanHardware * bool :=
  if (nextUserMessageIndex hw <? MAX_USER_MESSAGES)%nat then
    if existsb (Z.eqb id) (take (nextUserMessageIndex hw) (userIds hw)) then
      (hw, false)
    else
      ({| userIds := <[nextUserMessageIndex hw := id]> (userIds hw);
          nextUserMessageIndex := S (nextUserMessageIndex hw);
          filterConfigs := S (filterConfigs hw);
          sent := sent hw |}, true)
  else (hw, false).

End Hardware.

(** ** canmap.cpp: state *)

Inductive MapSel := SendMap | RecvMap.

(** The object, together with the collaborators it acts on: the hardware,
    the parameter store and the static flag [isSaving]. *)
Record CanMap (store : Type) := {
  canSendMap : list CANIDMAP;
  canRecvMap : list CANIDMAP;
  canPosMap : list CANPOS;
  nodeId : Z;
  isSaving : bool;
  canHardware : CanHardware;
  params : store
}.

Arguments canSendMap {store} _.
Arguments canRecvMap {store} _.
Arguments canPosMap {store} _.
Arguments nodeId {store} _.
Arguments isSaving {store} _.
Arguments canHardware {store} _.
Arguments params {store} _.

(** The results of [Add].  The numeric error codes [CAN_ERR_...] are
    defined in canmap.h; [ProcessSDO] tells them from a count by their
    sign. *)
Inductive CanErr :=
| CAN_ERR_INVALID_ID
| CAN_ERR_INVALID_OFS
| CAN_ERR_INVALID_LEN
| CAN_ERR_MAXMESSAGES
| CAN_ERR_MAXITEMS.

Inductive AddResult :=
| Count (n : nat)
| Fault (e : CanErr).

(** What a loop body hands back: go on with the next element, or leave the
    enclosing function with a value. *)
Inductive Flow (St R : Type) :=
| Next (s : St)
| Return (r : R).

Arguments Next {St R} s.
Arguments Return {St R} r.

(** [FindMap]'s output parameters on success *)
Record MapInfo := {
  mi_canId : Z;
  mi_offset : Z;
  mi_length : Z;
  mi_gain : F32.float;
  mi_rx : bool
}.

(** the layout of the CAN_SDO overlay on the two payload words *)
Module SDO.

Definition cmd (d : Z * Z) : Z := Z.land (fst d) 0xFF.
Definition index (d : Z * Z) : Z := Z.land (Z.shiftr (fst d) 8) 0xFFFF.
Definition subIndex (d : Z * Z) : Z := Z.land (Z.shiftr (fst d) 24) 0xFF.
Definition data (d : Z * Z) : Z := snd d.

Definition set_cmd (c : Z) (d : Z * Z) : Z * Z :=
  (Z.lor (Z.land (fst d) 0xFFFFFF00) c, snd d).
Definition set_data (v : Z) (d : Z * Z) : Z * Z := (fst d, v).

End SDO.

(** ** canmap.cpp: operations *)

Section Map.
Context {cfg : BuildConfig} {store : Type} {PS : ParamStore store}.

Definition selMap (d : MapSel) (st : CanMap store) : list CANIDMAP :=
  match d with SendMap => canSendMap st | RecvMap => canRecvMap st end.

Definition setMap (d : MapSel) (t : list CANIDMAP) (st : CanMap store) : CanMap store :=
  match d with
  | SendMap =>
      {| canSendMap := t; canRecvMap := canRecvMap st; canPosMap := canPosMap st;
         nodeId := nodeId st; isSaving := isSaving st;
         canHardware := canHardware st; params := params st |}
  | RecvMap =>
      {| canSendMap := canSendMap st; canRecvMap := t; canPosMap := canPosMap st;
         nodeId := nodeId st; isSaving := isSaving st;
         canHardware := canHardware st; params := params st |}
  end.

Definition setPos (p : list CANPOS) (st : CanMap store) : CanMap store :=
  {| canSendMap := canSendMap st; canRecvMap := canRecvMap st; canPosMap := p;
     nodeId := nodeId st; isSaving := isSaving st;
     canHardware := canHardware st; params := params st |}.

Definition setHw (h : CanHardware) (st : CanMap store) : CanMap store :=
  {| canSendMap := canSendMap st; canRecvMap := canRecvMap st;
     canPosMap := canPosMap st; nodeId := nodeId st; isSaving := isSaving st;
     canHardware := h; params := params st |}.

Definition setParams (ps : store) (st : CanMap store) : CanMap store :=
  {| canSendMap := canSendMap st; canRecvMap := canRecvMap st;
     canPosMap := canPosMap st; nodeId := nodeId st; isSaving := isSaving st;
     canHardware := canHardware st; params := ps |}.

Definition setSaving (b : bool) (st : CanMap store) : CanMap store :=
  {| canSendMap := canSendMap st; canRecvMap := canRecvMap st;
     canPosMap := canPosMap st; nodeId := nodeId st; isSaving := b;
     canHardware := canHardware st; params := params st |}.

Definition setNodeId (n : Z) (st : CanMap store) : CanMap store :=
  {| canSendMap := canSendMap st; canRecvMap := canRecvMap st;
     canPosMap := canPosMap st; nodeId := n; isSaving := isSaving st;
     canHardware := canHardware st; params := params st |}.

(** *** The two iteration macros

    Results are [option]: [None] stands for the runs C gives no meaning to
    (an index outside an array) and for the runs that never leave a chain. *)

(** [forEachCanMap(c,m)]: [for (c = m; (c - m) < MAX_MESSAGES &&
    c->first != MAX_ITEMS; c++)].  [m] reads the table out of the loop
    state, [n] counts the entries left, [c] is the index of the entry. *)
Fixpoint forEachCanMap_loop {St R : Type} (m : St -> list CANIDMAP)
    (body : nat -> CANIDMAP -> St -> option (Flow St R))
    (n c : nat) (s : St) : option (Flow St R) :=
  match n with
  | O => Some (Next s)
  | S n' =>
      match m s !! c with
      | None => None
      | Some e =>
          if (first e =? MAX_ITEMS)%nat then Some (Next s)
          else
            match body c e s with
            | Some (Next s') => forEachCanMap_loop m body n' (S c) s'
            | r => r
            end
      end
  end.

Definition forEachCanMap {St R : Type} (m : St -> list CANIDMAP)
    (body : nat -> CANIDMAP -> St -> option (Flow St R)) (s : St) : option (Flow St R) :=
  forEachCanMap_loop m body MAX_MESSAGES 0 s.

(** A chain that does not come back on itself passes through at most
    [MAX_ITEMS + 1] pool slots, so a walk that needs more steps than
    [chain_fuel] never ends. *)
Definition chain_fuel : nat := S (S MAX_ITEMS).

(** [forEachPosMap(c,m)]: [for (c = &canPosMap[m->first];
    c->next != ITEM_UNSET; c = &canPosMap[c->next])].  [p] reads the pool
    out of the loop state; the link followed is read after the body ran. *)
Fixpoint forEachPosMap_loop {St R : Type} (p : St -> list CANPOS)
    (body : nat -> CANPOS -> St -> option (Flow St R))
    (fuel c : nat) (s : St) : option (Flow St R) :=
  match fuel with
  | O => None
  | S fuel' =>
      match p s !! c with
      | None => None
      | Some pos =>
          if (next pos =? ITEM_UNSET)%nat then Some (Next s)
          else
            match body c pos s with
            | Some (Next s') =>
                match p s' !! c with
                | None => None
                | Some pos' => forEachPosMap_loop p body fuel' (next pos') s'
                end
            | r => r
            end
      end
  end.

Definition forEachPosMap {St R : Type} (p : St -> list CANPOS)
    (body : nat -> CANPOS -> St -> option (Flow St R))
    (m : CANIDMAP) (s : St) : option (Flow St R) :=
  forEachPosMap_loop p body chain_fuel (first m) s.

(** *** ClearMap *)

(** Every entry of the table gets the head link [MAX_ITEMS], every slot of
    the pool, the one at [MAX_ITEMS] included, the link [ITEM_UNSET]; the
    other fields keep what they held. *)
Definition ClearMap (d : MapSel) (st : CanMap store) : CanMap store :=
  setPos (set_next ITEM_UNSET <$> canPosMap st)
         (setMap d (set_first MAX_ITEMS <$> selMap d st) st).

(** *** FindById *)

(** The pointer returned is the index of the entry; [Some None] is the null
    pointer. *)
Definition FindById (t : list CANIDMAP) (id : Z) : option (option nat) :=
  match forEachCanMap (fun _ : unit => t)
          (fun c e s => if canId e =? id then Some (Return c) else Some (Next s)) tt with
  | Some (Return c) => Some (Some c)
  | Some (Next _) => Some None
  | None => None
  end.

(** *** HandleClear *)

Definition HandleClear (st : CanMap store) : option (CanMap store) :=
  match forEachCanMap (R := unit) (fun _ : CanHardware => canRecvMap st)
          (fun _ e hw => Some (Next (fst (RegisterUserMessage hw (canId e)))))
          (canHardware st) with
  | Some (Next hw) => Some (setHw hw st)
  | Some (Return _) => Some st
  | None => None
  end.

(** *** Add *)

(** [for (int i = 0; i < MAX_MESSAGES; i++) if (canMap[i].first ==
    MAX_ITEMS) ... break;]: the index of the first free entry. *)
Definition findFreeEntry (t : list CANIDMAP) : option nat :=
  fst <$> list_find (fun e => first e = MAX_ITEMS) (take MAX_MESSAGES t).

(** [for (freeIndex = 0; freeIndex < MAX_ITEMS &&
    canPosMap[freeIndex].next != ITEM_UNSET; freeIndex++);] *)
Definition findFreeIndex (p : list CANPOS) : nat :=
  match list_find (fun c => next c = ITEM_UNSET) (take MAX_ITEMS p) with
  | Some (i, _) => i
  | None => MAX_ITEMS
  end.

(** [for (precedingIndex = existingMap->first; precedingIndex != MAX_ITEMS;
    precedingIndex = canPosMap[precedingIndex].next) precedingItem =
    &canPosMap[precedingIndex];] *)
Fixpoint findPreceding (p : list CANPOS) (fuel precedingIndex : nat)
    (precedingItem : option nat) : option (option nat) :=
  match fuel with
  | O => None
  | S fuel' =>
      if (precedingIndex =? MAX_ITEMS)%nat then Some precedingItem
      else
        match p !! precedingIndex with
        | None => None
        | Some c => findPreceding p fuel' (next c) (Some precedingIndex)
        end
  end.

(** [forEachCanMap(curMap, canMap) count++;] *)
Definition countMessages (t : list CANIDMAP) : option nat :=
  match forEachCanMap (R := unit) (fun _ : nat => t)
          (fun _ _ n => Some (Next (S n))) O with
  | Some (Next n) => Some n
  | Some (Return _) => None
  | None => None
  end.

(** What [existingMap->canId = canId] leaves in the entry.  With [CAN_EXT]
    an entry has [IDMAPSIZE] = 8 bytes and its identifier holds every value
    that [Add] accepts; without it an entry has 4 bytes for the identifier
    and the head link, the identifier has two of them, and the assignment
    cuts the 29 bits that [Add] accepts to the low 16. *)
Definition stored_canId (id : Z) : Z :=
  if CAN_EXT then id else Z.land id 0xFFFF.

Definition Add (d : MapSel) (st : CanMap store) (param id offsetBits_ length_ : Z)
    (gain_ : F32.float) (offset_ : Z) : option (CanMap store * AddResult) :=
  if id >? 0x1fffffff then Some (st, Fault CAN_ERR_INVALID_ID)
  else if offsetBits_ >? 63 then Some (st, Fault CAN_ERR_INVALID_OFS)
  else if length_ >? 32 then Some (st, Fault CAN_ERR_INVALID_LEN)
  else
    found ← FindById (selMap d st) id;
    let alloc :=
      match found with
      | Some i => Some (i, st)
      | None =>
          match findFreeEntry (selMap d st) with
          | Some i => Some (i, setMap d (alter (set_canId (stored_canId id)) i (selMap d st)) st)
          | None => None
          end
      end in
    match alloc with
    | None => Some (st, Fault CAN_ERR_MAXMESSAGES)
    | Some (existingMap, st1) =>
        let freeIndex := findFreeIndex (canPosMap st1) in
        if (freeIndex =? MAX_ITEMS)%nat then Some (st1, Fault CAN_ERR_MAXITEMS)
        else
          e ← selMap d st1 !! existingMap;
          precedingItem ← findPreceding (canPosMap st1) chain_fuel (first e) None;
          let freeItem :=
            {| mapParam := param; gain := gain_; offset := offset_;
               offsetBits := offsetBits_; numBits := length_; next := MAX_ITEMS |} in
          let st2 := setPos (<[freeIndex := freeItem]> (canPosMap st1)) st1 in
          let st3 :=
            match precedingItem with
            | None => setMap d (alter (set_first freeIndex) existingMap (selMap d st2)) st2
            | Some i => setPos (alter (set_next freeIndex) i (canPosMap st2)) st2
            end in
          count ← countMessages (selMap d st3);
          Some (st3, Count count)
    end.

Definition AddSend (st : CanMap store) (param id offsetBits_ length_ : Z)
    (gain_ : F32.float) (offset_ : Z) : option (CanMap store * AddResult) :=
  Add SendMap st param id offsetBits_ length_ gain_ offset_.

Definition AddRecv (st : CanMap store) (param id offsetBits_ length_ : Z)
    (gain_ : F32.float) (offset_ : Z) : option (CanMap store * AddResult) :=
  '(st1, res) ← Add RecvMap st param id offsetBits_ length_ gain_ offset_;
  Some (setHw (fst (RegisterUserMessage (canHardware st1) id)) st1, res).

(** *** RemoveFromMap, Remove *)

(** The loop state is the object and the local [lastPosMap] (a pool index,
    [None] for the null pointer).  [removed] is set to 0 before the loops
    and returned after them; no statement in between assigns it. *)
Definition RemoveFromMap (d : MapSel) (st : CanMap store) (param : Z)
    : option (CanMap store * Z) :=
  let removed := 0 in
  match forEachCanMap (R := unit) (fun s : CanMap store * option nat => selMap d (fst s))
          (fun i curMap s =>
             forEachPosMap (fun s : CanMap store * option nat => canPosMap (fst s))
               (fun c curPos s =>
                  let '(st1, lastPosMap) := s in
                  let st2 :=
                    if mapParam curPos =? param then
                      match lastPosMap with
                      | Some l => setPos (alter (set_next (next curPos)) l (canPosMap st1)) st1
                      | None => setMap d (alter (set_first (next curPos)) i (selMap d st1)) st1
                      end
                    else st1 in
                  Some (Next (st2, Some c)))
               curMap (fst s, None))
          (st, None) with
  | Some (Next s) => Some (fst s, removed)
  | Some (Return _) => None
  | None => None
  end.

Definition Remove (st : CanMap store) (param : Z) : option (CanMap store * Z) :=
  '(st1, removed) ← RemoveFromMap SendMap st param;
  '(st2, removed') ← RemoveFromMap RecvMap st1 param;
  Some (st2, removed + removed').

(** *** FindMap, IterateCanMap *)

(** One pass of the outer [for (map = canSendMap; !done; map = canRecvMap)],
    which runs twice: over the send table with [rx = false], then over the
    receive table with [rx = true]. *)
Definition FindMap_pass (d : MapSel) (rx : bool) (st : CanMap store) (param : Z)
    : option (Flow unit MapInfo) :=
  forEachCanMap (fun _ : unit => selMap d st)
    (fun _ curMap s =>
       forEachPosMap (fun _ : unit => canPosMap st)
         (fun _ curPos s =>
            if mapParam curPos =? param then
              Some (Return {| mi_canId := canId curMap; mi_offset := offsetBits curPos;
                              mi_length := numBits curPos; mi_gain := gain curPos;
                              mi_rx := rx |})
            else Some (Next s))
         curMap s)
    tt.

(** [Some (Some info)] for [true] with the output parameters, [Some None]
    for [false]. *)
Definition FindMap (st : CanMap store) (param : Z) : option (option MapInfo) :=
  match FindMap_pass SendMap false st param with
  | Some (Return r) => Some (Some r)
  | Some (Next _) =>
      match FindMap_pass RecvMap true st param with
      | Some (Return r) => Some (Some r)
      | Some (Next _) => Some None
      | None => None
      end
  | None => None
  end.

(** the arguments of one call of the callback of [IterateCanMap] *)
Definition MapItem : Type := Z * Z * Z * Z * F32.float * bool.

Definition IterateCanMap_pass (d : MapSel) (rx : bool) (st : CanMap store)
    (calls : list MapItem) : option (list MapItem) :=
  match forEachCanMap (R := unit) (fun _ : list MapItem => selMap d st)
          (fun _ curMap calls =>
             forEachPosMap (fun _ : list MapItem => canPosMap st)
               (fun _ curPos calls =>
                  Some (Next (calls ++ [(mapParam curPos, canId curMap, offsetBits curPos,
                                         numBits curPos, gain curPos, rx)])))
               curMap calls)
          calls with
  | Some (Next calls') => Some calls'
  | Some (Return _) => None
  | None => None
  end.

(** the calls of the callback, in order *)
Definition IterateCanMap (st : CanMap store) : option (list MapItem) :=
  calls ← IterateCanMap_pass SendMap false st [];
  IterateCanMap_pass RecvMap true st calls.

(** *** SendAll *)

Definition SendAll (st : CanMap store) : option (CanMap store) :=
  match forEachCanMap (R := unit) (fun _ : CanHardware => canSendMap st)
          (fun _ curMap hw =>
             match forEachPosMap (R := unit) (fun _ : Z * Z => canPosMap st)
                     (fun _ curPos data =>
                        if isSaving st then Some (Return tt)
                        else
                          let val := Param_GetFloat (params st) (mapParam curPos) in
                          let val := F32.mul val (gain curPos) in
                          let val := F32.add val (F32.of_Z (offset curPos)) in
                          let ival := F32.to_int val in
                          let ival := Z.land ival (Word.mask (numBits curPos)) in
                          if offsetBits curPos >? 31 then
                            Some (Next (fst data,
                                        Z.lor (snd data) (Word.shl ival (offsetBits curPos - 32))))
                          else
                            Some (Next (Z.lor (fst data) (Word.shl ival (offsetBits curPos)),
                                        snd data)))
                     curMap (0, 0) with
             | Some (Next data) => Some (Next (Send hw (canId curMap) data))
             | Some (Return r) => Some (Return r)
             | None => None
             end)
          (canHardware st) with
  | Some (Next hw) => Some (setHw hw st)
  | Some (Return _) => Some st
  | None => None
  end.

(** *** ProcessSDO *)

Definition ProcessSDO (st : CanMap store) (data : Z * Z) : option (CanMap store) :=
  let index := SDO.index data in
  let subIndex := SDO.subIndex data in
  '(st1, reply) ←
    (if (0x2000 <=? index) && (index <=? 0x2001) && (subIndex <? PARAM_LAST) then
       let paramIdx := if index =? 0x2001 then Param_NumFromId subIndex else subIndex in
       if SDO.cmd data =? SDO_WRITE then
         let '(ps, rc) := Param_Set (params st) paramIdx (Word.s32 (SDO.data data)) in
         if rc =? 0 then Some (setParams ps st, SDO.set_cmd SDO_WRITE_REPLY data)
         else Some (setParams ps st, SDO.set_data SDO_ERR_RANGE (SDO.set_cmd SDO_ABORT data))
       else if SDO.cmd data =? SDO_READ then
         Some (st, SDO.set_cmd SDO_READ_REPLY
                     (SDO.set_data (Word.u32 (Param_Get (params st) paramIdx)) data))
       else Some (st, data)
     else if (0x3000 <=? index) && (index <? 0x4800) && (subIndex <? PARAM_LAST) then
       if SDO.cmd data =? SDO_WRITE then
         let offset_ := Z.land (SDO.data data) 0xFF in
         let len := Z.land (Z.shiftr (SDO.data data) 8) 0xFF in
         let gain_ := Z.shiftr (SDO.data data) 16 in
         '(st1, result) ←
           (if Z.land index 0x4000 =? 0x4000 then
              AddRecv st subIndex (Z.land index 0x7FF) offset_ len (F32.of_Z gain_) 0
            else
              AddSend st subIndex (Z.land index 0x7FF) offset_ len (F32.of_Z gain_) 0);
         match result with
         | Count _ => Some (st1, SDO.set_cmd SDO_WRITE_REPLY data)
         | Fault _ => Some (st1, SDO.set_data SDO_ERR_RANGE (SDO.set_cmd SDO_ABORT data))
         end
       else Some (st, data)
     else Some (st, SDO.set_data SDO_ERR_INVIDX (SDO.set_cmd SDO_ABORT data)));
  Some (setHw (Send (canHardware st1) (Word.u32 (0x580 + nodeId st1)) reply) st1).

(** *** HandleRx *)

Definition HandleRx (st : CanMap store) (id : Z) (data : Z * Z)
    : option (CanMap store * bool) :=
  if id =? Word.u32 (0x600 + nodeId st) then
    st1 ← ProcessSDO st data;
    Some (st1, true)
  else if isSaving st then Some (st, false)
  else
    recvMap ← FindById (canRecvMap st) id;
    match recvMap with
    | Some i =>
        e ← canRecvMap st !! i;
        match forEachPosMap (R := unit) (fun _ : store => canPosMap st)
                (fun _ curPos ps =>
                   let val :=
                     if offsetBits curPos >? 31 then
                       F32.of_Z (Z.land (Word.shr (snd data) (offsetBits curPos - 32))
                                        (Word.mask (numBits curPos)))
                     else
                       F32.of_Z (Z.land (Word.shr (fst data) (offsetBits curPos))
                                        (Word.mask (numBits curPos))) in
                   let val := F32.add val (F32.of_Z (offset curPos)) in
                   let val := F32.mul val (gain curPos) in
                   if Param_IsParam (mapParam curPos) then
                     Some (Next (fst (Param_Set ps (mapParam curPos) (FP_FROMFLT val))))
                   else
                     Some (Next (Param_SetFloat ps (mapParam curPos) val)))
                e (params st) with
        | Some (Next ps) => Some (setParams ps st, true)
        | Some (Return _) => None
        | None => None
        end
    | None => Some (st, false)
    end.

(** *** ReplaceParamUidByEnum *)

Definition ReplaceParamUidByEnum (d : MapSel) (st : CanMap store) : option (CanMap store) :=
  match forEachCanMap (R := unit) (fun s : CanMap store => selMap d s)
          (fun _ curMap s =>
             forEachPosMap (fun s : CanMap store => canPosMap s)
               (fun c curPos s =>
                  let param := Param_NumFromId (mapParam curPos) in
                  Some (Next (setPos (alter (set_mapParam param) c (canPosMap s)) s)))
               curMap s)
          st with
  | Some (Next s) => Some s
  | Some (Return _) => None
  | None => None
  end.

End Map.

(** ** The flash image

    The CRC unit and the layout of the two structures in memory are outside
    the two source files: the checksum of a block of words and the reading
    of a table out of its words are parameters. *)

Class FlashImage := {
  crc_calculate_block : list Z -> Z;
  decode_idmap : list Z -> list CANIDMAP;
  decode_posmap : list Z -> list CANPOS
}.

Section Flash.
Context {cfg : BuildConfig} {store : Type} {PS : ParamStore store} {FI : FlashImage}.

Definition IDMAPSIZE : nat := if CAN_EXT then 8%nat else 4%nat.
Definition SENDMAP_WORDS : nat := (MAX_MESSAGES * IDMAPSIZE / 4)%nat.
Definition RECVMAP_WORDS : nat := (MAX_MESSAGES * IDMAPSIZE / 4)%nat.
(** [sizeof(CANPOS)] is 12, the figure of the file's own size check *)
Definition POSMAP_WORDS : nat := (12 * MAX_ITEMS / 4)%nat.

(** the words [n] .. [n + len - 1] of the page at [GetFlashAddress()] *)
Definition flash_words (flash : nat -> Z) (n len : nat) : list Z :=
  flash <$> seq n len.

(** [sizeof(canPosMap)] in words: the pool has [MAX_ITEMS + 1] slots, the
    last one the end marker that [ClearMap] writes *)
Definition CANPOSMAP_WORDS : nat := (12 * S MAX_ITEMS / 4)%nat.

(** the word of [CRC_ADDRESS]: behind the three arrays, so behind the end
    marker of the pool too, which [POSMAP_WORDS] leaves out *)
Definition CRC_ADDRESS : nat := (SENDMAP_WORDS + RECVMAP_WORDS + CANPOSMAP_WORDS)%nat.

Definition LoadFromFlash (flash : nat -> Z) (st : CanMap store)
    : option (CanMap store * Z) :=
  let storedCrc := flash CRC_ADDRESS in
  let crc := crc_calculate_block
               (flash_words flash 0 (SENDMAP_WORDS + RECVMAP_WORDS + POSMAP_WORDS)) in
  if storedCrc =? crc then
    let st1 := setMap SendMap (decode_idmap (flash_words flash 0 SENDMAP_WORDS)) st in
    let st2 := setMap RecvMap
                 (decode_idmap (flash_words flash SENDMAP_WORDS RECVMAP_WORDS)) st1 in
    let st3 := setPos (decode_posmap
                         (flash_words flash (SENDMAP_WORDS + RECVMAP_WORDS) POSMAP_WORDS)
                       ++ drop MAX_ITEMS (canPosMap st2)) st2 in
    st4 ← ReplaceParamUidByEnum SendMap st3;
    st5 ← ReplaceParamUidByEnum RecvMap st4;
    Some (st5, 1)
  else Some (st, 0).

(** the tables as the three [memcpy32] of [LoadFromFlash] leave them, the
    parameter identifiers of the image still in the bindings *)
Definition image_copied (flash : nat -> Z) (st : CanMap store) : CanMap store :=
  setPos (decode_posmap (flash_words flash (SENDMAP_WORDS + RECVMAP_WORDS) POSMAP_WORDS)
          ++ drop MAX_ITEMS (canPosMap st))
    (setMap RecvMap (decode_idmap (flash_words flash SENDMAP_WORDS RECVMAP_WORDS))
       (setMap SendMap (decode_idmap (flash_words flash 0 SENDMAP_WORDS)) st)).

(** The constructor, run on the storage [raw] of the object.  The
    registration of the object as a receive callback is left to the
    dispatcher. *)
Definition CanMap_new (raw : CanMap store) (flash : nat -> Z) : option (CanMap store) :=
  let st := setNodeId 1 raw in
  let st := ClearMap SendMap st in
  let st := ClearMap RecvMap st in
  '(st, _) ← LoadFromFlash flash st;
  HandleClear st.

End Flash.

(** ** Vocabulary of the statements *)

Section Vocabulary.
Context {cfg : BuildConfig} {store : Type} {PS : ParamStore store}.

(** the three arrays have their declared sizes, and [nodeId] is a byte *)
Definition shape_ok (st : CanMap store) : Prop :=
  length (canSendMap st) = MAX_MESSAGES /\
  length (canRecvMap st) = MAX_MESSAGES /\
  length (canPosMap st) = S MAX_ITEMS /\
  0 <= nodeId st < 256.

(** Following the links of the pool [p] from slot [i] until [stop] holds;
    the slots passed, in order, with what they hold. *)
Inductive path (p : list CANPOS) (stop : nat -> Prop) : nat -> list (nat * CANPOS) -> Prop :=
| path_nil i : stop i -> path p stop i []
| path_cons i c l :
    ~ stop i -> p !! i = Some c -> path p stop (next c) l ->
    path p stop i ((i, c) :: l).

(** where [forEachPosMap] stops: at a slot whose link is [ITEM_UNSET] *)
Definition at_unset (p : list CANPOS) (i : nat) : Prop :=
  exists c, p !! i = Some c /\ next c = ITEM_UNSET.

(** where the tail search of [Add] stops: at the index [MAX_ITEMS] *)
Definition at_end (i : nat) : Prop := i = MAX_ITEMS.

(** the bindings [forEachPosMap] visits from slot [i] *)
Definition chain (p : list CANPOS) (i : nat) (l : list (nat * CANPOS)) : Prop :=
  path p (at_unset p) i l.

(** every chain of either table leads to the end marker *)
Definition chains_end (st : CanMap store) : Prop :=
  forall d j e, selMap d st !! j = Some e ->
    exists l, path (canPosMap st) at_end (first e) l.

(** the entries [forEachCanMap] visits: those before the first entry with
    the head link [MAX_ITEMS] *)
Fixpoint visible_from (t : list CANIDMAP) : list CANIDMAP :=
  match t with
  | [] => []
  | e :: r => if (first e =? MAX_ITEMS)%nat then [] else e :: visible_from r
  end.

Definition visible (t : list CANIDMAP) : list CANIDMAP :=
  visible_from (take MAX_MESSAGES t).

(** two tables that differ at most from entry [k] on, where both have an
    entry with the head link [MAX_ITEMS] *)
Definition same_before_gap (k : nat) (t t' : list CANIDMAP) : Prop :=
  (exists e, t !! k = Some e /\ first e = MAX_ITEMS) /\
  (exists e', t' !! k = Some e' /\ first e' = MAX_ITEMS) /\
  forall j, (j < k)%nat -> t' !! j = t !! j.

(** the scaling of the send sweep as the code has it: gain, then offset *)
Definition scale_gain_offset (v : F32.float) (c : CANPOS) : Z :=
  F32.to_int (F32.add (F32.mul v (gain c)) (F32.of_Z (offset c))).

(** the scaling of the send sweep in the words of the specification:
    offset, then gain *)
Definition scale_offset_gain (v : F32.float) (c : CANPOS) : Z :=
  F32.to_int (F32.mul (F32.add v (F32.of_Z (offset c))) (gain c)).

(** mask to [numBits] bits, shift to the bit offset inside the word, OR
    into the high word for offsets of 32 and more, the low word otherwise *)
Definition or_field (scaled : Z) (c : CANPOS) (data : Z * Z) : Z * Z :=
  let field := Z.land scaled (Word.mask (numBits c)) in
  if offsetBits c >? 31 then
    (fst data, Z.lor (snd data) (Word.shl field (offsetBits c - 32)))
  else
    (Z.lor (fst data) (Word.shl field (offsetBits c)), snd data).

(** the frame of one message: the fields of its chain ORed into zeroes *)
Definition frame_of (scale : F32.float -> CANPOS -> Z) (ps : store)
    (e : CANIDMAP) (l : list (nat * CANPOS)) : Frame :=
  (canId e,
   foldl (fun d ic => or_field (scale (Param_GetFloat ps (mapParam ic.2)) ic.2) ic.2 d)
         (0, 0) l).

(** the write of the receive path: through [Set] for a parameter, through
    [SetFloat] otherwise *)
Definition Param_write (ps : store) (p : Z) (v : F32.float) : store :=
  if Param_IsParam p then fst (Param_Set ps p (FP_FROMFLT v))
  else Param_SetFloat ps p v.

(** the frames of the send sweep, one for each visited message *)
Definition send_frames (ps : store) (es : list CANIDMAP)
    (chains : list (list (nat * CANPOS))) : list Frame :=
  zip_with (frame_of scale_gain_offset ps) es chains.

(** the hardware, the node id, the flag and the store are the same *)
Definition keeps_rest (st st' : CanMap store) : Prop :=
  canHardware st' = canHardware st /\ nodeId st' = nodeId st /\
  isSaving st' = isSaving st /\ params st' = params st.

(** the entry [Add] links the new binding to: the one that holds the
    identifier, or else the first free one, with the identifier written *)
Definition Add_entry (d : MapSel) (st : CanMap store) (id : Z) (i : nat)
    (st1 : CanMap store) : Prop :=
  (FindById (selMap d st) id = Some (Some i) /\ st1 = st) \/
  (FindById (selMap d st) id = Some None /\ findFreeEntry (selMap d st) = Some i /\
   st1 = setMap d (alter (set_canId (stored_canId id)) i (selMap d st)) st).

(** the state once [item] sits in the free slot and is linked after
    [precedingItem], or at the head of entry [i] *)
Definition Add_linked (d : MapSel) (st1 : CanMap store) (i : nat) (item : CANPOS)
    (precedingItem : option nat) : CanMap store :=
  let freeIndex := findFreeIndex (canPosMap st1) in
  let st2 := setPos (<[freeIndex := item]> (canPosMap st1)) st1 in
  match precedingItem with
  | None => setMap d (alter (set_first freeIndex) i (selMap d st2)) st2
  | Some j => setPos (alter (set_next freeIndex) j (canPosMap st2)) st2
  end.

(** an operation on the state of a pair of a state and a result *)
Definition on_state {A : Type} (f : CanMap store -> CanMap store)
    (x : CanMap store * A) : CanMap store * A :=
  (f (fst x), snd x).

(** [st'] is [st] to everything that reads the map: the pool, the links of
    both tables and every entry in use are the same, and so are the lookups,
    the iterations, the send sweep and the handling of mapped frames *)
Definition unchanged_for_readers (st st' : CanMap store) : Prop :=
  keeps_rest st st' /\
  canPosMap st' = canPosMap st /\
  (forall d j, first <$> selMap d st' !! j = first <$> selMap d st !! j) /\
  (forall d j e, selMap d st !! j = Some e -> first e <> MAX_ITEMS ->
                 selMap d st' !! j = Some e) /\
  (forall d id, FindById (selMap d st') id = FindById (selMap d st) id) /\
  (forall p, FindMap st' p = FindMap st p) /\
  IterateCanMap st' = IterateCanMap st /\
  canHardware <$> SendAll st' = canHardware <$> SendAll st /\
  (forall id data, id <> Word.u32 (0x600 + nodeId st) ->
     (fun r => (params r.1, r.2)) <$> HandleRx st' id data
     = (fun r => (params r.1, r.2)) <$> HandleRx st id data).

(** In the words of the specification: iteration skips empty entries and
    visits every populated one.  Then the binding at the head of the chain
    of any populated entry of table [d] is one that [FindMap] comes to, so
    its parameter is found. *)
Definition visits_every_populated_entry (d : MapSel) (st : CanMap store) : Prop :=
  forall j e c,
    (j < MAX_MESSAGES)%nat -> selMap d st !! j = Some e -> first e <> MAX_ITEMS ->
    canPosMap st !! first e = Some c -> next c <> ITEM_UNSET ->
    exists info, FindMap st (mapParam c) = Some (Some info).

(** The invariant of the tables: the limit of the pool is below the free
    marker, the arrays have their declared sizes, every chain leads to the
    end marker, and the slot at [MAX_ITEMS] still has the link
    [ITEM_UNSET] that [ClearMap] gave it. *)
Definition well_formed (st : CanMap store) : Prop :=
  (MAX_ITEMS < ITEM_UNSET)%nat /\ shape_ok st /\ chains_end st /\
  at_unset (canPosMap st) MAX_ITEMS.

(** the body of the inner loop of [RemoveFromMap] for entry [i], at the
    binding [curPos], with [lastPosMap] as the loop left it *)
Definition unlink_step (d : MapSel) (param : Z) (i : nat) (curPos : CANPOS)
    (st1 : CanMap store) (lastPosMap : option nat) : CanMap store :=
  if mapParam curPos =? param then
    match lastPosMap with
    | Some l => setPos (alter (set_next (next curPos)) l (canPosMap st1)) st1
    | None => setMap d (alter (set_first (next curPos)) i (selMap d st1)) st1
    end
  else st1.

(** The states the object goes through: the cleared tables, and from
    there whatever the public operations, the flag of [Save] and writes to
    the parameter store make of them.  A load from flash is left out: it
    takes over whatever image has a matching checksum. *)
Inductive reachable : CanMap store -> Prop :=
| reach_Clear raw :
    shape_ok raw -> reachable (ClearMap RecvMap (ClearMap SendMap raw))
| reach_AddSend st param id ofs len g off st' r :
    reachable st -> AddSend st param id ofs len g off = Some (st', r) -> reachable st'
| reach_AddRecv st param id ofs len g off st' r :
    reachable st -> AddRecv st param id ofs len g off = Some (st', r) -> reachable st'
| reach_Remove st param st' r :
    reachable st -> Remove st param = Some (st', r) -> reachable st'
| reach_HandleRx st id data st' b :
    reachable st -> HandleRx st id data = Some (st', b) -> reachable st'
| reach_SendAll st st' :
    reachable st -> SendAll st = Some st' -> reachable st'
| reach_isSaving st b :
    reachable st -> reachable (setSaving b st)
| reach_params st ps :
    reachable st -> reachable (setParams ps st).

(** an empty table: every head link at [MAX_ITEMS], every slot free *)
Definition empty_table (st : CanMap store) : Prop :=
  (forall d j e, selMap d st !! j = Some e -> first e = MAX_ITEMS) /\
  (forall j c, canPosMap st !! j = Some c -> next c = ITEM_UNSET).

End Vocabulary.


(** ** Vocabulary of the further properties *)

Section Readers.
Context {cfg : BuildConfig} {store : Type} {PS : ParamStore store}.

(** the identifiers in use: [userIds[0 .. nextUserMessageIndex)] *)
Definition registered (hw : CanHardware) : list Z :=
  take (nextUserMessageIndex hw) (userIds hw).

(** [RegisterUserMessage] for one identifier after the other *)
Definition Register_all (hw : CanHardware) (ids : list Z) : CanHardware :=
  foldl (fun h id => (RegisterUserMessage h id).1) hw ids.

(** what every operation keeps of the list of user messages: the array has
    its declared size, the count is within it, no identifier is in use
    twice *)
Definition userIds_ok (hw : CanHardware) : Prop :=
  length (userIds hw) = MAX_USER_MESSAGES /\
  (nextUserMessageIndex hw <= MAX_USER_MESSAGES)%nat /\
  NoDup (registered hw).

(** the parameter of one call of the callback of [IterateCanMap] *)
Definition item_param (it : MapItem) : Z := it.1.1.1.1.1.

(** the output parameters [FindMap] would fill from the same binding *)
Definition item_info (it : MapItem) : MapInfo :=
  {| mi_canId := it.1.1.1.1.2; mi_offset := it.1.1.1.2; mi_length := it.1.1.2;
     mi_gain := it.1.2; mi_rx := it.2 |}.

(** the calls of the callback for one chain of the message [e] *)
Definition items_of (rx : bool) (e : CANIDMAP) (l : list (nat * CANPOS)) : list MapItem :=
  (fun ic => (mapParam ic.2, canId e, offsetBits ic.2, numBits ic.2, gain ic.2, rx)) <$> l.

(** the bits of a received frame that a binding maps, as [HandleRx] cuts
    them out: the high word for offsets of 32 and more *)
Definition rx_field (c : CANPOS) (data : Z * Z) : Z :=
  if offsetBits c >? 31 then
    Z.land (Word.shr (snd data) (offsetBits c - 32)) (Word.mask (numBits c))
  else
    Z.land (Word.shr (fst data) (offsetBits c)) (Word.mask (numBits c)).

(** the value [HandleRx] writes for a binding: offset, then gain *)
Definition rx_value (c : CANPOS) (data : Z * Z) : F32.float :=
  F32.mul (F32.add (F32.of_Z (rx_field c data)) (F32.of_Z (offset c))) (gain c).

(** The slots [forEachPosMap] passes from slot [i] on, with what they hold,
    read off the pool: the walk ends at a slot whose link is
    [ITEM_UNSET]. *)
Fixpoint walk (p : list CANPOS) (fuel i : nat) : list (nat * CANPOS) :=
  match fuel with
  | O => []
  | S fuel' =>
      match p !! i with
      | None => []
      | Some c =>
          if (next c =? ITEM_UNSET)%nat then [] else (i, c) :: walk p fuel' (next c)
      end
  end.

(** the bindings of the message [e], in the order of its chain *)
Definition bindings (st : CanMap store) (e : CANIDMAP) : list (nat * CANPOS) :=
  walk (canPosMap st) chain_fuel (first e).

(** the calls of the callback for the visited messages of one table *)
Definition items_of_table (d : MapSel) (st : CanMap store) : list MapItem :=
  concat ((fun e => items_of (match d with SendMap => false | RecvMap => true end)
                             e (bindings st e)) <$> visible (selMap d st)).

(** the frames of the send sweep *)
Definition frames_of (st : CanMap store) : list Frame :=
  (fun e => frame_of scale_gain_offset (params st) e (bindings st e))
    <$> visible (canSendMap st).

(** the store after the writes of the receive path for the message [e] *)
Definition received (st : CanMap store) (e : CANIDMAP) (data : Z * Z) : store :=
  foldl (fun ps ic => Param_write ps (mapParam ic.2) (rx_value ic.2 data))
        (params st) (bindings st e).

(** the hardware with [frames] given to [Send], one after the other *)
Definition Send_all (hw : CanHardware) (frames : list Frame) : CanHardware :=
  foldl (fun h f => Send h f.1 f.2) hw frames.

End Readers.

(** ** canmap.cpp: SDOWrite *)

Section Requests.
Context {cfg : BuildConfig} {store : Type} {PS : ParamStore store}.

(** The request is laid out through the [CAN_SDO] overlay, which fills all
    eight bytes of [d]: the command in byte 0, the index in bytes 1 and 2,
    the sub-index in byte 3, the data in the second word.  The arguments
    are cut to the widths of their types ([uint8_t], [uint16_t],
    [uint8_t], [uint32_t]). *)
Definition SDOWrite (st : CanMap store) (remoteNodeId index subIndex data : Z)
    : CanMap store :=
  let d0 := Z.lor (Z.lor SDO_WRITE (Z.shiftl (Z.land index 0xFFFF) 8))
                  (Z.shiftl (Z.land subIndex 0xFF) 24) in
  let d := (d0, Word.u32 data) in
  setHw (Send (canHardware st) (0x600 + Z.land remoteNodeId 0xFF) d) st.

End Requests.

(** ** canhardware.cpp: the receive callbacks *)

(** [MAX_RECV_CALLBACKS] is defined in canhardware.h. *)
Class DispatchConfig := {
  MAX_RECV_CALLBACKS : nat
}.

(** A pointer to a [CanCallback].  The two files have two implementations
    of the interface, [NullCallback] and [CanMap]; a pointer to a map is
    the index of the map among the objects. *)
Inductive CanCallback :=
| nullCallback
| mapCallback (k : nat).

(** The hardware with its table of callbacks, and the maps the table may
    point to.  The field [canHardware] of a map among the objects stands
    for the pointer, which no method assigns; the hardware its methods act
    on is [hardware]. *)
Record Bus (store : Type) := {
  hardware : CanHardware;
  recvCallback : list CanCallback;
  nextCallbackIndex : nat;
  objects : list (CanMap store)
}.

Arguments hardware {store} _.
Arguments recvCallback {store} _.
Arguments nextCallbackIndex {store} _.
Arguments objects {store} _.

Module Hw.

Section Dispatch.
Context {cfg : BuildConfig} {dcfg : DispatchConfig} {store : Type} {PS : ParamStore store}.

Definition set_hardware (h : CanHardware) (b : Bus store) : Bus store :=
  {| hardware := h; recvCallback := recvCallback b;
     nextCallbackIndex := nextCallbackIndex b; objects := objects b |}.

Definition set_object (k : nat) (o : CanMap store) (b : Bus store) : Bus store :=
  {| hardware := hardware b; recvCallback := recvCallback b;
     nextCallbackIndex := nextCallbackIndex b; objects := <[k := o]> (objects b) |}.

(** [CanHardware::CanHardware()], run on the storage [raw]: no user
    message, no callback, every pointer of the table at the null callback.
    [userIds] is not initialised. *)
Definition new (raw : CanHardware) (objs : list (CanMap store)) : Bus store :=
  {| hardware := {| userIds := userIds raw; nextUserMessageIndex := 0;
                    filterConfigs := filterConfigs raw; sent := sent raw |};
     recvCallback := replicate MAX_RECV_CALLBACKS nullCallback;
     nextCallbackIndex := 0;
     objects := objs |}.

Definition AddReceiveCallback (recv : CanCallback) (b : Bus store) : Bus store * bool :=
  if (nextCallbackIndex b <? MAX_RECV_CALLBACKS)%nat then
    ({| hardware := hardware b;
        recvCallback := <[nextCallbackIndex b := recv]> (recvCallback b);
        nextCallbackIndex := S (nextCallbackIndex b);
        objects := objects b |}, true)
  else (b, false).

(** [recvCallback[i]->HandleRx(canId, data)]: [NullCallback::HandleRx]
    returns [false]; for a map it is [CanMap::HandleRx], run on the
    hardware. *)
Definition call_HandleRx (cb : CanCallback) (b : Bus store) (id : Z) (data : Z * Z)
    : option (Bus store * bool) :=
  match cb with
  | nullCallback => Some (b, false)
  | mapCallback k =>
      o ← objects b !! k;
      '(o1, r) ← HandleRx (setHw (hardware b) o) id data;
      Some (set_object k (setHw (canHardware o) o1) (set_hardware (canHardware o1) b), r)
  end.

(** [recvCallback[i]->HandleClear()] *)
Definition call_HandleClear (cb : CanCallback) (b : Bus store) : option (Bus store) :=
  match cb with
  | nullCallback => Some b
  | mapCallback k =>
      o ← objects b !! k;
      o1 ← HandleClear (setHw (hardware b) o);
      Some (set_object k (setHw (canHardware o) o1) (set_hardware (canHardware o1) b))
  end.

(** [for (int i = 0; i < nextCallbackIndex; i++) if
    (recvCallback[i]->HandleRx(canId, data)) break;] with [n] callbacks
    left.  No callback of the two files registers a callback, so the bound
    is the one at entry. *)
Fixpoint HandleRx_loop (n i : nat) (b : Bus store) (id : Z) (data : Z * Z)
    : option (Bus store) :=
  match n with
  | O => Some b
  | S n' =>
      cb ← recvCallback b !! i;
      r ← call_HandleRx cb b id data;
      if r.2 : bool then Some r.1 else HandleRx_loop n' (S i) r.1 id data
  end.

Definition HandleRx (b : Bus store) (id : Z) (data : Z * Z) : option (Bus store) :=
  HandleRx_loop (nextCallbackIndex b) 0 b id data.

Fixpoint HandleClear_loop (n i : nat) (b : Bus store) : option (Bus store) :=
  match n with
  | O => Some b
  | S n' =>
      cb ← recvCallback b !! i;
      b1 ← call_HandleClear cb b;
      HandleClear_loop n' (S i) b1
  end.

Definition ClearUserMessages (b : Bus store) : option (Bus store) :=
  let h := {| userIds := userIds (hardware b); nextUserMessageIndex := 0;
              filterConfigs := S (filterConfigs (hardware b));
              sent := sent (hardware b) |} in
  HandleClear_loop (nextCallbackIndex b) 0 (set_hardware h b).

End Dispatch.

End Hw.

(** ** canmap.cpp: Clear and the constructor, on the hardware *)

Section OnTheBus.
Context {cfg : BuildConfig} {dcfg : DispatchConfig} {store : Type} {PS : ParamStore store}.

(** [CanMap::Clear] of the map at [k]: both tables, then the user messages
    of the hardware, which calls every registered callback back. *)
Definition Clear (k : nat) (b : Bus store) : option (Bus store) :=
  o ← objects b !! k;
  Hw.ClearUserMessages (Hw.set_object k (ClearMap RecvMap (ClearMap SendMap o)) b).

(** [CanMap::CanMap(hw)] for a new object with the storage [raw], placed
    after the objects there are: the registration as a callback, whose
    result the constructor does not look at, then the rest of the
    constructor, [CanMap_new]. *)
Definition CanMap_CanMap {FI : FlashImage} (raw : CanMap store) (flash : nat -> Z)
    (b : Bus store) : option (Bus store) :=
  let k := length (objects b) in
  let b1 := (Hw.AddReceiveCallback (mapCallback k) b).1 in
  o ← CanMap_new (setHw (hardware b1) raw) flash;
  Some {| hardware := canHardware o; recvCallback := recvCallback b1;
          nextCallbackIndex := nextCallbackIndex b1;
          objects := objects b1 ++ [setHw (canHardware raw) o] |}.

(** the identifiers the callback [cb] registers in [HandleClear] *)
Definition callback_ids (b : Bus store) (cb : CanCallback) : list Z :=
  match cb with
  | nullCallback => []
  | mapCallback k =>
      match objects b !! k with
      | Some o => canId <$> visible (canRecvMap o)
      | None => []
      end
  end.

(** a pointer of the table that can be called: the null callback, or a map
    that is there, with a receive table of the declared size *)
Definition callback_ok (b : Bus store) (cb : CanCallback) : Prop :=
  match cb with
  | nullCallback => True
  | mapCallback k =>
      exists o, objects b !! k = Some o /\ (MAX_MESSAGES <= length (canRecvMap o))%nat
  end.

(** the callbacks in use: [recvCallback[0 .. nextCallbackIndex)] *)
Definition callbacks (b : Bus store) : list CanCallback :=
  take (nextCallbackIndex b) (recvCallback b).

End OnTheBus.

(** ** Vocabulary of the chains *)

Section Chains.
Context {cfg : BuildConfig} {store : Type} {PS : ParamStore store}.

(** no pool slot lies on the chains of two entries *)
Definition separate (st : CanMap store) : Prop :=
  forall d j e d' j' e',
    selMap d st !! j = Some e -> selMap d' st !! j' = Some e' ->
    (d, j) <> (d', j') ->
    forall k, k ∈ (bindings st e).*1 -> k ∉ (bindings st e').*1.

(** the invariant of the tables, and no slot shared between chains *)
Definition sound (st : CanMap store) : Prop := well_formed st /\ separate st.

(** What the inner loop of [RemoveFromMap] leaves of a chain, read off the
    loop: a binding of the parameter is unlinked when the binding before
    it has stayed on the chain ([linked]); the binding after an unlinked
    one stays, whatever its parameter. *)
Fixpoint survivors (param : Z) (linked : bool) (l : list (nat * CANPOS))
    : list (nat * CANPOS) :=
  match l with
  | [] => []
  | ic :: r =>
      if (mapParam ic.2 =? param) && linked then survivors param false r
      else ic :: survivors param true r
  end.

(** the turns of the inner loop of [RemoveFromMap] for entry [i], along
    the bindings [l] *)
Fixpoint unlink_chain (d : MapSel) (param : Z) (i : nat) (l : list (nat * CANPOS))
    (st : CanMap store) (lastPosMap : option nat) : CanMap store :=
  match l with
  | [] => st
  | (c, curPos) :: r =>
      unlink_chain d param i r (unlink_step d param i curPos st lastPosMap) (Some c)
  end.

(** the turns of the outer loop of [RemoveFromMap], from entry [c] on, [n]
    entries left *)
Fixpoint unlink_table (d : MapSel) (param : Z) (n c : nat) (st : CanMap store)
    : CanMap store :=
  match n with
  | O => st
  | S n' =>
      match selMap d st !! c with
      | None => st
      | Some e =>
          if (first e =? MAX_ITEMS)%nat then st
          else unlink_table d param n' (S c)
                 (unlink_chain d param c (bindings st e) st None)
      end
  end.

(** two contents of a slot with the same binding and the same use: free in
    both or in neither *)
Definition same_binding (c0 c1 : CANPOS) : Prop :=
  mapParam c1 = mapParam c0 /\ gain c1 = gain c0 /\ offset c1 = offset c0 /\
  offsetBits c1 = offsetBits c0 /\ numBits c1 = numBits c0 /\
  (next c1 = ITEM_UNSET <-> next c0 = ITEM_UNSET).

(** two pools that differ in links of slots in use at most *)
Definition same_use (p p' : list CANPOS) : Prop :=
  length p' = length p /\
  forall k c1, p' !! k = Some c1 -> exists c0, p !! k = Some c0 /\ same_binding c0 c1.

(** no two bindings of the parameter stand next to each other in the
    chain *)
Fixpoint no_adjacent (param : Z) (l : list (nat * CANPOS)) : Prop :=
  match l with
  | [] => True
  | ic :: r =>
      match r with
      | [] => True
      | ic' :: _ => ~ (mapParam ic.2 = param /\ mapParam ic'.2 = param)
      end /\ no_adjacent param r
  end.

(** the lists up to the first empty one *)
Fixpoint until_empty {A : Type} (l : list (list A)) : list (list A) :=
  match l with
  | [] => []
  | [] :: _ => []
  | x :: r => x :: until_empty r
  end.

(** the calls of the callback of [IterateCanMap] for one table once
    [RemoveFromMap] has run on it: the visited messages up to the first
    one that has lost all its bindings, each with what is left of its
    chain *)
Definition items_left (d : MapSel) (param : Z) (st : CanMap store) : list MapItem :=
  concat (until_empty
            ((fun e => items_of (match d with SendMap => false | RecvMap => true end)
                                e (survivors param true (bindings st e)))
               <$> visible (selMap d st))).

End Chains.

(** ** Saving to flash

    The flash controller and the CRC unit are peripherals, and the words
    a table occupies in memory depend on the declaration of the
    structures: they are an interface.  The page at [GetFlashAddress()]
    is read as a function from the word offset, as in [LoadFromFlash];
    [CRC_WORD] is the word offset of [CRC_ADDRESS], the size of the three
    arrays in words.  The lock and the wait states of the controller are
    left out. *)

Class FlashDevice := {
  FLASH_PAGE_WORDS : nat;
  CRC_WORD : nat;
  crc_reset_value : Z;
  crc_calculate : Z -> Z -> Z;
  flash_erase_page : (nat -> Z) -> nat -> Z;
  flash_program_word : (nat -> Z) -> nat -> Z -> nat -> Z;
  encode_idmap : list CANIDMAP -> list Z;
  encode_posmap : list CANPOS -> list Z
}.

(** the page and the data register of the CRC unit *)
Record Flash := {
  page : nat -> Z;
  crc_dr : Z
}.

Section Saving.
Context {cfg : BuildConfig} {store : Type} {PS : ParamStore store} {FD : FlashDevice}.

(** *** ReplaceParamEnumByUid *)

Definition ReplaceParamEnumByUid (d : MapSel) (st : CanMap store) : option (CanMap store) :=
  match forEachCanMap (R := unit) (fun s : CanMap store => selMap d s)
          (fun _ curMap s =>
             forEachPosMap (fun s : CanMap store => canPosMap s)
               (fun c curPos s =>
                  let id := Z.land (Param_attr_id (mapParam curPos)) 0xFFFF in
                  Some (Next (setPos (alter (set_mapParam id) c (canPosMap s)) s)))
               curMap s)
          st with
  | Some (Next s) => Some s
  | Some (Return _) => None
  | None => None
  end.

(** *** SaveToFlash *)

(** [data] holds the [len] words read through the pointer; the word
    returned is the last result of [crc_calculate], 0 without a turn. *)
Fixpoint SaveToFlash_loop (fl : Flash) (baseAddress idx : nat) (data : list Z) (crc : Z)
    : Flash * Z :=
  match data with
  | [] => (fl, crc)
  | w :: data' =>
      let crc' := crc_calculate (crc_dr fl) w in
      let fl' := {| page := flash_program_word (page fl) (baseAddress + idx) w;
                    crc_dr := crc' |} in
      SaveToFlash_loop fl' baseAddress (S idx) data' crc'
  end.

Definition SaveToFlash (fl : Flash) (baseAddress : nat) (data : list Z) : Flash * Z :=
  SaveToFlash_loop fl baseAddress 0 data 0.

(** *** Save *)

Definition Save (fl : Flash) (st : CanMap store) : option (Flash * CanMap store) :=
  let check := foldl Z.land 0xFFFFFFFF (flash_words (page fl) 0 FLASH_PAGE_WORDS) in
  let st := setSaving true st in
  let fl := {| page := page fl; crc_dr := crc_reset_value |} in
  let fl := if check =? 0xFFFFFFFF then fl
            else {| page := flash_erase_page (page fl); crc_dr := crc_dr fl |} in
  st ← ReplaceParamEnumByUid SendMap st;
  st ← ReplaceParamEnumByUid RecvMap st;
  let fl := (SaveToFlash fl 0 (take SENDMAP_WORDS (encode_idmap (canSendMap st)))).1 in
  let fl := (SaveToFlash fl SENDMAP_WORDS
               (take RECVMAP_WORDS (encode_idmap (canRecvMap st)))).1 in
  let '(fl, crc) := SaveToFlash fl (SENDMAP_WORDS + RECVMAP_WORDS)
                      (take POSMAP_WORDS (encode_posmap (canPosMap st))) in
  let fl := (SaveToFlash fl CRC_WORD [crc]).1 in
  st ← ReplaceParamUidByEnum SendMap st;
  st ← ReplaceParamUidByEnum RecvMap st;
  Some (fl, setSaving false st).

(** the pool once the parameter of every slot of [ks] has gone through
    [r], slot by slot *)
Definition relabel (r : Z -> Z) (ks : list nat) (p : list CANPOS) : list CANPOS :=
  foldl (fun p k => alter (fun c => set_mapParam (r (mapParam c)) c) k p) p ks.

(** the slots of the bindings the iteration of a table visits, in order *)
Definition table_nodes (d : MapSel) (st : CanMap store) : list nat :=
  concat ((fun e => (bindings st e).*1) <$> visible (selMap d st)).

(** a unique identifier and back, as [Save] goes *)
Definition uid_and_back (param : Z) : Z :=
  Param_NumFromId (Z.land (Param_attr_id param) 0xFFFF).

(** the pool as [Save] programs it: the parameter of every visited binding
    replaced by the low 16 bits of its unique identifier *)
Definition saved_pool (st : CanMap store) : list CANPOS :=
  relabel (fun param => Z.land (Param_attr_id param) 0xFFFF)
          (table_nodes SendMap st ++ table_nodes RecvMap st) (canPosMap st).

(** the words [Save] reads through the three pointers *)
Definition image_send (st : CanMap store) : list Z :=
  take SENDMAP_WORDS (encode_idmap (canSendMap st)).
Definition image_recv (st : CanMap store) : list Z :=
  take RECVMAP_WORDS (encode_idmap (canRecvMap st)).
Definition image_pos (st : CanMap store) : list Z :=
  take POSMAP_WORDS (encode_posmap (saved_pool st)).

(** a call of the callback of [IterateCanMap] with another parameter *)
Definition item_relabel (r : Z -> Z) (it : MapItem) : MapItem :=
  let '(param, id, ofs, len, g, rx) := it in (r param, id, ofs, len, g, rx).

End Saving.
(** ** A concrete build and store, for the examples *)

Module Demo.

(** the limits named in the comments of the two files: ten messages per
    direction, ten user messages *)
#[export] Instance build : BuildConfig :=
  {| MAX_ITEMS := 70; MAX_MESSAGES := 10; MAX_USER_MESSAGES := 10; CAN_EXT := true |}.

(** Modelled from the spec: the Parameter Store, "keyed value store addressed
    by a dense parameter enumeration; supports get/set in both fixed-point
    and floating representations and exposes a translation between the
    enumeration and a stable persistent identifier"; a write is "validated
    by the Parameter Store".  Values are held as floats, fixed point has
    five fractional bits, writes through [Set] are accepted between -32768
    and 32767, the first 100 indices are parameters and the persistent
    identifier of index [p] is [p + 1000]. *)
Definition store : Type := Z -> F32.float.

Definition fp_to_float (v : Z) : F32.float :=
  SFdiv F32.prec F32.emax (F32.of_Z v) (F32.of_Z 32).

#[export] Instance param_store : ParamStore store :=
  {| PARAM_LAST := 120;
     Param_IsParam := fun p => p <? 100;
     Param_Set := fun s p v =>
       if (- 32768 * 32 <=? v) && (v <=? 32767 * 32)
       then (fun q => if q =? p then fp_to_float v else s q, 0)
       else (s, -1);
     Param_SetFloat := fun s p f => fun q => if q =? p then f else s q;
     Param_Get := fun s p => F32.to_int (F32.mul (s p) (F32.of_Z 32));
     Param_GetFloat := fun s p => s p;
     Param_NumFromId := fun i => i - 1000;
     Param_attr_id := fun p => p + 1000;
     FP_FROMFLT := fun f => F32.to_int (F32.mul f (F32.of_Z 32)) |}.

Definition blank_hw : CanHardware :=
  {| userIds := replicate 10 0; nextUserMessageIndex := 0;
     filterConfigs := 0; sent := [] |}.

(** the storage of a fresh object: all bytes zero *)
Definition raw : CanMap store :=
  {| canSendMap := replicate 10 {| canId := 0; first := 0 |};
     canRecvMap := replicate 10 {| canId := 0; first := 0 |};
     canPosMap := replicate 71 {| mapParam := 0; gain := S754_zero false; offset := 0;
                                  offsetBits := 0; numBits := 0; next := 0 |};
     nodeId := 1; isSaving := false; canHardware := blank_hw;
     params := fun _ => S754_zero false |}.

(** the table after [Clear] *)
Definition empty : CanMap store := ClearMap RecvMap (ClearMap SendMap raw).

Definition one : F32.float := F32.of_Z 1.
Definition two : F32.float := F32.of_Z 2.

(** the state an operation leaves, [raw] when it does not return *)
Definition state_of {A : Type} (r : option (CanMap store * A)) : CanMap store :=
  match r with Some (s, _) => s | None => raw end.

(** one send binding: parameter 5 in bits 0..7 of message 0x100 *)
Definition one_binding : CanMap store :=
  Eval vm_compute in state_of (AddSend empty 5 0x100 0 8 one 0).

(** a second binding of parameter 5 in the same message, bits 8..15 *)
Definition twice_bound : CanMap store :=
  Eval vm_compute in state_of (AddSend one_binding 5 0x100 8 8 one 0).

(** [one_binding] after [Remove] of parameter 5 *)
Definition unbound : CanMap store :=
  Eval vm_compute in state_of (Remove one_binding 5).

(** [twice_bound] after [Remove] of parameter 5 *)
Definition half_unbound : CanMap store :=
  Eval vm_compute in state_of (Remove twice_bound 5).

(** two send messages: parameter 5 on 0x100, parameter 6 on 0x200 *)
Definition two_messages : CanMap store :=
  Eval vm_compute in state_of (AddSend one_binding 6 0x200 0 8 one 0).

(** ... after [Remove] of parameter 5: the first entry is empty, the second
    still holds the binding of parameter 6 *)
Definition send_gap : CanMap store :=
  Eval vm_compute in state_of (Remove two_messages 5).

(** the same on the receive side *)
Definition recv_gap : CanMap store :=
  Eval vm_compute in
    state_of (Remove (state_of (AddRecv (state_of (AddRecv empty 5 0x100 0 8 one 0))
                                        6 0x200 0 8 one 0)) 5).

(** one send binding with gain 2 and offset 1, the parameter holding 1.0 *)
Definition scaled_binding : CanMap store :=
  Eval vm_compute in
    setParams (fun _ => one) (state_of (AddSend empty 5 0x100 0 8 two 1)).

(** the SDO request "map parameter 5 to bits 0..7 of the send message
    0x123, gain field 32": command 0x40, index 0x3123, sub-index 5 *)
Definition map_request : Z * Z := (0x05312340, 0x00200800).

(** a request with an index no range holds: 0x1000 *)
Definition bad_index_request : Z * Z := (0x00100040, 0).

(** Modelled from the spec: the "streaming checksum accumulator" of the
    flash primitives and the "raw struct-over-bytes framing" of the image.
    The checksum here is a rotating XOR; a message entry is read from two
    words (identifier, head link), a binding from three (parameter, bit
    offset, bit width and link in one word, offset, gain as an integer). *)
Definition checksum (ws : list Z) : Z :=
  foldl (fun acc w => Z.lxor (Word.u32 (acc * 33)) w) 0 ws.

Fixpoint read_idmap (ws : list Z) : list CANIDMAP :=
  match ws with
  | id :: link :: r => {| canId := id; first := Z.to_nat (Z.land link 0xFF) |} :: read_idmap r
  | _ => []
  end.

Fixpoint read_posmap (ws : list Z) : list CANPOS :=
  match ws with
  | w0 :: w1 :: w2 :: r =>
      {| mapParam := Z.land w0 0xFFFF; gain := F32.of_Z w2; offset := Word.s32 w1;
         offsetBits := Z.land (Z.shiftr w0 16) 0xFF;
         numBits := Z.land (Z.shiftr w0 24) 0x3F;
         next := Z.to_nat (Z.land (Z.shiftr w0 30) 0x3) |} :: read_posmap r
  | _ => []
  end.

#[export] Instance flash_image : FlashImage :=
  {| crc_calculate_block := checksum;
     decode_idmap := read_idmap;
     decode_posmap := read_posmap |}.

(** an erased page: every word 0xFFFFFFFF *)
Definition erased : nat -> Z := fun _ => 0xFFFFFFFF.

End Demo.

(** a build with room for one binding and two messages *)
Module Tiny.

Definition build : BuildConfig :=
  {| MAX_ITEMS := 1; MAX_MESSAGES := 2; MAX_USER_MESSAGES := 2; CAN_EXT := true |}.

Definition raw : CanMap Demo.store :=
  {| canSendMap := replicate 2 {| canId := 0; first := 0 |};
     canRecvMap := replicate 2 {| canId := 0; first := 0 |};
     canPosMap := replicate 2 {| mapParam := 0; gain := S754_zero false; offset := 0;
                                 offsetBits := 0; numBits := 0; next := 0 |};
     nodeId := 1; isSaving := false;
     canHardware := {| userIds := replicate 2 0; nextUserMessageIndex := 0;
                       filterConfigs := 0; sent := [] |};
     params := fun _ => S754_zero false |}.

(** the pool used up by one binding, on message 0x100 *)
Definition full : CanMap Demo.store :=
  Eval vm_compute in
    Demo.state_of (AddSend (cfg := build)
                     (ClearMap (cfg := build) RecvMap (ClearMap (cfg := build) SendMap raw))
                     5 0x100 0 8 Demo.one 0).

End Tiny.


(** ** More tables, a dispatcher and a flash device, for the examples *)

Module Cases.
Import Demo.

(** one receive binding: parameter 7 in bits 0..7 of message 0x100 *)
Definition receiver : CanMap store :=
  Eval vm_compute in state_of (AddRecv empty 7 0x100 0 8 one 0).

(** one send binding of parameter 5 in bits 0..7 of message 0x100, gain 2
    and offset 1 *)
Definition sender_map : CanMap store :=
  Eval vm_compute in state_of (AddSend empty 5 0x100 0 8 two 1).

(** ... with every parameter at 1.0 *)
Definition sender : CanMap store := setParams (fun _ => one) sender_map.

(** parameter 5 bound three times in a row in message 0x100 *)
Definition thrice_bound : CanMap store :=
  Eval vm_compute in state_of (AddSend twice_bound 5 0x100 16 8 one 0).

(** [send_gap] once message 0x300 has taken the emptied entry *)
Definition gap_filled : CanMap store :=
  Eval vm_compute in state_of (AddSend send_gap 7 0x300 0 8 one 0).

(** a dispatcher with room for one callback *)
#[export] Instance dispatch : DispatchConfig := {| MAX_RECV_CALLBACKS := 1 |}.

(** ... whose only slot holds the map [receiver] *)
Definition full_bus : Bus store :=
  {| hardware := canHardware receiver;
     recvCallback := [mapCallback 0];
     nextCallbackIndex := 1;
     objects := [receiver] |}.

(** the bus an operation leaves, [full_bus] when it does not return *)
Definition bus_of (r : option (Bus store)) : Bus store :=
  match r with Some b => b | None => full_bus end.

(** ... after the frame 0x100 with the low word 0xAB *)
Definition bus_after_frame : Bus store :=
  Eval vm_compute in bus_of (Hw.HandleRx full_bus 0x100 (0xAB, 0)).

(** ... after the construction of a second map on it *)
Definition bus_two_maps : Bus store :=
  Eval vm_compute in bus_of (CanMap_CanMap raw erased full_bus).

(** the image of an empty table in the framing of [Demo.flash_image]:
    twenty message entries with the identifier 0 and the head link 70, a
    pool of zeros, and at word 253 the checksum of the 250 words before
    the end marker *)
Definition empty_table_words : nat -> Z :=
  fun k => if (k <? 40)%nat then (if Nat.even k then 0 else 70) else 0.

Definition empty_image : nat -> Z :=
  fun k => if (k =? 253)%nat then checksum (empty_table_words <$> seq 0 250)
           else empty_table_words k.

(** The writing side of the framing of [Demo.flash_image]: a message entry
    in two words, a binding in three; a page of 256 words, the checksum
    word behind the 71 slots of the pool; the rotating XOR of
    [Demo.checksum] as the CRC unit. *)
Definition write_idmap (t : list CANIDMAP) : list Z :=
  flat_map (fun e => [canId e; Z.of_nat (first e)]) t.

Definition write_posmap (p : list CANPOS) : list Z :=
  flat_map (fun c => [Z.lor (Z.land (mapParam c) 0xFFFF)
                        (Z.lor (Z.shiftl (Z.land (offsetBits c) 0xFF) 16)
                               (Z.shiftl (Z.land (numBits c) 0x3F) 24));
                      Word.u32 (offset c);
                      Z.of_nat (next c)]) p.

#[export] Instance flash_device : FlashDevice :=
  {| FLASH_PAGE_WORDS := 256;
     CRC_WORD := 253;
     crc_reset_value := 0xFFFFFFFF;
     crc_calculate := fun acc w => Z.lxor (Word.u32 (acc * 33)) w;
     flash_erase_page := fun _ _ => 0xFFFFFFFF;
     flash_program_word := fun f a w k => if (k =? a)%nat then w else f k;
     encode_idmap := write_idmap;
     encode_posmap := write_posmap |}.

(** an erased page and the CRC unit at rest *)
Definition erased_flash : Flash := {| page := erased; crc_dr := 0 |}.

End Cases.

(** * Properties *)

Section Loops.
Context {cfg : BuildConfig}.

Lemma forEachCanMap_loop_gap {St R : Type} (t t' : list CANIDMAP)
    (body : nat -> CANIDMAP -> St -> option (Flow St R)) (k : nat) :
  same_before_gap k t t' ->
  forall n c s, (c <= k)%nat ->
    forEachCanMap_loop (fun _ => t') body n c s = forEachCanMap_loop (fun _ => t) body n c s.
Proof.
  intros [[e [He Hf]] [[e' [He' Hf']] Hlt]].
  induction n as [|n IH]; intros c s Hc; simpl; [reflexivity|].
  destruct (decide (c = k)) as [->|Hne].
  - rewrite He, He', Hf, Hf', Nat.eqb_refl. reflexivity.
  - rewrite Hlt by lia.
    destruct (t !! c) as [x|]; [|reflexivity].
    destruct (first x =? MAX_ITEMS)%nat; [reflexivity|].
    destruct (body c x s) as [[s'|r]|]; try reflexivity.
    apply IH. lia.
Qed.

Lemma path_det (p : list CANPOS) (stop : nat -> Prop) i l1 :
  path p stop i l1 -> forall l2, path p stop i l2 -> l1 = l2.
Proof.
  induction 1 as [i Hs|i c l Hs Hc Hp IH]; intros l2 H2; inversion H2; subst;
    try tauto; try reflexivity.
  assert (c0 = c) by congruence. subst. f_equal. apply IH. assumption.
Qed.

Lemma path_from_member (p : list CANPOS) (stop : nat -> Prop) i l :
  path p stop i l -> forall j, j ∈ l.*1 ->
  exists l', path p stop j l' /\ (length l' <= length l)%nat /\
             (j <> i -> (length l' < length l)%nat).
Proof.
  induction 1 as [i Hs|i c l Hs Hc Hp IH]; intros j Hj; simpl in Hj.
  - inversion Hj.
  - destruct (decide (j = i)) as [->|Hne].
    + exists ((i, c) :: l). split; [by constructor|]. split; [lia|tauto].
    + apply elem_of_cons in Hj as [Hj|Hj]; [tauto|].
      destruct (IH j Hj) as [l' [Hl' [Hlen _]]].
      exists l'. simpl. split; [assumption|]. split; lia.
Qed.

Lemma path_NoDup (p : list CANPOS) (stop : nat -> Prop) i l :
  path p stop i l -> NoDup l.*1.
Proof.
  induction 1 as [i Hs|i c l Hs Hc Hp IH]; simpl; [constructor|].
  constructor; [|assumption].
  intros Hin.
  destruct (path_from_member _ _ _ _ Hp i Hin) as [l' [Hl' [Hlen _]]].
  assert (l' = (i, c) :: l) by (eapply path_det; [eassumption|by constructor]).
  subst. simpl in Hlen. lia.
Qed.

Lemma path_bounded (p : list CANPOS) (stop : nat -> Prop) i l :
  path p stop i l -> Forall (fun j => (j < length p)%nat) l.*1.
Proof.
  induction 1 as [i Hs|i c l Hs Hc Hp IH]; simpl; constructor; [|assumption].
  eapply lookup_lt_Some; eassumption.
Qed.

Lemma path_length (p : list CANPOS) (stop : nat -> Prop) i l :
  path p stop i l -> (length l <= length p)%nat.
Proof.
  intros Hp.
  pose proof (path_NoDup _ _ _ _ Hp) as Hnd.
  pose proof (path_bounded _ _ _ _ Hp) as Hb.
  rewrite <- (length_fmap fst l), <- (List.length_seq (length p) 0).
  apply NoDup_ListNoDup in Hnd.
  apply (List.NoDup_incl_length Hnd).
  intros j Hj. apply in_seq.
  rewrite Forall_forall in Hb. apply list_elem_of_In in Hj.
  specialize (Hb j Hj). lia.
Qed.

(** a walk to the end marker never passes the slot [MAX_ITEMS] *)
Lemma path_at_end_length (p : list CANPOS) i l :
  length p = S MAX_ITEMS -> path p at_end i l -> (length l <= MAX_ITEMS)%nat.
Proof.
  intros Hlen Hp.
  pose proof (path_NoDup _ _ _ _ Hp) as Hnd.
  pose proof (path_bounded _ _ _ _ Hp) as Hb.
  assert (Hne : Forall (fun j => j <> MAX_ITEMS) l.*1).
  { clear Hnd Hb. induction Hp; simpl; constructor; assumption. }
  rewrite <- (length_fmap fst l), <- (List.length_seq MAX_ITEMS 0).
  apply NoDup_ListNoDup in Hnd.
  apply (List.NoDup_incl_length Hnd).
  intros j Hj. apply in_seq. apply list_elem_of_In in Hj.
  rewrite Forall_forall in Hb, Hne.
  specialize (Hb j Hj). specialize (Hne j Hj). lia.
Qed.

End Loops.

Section SendSweep.
Context {cfg : BuildConfig} {store : Type} {PS : ParamStore store}.

Lemma forEachPosMap_loop_fold {St R : Type} (p : list CANPOS) (f : CANPOS -> St -> St)
    (body : nat -> CANPOS -> St -> option (Flow St R)) :
  (forall c pos s, body c pos s = Some (Next (f pos s))) ->
  forall i l, chain p i l -> forall fuel s, (length l < fuel)%nat ->
    forEachPosMap_loop (fun _ => p) body fuel i s
    = Some (Next (foldl (fun s ic => f ic.2 s) s l)).
Proof.
  intros Hbody i l Hch.
  induction Hch as [i [c [Hc Hn]]|i c l Hs Hc Hp IH]; intros fuel s Hfuel;
    (destruct fuel as [|fuel]; [simpl in Hfuel; lia|]); simpl.
  - rewrite Hc, Hn. reflexivity.
  - rewrite Hc.
    destruct (next c =? ITEM_UNSET)%nat eqn:E.
    + exfalso. apply Hs. exists c. split; [assumption|]. by apply Nat.eqb_eq.
    + rewrite Hbody. apply IH. simpl in Hfuel. lia.
Qed.

Lemma Send_sent hw id d : sent (Send hw id d) = sent hw ++ [(id, d)].
Proof. reflexivity. Qed.

Lemma SendAll_loop (st : CanMap store) :
  isSaving st = false ->
  length (canPosMap st) = S MAX_ITEMS ->
  forall n c chains hw,
    (n <= length (drop c (canSendMap st)))%nat ->
    Forall2 (fun e l => chain (canPosMap st) (first e) l)
            (visible_from (take n (drop c (canSendMap st)))) chains ->
    exists hw',
      forEachCanMap_loop (R := unit) (fun _ : CanHardware => canSendMap st)
        (fun _ curMap hw =>
           match forEachPosMap (R := unit) (fun _ : Z * Z => canPosMap st)
                   (fun _ curPos data =>
                      if isSaving st then Some (Return tt)
                      else
                        let val := Param_GetFloat (params st) (mapParam curPos) in
                        let val := F32.mul val (gain curPos) in
                        let val := F32.add val (F32.of_Z (offset curPos)) in
                        let ival := F32.to_int val in
                        let ival := Z.land ival (Word.mask (numBits curPos)) in
                        if offsetBits curPos >? 31 then
                          Some (Next (fst data,
                                      Z.lor (snd data) (Word.shl ival (offsetBits curPos - 32))))
                        else
                          Some (Next (Z.lor (fst data) (Word.shl ival (offsetBits curPos)),
                                      snd data)))
                   curMap (0, 0) with
           | Some (Next data) => Some (Next (Send hw (canId curMap) data))
           | Some (Return r) => Some (Return r)
           | None => None
           end) n c hw = Some (Next hw') /\
      userIds hw' = userIds hw /\
      nextUserMessageIndex hw' = nextUserMessageIndex hw /\
      filterConfigs hw' = filterConfigs hw /\
      sent hw' = sent hw
                 ++ send_frames (params st) (visible_from (take n (drop c (canSendMap st)))) chains.
Proof.
  intros Hsav Hlen.
  induction n as [|n IH]; intros c chains hw Hn Hch.
  - simpl in *. inversion Hch; subst. exists hw. simpl. rewrite app_nil_r. auto.
  - destruct (drop c (canSendMap st)) as [|e r] eqn:Hd; [simpl in Hn; lia|].
    assert (Hc : canSendMap st !! c = Some e).
    { rewrite <- (Nat.add_0_r c), <- lookup_drop, Hd. reflexivity. }
    assert (Hr : drop (S c) (canSendMap st) = r).
    { erewrite drop_S in Hd by eassumption. congruence. }
    subst r. simpl in Hch |- *. rewrite Hc.
    destruct (first e =? MAX_ITEMS)%nat eqn:E.
    + inversion Hch; subst. exists hw. simpl. rewrite app_nil_r. auto.
    + inversion Hch as [|? l ? chains' Hl Hrest]; subst.
      unfold forEachPosMap.
      erewrite (forEachPosMap_loop_fold (canPosMap st)
                  (fun pos data =>
                     or_field (scale_gain_offset (Param_GetFloat (params st) (mapParam pos)) pos)
                              pos data)); [| |eassumption|].
      * destruct (IH (S c) chains' (Send hw (canId e)
                   (foldl (fun s ic => or_field
                      (scale_gain_offset (Param_GetFloat (params st) (mapParam ic.2)) ic.2)
                      ic.2 s) (0, 0) l))) as [hw' [Hrun [H1 [H2 [H3 H4]]]]].
        { simpl in Hn. lia. }
        { assumption. }
        exists hw'. split; [exact Hrun|]. simpl in *.
        rewrite H1, H2, H3, H4. repeat split; try reflexivity.
        rewrite <- app_assoc. reflexivity.
      * intros _ pos s. rewrite Hsav. unfold or_field, scale_gain_offset.
        destruct (offsetBits pos >? 31); reflexivity.
      * apply path_length in Hl. unfold chain_fuel. lia.
Qed.

End SendSweep.

Section AddLemmas.
Context {cfg : BuildConfig} {store : Type} {PS : ParamStore store}.

Lemma drop_lookup_cons {A} (t : list A) c e r :
  drop c t = e :: r -> t !! c = Some e /\ drop (S c) t = r.
Proof.
  intros Hd.
  assert (Hc : t !! c = Some e).
  { rewrite <- (Nat.add_0_r c), <- lookup_drop, Hd. reflexivity. }
  split; [assumption|].
  erewrite drop_S in Hd by eassumption. congruence.
Qed.

Lemma FindById_loop (t : list CANIDMAP) (id : Z) :
  forall n c, (n <= length (drop c t))%nat ->
    forEachCanMap_loop (fun _ : unit => t)
      (fun c e s => if canId e =? id then Some (Return c) else Some (Next s)) n c tt
    = Some (match list_find (fun e => canId e = id) (visible_from (take n (drop c t))) with
            | Some (i, _) => Return (c + i)%nat
            | None => Next tt
            end).
Proof.
  induction n as [|n IH]; intros c Hn; [reflexivity|].
  destruct (drop c t) as [|e r] eqn:Hd; [simpl in Hn; lia|].
  apply drop_lookup_cons in Hd as [Hc Hr]. subst r.
  simpl. rewrite Hc.
  destruct (first e =? MAX_ITEMS)%nat; [reflexivity|].
  simpl. destruct (decide (canId e = id)) as [Heq|Hne].
  - apply Z.eqb_eq in Heq. rewrite Heq. simpl. do 2 f_equal. lia.
  - apply Z.eqb_neq in Hne. rewrite Hne.
    rewrite IH by (simpl in Hn; lia).
    destruct (list_find _ _) as [[i x]|]; simpl; [|reflexivity].
    do 2 f_equal. lia.
Qed.

Lemma FindById_visible (t : list CANIDMAP) (id : Z) :
  (MAX_MESSAGES <= length t)%nat ->
  FindById t id = Some (fst <$> list_find (fun e => canId e = id) (visible t)).
Proof.
  intros Hlen. unfold FindById, forEachCanMap, visible.
  rewrite FindById_loop by (rewrite drop_0; lia).
  rewrite drop_0. destruct (list_find _ _) as [[i x]|]; reflexivity.
Qed.

Lemma countMessages_loop (t : list CANIDMAP) :
  forall n c s, (n <= length (drop c t))%nat ->
    forEachCanMap_loop (R := unit) (fun _ : nat => t)
      (fun _ _ n => Some (Next (S n))) n c s
    = Some (Next (s + length (visible_from (take n (drop c t))))%nat).
Proof.
  induction n as [|n IH]; intros c s Hn; simpl; [f_equal; f_equal; lia|].
  destruct (drop c t) as [|e r] eqn:Hd; [simpl in Hn; lia|].
  apply drop_lookup_cons in Hd as [Hc Hr]. subst r.
  rewrite Hc. simpl.
  destruct (first e =? MAX_ITEMS)%nat; simpl; [f_equal; f_equal; lia|].
  rewrite IH by (simpl in Hn; lia). f_equal. f_equal. lia.
Qed.

Lemma countMessages_visible (t : list CANIDMAP) :
  (MAX_MESSAGES <= length t)%nat -> countMessages t = Some (length (visible t)).
Proof.
  intros Hlen. unfold countMessages, forEachCanMap, visible.
  rewrite countMessages_loop by (rewrite drop_0; lia).
  rewrite drop_0. reflexivity.
Qed.

Lemma visible_from_lookup (t : list CANIDMAP) :
  forall i e, visible_from t !! i = Some e -> t !! i = Some e /\ first e <> MAX_ITEMS.
Proof.
  induction t as [|x t IH]; intros i e; simpl; [by rewrite lookup_nil|].
  destruct (first x =? MAX_ITEMS)%nat eqn:E; [by rewrite lookup_nil|].
  destruct i as [|i]; simpl.
  - intros [= ->]. split; [reflexivity|]. by apply Nat.eqb_neq.
  - apply IH.
Qed.

Lemma visible_lookup (t : list CANIDMAP) i e :
  visible t !! i = Some e -> t !! i = Some e /\ first e <> MAX_ITEMS /\ (i < MAX_MESSAGES)%nat.
Proof.
  intros H. apply visible_from_lookup in H as [H1 H2].
  apply lookup_take_Some in H1 as [H1 H3]. auto.
Qed.

Lemma findPreceding_path (p : list CANPOS) i l :
  path p at_end i l -> forall fuel prev, (length l < fuel)%nat ->
    findPreceding p fuel i prev
    = Some (match last l with Some (j, _) => Some j | None => prev end).
Proof.
  induction 1 as [i Hs|i c l Hs Hc Hp IH]; intros fuel prev Hfuel;
    (destruct fuel as [|fuel]; [simpl in Hfuel; lia|]); simpl.
  - unfold at_end in Hs. subst. rewrite Nat.eqb_refl. reflexivity.
  - unfold at_end in Hs. apply Nat.eqb_neq in Hs. rewrite Hs, Hc.
    rewrite IH by (simpl in Hfuel; lia).
    destruct l as [|[j cj] l']; [reflexivity|].
    change (last ((i, c) :: (j, cj) :: l')) with (last ((j, cj) :: l')).
    destruct (last ((j, cj) :: l')) as [[k ck]|] eqn:E; [reflexivity|].
    apply last_None in E. discriminate.
Qed.

Lemma keeps_rest_setMap d t (st : CanMap store) : keeps_rest st (setMap d t st).
Proof. destruct d; repeat split. Qed.

Lemma keeps_rest_setPos p (st : CanMap store) : keeps_rest st (setPos p st).
Proof. repeat split. Qed.

Lemma keeps_rest_trans (st1 st2 st3 : CanMap store) :
  keeps_rest st1 st2 -> keeps_rest st2 st3 -> keeps_rest st1 st3.
Proof. unfold keeps_rest. intuition congruence. Qed.

Lemma keeps_rest_refl (st : CanMap store) : keeps_rest st st.
Proof. repeat split. Qed.

Lemma selMap_setMap d t (st : CanMap store) : selMap d (setMap d t st) = t.
Proof. destruct d; reflexivity. Qed.

Lemma selMap_setPos d p (st : CanMap store) : selMap d (setPos p st) = selMap d st.
Proof. destruct d; reflexivity. Qed.

Lemma canPosMap_setMap d t (st : CanMap store) : canPosMap (setMap d t st) = canPosMap st.
Proof. destruct d; reflexivity. Qed.

Local Arguments findPreceding : simpl never.
Local Arguments FindById : simpl never.
Local Arguments countMessages : simpl never.
Local Arguments findFreeEntry : simpl never.
Local Arguments findFreeIndex : simpl never.

Lemma Add_cases d (st : CanMap store) param id ofs len g off (st' : CanMap store) r :
  Add d st param id ofs len g off = Some (st', r) ->
  (id > 0x1fffffff /\ st' = st /\ r = Fault CAN_ERR_INVALID_ID) \/
  (id <= 0x1fffffff /\ ofs > 63 /\ st' = st /\ r = Fault CAN_ERR_INVALID_OFS) \/
  (id <= 0x1fffffff /\ ofs <= 63 /\ len > 32 /\ st' = st /\ r = Fault CAN_ERR_INVALID_LEN) \/
  (FindById (selMap d st) id = Some None /\ findFreeEntry (selMap d st) = None /\
   st' = st /\ r = Fault CAN_ERR_MAXMESSAGES) \/
  (exists i, Add_entry d st id i st' /\
     findFreeIndex (canPosMap st') = MAX_ITEMS /\ r = Fault CAN_ERR_MAXITEMS) \/
  (exists i st1 e precedingItem n,
     id <= 0x1fffffff /\ ofs <= 63 /\ len <= 32 /\
     Add_entry d st id i st1 /\
     findFreeIndex (canPosMap st1) <> MAX_ITEMS /\
     selMap d st1 !! i = Some e /\
     findPreceding (canPosMap st1) chain_fuel (first e) None = Some precedingItem /\
     st' = Add_linked d st1 i
             {| mapParam := param; gain := g; offset := off; offsetBits := ofs;
                numBits := len; next := MAX_ITEMS |} precedingItem /\
     countMessages (selMap d st') = Some n /\ r = Count n).
Proof.
  unfold Add. intros H.
  destruct (id >? 536870911) eqn:Hid.
  { left. simplify_eq. split; [lia|auto]. }
  destruct (ofs >? 63) eqn:Hofs.
  { right; left. simplify_eq. repeat split; lia. }
  destruct (len >? 32) eqn:Hlen.
  { do 2 right; left. simplify_eq. repeat split; lia. }
  destruct (FindById (selMap d st) id) as [found|] eqn:Hfind; simpl in H; [|discriminate].
  assert (Halloc :
    match (match found with
           | Some i => Some (i, st)
           | None => match findFreeEntry (selMap d st) with
                     | Some i => Some (i, setMap d (alter (set_canId (stored_canId id)) i (selMap d st)) st)
                     | None => None
                     end
           end) with
    | Some (i, st1) => Add_entry d st id i st1
    | None => found = None /\ findFreeEntry (selMap d st) = None
    end).
  { destruct found as [i|]; [left; split; [assumption|reflexivity]|].
    destruct (findFreeEntry (selMap d st)) as [i|] eqn:Hfe;
      [right; repeat split; assumption|split; reflexivity]. }
  destruct (match found with Some i => _ | None => _ end) as [[i st1]|].
  2:{ do 3 right; left. destruct Halloc as [-> ?]. simplify_eq. auto. }
  destruct (findFreeIndex (canPosMap st1) =? MAX_ITEMS)%nat eqn:Hfree.
  { do 4 right; left. simplify_eq. exists i. apply Nat.eqb_eq in Hfree. auto. }
  do 5 right.
  destruct (selMap d st1 !! i) as [e|] eqn:He; simpl in H; [|discriminate].
  destruct (findPreceding (canPosMap st1) chain_fuel (first e) None) as [prec|] eqn:Hprec;
    simpl in H; [|discriminate].
  match type of H with (?m ≫= _) = _ => destruct m as [n|] eqn:Hcount end;
    simpl in H; [|discriminate].
  simplify_eq. apply Nat.eqb_neq in Hfree.
  exists i, st1, e, prec, n. repeat split; try lia; try assumption.
Qed.

Lemma Add_entry_keeps_rest d (st : CanMap store) id i st1 : Add_entry d st id i st1 -> keeps_rest st st1.
Proof.
  intros [[_ ->]|[_ [_ ->]]]; [apply keeps_rest_refl|apply keeps_rest_setMap].
Qed.

Lemma Add_linked_keeps_rest d (st1 : CanMap store) i item prec : keeps_rest st1 (Add_linked d st1 i item prec).
Proof.
  unfold Add_linked. destruct prec.
  - eapply keeps_rest_trans; apply keeps_rest_setPos.
  - eapply keeps_rest_trans; [apply keeps_rest_setPos|apply keeps_rest_setMap].
Qed.

Lemma Add_keeps_rest d (st : CanMap store) param id ofs len g off (st' : CanMap store) r :
  Add d st param id ofs len g off = Some (st', r) -> keeps_rest st st'.
Proof.
  intros H. apply Add_cases in H.
  destruct H as [H|[H|[H|[H|[H|H]]]]].
  - destruct H as (_ & -> & _). apply keeps_rest_refl.
  - destruct H as (_ & _ & -> & _). apply keeps_rest_refl.
  - destruct H as (_ & _ & _ & -> & _). apply keeps_rest_refl.
  - destruct H as (_ & _ & -> & _). apply keeps_rest_refl.
  - destruct H as (i & He & _). eapply Add_entry_keeps_rest; eassumption.
  - destruct H as (i & st1 & e & prec & n & _ & _ & _ & He & _ & _ & _ & -> & _).
    eapply keeps_rest_trans; [eapply Add_entry_keeps_rest; eassumption|].
    apply Add_linked_keeps_rest.
Qed.

End AddLemmas.

Section AddRuns.
Context {cfg : BuildConfig} {store : Type} {PS : ParamStore store}.

Local Arguments findPreceding : simpl never.
Local Arguments FindById : simpl never.
Local Arguments countMessages : simpl never.
Local Arguments findFreeEntry : simpl never.
Local Arguments findFreeIndex : simpl never.

Lemma FindById_loop_Some (t : list CANIDMAP) (id : Z) i :
  forall n c,
    forEachCanMap_loop (fun _ : unit => t)
      (fun c e s => if canId e =? id then Some (Return c) else Some (Next s)) n c tt
    = Some (Return i) ->
    (c <= i < c + n)%nat /\
    exists e, t !! i = Some e /\ canId e = id /\ first e <> MAX_ITEMS.
Proof.
  induction n as [|n IH]; intros c; simpl; [discriminate|].
  destruct (t !! c) as [e|] eqn:Hc; [|discriminate].
  destruct (first e =? MAX_ITEMS)%nat eqn:Hf; [discriminate|].
  destruct (canId e =? id) eqn:Hid.
  - intros [= <-]. split; [lia|]. exists e.
    apply Z.eqb_eq in Hid. apply Nat.eqb_neq in Hf. auto.
  - intros H. apply IH in H as [Hi He]. split; [lia|assumption].
Qed.

Lemma FindById_Some (t : list CANIDMAP) (id : Z) i :
  FindById t id = Some (Some i) ->
  (i < MAX_MESSAGES)%nat /\
  exists e, t !! i = Some e /\ canId e = id /\ first e <> MAX_ITEMS.
Proof.
  unfold FindById, forEachCanMap. intros H.
  destruct (forEachCanMap_loop _ _ _ _ _) as [[[]|j]|] eqn:E; try discriminate.
  injection H as ->. apply FindById_loop_Some in E as [Hi He]. split; [lia|assumption].
Qed.

Lemma findFreeEntry_Some (t : list CANIDMAP) i :
  findFreeEntry t = Some i ->
  (i < MAX_MESSAGES)%nat /\
  (exists e, t !! i = Some e /\ first e = MAX_ITEMS) /\
  forall j e, (j < i)%nat -> t !! j = Some e -> first e <> MAX_ITEMS.
Proof.
  unfold findFreeEntry. intros H.
  destruct (list_find _ _) as [[j x]|] eqn:E; simpl in H; [|discriminate].
  injection H as ->. apply list_find_Some in E as (E & Hx & Hmin).
  apply lookup_take_Some in E as [E Hi].
  split; [assumption|]. split; [eauto|].
  intros j e Hj He. apply (Hmin j e); [|assumption].
  apply lookup_take_Some. split; [assumption|lia].
Qed.

Lemma findFreeEntry_first (t : list CANIDMAP) i e :
  (i < MAX_MESSAGES)%nat -> t !! i = Some e -> first e = MAX_ITEMS ->
  (forall j x, (j < i)%nat -> t !! j = Some x -> first x <> MAX_ITEMS) ->
  findFreeEntry t = Some i.
Proof.
  intros Hi He Hf Hmin. unfold findFreeEntry.
  assert (H : list_find (fun e => first e = MAX_ITEMS) (take MAX_MESSAGES t) = Some (i, e)).
  { apply list_find_Some. split; [by apply lookup_take_Some|]. split; [assumption|].
    intros j y Hy Hj. apply lookup_take_Some in Hy as [Hy _]. eauto. }
  rewrite H. reflexivity.
Qed.

Lemma findFreeIndex_free (p : list CANPOS) :
  findFreeIndex p <> MAX_ITEMS ->
  (findFreeIndex p < MAX_ITEMS)%nat /\
  exists c, p !! findFreeIndex p = Some c /\ next c = ITEM_UNSET.
Proof.
  unfold findFreeIndex.
  destruct (list_find _ _) as [[j x]|] eqn:E; [|tauto].
  intros _. apply list_find_Some in E as (E & Hx & _).
  apply lookup_take_Some in E as [E Hj]. eauto.
Qed.

Lemma findFreeIndex_first (p : list CANPOS) i c :
  (i < MAX_ITEMS)%nat -> p !! i = Some c -> next c = ITEM_UNSET ->
  (forall j x, (j < i)%nat -> p !! j = Some x -> next x <> ITEM_UNSET) ->
  findFreeIndex p = i.
Proof.
  intros Hi Hc Hn Hmin. unfold findFreeIndex.
  assert (H : list_find (fun c => next c = ITEM_UNSET) (take MAX_ITEMS p) = Some (i, c)).
  { apply list_find_Some. split; [by apply lookup_take_Some|]. split; [assumption|].
    intros j y Hy Hj. apply lookup_take_Some in Hy as [Hy _]. eauto. }
  rewrite H. reflexivity.
Qed.

(** the entry chosen by [Add] exists, and only its identifier may be new *)
Lemma Add_entry_shape d (st : CanMap store) id i st1 :
  Add_entry d st id i st1 ->
  canPosMap st1 = canPosMap st /\
  length (selMap d st1) = length (selMap d st) /\
  (i < MAX_MESSAGES)%nat /\
  exists e0 e1, selMap d st !! i = Some e0 /\ selMap d st1 !! i = Some e1 /\
                first e1 = first e0.
Proof.
  intros [[Hf ->]|[Hf [Hfree ->]]].
  - apply FindById_Some in Hf as (Hi & e & He & _).
    repeat split; try assumption. exists e, e. auto.
  - rewrite canPosMap_setMap, selMap_setMap, length_alter.
    apply findFreeEntry_Some in Hfree as (Hi & (e & He & Hfirst) & _).
    repeat split; try assumption. exists e, (set_canId (stored_canId id) e).
    rewrite list_lookup_alter_eq, He. auto.
Qed.

(** the successful run of [Add], read forwards *)
Lemma Add_run d (st : CanMap store) param id ofs len g off i st1 e prec :
  id <= 0x1fffffff -> ofs <= 63 -> len <= 32 ->
  Add_entry d st id i st1 ->
  findFreeIndex (canPosMap st1) <> MAX_ITEMS ->
  selMap d st1 !! i = Some e ->
  findPreceding (canPosMap st1) chain_fuel (first e) None = Some prec ->
  (MAX_MESSAGES <= length (selMap d st))%nat ->
  let st' := Add_linked d st1 i
               {| mapParam := param; gain := g; offset := off; offsetBits := ofs;
                  numBits := len; next := MAX_ITEMS |} prec in
  Add d st param id ofs len g off = Some (st', Count (length (visible (selMap d st')))).
Proof.
  intros Hid Hofs Hlen Hentry Hfree He Hprec Hshape st'.
  assert (Hcount : countMessages (selMap d st') = Some (length (visible (selMap d st')))).
  { apply countMessages_visible. subst st'. unfold Add_linked.
    apply Add_entry_shape in Hentry as (_ & Hl & _).
    destruct prec; rewrite ?selMap_setPos, ?selMap_setMap, ?length_alter, ?selMap_setPos;
      lia. }
  unfold Add.
  assert (Hid' : (id >? 536870911) = false) by lia. rewrite Hid'.
  assert (Hofs' : (ofs >? 63) = false) by lia. rewrite Hofs'.
  assert (Hlen' : (len >? 32) = false) by lia. rewrite Hlen'.
  apply Nat.eqb_neq in Hfree.
  subst st'. unfold Add_linked in *. cbv zeta in *.
  destruct Hentry as [[Hf ->]|[Hf [Hfe ->]]]; rewrite Hf; simpl.
  - rewrite Hfree, He. simpl. rewrite Hprec. simpl in Hcount |- *.
    rewrite Hcount. reflexivity.
  - rewrite Hfe. rewrite Hfree, He. simpl. rewrite Hprec. simpl in Hcount |- *.
    rewrite Hcount. reflexivity.
Qed.

(** [Add] returns on every table whose chains lead to the end marker *)
Lemma Add_total d (st : CanMap store) param id ofs len g off :
  shape_ok st -> chains_end st ->
  exists st' r, Add d st param id ofs len g off = Some (st', r).
Proof.
  intros (Hs & Hr & Hp & _) Hch.
  assert (Hlen : length (selMap d st) = MAX_MESSAGES) by (destruct d; assumption).
  destruct (Add d st param id ofs len g off) as [[st' r]|] eqn:E; [eauto|exfalso].
  unfold Add in E.
  destruct (id >? 536870911) eqn:Hid; [discriminate|].
  destruct (ofs >? 63) eqn:Hofs; [discriminate|].
  destruct (len >? 32) eqn:Hl; [discriminate|].
  rewrite FindById_visible in E by lia. simpl in E.
  assert (Hgo : forall i st1, Add_entry d st id i st1 ->
            (if (findFreeIndex (canPosMap st1) =? MAX_ITEMS)%nat
             then Some (st1, Fault CAN_ERR_MAXITEMS)
             else
               e ← selMap d st1 !! i;
               precedingItem ← findPreceding (canPosMap st1) chain_fuel (first e) None;
               let freeItem :=
                 {| mapParam := param; gain := g; offset := off;
                    offsetBits := ofs; numBits := len; next := MAX_ITEMS |} in
               let st2 := setPos (<[findFreeIndex (canPosMap st1) := freeItem]> (canPosMap st1)) st1 in
               let st3 :=
                 match precedingItem with
                 | None => setMap d (alter (set_first (findFreeIndex (canPosMap st1))) i (selMap d st2)) st2
                 | Some i => setPos (alter (set_next (findFreeIndex (canPosMap st1))) i (canPosMap st2)) st2
                 end in
               count ← countMessages (selMap d st3);
               Some (st3, Count count)) = None -> False).
  { intros i st1 Hentry.
    pose proof (Add_entry_shape _ _ _ _ _ Hentry) as (Hpos & Hlen1 & Hi & e0 & e1 & He0 & He1 & Hfirst).
    destruct (_ =? _)%nat; [discriminate|].
    rewrite He1. simpl.
    destruct (Hch d i e0 He0) as [l Hpath].
    rewrite Hpos, Hfirst.
    rewrite (findPreceding_path _ _ _ Hpath).
    2:{ apply path_at_end_length in Hpath; [|assumption]. unfold chain_fuel. lia. }
    simpl.
    rewrite countMessages_visible; [discriminate|].
    destruct (last l) as [[j cj]|];
      rewrite ?selMap_setPos, ?selMap_setMap, ?length_alter, ?selMap_setPos; lia. }
  destruct (list_find (fun e => canId e = id) (visible (selMap d st))) as [[i x]|] eqn:Hfind;
    simpl in E.
  - apply (Hgo i st); [|exact E].
    left. split; [|reflexivity]. rewrite FindById_visible by lia. rewrite Hfind. reflexivity.
  - destruct (findFreeEntry (selMap d st)) as [i|] eqn:Hfe; [|discriminate].
    apply (Hgo i (setMap d (alter (set_canId (stored_canId id)) i (selMap d st)) st)); [|exact E].
    right. split; [|auto]. rewrite FindById_visible by lia. rewrite Hfind. reflexivity.
Qed.

End AddRuns.

Section Sdo.
Context {cfg : BuildConfig} {store : Type} {PS : ParamStore store}.

Local Arguments findPreceding : simpl never.
Local Arguments FindById : simpl never.
Local Arguments countMessages : simpl never.
Local Arguments findFreeEntry : simpl never.
Local Arguments findFreeIndex : simpl never.
Local Arguments Add : simpl never.

Lemma RegisterUserMessage_sent hw id : sent (fst (RegisterUserMessage hw id)) = sent hw.
Proof. unfold RegisterUserMessage. repeat case_match; reflexivity. Qed.

Lemma SDO_cmd_set_cmd c d : 0 <= c < 256 -> SDO.cmd (SDO.set_cmd c d) = c.
Proof.
  intros Hc. unfold SDO.cmd, SDO.set_cmd. simpl.
  rewrite Z.land_lor_distr_l, <- Z.land_assoc.
  change (Z.land 4294967040 255) with 0. rewrite Z.land_0_r, Z.lor_0_l.
  change 255 with (Z.ones 8). rewrite Z.land_ones by lia.
  apply Z.mod_small. change (2 ^ 8) with 256. lia.
Qed.

Lemma setSaving_selMap d b (st : CanMap store) : selMap d (setSaving b st) = selMap d st.
Proof. destruct d; reflexivity. Qed.

Lemma setSaving_setMap d t b (st : CanMap store) :
  setMap d t (setSaving b st) = setSaving b (setMap d t st).
Proof. destruct d; reflexivity. Qed.

Lemma setSaving_setPos p b (st : CanMap store) :
  setPos p (setSaving b st) = setSaving b (setPos p st).
Proof. reflexivity. Qed.

Lemma setSaving_canPosMap b (st : CanMap store) : canPosMap (setSaving b st) = canPosMap st.
Proof. reflexivity. Qed.

Lemma Add_setSaving d b (st : CanMap store) param id ofs len g off :
  Add d (setSaving b st) param id ofs len g off
  = on_state (setSaving b) <$> Add d st param id ofs len g off.
Proof.
  unfold Add.
  destruct (id >? 536870911); [reflexivity|].
  destruct (ofs >? 63); [reflexivity|].
  destruct (len >? 32); [reflexivity|].
  rewrite setSaving_selMap.
  destruct (FindById (selMap d st) id) as [found|]; [|reflexivity].
  cbn [mbind option_bind].
  assert (Hrest : forall i st1,
    (if (findFreeIndex (canPosMap (setSaving b st1)) =? MAX_ITEMS)%nat
     then Some (setSaving b st1, Fault CAN_ERR_MAXITEMS)
     else
       e ← selMap d (setSaving b st1) !! i;
       precedingItem ← findPreceding (canPosMap (setSaving b st1)) chain_fuel (first e) None;
       let freeItem :=
         {| mapParam := param; gain := g; offset := off;
            offsetBits := ofs; numBits := len; next := MAX_ITEMS |} in
       let st2 := setPos (<[findFreeIndex (canPosMap (setSaving b st1)) := freeItem]>
                            (canPosMap (setSaving b st1))) (setSaving b st1) in
       let st3 :=
         match precedingItem with
         | None => setMap d (alter (set_first (findFreeIndex (canPosMap (setSaving b st1)))) i
                               (selMap d st2)) st2
         | Some i => setPos (alter (set_next (findFreeIndex (canPosMap (setSaving b st1)))) i
                               (canPosMap st2)) st2
         end in
       count ← countMessages (selMap d st3);
       Some (st3, Count count))
    = on_state (A := AddResult) (setSaving (store := store) b) <$>
      (if (findFreeIndex (canPosMap st1) =? MAX_ITEMS)%nat
       then Some (st1, Fault CAN_ERR_MAXITEMS)
       else
         e ← selMap d st1 !! i;
         precedingItem ← findPreceding (canPosMap st1) chain_fuel (first e) None;
         let freeItem :=
           {| mapParam := param; gain := g; offset := off;
              offsetBits := ofs; numBits := len; next := MAX_ITEMS |} in
         let st2 := setPos (<[findFreeIndex (canPosMap st1) := freeItem]> (canPosMap st1)) st1 in
         let st3 :=
           match precedingItem with
           | None => setMap d (alter (set_first (findFreeIndex (canPosMap st1))) i
                                 (selMap d st2)) st2
           | Some i => setPos (alter (set_next (findFreeIndex (canPosMap st1))) i
                                 (canPosMap st2)) st2
           end in
         count ← countMessages (selMap d st3);
         Some (st3, Count count))).
  { intros i st1. rewrite setSaving_canPosMap, setSaving_selMap.
    destruct (_ =? _)%nat; [reflexivity|].
    destruct (selMap d st1 !! i) as [e|]; [|reflexivity]. cbn [mbind option_bind].
    destruct (findPreceding _ _ _ _) as [prec|]; [|reflexivity]. cbn [mbind option_bind].
    cbv zeta.
    destruct prec as [j|];
      rewrite ?setSaving_setPos, ?setSaving_selMap, ?setSaving_setMap, ?setSaving_canPosMap,
              ?setSaving_setPos, ?setSaving_selMap;
      destruct (countMessages _); reflexivity. }
  destruct found as [i|].
  - apply Hrest.
  - destruct (findFreeEntry (selMap d st)) as [i|]; [|reflexivity].
    rewrite setSaving_setMap. apply Hrest.
Qed.

Lemma AddRecv_setSaving b (st : CanMap store) param id ofs len g off :
  AddRecv (setSaving b st) param id ofs len g off
  = on_state (setSaving b) <$> AddRecv st param id ofs len g off.
Proof.
  unfold AddRecv. rewrite Add_setSaving.
  destruct (Add RecvMap st param id ofs len g off) as [[s r]|]; reflexivity.
Qed.

Lemma ProcessSDO_setSaving b (st : CanMap store) data :
  ProcessSDO (setSaving b st) data = setSaving b <$> ProcessSDO st data.
Proof.
  unfold ProcessSDO.
  change (params (setSaving b st)) with (params st).
  destruct (_ && _ && _).
  { destruct (SDO.cmd data =? SDO_WRITE).
    - destruct (Param_Set _ _ _) as [ps rc]. destruct (rc =? 0); reflexivity.
    - destruct (SDO.cmd data =? SDO_READ); reflexivity. }
  destruct (_ && _ && _); [|reflexivity].
  destruct (SDO.cmd data =? SDO_WRITE); [|reflexivity].
  unfold AddSend.
  destruct (_ =? 16384); rewrite ?AddRecv_setSaving, ?Add_setSaving;
    match goal with |- context [on_state _ <$> ?m] => destruct m as [[s []]|] end;
    reflexivity.
Qed.

Lemma HandleRx_sdo_setSaving b (st : CanMap store) data :
  HandleRx (setSaving b st) (Word.u32 (0x600 + nodeId st)) data
  = on_state (setSaving b) <$> HandleRx st (Word.u32 (0x600 + nodeId st)) data.
Proof.
  unfold HandleRx. change (nodeId (setSaving b st)) with (nodeId st).
  rewrite Z.eqb_refl, ProcessSDO_setSaving.
  destruct (ProcessSDO st data); reflexivity.
Qed.

Lemma AddRecv_total (st : CanMap store) param id ofs len g off :
  shape_ok st -> chains_end st ->
  exists st' r, AddRecv st param id ofs len g off = Some (st', r) /\
    nodeId st' = nodeId st /\ sent (canHardware st') = sent (canHardware st).
Proof.
  intros Hs Hc. unfold AddRecv.
  destruct (Add_total RecvMap st param id ofs len g off Hs Hc) as (st1 & r & H).
  rewrite H. simpl. eexists _, _. split; [reflexivity|].
  apply Add_keeps_rest in H as (Hhw & Hn & _). simpl.
  rewrite RegisterUserMessage_sent, Hhw. auto.
Qed.

Lemma AddSend_total (st : CanMap store) param id ofs len g off :
  shape_ok st -> chains_end st ->
  exists st' r, AddSend st param id ofs len g off = Some (st', r) /\
    nodeId st' = nodeId st /\ sent (canHardware st') = sent (canHardware st).
Proof.
  intros Hs Hc. unfold AddSend.
  destruct (Add_total SendMap st param id ofs len g off Hs Hc) as (st1 & r & H).
  rewrite H. eexists _, _. split; [reflexivity|].
  apply Add_keeps_rest in H as (Hhw & Hn & _). rewrite Hhw. auto.
Qed.

(** what [ProcessSDO] leaves behind: one more frame, on [0x580 + nodeId] *)
Lemma ProcessSDO_reply (st : CanMap store) data :
  shape_ok st -> chains_end st ->
  exists st' reply,
    ProcessSDO st data = Some st' /\
    nodeId st' = nodeId st /\
    sent (canHardware st') = sent (canHardware st) ++ [(Word.u32 (0x580 + nodeId st), reply)] /\
    (~ (0x2000 <= SDO.index data <= 0x2001) ->
     ~ (0x3000 <= SDO.index data <= 0x47FF) ->
     reply = SDO.set_data SDO_ERR_INVIDX (SDO.set_cmd SDO_ABORT data)).
Proof.
  intros Hs Hc. unfold ProcessSDO.
  destruct (_ && _ && _) eqn:E1.
  { assert (Hin : 0x2000 <= SDO.index data <= 0x2001) by lia.
    destruct (SDO.cmd data =? SDO_WRITE).
    - destruct (Param_Set _ _ _) as [ps rc].
      destruct (rc =? 0); simpl; eexists _, _; repeat split; first [reflexivity|intros; exfalso; lia].
    - destruct (SDO.cmd data =? SDO_READ); simpl; eexists _, _; repeat split; first [reflexivity|intros; exfalso; lia]. }
  destruct ((12288 <=? SDO.index data) && _ && _) eqn:E2.
  { assert (Hin : 0x3000 <= SDO.index data <= 0x47FF) by lia.
    destruct (SDO.cmd data =? SDO_WRITE); [|simpl; eexists _, _; repeat split; first [reflexivity|intros; exfalso; lia]].
    destruct (_ =? 16384).
    - edestruct AddRecv_total as (st1 & r & H & Hn & Hsent); [exact Hs|exact Hc|].
      rewrite H. simpl. destruct r; simpl; eexists _, _;
        (split; [reflexivity|]); simpl; rewrite ?Hn, ?Hsent;
        repeat split; first [reflexivity|intros; exfalso; lia].
    - edestruct AddSend_total as (st1 & r & H & Hn & Hsent); [exact Hs|exact Hc|].
      rewrite H. simpl. destruct r; simpl; eexists _, _;
        (split; [reflexivity|]); simpl; rewrite ?Hn, ?Hsent;
        repeat split; first [reflexivity|intros; exfalso; lia]. }
  simpl. eexists _, _. repeat split.
Qed.

End Sdo.

Section Gap.
Context {cfg : BuildConfig} {store : Type} {PS : ParamStore store}.

Local Arguments findPreceding : simpl never.
Local Arguments FindById : simpl never.
Local Arguments countMessages : simpl never.
Local Arguments findFreeEntry : simpl never.
Local Arguments findFreeIndex : simpl never.
Local Arguments Add : simpl never.

Lemma same_before_gap_refl k (t : list CANIDMAP) e :
  t !! k = Some e -> first e = MAX_ITEMS -> same_before_gap k t t.
Proof. intros He Hf. repeat split; eauto. Qed.

Lemma same_before_gap_sym k (t t' : list CANIDMAP) :
  same_before_gap k t t' -> same_before_gap k t' t.
Proof. intros (H1 & H2 & H3). repeat split; try assumption. intros j Hj. by rewrite H3. Qed.

Lemma FindById_gap k (t t' : list CANIDMAP) id :
  same_before_gap k t t' -> FindById t' id = FindById t id.
Proof.
  intros H. unfold FindById, forEachCanMap.
  rewrite (forEachCanMap_loop_gap t t' _ k H) by lia. reflexivity.
Qed.

Lemma countMessages_gap k (t t' : list CANIDMAP) :
  same_before_gap k t t' -> countMessages t' = countMessages t.
Proof.
  intros H. unfold countMessages, forEachCanMap.
  rewrite (forEachCanMap_loop_gap t t' _ k H) by lia. reflexivity.
Qed.

Lemma selMap_setMap_other d d' t (st : CanMap store) :
  d <> d' -> selMap d' (setMap d t st) = selMap d' st.
Proof. destruct d, d'; intros H; try reflexivity; congruence. Qed.

Lemma FindMap_pass_gap k d d' rx (st : CanMap store) t' p :
  same_before_gap k (selMap d st) t' ->
  FindMap_pass d' rx (setMap d t' st) p = FindMap_pass d' rx st p.
Proof.
  intros H. unfold FindMap_pass, forEachCanMap. rewrite canPosMap_setMap.
  destruct d, d'; simpl in H |- *; try reflexivity;
    apply (forEachCanMap_loop_gap _ _ _ k H); lia.
Qed.

Lemma FindMap_gap k d (st : CanMap store) t' p :
  same_before_gap k (selMap d st) t' ->
  FindMap (setMap d t' st) p = FindMap st p.
Proof.
  intros H. unfold FindMap. rewrite !(FindMap_pass_gap k d _ _ st t' p H). reflexivity.
Qed.

Lemma IterateCanMap_pass_gap k d d' rx (st : CanMap store) t' calls :
  same_before_gap k (selMap d st) t' ->
  IterateCanMap_pass d' rx (setMap d t' st) calls = IterateCanMap_pass d' rx st calls.
Proof.
  intros H. unfold IterateCanMap_pass, forEachCanMap. rewrite canPosMap_setMap.
  destruct d, d'; simpl in H |- *; try reflexivity;
    rewrite (forEachCanMap_loop_gap _ _ _ k H) by lia; reflexivity.
Qed.

Lemma IterateCanMap_gap k d (st : CanMap store) t' :
  same_before_gap k (selMap d st) t' ->
  IterateCanMap (setMap d t' st) = IterateCanMap st.
Proof.
  intros H. unfold IterateCanMap.
  rewrite (IterateCanMap_pass_gap k d _ _ st t' _ H).
  destruct (IterateCanMap_pass SendMap false st []) as [calls|]; [|reflexivity]. simpl.
  apply (IterateCanMap_pass_gap k d _ _ st t' _ H).
Qed.

Lemma SendAll_gap k d (st : CanMap store) t' :
  same_before_gap k (selMap d st) t' ->
  canHardware <$> SendAll (setMap d t' st) = canHardware <$> SendAll st.
Proof.
  intros H. unfold SendAll, forEachCanMap.
  rewrite canPosMap_setMap.
  replace (isSaving (setMap d t' st)) with (isSaving st) by (destruct d; reflexivity).
  replace (params (setMap d t' st)) with (params st) by (destruct d; reflexivity).
  replace (canHardware (setMap d t' st)) with (canHardware st) by (destruct d; reflexivity).
  destruct d.
  - change (canSendMap (setMap SendMap t' st)) with t'.
    rewrite (forEachCanMap_loop_gap _ _ _ k H) by lia.
    destruct (forEachCanMap_loop _ _ _ _ _) as [[hw|r]|]; reflexivity.
  - change (canSendMap (setMap RecvMap t' st)) with (canSendMap st).
    destruct (forEachCanMap_loop _ _ _ _ _) as [[hw|r]|]; reflexivity.
Qed.

Lemma FindById_loop_prefix (t : list CANIDMAP) (id : Z) i :
  forall n c,
    forEachCanMap_loop (fun _ : unit => t)
      (fun c e s => if canId e =? id then Some (Return c) else Some (Next s)) n c tt
    = Some (Return i) ->
    forall j, (c <= j <= i)%nat -> exists x, t !! j = Some x /\ first x <> MAX_ITEMS.
Proof.
  induction n as [|n IH]; intros c; simpl; [discriminate|].
  destruct (t !! c) as [e|] eqn:Hc; [|discriminate].
  destruct (first e =? MAX_ITEMS)%nat eqn:Hf; [discriminate|].
  apply Nat.eqb_neq in Hf.
  destruct (canId e =? id) eqn:Hid.
  - intros [= <-] j Hj. assert (j = c) by lia. subst. eauto.
  - intros H j Hj. destruct (decide (j = c)) as [->|Hne]; [eauto|].
    apply (IH _ H). lia.
Qed.

Lemma FindById_before_gap (t : list CANIDMAP) id i k e :
  FindById t id = Some (Some i) -> t !! k = Some e -> first e = MAX_ITEMS -> (i < k)%nat.
Proof.
  unfold FindById, forEachCanMap. intros H He Hf.
  destruct (forEachCanMap_loop _ _ _ _ _) as [[[]|j]|] eqn:E; try discriminate.
  injection H as ->.
  destruct (decide (i < k)%nat) as [|Hge]; [assumption|exfalso].
  destruct (FindById_loop_prefix _ _ _ _ _ E k) as (x & Hx & Hnx); [lia|].
  congruence.
Qed.

Lemma HandleRx_gap k d (st : CanMap store) t' id data :
  same_before_gap k (selMap d st) t' ->
  id <> Word.u32 (0x600 + nodeId st) ->
  HandleRx (setMap d t' st) id data = on_state (setMap d t') <$> HandleRx st id data.
Proof.
  intros H Hid. unfold HandleRx.
  replace (nodeId (setMap d t' st)) with (nodeId st) by (destruct d; reflexivity).
  replace (isSaving (setMap d t' st)) with (isSaving st) by (destruct d; reflexivity).
  replace (params (setMap d t' st)) with (params st) by (destruct d; reflexivity).
  rewrite canPosMap_setMap.
  apply Z.eqb_neq in Hid. rewrite Hid.
  destruct (isSaving st); [reflexivity|].
  destruct d.
  - change (canRecvMap (setMap SendMap t' st)) with (canRecvMap st).
    destruct (FindById (canRecvMap st) id) as [[i|]|]; simpl; try reflexivity.
    destruct (canRecvMap st !! i) as [e|]; simpl; [|reflexivity].
    destruct (forEachPosMap _ _ _ _) as [[ps|r]|]; reflexivity.
  - change (canRecvMap (setMap RecvMap t' st)) with t'.
    change (selMap RecvMap st) with (canRecvMap st) in H.
    rewrite (FindById_gap k _ _ _ H).
    destruct (FindById (canRecvMap st) id) as [[i|]|] eqn:Hf; cbn [mbind option_bind];
      try reflexivity.
    destruct H as ((e & He & Hfirst) & _ & Hsame).
    rewrite Hsame by (eapply FindById_before_gap; eassumption).
    destruct (canRecvMap st !! i) as [x|]; simpl; [|reflexivity].
    destruct (forEachPosMap _ _ _ _) as [[ps|r]|]; reflexivity.
Qed.

Lemma visible_from_prefix (t : list CANIDMAP) :
  forall i e, visible_from t !! i = Some e ->
    forall j x, (j <= i)%nat -> t !! j = Some x -> first x <> MAX_ITEMS.
Proof.
  induction t as [|y t IH]; intros i e; simpl; [by rewrite lookup_nil|].
  destruct (first y =? MAX_ITEMS)%nat eqn:E; [by rewrite lookup_nil|].
  apply Nat.eqb_neq in E.
  intros Hi j x Hj Hx. destruct j as [|j]; simpl in Hx; [congruence|].
  destruct i as [|i]; [lia|]. simpl in Hi. eapply IH; [eassumption| |eassumption]. lia.
Qed.

Lemma visible_before_gap (t : list CANIDMAP) i x k e :
  visible t !! i = Some x -> t !! k = Some e -> first e = MAX_ITEMS -> (i < k)%nat.
Proof.
  intros Hx He Hf.
  destruct (decide (i < k)%nat) as [|Hge]; [assumption|exfalso].
  pose proof (visible_from_lookup _ _ _ Hx) as [Hl _].
  apply lookup_take_Some in Hl as [_ Hi].
  apply (visible_from_prefix _ _ _ Hx k e); [lia| |assumption].
  apply lookup_take_Some. split; [assumption|lia].
Qed.

(** a new identifier takes the first free entry, and a free slot of the
    pool becomes the head of its chain *)
(** an identifier of 16 bits is stored as it is in every build *)
Lemma stored_canId_small (id : Z) : 0 <= id <= 0xFFFF -> stored_canId id = id.
Proof.
  intros Hid. unfold stored_canId. destruct CAN_EXT; [reflexivity|].
  change 0xFFFF with (Z.ones 16). rewrite Z.land_ones by lia.
  apply Z.mod_small. lia.
Qed.

Lemma stored_canId_ext (id : Z) : CAN_EXT = true -> stored_canId id = id.
Proof. intros H. unfold stored_canId. by rewrite H. Qed.

Lemma Add_takes_gap d (st : CanMap store) param id ofs len g off k e :
  (MAX_MESSAGES <= length (selMap d st))%nat ->
  (k < MAX_MESSAGES)%nat ->
  selMap d st !! k = Some e -> first e = MAX_ITEMS ->
  (forall j x, (j < k)%nat -> selMap d st !! j = Some x ->
               first x <> MAX_ITEMS /\ canId x <> id) ->
  id <= 0x1fffffff -> ofs <= 63 -> len <= 32 ->
  findFreeIndex (canPosMap st) <> MAX_ITEMS ->
  let item := {| mapParam := param; gain := g; offset := off; offsetBits := ofs;
                 numBits := len; next := MAX_ITEMS |} in
  let st' := Add_linked d (setMap d (alter (set_canId (stored_canId id)) k (selMap d st)) st) k item None in
  Add d st param id ofs len g off = Some (st', Count (length (visible (selMap d st')))) /\
  selMap d st' !! k = Some {| canId := stored_canId id; first := findFreeIndex (canPosMap st) |} /\
  (forall j, j <> k -> selMap d st' !! j = selMap d st !! j) /\
  canPosMap st' = <[findFreeIndex (canPosMap st) := item]> (canPosMap st).
Proof.
  intros Hlen Hk He Hf Hbefore Hid Hofs Hl Hfree item st'.
  assert (Hfind : FindById (selMap d st) id = Some None).
  { rewrite FindById_visible by assumption.
    destruct (list_find _ _) as [[i x]|] eqn:E; [exfalso|reflexivity].
    apply list_find_Some in E as (Hx & Hcan & _).
    pose proof (visible_before_gap _ _ _ _ _ Hx He Hf) as Hi.
    apply visible_lookup in Hx as (Hx & _).
    destruct (Hbefore i x Hi Hx) as [_ Hne]. congruence. }
  assert (Hfe : findFreeEntry (selMap d st) = Some k).
  { eapply findFreeEntry_first; try eassumption.
    intros j x Hj Hx. apply (Hbefore j x Hj Hx). }
  split.
  - eapply Add_run; try eassumption.
    + right. auto.
    + rewrite canPosMap_setMap. assumption.
    + rewrite selMap_setMap, list_lookup_alter_eq, He. reflexivity.
    + simpl. rewrite Hf. unfold chain_fuel, findPreceding. rewrite Nat.eqb_refl. reflexivity.
  - subst st'. unfold Add_linked.
    rewrite !canPosMap_setMap, selMap_setMap, selMap_setPos, selMap_setMap.
    repeat split.
    + rewrite !list_lookup_alter_eq, He. reflexivity.
    + intros j Hj. rewrite !list_lookup_alter_ne by congruence. reflexivity.
Qed.

Lemma forEachCanMap_gap0 {St R : Type} (m : St -> list CANIDMAP)
    (body : nat -> CANIDMAP -> St -> option (Flow St R)) (s : St) :
  (MAX_MESSAGES <= length (m s))%nat ->
  (forall e, m s !! 0%nat = Some e -> first e = MAX_ITEMS) ->
  forEachCanMap m body s = Some (Next s).
Proof.
  intros Hlen Hgap. unfold forEachCanMap.
  destruct MAX_MESSAGES as [|n]; [reflexivity|]. simpl.
  destruct (m s !! 0%nat) as [e|] eqn:E.
  - rewrite (Hgap e eq_refl), Nat.eqb_refl. reflexivity.
  - apply lookup_ge_None in E. lia.
Qed.

Lemma forEachCanMap_loop_stop {St R : Type} (m : St -> list CANIDMAP)
    (body : nat -> CANIDMAP -> St -> option (Flow St R)) n c (s : St) :
  (n = 0 \/ c < length (m s))%nat ->
  (forall e, m s !! c = Some e -> first e = MAX_ITEMS) ->
  forEachCanMap_loop m body n c s = Some (Next s).
Proof.
  intros Hlen Hgap. destruct n as [|n]; [reflexivity|]. simpl.
  destruct (m s !! c) as [e|] eqn:E.
  - rewrite (Hgap e eq_refl), Nat.eqb_refl. reflexivity.
  - apply lookup_ge_None in E. lia.
Qed.

Lemma forEachCanMap_loop_step {St R : Type} (m : St -> list CANIDMAP)
    (body : nat -> CANIDMAP -> St -> option (Flow St R)) n c (s : St) e :
  m s !! c = Some e -> first e <> MAX_ITEMS ->
  forEachCanMap_loop m body (S n) c s
  = match body c e s with
    | Some (Next s') => forEachCanMap_loop m body n (S c) s'
    | r => r
    end.
Proof.
  intros He Hf. simpl. rewrite He. apply Nat.eqb_neq in Hf. rewrite Hf. reflexivity.
Qed.

Lemma forEachPosMap_loop_stop {St R : Type} (p : St -> list CANPOS)
    (body : nat -> CANPOS -> St -> option (Flow St R)) fuel c (s : St) pos :
  p s !! c = Some pos -> next pos = ITEM_UNSET ->
  forEachPosMap_loop p body (S fuel) c s = Some (Next s).
Proof. intros Hp Hn. simpl. rewrite Hp, Hn. reflexivity. Qed.

Lemma forEachPosMap_loop_step {St R : Type} (p : St -> list CANPOS)
    (body : nat -> CANPOS -> St -> option (Flow St R)) fuel c (s s' : St) pos pos' :
  p s !! c = Some pos -> next pos <> ITEM_UNSET ->
  body c pos s = Some (Next s') -> p s' !! c = Some pos' ->
  forEachPosMap_loop p body (S fuel) c s = forEachPosMap_loop p body fuel (next pos') s'.
Proof.
  intros Hp Hn Hb Hp'. simpl. rewrite Hp. apply Nat.eqb_neq in Hn. rewrite Hn, Hb, Hp'.
  reflexivity.
Qed.

Lemma FindById_head (t : list CANIDMAP) id e :
  (0 < MAX_MESSAGES)%nat -> t !! 0%nat = Some e -> first e <> MAX_ITEMS -> canId e = id ->
  FindById t id = Some (Some 0%nat).
Proof.
  intros Hm He Hf Hid. unfold FindById, forEachCanMap.
  destruct MAX_MESSAGES as [|n]; [lia|].
  rewrite (forEachCanMap_loop_step _ _ _ _ _ e He Hf).
  apply Z.eqb_eq in Hid. rewrite Hid. reflexivity.
Qed.

Lemma FindById_gap0 (t : list CANIDMAP) id :
  (MAX_MESSAGES <= length t)%nat ->
  (forall e, t !! 0%nat = Some e -> first e = MAX_ITEMS) ->
  FindById t id = Some None.
Proof.
  intros Hlen Hgap. unfold FindById. rewrite forEachCanMap_gap0; auto.
Qed.

End Gap.

Section Claims.
Context {cfg : BuildConfig} {store : Type} {PS : ParamStore store}.

Local Arguments findPreceding : simpl never.
Local Arguments FindById : simpl never.
Local Arguments countMessages : simpl never.
Local Arguments findFreeEntry : simpl never.
Local Arguments findFreeIndex : simpl never.
Local Arguments Add : simpl never.

Lemma unchanged_for_readers_refl (st : CanMap store) : unchanged_for_readers st st.
Proof. unfold unchanged_for_readers. repeat split; auto. Qed.

Lemma unchanged_for_readers_gap k d (st : CanMap store) t' :
  same_before_gap k (selMap d st) t' ->
  (forall j, first <$> t' !! j = first <$> selMap d st !! j) ->
  (forall j e, selMap d st !! j = Some e -> first e <> MAX_ITEMS -> t' !! j = Some e) ->
  unchanged_for_readers st (setMap d t' st).
Proof.
  intros Hgap Hfirst Huse. unfold unchanged_for_readers.
  split; [apply keeps_rest_setMap|].
  split; [apply canPosMap_setMap|].
  split; [|split; [|split; [|split; [|split; [|split]]]]].
  - intros d' j. destruct d, d'; simpl in *; auto.
  - intros d' j e He Hne. destruct d, d'; simpl in *; auto.
  - intros d' id. destruct d, d'; simpl in *; try reflexivity;
      apply (FindById_gap k); assumption.
  - intros p. apply (FindMap_gap k). assumption.
  - apply (IterateCanMap_gap k). assumption.
  - apply (SendAll_gap k). assumption.
  - intros id data Hid. rewrite (HandleRx_gap k) by assumption.
    destruct (HandleRx st id data) as [[s r]|]; [|reflexivity]. simpl.
    destruct d; reflexivity.
Qed.

(** C5: [Add] checks the identifier, the bit offset and the bit width in
    this order; the first one over its limit (0x1FFFFFFF, 63, 32) makes it
    return the matching error code with the state untouched, so no over-limit
    value is ever stored.  A "max messages" failure leaves the state
    untouched as well.  On a "max items" failure the only store that may
    have happened is the identifier written into the first free entry, which
    stays free: the pool, both tables' links and entries in use, the lookups,
    the iterations, the send sweep and the handling of mapped frames are as
    before. *)
Theorem C5_Add_rejects_and_keeps_the_table d (st : CanMap store) param id ofs len g off :
  (id > 0x1fffffff ->
   Add d st param id ofs len g off = Some (st, Fault CAN_ERR_INVALID_ID)) /\
  (id <= 0x1fffffff -> ofs > 63 ->
   Add d st param id ofs len g off = Some (st, Fault CAN_ERR_INVALID_OFS)) /\
  (id <= 0x1fffffff -> ofs <= 63 -> len > 32 ->
   Add d st param id ofs len g off = Some (st, Fault CAN_ERR_INVALID_LEN)) /\
  (forall st', Add d st param id ofs len g off = Some (st', Fault CAN_ERR_MAXMESSAGES) ->
               st' = st) /\
  (forall st', Add d st param id ofs len g off = Some (st', Fault CAN_ERR_MAXITEMS) ->
               unchanged_for_readers st st').
Proof.
  split; [|split; [|split; [|split]]].
  - intros H. unfold Add. assert (E : (id >? 536870911) = true) by lia. rewrite E. reflexivity.
  - intros H1 H2. unfold Add.
    assert (E1 : (id >? 536870911) = false) by lia.
    assert (E2 : (ofs >? 63) = true) by lia. rewrite E1, E2. reflexivity.
  - intros H1 H2 H3. unfold Add.
    assert (E1 : (id >? 536870911) = false) by lia.
    assert (E2 : (ofs >? 63) = false) by lia.
    assert (E3 : (len >? 32) = true) by lia. rewrite E1, E2, E3. reflexivity.
  - intros st' H. apply Add_cases in H.
    destruct H as [H|[H|[H|[H|[H|H]]]]].
    + destruct H as (_ & _ & ?). discriminate.
    + destruct H as (_ & _ & _ & ?). discriminate.
    + destruct H as (_ & _ & _ & _ & ?). discriminate.
    + destruct H as (_ & _ & -> & _). reflexivity.
    + destruct H as (i & _ & _ & ?). discriminate.
    + destruct H as (i & st1 & e & prec & n & H). decompose [and] H. discriminate.
  - intros st' H. apply Add_cases in H.
    destruct H as [H|[H|[H|[H|[H|H]]]]].
    + destruct H as (_ & _ & ?). discriminate.
    + destruct H as (_ & _ & _ & ?). discriminate.
    + destruct H as (_ & _ & _ & _ & ?). discriminate.
    + destruct H as (_ & _ & _ & ?). discriminate.
    + destruct H as (i & [[_ ->]|[_ [Hfree ->]]] & _ & _).
      * apply unchanged_for_readers_refl.
      * apply findFreeEntry_Some in Hfree as (Hi & (e & He & Hf) & _).
        apply (unchanged_for_readers_gap i).
        -- split; [eauto|]. split.
           ++ exists (set_canId (stored_canId id) e). rewrite list_lookup_alter_eq, He. auto.
           ++ intros j Hj. apply list_lookup_alter_ne. lia.
        -- intros j. destruct (decide (j = i)) as [->|Hne].
           ++ rewrite list_lookup_alter_eq, He. reflexivity.
           ++ rewrite list_lookup_alter_ne by congruence. reflexivity.
        -- intros j x Hx Hne. destruct (decide (j = i)) as [->|Hji].
           ++ congruence.
           ++ rewrite list_lookup_alter_ne by congruence. assumption.
    + destruct H as (i & st1 & e & prec & n & H). decompose [and] H. discriminate.
Qed.

(** X23: an entry whose head link is [MAX_ITEMS], as [Remove] leaves the
    entry of a message that has lost its bindings, ends every iteration
    over its table.  What the identifier lookup, [FindMap],
    [IterateCanMap], the send sweep and the handling of a mapped frame
    yield does not depend on the entries stored after it, populated or
    not, and a lookup never returns one of them.  When the entry is the
    first free one, [Add] of an identifier that no earlier entry holds
    writes the identifier to it, as the entry stores it, and makes a free
    slot of the pool the head of its chain. *)
Theorem X23_an_emptied_entry_ends_every_iteration d (st : CanMap store) k e :
  selMap d st !! k = Some e -> first e = MAX_ITEMS ->
  (forall t', same_before_gap k (selMap d st) t' ->
     (forall id, FindById t' id = FindById (selMap d st) id) /\
     (forall p, FindMap (setMap d t' st) p = FindMap st p) /\
     IterateCanMap (setMap d t' st) = IterateCanMap st /\
     canHardware <$> SendAll (setMap d t' st) = canHardware <$> SendAll st /\
     (forall id data, id <> Word.u32 (0x600 + nodeId st) ->
        HandleRx (setMap d t' st) id data = on_state (setMap d t') <$> HandleRx st id data)) /\
  (forall id i, FindById (selMap d st) id = Some (Some i) -> (i < k)%nat) /\
  (forall param id ofs len g off,
     (MAX_MESSAGES <= length (selMap d st))%nat -> (k < MAX_MESSAGES)%nat ->
     (forall j x, (j < k)%nat -> selMap d st !! j = Some x ->
                  first x <> MAX_ITEMS /\ canId x <> id) ->
     id <= 0x1fffffff -> ofs <= 63 -> len <= 32 ->
     findFreeIndex (canPosMap st) <> MAX_ITEMS ->
     exists st' n,
       Add d st param id ofs len g off = Some (st', Count n) /\
       selMap d st' !! k
       = Some {| canId := stored_canId id; first := findFreeIndex (canPosMap st) |} /\
       canPosMap st' !! findFreeIndex (canPosMap st)
       = Some {| mapParam := param; gain := g; offset := off; offsetBits := ofs;
                 numBits := len; next := MAX_ITEMS |}).
Proof.
  intros He Hf. split; [|split].
  - intros t' Hgap. split; [|split; [|split; [|split]]].
    + intros id. apply (FindById_gap k). assumption.
    + intros p. apply (FindMap_gap k). assumption.
    + apply (IterateCanMap_gap k). assumption.
    + apply (SendAll_gap k). assumption.
    + intros id data Hid. apply (HandleRx_gap k); assumption.
  - intros id i Hi. eapply FindById_before_gap; eassumption.
  - intros param id ofs len g off Hlen Hk Hbefore Hid Hofs Hl Hfree.
    destruct (Add_takes_gap d st param id ofs len g off k e Hlen Hk He Hf Hbefore
                Hid Hofs Hl Hfree) as (Hadd & Hentry & _ & Hpos).
    eexists _, _. split; [exact Hadd|]. split; [exact Hentry|].
    rewrite Hpos. apply list_lookup_insert_eq.
    apply findFreeIndex_free in Hfree as (_ & c & Hc & _).
    eapply lookup_lt_Some. eassumption.
Qed.

(** C4 (amended): the frames of the send sweep.  For every message the
    sweep visits, the frame sent carries, ORed into zeroes in chain order,
    one field per binding: the parameter read as a float, multiplied by the
    gain, the offset added to the product, the sum truncated to an integer,
    masked to [numBits] bits and shifted to the bit offset inside the word
    chosen by the offset (the high word from 32 on, the low word below). *)
Theorem C4_send_sweep_scales_by_gain_then_offset (st : CanMap store) chains :
  isSaving st = false ->
  shape_ok st ->
  Forall2 (fun e l => chain (canPosMap st) (first e) l) (visible (canSendMap st)) chains ->
  exists st',
    SendAll st = Some st' /\
    sent (canHardware st')
    = sent (canHardware st)
      ++ zip_with (frame_of scale_gain_offset (params st)) (visible (canSendMap st)) chains /\
    canSendMap st' = canSendMap st /\ canRecvMap st' = canRecvMap st /\
    canPosMap st' = canPosMap st /\ params st' = params st.
Proof.
  intros Hsav (Hs & _ & Hp & _) Hch.
  destruct (SendAll_loop st Hsav Hp MAX_MESSAGES 0 chains (canHardware st))
    as (hw' & Hrun & _ & _ & _ & Hsent).
  { rewrite drop_0. lia. }
  { rewrite drop_0. exact Hch. }
  unfold SendAll, forEachCanMap.
  match goal with
  | |- context [forEachCanMap_loop ?a ?b ?c ?d ?e] =>
      replace (forEachCanMap_loop a b c d e) with (Some (Next (R := unit) hw'))
        by (symmetry; exact Hrun)
  end.
  eexists. split; [reflexivity|]. simpl.
  rewrite Hsent, drop_0. auto.
Qed.

Lemma SDO_abort_reply data :
  SDO.cmd (SDO.set_data SDO_ERR_INVIDX (SDO.set_cmd SDO_ABORT data)) = 0x80 /\
  SDO.data (SDO.set_data SDO_ERR_INVIDX (SDO.set_cmd SDO_ABORT data)) = 0x06020000.
Proof.
  split; [|reflexivity].
  change (SDO.cmd (SDO.set_data SDO_ERR_INVIDX (SDO.set_cmd SDO_ABORT data)))
    with (SDO.cmd (SDO.set_cmd SDO_ABORT data)).
  apply SDO_cmd_set_cmd. unfold SDO_ABORT. lia.
Qed.

Lemma HandleRx_sdo_reply (st : CanMap store) data :
  shape_ok st -> chains_end st ->
  exists st' reply,
    HandleRx st (Word.u32 (0x600 + nodeId st)) data = Some (st', true) /\
    sent (canHardware st')
    = sent (canHardware st) ++ [(Word.u32 (0x580 + nodeId st), reply)] /\
    (~ (0x2000 <= SDO.index data <= 0x2001) ->
     ~ (0x3000 <= SDO.index data <= 0x47FF) ->
     reply = SDO.set_data SDO_ERR_INVIDX (SDO.set_cmd SDO_ABORT data)).
Proof.
  intros Hs Hc.
  destruct (ProcessSDO_reply st data Hs Hc) as (st' & reply & Hrun & _ & Hsent & Hinv).
  exists st', reply. unfold HandleRx. rewrite Z.eqb_refl, Hrun. auto.
Qed.

(** C7: a frame on [0x600 + nodeId] is claimed, and its handling hands
    exactly one frame to the transport, on [0x580 + nodeId]; when the index
    of the request is outside 0x2000..0x2001 and outside 0x3000..0x47FF the
    reply has the command byte 0x80 and the data 0x06020000.  The tables
    are taken with their declared sizes and with chains that lead to the
    end marker, which is what lets the [Add] behind a mapping request
    return. *)
Theorem C7_SDO_request_is_answered_once (st : CanMap store) data :
  shape_ok st -> chains_end st ->
  exists st' reply,
    HandleRx st (Word.u32 (0x600 + nodeId st)) data = Some (st', true) /\
    sent (canHardware st')
    = sent (canHardware st) ++ [(Word.u32 (0x580 + nodeId st), reply)] /\
    (~ (0x2000 <= SDO.index data <= 0x2001) ->
     ~ (0x3000 <= SDO.index data <= 0x47FF) ->
     SDO.cmd reply = 0x80 /\ SDO.data reply = 0x06020000).
Proof.
  intros Hs Hc.
  destruct (HandleRx_sdo_reply st data Hs Hc) as (st' & reply & Hrun & Hsent & Hinv).
  exists st', reply. split; [exact Hrun|]. split; [exact Hsent|].
  intros H1 H2. rewrite (Hinv H1 H2). apply SDO_abort_reply.
Qed.

Lemma setSaving_twice b b' (st : CanMap store) :
  setSaving b (setSaving b' st) = setSaving b st.
Proof. reflexivity. Qed.

(** C9: the flag [isSaving] plays no part in the handling of a frame on
    [0x600 + nodeId]: with the flag set the request is processed, answered
    and claimed exactly as with the flag clear, whatever it does to the
    tables, while every other frame is turned down with the state
    untouched. *)
Theorem C9_SDO_is_processed_while_saving (st : CanMap store) data :
  HandleRx (setSaving true st) (Word.u32 (0x600 + nodeId st)) data
  = on_state (setSaving true)
      <$> HandleRx (setSaving false st) (Word.u32 (0x600 + nodeId st)) data /\
  (shape_ok st -> chains_end st ->
   exists st' reply,
     HandleRx (setSaving true st) (Word.u32 (0x600 + nodeId st)) data = Some (st', true) /\
     sent (canHardware st')
     = sent (canHardware st) ++ [(Word.u32 (0x580 + nodeId st), reply)]) /\
  (forall id, id <> Word.u32 (0x600 + nodeId st) ->
     HandleRx (setSaving true st) id data = Some (setSaving true st, false)).
Proof.
  split; [|split].
  - rewrite (HandleRx_sdo_setSaving true), (HandleRx_sdo_setSaving false).
    destruct (HandleRx st _ data) as [[s r]|]; reflexivity.
  - intros Hs Hc.
    destruct (HandleRx_sdo_reply (setSaving true st) data)
      as (st' & reply & Hrun & Hsent & _); [exact Hs|exact Hc|].
    exists st', reply. split; [exact Hrun|exact Hsent].
  - intros id Hid. unfold HandleRx. apply Z.eqb_neq in Hid.
    change (nodeId (setSaving true st)) with (nodeId st). rewrite Hid. reflexivity.
Qed.

Lemma existsb_eqb_false (id : Z) (l : list Z) :
  id ∉ l -> existsb (Z.eqb id) l = false.
Proof.
  intros Hn. destruct (existsb (Z.eqb id) l) eqn:E; [exfalso|reflexivity].
  apply existsb_exists in E as (x & Hx & Heq).
  apply Z.eqb_eq in Heq. subst x. apply Hn. by apply list_elem_of_In.
Qed.

(** C10: [AddRecv] calls [RegisterUserMessage] with the identifier whatever
    [Add] returned.  So also after an [Add] that failed, with any of the
    five error codes, an identifier that was not registered is, while the
    list has room, stored in the list of user messages, the count of
    registered identifiers grows by one and the filters are configured
    again; the tables are as the failed [Add] left them. *)
Theorem C10_AddRecv_registers_whatever_Add_returns (st : CanMap store)
    param id ofs len g off :
  AddRecv st param id ofs len g off
  = (fun r => (setHw (fst (RegisterUserMessage (canHardware st) id)) r.1, r.2))
      <$> Add RecvMap st param id ofs len g off /\
  (forall st1 e,
     Add RecvMap st param id ofs len g off = Some (st1, Fault e) ->
     (nextUserMessageIndex (canHardware st) < MAX_USER_MESSAGES)%nat ->
     (nextUserMessageIndex (canHardware st) < length (userIds (canHardware st)))%nat ->
     id ∉ take (nextUserMessageIndex (canHardware st)) (userIds (canHardware st)) ->
     exists st',
       AddRecv st param id ofs len g off = Some (st', Fault e) /\
       userIds (canHardware st') !! nextUserMessageIndex (canHardware st) = Some id /\
       nextUserMessageIndex (canHardware st') = S (nextUserMessageIndex (canHardware st)) /\
       filterConfigs (canHardware st') = S (filterConfigs (canHardware st)) /\
       canSendMap st' = canSendMap st1 /\ canRecvMap st' = canRecvMap st1 /\
       canPosMap st' = canPosMap st1).
Proof.
  assert (Heq : AddRecv st param id ofs len g off
    = (fun r => (setHw (fst (RegisterUserMessage (canHardware st) id)) r.1, r.2))
        <$> Add RecvMap st param id ofs len g off).
  { unfold AddRecv.
    destruct (Add RecvMap st param id ofs len g off) as [[st1 r]|] eqn:E; [|reflexivity].
    apply Add_keeps_rest in E as (Hhw & _). simpl. rewrite Hhw. reflexivity. }
  split; [exact Heq|].
  intros st1 e Hadd Hroom Hlen Hnew.
  rewrite Heq, Hadd. simpl. eexists. split; [reflexivity|].
  unfold RegisterUserMessage.
  apply Nat.ltb_lt in Hroom. rewrite Hroom, (existsb_eqb_false _ _ Hnew). simpl.
  rewrite list_lookup_insert_eq by assumption. auto 10.
Qed.

End Claims.

Section LoadClaims.
Context {cfg : BuildConfig} {store : Type} {PS : ParamStore store} {FI : FlashImage}.

Lemma ClearMap_empty (st : CanMap store) :
  empty_table (ClearMap RecvMap (ClearMap SendMap st)).
Proof.
  split.
  - intros d j e. destruct d; simpl; rewrite list_lookup_fmap;
      destruct (_ !! j); simpl; intros [= <-]; reflexivity.
  - intros j c. simpl. rewrite !list_lookup_fmap.
    destruct (_ !! j); simpl; intros [= <-]; reflexivity.
Qed.

(** C8: when the word stored at [CRC_ADDRESS], behind the three arrays,
    differs from the checksum computed over the three regions that are
    saved, [LoadFromFlash] returns 0 and leaves the object as it was,
    nothing copied; the constructor, which cleared both tables and the
    pool just before, then ends with the empty table: every head link at
    [MAX_ITEMS], every slot of the pool free, no identifier registered on
    behalf of the map. *)
Theorem C8_load_keeps_the_empty_table_on_a_bad_checksum (flash : nat -> Z)
    (st : CanMap store) :
  flash CRC_ADDRESS
  <> crc_calculate_block
       (flash_words flash 0 (SENDMAP_WORDS + RECVMAP_WORDS + POSMAP_WORDS)) ->
  LoadFromFlash flash st = Some (st, 0) /\
  forall raw : CanMap store,
    (MAX_MESSAGES <= length (canRecvMap raw))%nat ->
    CanMap_new raw flash = Some (ClearMap RecvMap (ClearMap SendMap (setNodeId 1 raw))) /\
    empty_table (ClearMap RecvMap (ClearMap SendMap (setNodeId 1 raw))) /\
    canHardware (ClearMap RecvMap (ClearMap SendMap (setNodeId 1 raw))) = canHardware raw.
Proof.
  intros Hcrc.
  assert (Hload : forall s : CanMap store, LoadFromFlash flash s = Some (s, 0)).
  { intros s. unfold LoadFromFlash. apply Z.eqb_neq in Hcrc. rewrite Hcrc. reflexivity. }
  split; [apply Hload|].
  intros raw Hlen. split; [|split; [apply ClearMap_empty|reflexivity]].
  unfold CanMap_new. rewrite Hload. simpl.
  unfold HandleClear.
  rewrite forEachCanMap_gap0.
  - reflexivity.
  - simpl. rewrite length_fmap. exact Hlen.
  - intros e. simpl. rewrite list_lookup_fmap.
    destruct (canRecvMap raw !! 0%nat); simpl; intros [= <-]; reflexivity.
Qed.

End LoadClaims.

Section Scenario.
Context {cfg : BuildConfig} {store : Type} {PS : ParamStore store}.

Local Arguments findPreceding : simpl never.
Local Arguments FindById : simpl never.
Local Arguments countMessages : simpl never.
Local Arguments findFreeEntry : simpl never.
Local Arguments findFreeIndex : simpl never.
Local Arguments Add : simpl never.

Lemma field_0xAB :
  F32.mul (F32.add (F32.of_Z (Z.land (Word.shr 0xAB 0) (Word.mask 8))) (F32.of_Z 0))
          (F32.of_Z 1)
  = F32.of_Z 171.
Proof. vm_compute. reflexivity. Qed.

Lemma not_the_sdo_id (n : Z) : 0 <= n < 256 -> (0x201 =? Word.u32 (0x600 + n)) = false.
Proof.
  intros Hn. apply Z.eqb_neq. unfold Word.u32.
  rewrite Z.mod_small; [lia|]. change (2 ^ 32) with 4294967296. lia.
Qed.

(** the receive loop over a chain of one binding *)
Lemma HandleRx_one_binding (st : CanMap store) id data e item :
  (0 < MAX_MESSAGES)%nat -> MAX_ITEMS <> ITEM_UNSET ->
  id <> Word.u32 (0x600 + nodeId st) -> isSaving st = false ->
  canRecvMap st !! 0%nat = Some e -> canId e = id -> first e <> MAX_ITEMS ->
  canPosMap st !! first e = Some item -> next item = MAX_ITEMS ->
  (exists c, canPosMap st !! MAX_ITEMS = Some c /\ next c = ITEM_UNSET) ->
  HandleRx st id data
  = Some (setParams
            (Param_write (params st) (mapParam item)
               (F32.mul
                  (F32.add
                     (if offsetBits item >? 31
                      then F32.of_Z (Z.land (Word.shr (snd data) (offsetBits item - 32))
                                            (Word.mask (numBits item)))
                      else F32.of_Z (Z.land (Word.shr (fst data) (offsetBits item))
                                            (Word.mask (numBits item))))
                     (F32.of_Z (offset item)))
                  (gain item))) st, true).
Proof.
  intros Hm Hunset Hid Hsav He Hcan Hfirst Hitem Hnext (c & Hc & Hcn).
  unfold HandleRx. apply Z.eqb_neq in Hid. rewrite Hid, Hsav.
  rewrite (FindById_head _ _ e Hm He Hfirst Hcan). simpl. rewrite He. simpl.
  assert (Hchain : chain (canPosMap st) (first e) [(first e, item)]).
  { apply path_cons.
    - intros (x & Hx & Hxn). congruence.
    - exact Hitem.
    - rewrite Hnext. apply path_nil. exists c. auto. }
  unfold forEachPosMap.
  match goal with
  | |- context [forEachPosMap_loop ?p ?b ?fu ?c0 ?s0] =>
      assert (Hrun : forEachPosMap_loop (R := unit) p b fu c0 s0
                = Some (Next (foldl (fun ps ic =>
                    Param_write ps (mapParam ic.2)
                      (F32.mul
                         (F32.add
                            (if offsetBits ic.2 >? 31
                             then F32.of_Z (Z.land (Word.shr (snd data) (offsetBits ic.2 - 32))
                                                   (Word.mask (numBits ic.2)))
                             else F32.of_Z (Z.land (Word.shr (fst data) (offsetBits ic.2))
                                                   (Word.mask (numBits ic.2))))
                            (F32.of_Z (offset ic.2)))
                         (gain ic.2))) s0 [(first e, item)])))
  end.
  { apply (forEachPosMap_loop_fold (canPosMap st)
             (fun pos ps =>
                Param_write ps (mapParam pos)
                  (F32.mul
                     (F32.add
                        (if offsetBits pos >? 31
                         then F32.of_Z (Z.land (Word.shr (snd data) (offsetBits pos - 32))
                                               (Word.mask (numBits pos)))
                         else F32.of_Z (Z.land (Word.shr (fst data) (offsetBits pos))
                                               (Word.mask (numBits pos))))
                        (F32.of_Z (offset pos)))
                     (gain pos)))).
    - intros _ pos ps. unfold Param_write.
      destruct (Param_IsParam (mapParam pos)); reflexivity.
    - exact Hchain.
    - unfold chain_fuel. simpl. lia. }
  rewrite Hrun. reflexivity.
Qed.

Lemma RemoveFromMap_gap0 d (st : CanMap store) P :
  (MAX_MESSAGES <= length (selMap d st))%nat ->
  (forall e, selMap d st !! 0%nat = Some e -> first e = MAX_ITEMS) ->
  RemoveFromMap d st P = Some (st, 0).
Proof.
  intros Hlen Hgap. unfold RemoveFromMap. rewrite forEachCanMap_gap0; auto.
Qed.

(** the removal of the only binding of the first message of a table whose
    second entry is free *)
Lemma RemoveFromMap_only_binding d (st : CanMap store) P e item :
  MAX_ITEMS <> ITEM_UNSET ->
  length (selMap d st) = MAX_MESSAGES ->
  selMap d st !! 0%nat = Some e -> first e <> MAX_ITEMS ->
  canPosMap st !! first e = Some item -> mapParam item = P -> next item = MAX_ITEMS ->
  (exists c, canPosMap st !! MAX_ITEMS = Some c /\ next c = ITEM_UNSET) ->
  (forall x, selMap d st !! 1%nat = Some x -> first x = MAX_ITEMS) ->
  RemoveFromMap d st P
  = Some (setMap d (alter (set_first MAX_ITEMS) 0%nat (selMap d st)) st, 0).
Proof.
  intros Hunset Hlen He Hfirst Hitem Hparam Hnext (c & Hc & Hcn) Hsecond.
  unfold RemoveFromMap, forEachCanMap.
  destruct MAX_MESSAGES as [|m] eqn:HM.
  { apply lookup_lt_Some in He. lia. }
  rewrite (forEachCanMap_loop_step (fun s : CanMap store * option nat => selMap d (fst s))
             _ _ _ (st, None) e He Hfirst).
  unfold forEachPosMap, chain_fuel.
  rewrite (forEachPosMap_loop_step (fun s : CanMap store * option nat => canPosMap (fst s))
             _ _ _ (st, None)
             (setMap d (alter (set_first MAX_ITEMS) 0%nat (selMap d st)) st, Some (first e))
             item item).
  - rewrite Hnext.
    rewrite (forEachPosMap_loop_stop (fun s : CanMap store * option nat => canPosMap (fst s))
               _ _ _ _ c).
    + rewrite forEachCanMap_loop_stop; [reflexivity| |].
      * simpl. rewrite selMap_setMap, length_alter, Hlen. lia.
      * intros x. simpl. rewrite selMap_setMap, list_lookup_alter_ne by lia. apply Hsecond.
    + simpl. rewrite canPosMap_setMap. exact Hc.
    + exact Hcn.
  - exact Hitem.
  - rewrite Hnext. exact Hunset.
  - simpl. apply Z.eqb_eq in Hparam. rewrite Hparam, Hnext. reflexivity.
  - simpl. rewrite canPosMap_setMap. exact Hitem.
Qed.

(** C6: on an empty table, [AddRecv] of parameter [P] on identifier 0x201
    with bit offset 0, width 8, gain 1.0 and offset 0 succeeds; a frame
    0x201 with the low word 0x000000AB is then claimed and writes 171.0 to
    [P], through [Set] or [SetFloat] according to the kind of [P], the field
    being the low 8 bits of the low word, read as an unsigned integer, plus
    the offset, times the gain.  After [Remove] of [P] the same frame is
    turned down and nothing at all changes, the parameter store included. *)
Theorem C6_receive_then_remove (st0 : CanMap store) (P hi : Z) :
  (0 < MAX_ITEMS)%nat -> MAX_ITEMS <> ITEM_UNSET -> (0 < MAX_MESSAGES)%nat ->
  shape_ok st0 -> empty_table st0 -> isSaving st0 = false ->
  exists st1 n st2 st3 removed,
    AddRecv st0 P 0x201 0 8 (F32.of_Z 1) 0 = Some (st1, Count n) /\
    HandleRx st1 0x201 (0xAB, hi) = Some (st2, true) /\
    params st2 = Param_write (params st0) P (F32.of_Z 171) /\
    Remove st2 P = Some (st3, removed) /\
    HandleRx st3 0x201 (0xAB, hi) = Some (st3, false) /\
    params st3 = params st2.
Proof.
  intros Hitems Hunset Hmsgs (Hs & Hr & Hp & Hnode) (Hheads & Hslots) Hsav.
  destruct (lookup_lt_is_Some_2 (canRecvMap st0) 0%nat) as [e0 He0]; [lia|].
  destruct (lookup_lt_is_Some_2 (canPosMap st0) 0%nat) as [c0 Hc0]; [lia|].
  destruct (lookup_lt_is_Some_2 (canPosMap st0) MAX_ITEMS) as [cN HcN]; [lia|].
  assert (Hfree : findFreeIndex (canPosMap st0) = 0%nat).
  { eapply findFreeIndex_first; [exact Hitems|exact Hc0|eauto|intros; lia]. }
  assert (Hgap0 : first e0 = MAX_ITEMS) by (apply (Hheads RecvMap 0%nat); exact He0).
  assert (Hnone : forall j x, (j < 0)%nat -> selMap RecvMap st0 !! j = Some x ->
                              first x <> MAX_ITEMS /\ canId x <> 0x201) by (intros; lia).
  assert (Hroom : findFreeIndex (canPosMap st0) <> MAX_ITEMS) by (rewrite Hfree; lia).
  assert (Hlen0 : (MAX_MESSAGES <= length (selMap RecvMap st0))%nat) by (simpl; lia).
  destruct (Add_takes_gap RecvMap st0 P 0x201 0 8 (F32.of_Z 1) 0 0%nat e0
              Hlen0 Hmsgs He0 Hgap0 Hnone ltac:(lia) ltac:(lia) ltac:(lia) Hroom)
    as (Hadd & Hentry & Hothers & Hpos).
  rewrite (stored_canId_small 0x201) in Hadd, Hentry, Hothers, Hpos by lia.
  pose proof (Add_keeps_rest _ _ _ _ _ _ _ _ _ _ Hadd) as (Khw & Knode & Ksav & Kpar).
  pose proof (eq_refl : canSendMap
    (Add_linked RecvMap (setMap RecvMap (alter (set_canId 513) 0%nat (selMap RecvMap st0)) st0)
       0%nat {| mapParam := P; gain := F32.of_Z 1; offset := 0; offsetBits := 0;
                numBits := 8; next := MAX_ITEMS |} None) = canSendMap st0) as Hsend.
  assert (Hrlen : length (canRecvMap
    (Add_linked RecvMap (setMap RecvMap (alter (set_canId 513) 0%nat (selMap RecvMap st0)) st0)
       0%nat {| mapParam := P; gain := F32.of_Z 1; offset := 0; offsetBits := 0;
                numBits := 8; next := MAX_ITEMS |} None)) = MAX_MESSAGES).
  { simpl. rewrite !length_alter. exact Hr. }
  set (item := {| mapParam := P; gain := F32.of_Z 1; offset := 0; offsetBits := 0;
                  numBits := 8; next := MAX_ITEMS |}) in *.
  set (st' := Add_linked RecvMap _ 0%nat item None) in *.
  clearbody st'. rewrite Hfree in Hentry, Hpos. simpl in Hentry, Hothers.
  set (hw1 := fst (RegisterUserMessage (canHardware st') 513)).
  assert (Hitem0 : canPosMap st' !! 0%nat = Some item).
  { rewrite Hpos. apply list_lookup_insert_eq. lia. }
  assert (HitemN : exists c, canPosMap st' !! MAX_ITEMS = Some c /\ next c = ITEM_UNSET).
  { exists cN. rewrite Hpos, list_lookup_insert_ne by lia. eauto. }
  assert (Hrx : HandleRx (setHw hw1 st') 513 (171, hi)
                = Some (setParams (Param_write (params st0) P (F32.of_Z 171)) (setHw hw1 st'),
                        true)).
  { erewrite (HandleRx_one_binding (setHw hw1 st') 513 (171, hi) _ item);
      try eassumption; try reflexivity.
    - rewrite <- Kpar, <- field_0xAB. reflexivity.
    - simpl. rewrite Knode. apply Z.eqb_neq. apply not_the_sdo_id. exact Hnode.
    - simpl. congruence.
    - simpl. lia. }
  set (st2 := setParams _ (setHw hw1 st')) in *.
  assert (Hrm1 : RemoveFromMap SendMap st2 P = Some (st2, 0)).
  { apply RemoveFromMap_gap0.
    - simpl. rewrite Hsend. lia.
    - intros e. simpl. rewrite Hsend. apply (Hheads SendMap). }
  assert (Hrm2 : RemoveFromMap RecvMap st2 P
                 = Some (setMap RecvMap (alter (set_first MAX_ITEMS) 0%nat (canRecvMap st2)) st2, 0)).
  { apply (RemoveFromMap_only_binding RecvMap st2 P {| canId := 513; first := 0 |} item);
      try assumption; try reflexivity.
    - simpl. lia.
    - intros x. simpl. rewrite Hothers by lia. apply (Hheads RecvMap). }
  exists (setHw hw1 st'), (length (visible (selMap RecvMap st'))), st2,
    (setMap RecvMap (alter (set_first MAX_ITEMS) 0%nat (canRecvMap st2)) st2), 0.
  split.
  { unfold AddRecv. rewrite Hadd. reflexivity. }
  split; [exact Hrx|]. split; [reflexivity|].
  split.
  { unfold Remove. rewrite Hrm1. simpl. rewrite Hrm2. reflexivity. }
  split; [|reflexivity].
  unfold HandleRx.
  replace (nodeId (setMap RecvMap _ st2)) with (nodeId st0) by (simpl; congruence).
  rewrite (not_the_sdo_id _ Hnode).
  replace (isSaving (setMap RecvMap _ st2)) with false by (simpl; congruence).
  rewrite FindById_gap0; [reflexivity| |].
  - simpl. rewrite length_alter. lia.
  - intros e. simpl. rewrite list_lookup_alter_eq, Hentry. simpl. intros [= <-]. reflexivity.
Qed.

Lemma empty_table_chains_end (st : CanMap store) : empty_table st -> chains_end st.
Proof.
  intros [Hheads _] d j e He. exists []. apply path_nil.
  unfold at_end. eapply Hheads. eassumption.
Qed.

End Scenario.

(** ** The invariant of the tables *)

Section Invariant.
Context {cfg : BuildConfig} {store : Type} {PS : ParamStore store}.

Local Arguments findPreceding : simpl never.
Local Arguments FindById : simpl never.
Local Arguments countMessages : simpl never.
Local Arguments findFreeEntry : simpl never.
Local Arguments findFreeIndex : simpl never.
Local Arguments Add : simpl never.

(** a walk to the end marker passes no free slot *)
Lemma path_links_set (p : list CANPOS) i l :
  (MAX_ITEMS < ITEM_UNSET)%nat -> length p = S MAX_ITEMS ->
  path p at_end i l -> Forall (fun ic => next ic.2 <> ITEM_UNSET) l.
Proof.
  intros Hmax Hlen. induction 1 as [i Hs|i c l Hs Hc Hp IH]; constructor; [|assumption].
  simpl. inversion Hp as [k Hk|k c' l' Hk Hc' Hp']; subst.
  - unfold at_end in Hk. lia.
  - apply lookup_lt_Some in Hc'. lia.
Qed.

Lemma path_last (p : list CANPOS) i l j cj :
  path p at_end i l -> last l = Some (j, cj) ->
  p !! j = Some cj /\ next cj = MAX_ITEMS /\ j <> MAX_ITEMS.
Proof.
  induction 1 as [i Hs|i c l Hs Hc Hp IH]; [discriminate|].
  destruct l as [|x l'].
  - simpl. intros [= <- <-]. inversion Hp as [k Hk|]; subst.
    unfold at_end in *. auto.
  - intros Hl. apply IH. exact Hl.
Qed.

(** a store to a slot that a walk does not pass leaves the walk as it is *)
Lemma path_insert_off (p : list CANPOS) i l k x :
  path p at_end i l -> Forall (fun ic => ic.1 <> k) l ->
  path (<[k := x]> p) at_end i l.
Proof.
  induction 1 as [i Hs|i c l Hs Hc Hp IH]; intros Hoff.
  - by constructor.
  - inversion Hoff as [|? ? Hk Hrest]; subst. simpl in Hk.
    constructor; [assumption| |auto].
    rewrite list_lookup_insert_ne by congruence. assumption.
Qed.

(** the walks once a binding sits in the free slot [k] and is linked
    after [j], the last slot of a chain *)
Lemma path_after_link (p : list CANPOS) i l k j cj item :
  path p at_end i l -> Forall (fun ic => ic.1 <> k) l ->
  p !! j = Some cj -> j <> k -> (k < length p)%nat -> k <> MAX_ITEMS ->
  next item = MAX_ITEMS ->
  exists l', path (alter (set_next k) j (<[k := item]> p)) at_end i l'.
Proof.
  intros Hp Hoff Hj Hjk Hk HkN Hitem.
  induction Hp as [i Hs|i c l Hs Hc Hp IH].
  - exists []. by constructor.
  - inversion Hoff as [|? ? Hik Hrest]; subst. simpl in Hik.
    destruct (decide (i = j)) as [->|Hij].
    + exists [(j, set_next k cj); (k, item)].
      constructor; [assumption| |].
      * rewrite list_lookup_alter_eq, list_lookup_insert_ne, Hj by congruence. reflexivity.
      * simpl. constructor; [exact HkN| |].
        -- rewrite list_lookup_alter_ne, list_lookup_insert_eq by congruence. reflexivity.
        -- rewrite Hitem. by constructor.
    + destruct (IH Hrest) as [l' Hl'].
      exists ((i, c) :: l'). constructor; [assumption| |assumption].
      rewrite list_lookup_alter_ne, list_lookup_insert_ne by congruence. assumption.
Qed.

Lemma path_nodes_off_free (p : list CANPOS) i l k ck :
  (MAX_ITEMS < ITEM_UNSET)%nat -> length p = S MAX_ITEMS ->
  path p at_end i l -> p !! k = Some ck -> next ck = ITEM_UNSET ->
  Forall (fun ic => ic.1 <> k) l.
Proof.
  intros Hmax Hlen Hp Hk Hnk.
  pose proof (path_links_set _ _ _ Hmax Hlen Hp) as Hset.
  clear Hmax Hlen.
  induction Hp as [i Hs|i c l Hs Hc Hp IH]; constructor.
  - simpl. inversion Hset; subst. simpl in *. congruence.
  - apply IH. inversion Hset; subst. assumption.
Qed.

Lemma selMap_setMap_lookup d d' t (st : CanMap store) j e :
  selMap d' (setMap d t st) !! j = Some e ->
  (d' = d /\ t !! j = Some e) \/ selMap d' st !! j = Some e.
Proof. destruct d, d'; simpl; auto. Qed.

(** a table in which entries changed, but no head link, has the chains it
    had *)
Lemma chains_end_same_links d (st : CanMap store) t :
  (forall j e, t !! j = Some e ->
     exists e0, selMap d st !! j = Some e0 /\ first e = first e0) ->
  chains_end st -> chains_end (setMap d t st).
Proof.
  intros Hsame Hch d' j e He. rewrite canPosMap_setMap.
  apply selMap_setMap_lookup in He as [[-> He]|He].
  - destruct (Hsame j e He) as (e0 & He0 & ->). apply (Hch d j e0 He0).
  - apply (Hch d' j e He).
Qed.

Lemma Add_entry_chains_end d (st : CanMap store) id i st1 :
  Add_entry d st id i st1 -> chains_end st -> chains_end st1.
Proof.
  intros [[_ ->]|[_ [_ ->]]] Hch; [assumption|].
  apply chains_end_same_links; [|assumption].
  intros j e He. destruct (decide (j = i)) as [->|Hne].
  - rewrite list_lookup_alter_eq in He.
    destruct (selMap d st !! i) as [e0|]; [|discriminate].
    injection He as <-. eauto.
  - rewrite list_lookup_alter_ne in He by congruence. eauto.
Qed.

Lemma Add_entry_shape_ok d (st : CanMap store) id i st1 :
  Add_entry d st id i st1 -> shape_ok st -> shape_ok st1.
Proof.
  intros [[_ ->]|[_ [_ ->]]] Hs; [assumption|].
  destruct Hs as (H1 & H2 & H3 & H4).
  destruct d; repeat split; simpl; rewrite ?length_alter; first [assumption|lia].
Qed.

Lemma path_alter_off (p : list CANPOS) i l k f :
  path p at_end i l -> Forall (fun ic => ic.1 <> k) l ->
  path (alter f k p) at_end i l.
Proof.
  induction 1 as [i Hs|i c l Hs Hc Hp IH]; intros Hoff.
  - by constructor.
  - inversion Hoff as [|? ? Hk Hrest]; subst. simpl in Hk.
    constructor; [assumption| |auto].
    rewrite list_lookup_alter_ne by congruence. assumption.
Qed.

Lemma at_unset_insert_off (p : list CANPOS) k x :
  k <> MAX_ITEMS -> at_unset p MAX_ITEMS -> at_unset (<[k := x]> p) MAX_ITEMS.
Proof.
  intros Hk (c & Hc & Hn). exists c. rewrite list_lookup_insert_ne by congruence. auto.
Qed.

Lemma at_unset_alter_off (p : list CANPOS) k f :
  k <> MAX_ITEMS -> at_unset p MAX_ITEMS -> at_unset (alter f k p) MAX_ITEMS.
Proof.
  intros Hk (c & Hc & Hn). exists c. rewrite list_lookup_alter_ne by congruence. auto.
Qed.

Lemma Add_linked_well_formed d (st1 : CanMap store) i e item prec :
  well_formed st1 ->
  selMap d st1 !! i = Some e ->
  findFreeIndex (canPosMap st1) <> MAX_ITEMS ->
  findPreceding (canPosMap st1) chain_fuel (first e) None = Some prec ->
  next item = MAX_ITEMS ->
  well_formed (Add_linked d st1 i item prec).
Proof.
  intros (Hmax & Hshape & Hch & Hsent) He Hfree Hprec Hitem.
  pose proof Hshape as (Hs & Hr & Hp & Hn).
  destruct (findFreeIndex_free _ Hfree) as (Hk & ck & Hck & Hnk).
  set (k := findFreeIndex (canPosMap st1)) in *.
  assert (Hoff : forall i0 l0, path (canPosMap st1) at_end i0 l0 ->
                               Forall (fun ic => ic.1 <> k) l0).
  { intros i0 l0 Hl0. eapply path_nodes_off_free; eassumption. }
  destruct (Hch d i e He) as [l Hl].
  rewrite (findPreceding_path _ _ _ Hl) in Hprec.
  2:{ apply path_at_end_length in Hl; [|assumption]. unfold chain_fuel. lia. }
  unfold Add_linked. fold k.
  split; [exact Hmax|]. split; [|split].
  - destruct prec; destruct d; repeat split; simpl;
      rewrite ?length_alter, ?length_insert; first [assumption|lia].
  - destruct (last l) as [[j0 cj]|] eqn:Hlast; injection Hprec as <-.
    + destruct (path_last _ _ _ _ _ Hl Hlast) as (Hj0 & Hnj & Hj0N).
      assert (Hjk : j0 <> k).
      { intros Heq. rewrite Heq in Hj0. assert (cj = ck) by congruence. subst cj. lia. }
      intros d' j e' He'. rewrite selMap_setPos, selMap_setPos in He'.
      destruct (Hch d' j e' He') as [l' Hl'].
      simpl. eapply path_after_link; try eassumption;
        first [apply (Hoff _ _ Hl')|lia].
    + assert (Hempty : first e = MAX_ITEMS).
      { destruct l; [|apply last_None in Hlast; discriminate].
        inversion Hl. assumption. }
      intros d' j e' He'. rewrite canPosMap_setMap. simpl.
      assert (Hold : forall e0, selMap d' st1 !! j = Some e0 ->
                exists l0, path (<[k := item]> (canPosMap st1)) at_end (first e0) l0).
      { intros e0 He0. destruct (Hch d' j e0 He0) as [l0 Hl0].
        exists l0. apply path_insert_off; [assumption|]. apply (Hoff _ _ Hl0). }
      apply selMap_setMap_lookup in He' as [[-> He']|He'].
      * rewrite selMap_setPos in He'.
        destruct (decide (j = i)) as [->|Hne].
        -- rewrite list_lookup_alter_eq, He in He'. injection He' as <-. simpl.
           exists [(k, item)]. constructor.
           ++ unfold at_end. lia.
           ++ apply list_lookup_insert_eq. lia.
           ++ rewrite Hitem. by constructor.
        -- rewrite list_lookup_alter_ne in He' by congruence. apply Hold. assumption.
      * rewrite selMap_setPos in He'. apply Hold. assumption.
  - destruct (last l) as [[j0 cj]|] eqn:Hlast; injection Hprec as <-.
    + destruct (path_last _ _ _ _ _ Hl Hlast) as (Hj0 & Hnj & Hj0N).
      simpl. apply at_unset_alter_off; [assumption|].
      apply at_unset_insert_off; [lia|assumption].
    + rewrite canPosMap_setMap. simpl. apply at_unset_insert_off; [lia|assumption].
Qed.

Lemma Add_entry_well_formed d (st : CanMap store) id i st1 :
  Add_entry d st id i st1 -> well_formed st -> well_formed st1.
Proof.
  intros He (Hmax & Hs & Hc & Hsent).
  split; [exact Hmax|]. split; [eapply Add_entry_shape_ok; eassumption|].
  split; [eapply Add_entry_chains_end; eassumption|].
  destruct He as [[_ ->]|[_ [_ ->]]]; [assumption|].
  rewrite canPosMap_setMap. assumption.
Qed.

(** [Add] keeps the invariant, whatever it returns *)
Lemma Add_well_formed d (st : CanMap store) param id ofs len g off st' r :
  well_formed st ->
  Add d st param id ofs len g off = Some (st', r) ->
  well_formed st'.
Proof.
  intros Hwf H. apply Add_cases in H.
  destruct H as [H|[H|[H|[H|[H|H]]]]].
  - destruct H as (_ & -> & _). assumption.
  - destruct H as (_ & _ & -> & _). assumption.
  - destruct H as (_ & _ & _ & -> & _). assumption.
  - destruct H as (_ & _ & -> & _). assumption.
  - destruct H as (i & He & _). eapply Add_entry_well_formed; eassumption.
  - destruct H as (i & st1 & e & prec & n & _ & _ & _ & He & Hfree & Hi & Hprec & -> & _).
    eapply Add_linked_well_formed; try eassumption; [|reflexivity].
    eapply Add_entry_well_formed; eassumption.
Qed.

Lemma well_formed_keeps_tables (st st' : CanMap store) :
  canSendMap st' = canSendMap st -> canRecvMap st' = canRecvMap st ->
  canPosMap st' = canPosMap st -> nodeId st' = nodeId st ->
  well_formed st -> well_formed st'.
Proof.
  intros H1 H2 H3 H4 (Hmax & (Hs & Hr & Hp & Hn) & Hch & Hsent).
  split; [exact Hmax|]. split; [|split].
  - unfold shape_ok. rewrite H1, H2, H3, H4. auto.
  - intros d j e He. rewrite H3. apply (Hch d j e).
    destruct d; simpl in *; congruence.
  - rewrite H3. assumption.
Qed.

Lemma AddRecv_well_formed (st : CanMap store) param id ofs len g off st' r :
  well_formed st ->
  AddRecv st param id ofs len g off = Some (st', r) ->
  well_formed st'.
Proof.
  intros Hwf H. unfold AddRecv in H.
  destruct (Add RecvMap st param id ofs len g off) as [[st1 r1]|] eqn:E; [|discriminate].
  simpl in H. injection H as <- <-.
  apply (well_formed_keeps_tables st1); try reflexivity.
  eapply Add_well_formed; eassumption.
Qed.

(** the cleared tables satisfy the invariant *)
Lemma ClearMap_well_formed (raw : CanMap store) :
  (MAX_ITEMS < ITEM_UNSET)%nat -> shape_ok raw ->
  well_formed (ClearMap RecvMap (ClearMap SendMap raw)).
Proof.
  intros Hmax (Hs & Hr & Hp & Hn).
  split; [exact Hmax|]. split; [|split].
  - repeat split; simpl; rewrite ?length_fmap; first [assumption|lia].
  - apply empty_table_chains_end, ClearMap_empty.
  - destruct (lookup_lt_is_Some_2 (canPosMap raw) MAX_ITEMS) as [c Hc]; [lia|].
    exists (set_next ITEM_UNSET (set_next ITEM_UNSET c)). simpl.
    rewrite !list_lookup_fmap, Hc. auto.
Qed.

End Invariant.

Section Removal.
Context {cfg : BuildConfig} {store : Type} {PS : ParamStore store}.

Lemma path_nodes_not_end (p : list CANPOS) i l :
  path p at_end i l -> Forall (fun ic => ic.1 <> MAX_ITEMS) l.
Proof. induction 1; constructor; assumption. Qed.

(** a slot that links to the start of a walk is not on the walk *)
Lemma path_off_predecessor (p : list CANPOS) c L l cl :
  path p at_end c L -> p !! l = Some cl -> next cl = c -> l ∉ L.*1.
Proof.
  intros HL Hl Hn Hin.
  assert (HlN : l <> MAX_ITEMS).
  { pose proof (path_nodes_not_end _ _ _ HL) as Hne.
    rewrite Forall_forall in Hne.
    apply list_elem_of_fmap in Hin as ([l' c'] & -> & Hin). apply (Hne _ Hin). }
  assert (Hpath : path p at_end l ((l, cl) :: L)).
  { constructor; [exact HlN|exact Hl|]. rewrite Hn. exact HL. }
  apply path_NoDup in Hpath. simpl in Hpath. inversion Hpath; subst. contradiction.
Qed.

Lemma not_in_nodes (L : list (nat * CANPOS)) l :
  l ∉ L.*1 -> Forall (fun ic => ic.1 <> l) L.
Proof.
  intros Hn. apply Forall_forall. intros [j c] Hin Heq. simpl in Heq. subst j.
  apply Hn. apply list_elem_of_fmap. exists (l, c). auto.
Qed.

(** the walks once the slot [l], which linked to [c], links to the
    successor of [c] *)
Lemma path_after_unlink (p : list CANPOS) h Lh l cl c pc L3 :
  path p at_end h Lh -> p !! l = Some cl -> next cl = c ->
  path p at_end c ((c, pc) :: L3) ->
  exists L', path (alter (set_next (next pc)) l p) at_end h L'.
Proof.
  intros Hh Hl Hn Hc.
  induction Hh as [h Hs|h ch rest Hs Hch Hrest IH].
  - exists []. by constructor.
  - destruct (decide (h = l)) as [->|Hne].
    + assert (ch = cl) by congruence. subst ch. rewrite Hn in Hrest.
      pose proof (path_det _ _ _ _ Hrest _ Hc) as ->.
      assert (Hnd : NoDup ((l, cl) :: (c, pc) :: L3).*1).
      { apply (path_NoDup p at_end l). constructor; [assumption..|]. by rewrite Hn. }
      simpl in Hnd. inversion Hnd as [|? ? Hl1 Hnd1]; subst.
      exists ((l, set_next (next pc) cl) :: L3).
      constructor; [assumption| |].
      * rewrite list_lookup_alter_eq, Hl. reflexivity.
      * simpl. apply path_alter_off.
        -- inversion Hc; subst. assumption.
        -- apply not_in_nodes. intros Hin. apply Hl1. by right.
    + destruct IH as [L' HL'].
      exists ((h, ch) :: L'). constructor; [assumption| |assumption].
      rewrite list_lookup_alter_ne by congruence. assumption.
Qed.

(** one turn of the inner loop keeps the invariant and the rest of the
    walk *)
Lemma unlink_step_well_formed d param i (st : CanMap store) last c pc L3 :
  well_formed st ->
  path (canPosMap st) at_end c ((c, pc) :: L3) ->
  (forall l, last = Some l -> exists cl, canPosMap st !! l = Some cl /\ next cl = c) ->
  well_formed (unlink_step d param i pc st last) /\
  path (canPosMap (unlink_step d param i pc st last)) at_end (next pc) L3 /\
  canPosMap (unlink_step d param i pc st last) !! c = Some pc.
Proof.
  intros (Hmax & Hshape & Hch & Hsent) Hc Hlast.
  pose proof Hshape as (Hs & Hr & Hp & Hn).
  inversion Hc as [|? ? ? HcN Hpc HL3]; subst.
  unfold unlink_step. destruct (mapParam pc =? param).
  2:{ split; [exact (conj Hmax (conj Hshape (conj Hch Hsent)))|split; assumption]. }
  destruct last as [l|].
  - destruct (Hlast l eq_refl) as (cl & Hl & Hnl).
    pose proof (path_off_predecessor _ _ _ _ _ Hc Hl Hnl) as Hoff.
    simpl in Hoff. apply not_elem_of_cons in Hoff as [Hlc Hoff3].
    assert (HlN : l <> MAX_ITEMS).
    { intros ->. destruct Hsent as (cs & Hcs & Hns).
      assert (cl = cs) by congruence. subst cl.
      apply lookup_lt_Some in Hpc. unfold ITEM_UNSET in *. lia. }
    simpl. split; [|split].
    + split; [exact Hmax|]. split; [|split].
      * repeat split; simpl; rewrite ?length_alter; first [assumption|lia].
      * intros d' j e He. rewrite selMap_setPos in He. simpl.
        destruct (Hch d' j e He) as [Lh HLh].
        eapply path_after_unlink; eassumption.
      * simpl. apply at_unset_alter_off; assumption.
    + apply path_alter_off; [assumption|]. apply not_in_nodes. assumption.
    + rewrite list_lookup_alter_ne by congruence. assumption.
  - rewrite canPosMap_setMap. split; [|split; assumption].
    split; [exact Hmax|]. split; [|split].
    + destruct d; repeat split; simpl; rewrite ?length_alter; first [assumption|lia].
    + intros d' j e He. rewrite canPosMap_setMap.
      apply selMap_setMap_lookup in He as [[-> He]|He]; [|apply (Hch d' j e He)].
      destruct (decide (j = i)) as [->|Hne].
      * rewrite list_lookup_alter_eq in He.
        destruct (selMap d st !! i) as [e0|]; [|discriminate].
        injection He as <-. simpl. eauto.
      * rewrite list_lookup_alter_ne in He by congruence. apply (Hch d j e He).
    + rewrite canPosMap_setMap. assumption.
Qed.

(** the inner loop of [RemoveFromMap] comes to the end of the chain and
    keeps the invariant *)
Lemma RemoveFromMap_chain d param i L :
  forall c (st : CanMap store) last fuel,
    well_formed st ->
    path (canPosMap st) at_end c L ->
    (forall l, last = Some l -> exists cl, canPosMap st !! l = Some cl /\ next cl = c) ->
    (length L < fuel)%nat ->
    exists st' last',
      forEachPosMap_loop (R := unit)
        (fun s : CanMap store * option nat => canPosMap (fst s))
        (fun c curPos s =>
           let '(st1, lastPosMap) := s in
           let st2 :=
             if mapParam curPos =? param then
               match lastPosMap with
               | Some l => setPos (alter (set_next (next curPos)) l (canPosMap st1)) st1
               | None => setMap d (alter (set_first (next curPos)) i (selMap d st1)) st1
               end
             else st1 in
           Some (Next (st2, Some c)))
        fuel c (st, last) = Some (Next (st', last')) /\
      well_formed st'.
Proof.
  induction L as [|[c0 pc] L3 IH]; intros c st last fuel Hwf HL Hlast Hfuel;
    (destruct fuel as [|fuel]; [simpl in Hfuel; lia|]).
  - inversion HL as [? Hend|]; subst. unfold at_end in Hend. subst c.
    destruct Hwf as (Hmax & Hshape & Hch & (cs & Hcs & Hns)).
    exists st, last. split.
    + apply (forEachPosMap_loop_stop
               (fun s : CanMap store * option nat => canPosMap (fst s)) _ _ _ _ cs);
        assumption.
    + split; [exact Hmax|]. split; [exact Hshape|]. split; [exact Hch|].
      exists cs. auto.
  - assert (c0 = c) by (inversion HL; reflexivity). subst c0.
    destruct (unlink_step_well_formed d param i st last c pc L3 Hwf HL Hlast)
      as (Hwf' & HL3 & Hpc').
    assert (Hpc : canPosMap st !! c = Some pc) by (inversion HL; assumption).
    assert (Hset : next pc <> ITEM_UNSET).
    { destruct Hwf as (Hmax & (_ & _ & Hp & _) & _ & _).
      pose proof (path_links_set _ _ _ Hmax Hp HL) as Hlinks.
      inversion Hlinks; subst. assumption. }
    destruct (IH (next pc) (unlink_step d param i pc st last) (Some c) fuel Hwf' HL3)
      as (st' & last' & Hrun & Hwf'').
    { intros l [= <-]. eauto. }
    { simpl in Hfuel. lia. }
    exists st', last'. split; [|assumption].
    rewrite <- Hrun.
    apply (forEachPosMap_loop_step
             (fun s : CanMap store * option nat => canPosMap (fst s)) _ _ _ (st, last)
             (unlink_step d param i pc st last, Some c) pc pc); try assumption.
    reflexivity.
Qed.

Lemma RemoveFromMap_loop d param :
  forall n c (st : CanMap store) last,
    well_formed st -> (c + n <= MAX_MESSAGES)%nat ->
    exists st' last',
      forEachCanMap_loop (R := unit)
        (fun s : CanMap store * option nat => selMap d (fst s))
        (fun i curMap s =>
           forEachPosMap (fun s : CanMap store * option nat => canPosMap (fst s))
             (fun c curPos s =>
                let '(st1, lastPosMap) := s in
                let st2 :=
                  if mapParam curPos =? param then
                    match lastPosMap with
                    | Some l => setPos (alter (set_next (next curPos)) l (canPosMap st1)) st1
                    | None => setMap d (alter (set_first (next curPos)) i (selMap d st1)) st1
                    end
                  else st1 in
                Some (Next (st2, Some c)))
             curMap (fst s, None))
        n c (st, last) = Some (Next (st', last')) /\
      well_formed st'.
Proof.
  induction n as [|n IH]; intros c st last Hwf Hn.
  - exists st, last. split; [reflexivity|assumption].
  - pose proof Hwf as (Hmax & (Hs & Hr & Hp & Hnode) & Hch & Hsent).
    destruct (lookup_lt_is_Some_2 (selMap d st) c) as [e He].
    { destruct d; simpl; lia. }
    destruct (decide (first e = MAX_ITEMS)) as [Hgap|Hne].
    + exists st, last. split; [|assumption].
      apply forEachCanMap_loop_stop.
      * right. simpl. destruct d; simpl; lia.
      * intros e'. simpl. rewrite He. intros [= <-]. assumption.
    + destruct (Hch d c e He) as [L HL].
      destruct (RemoveFromMap_chain d param c L (first e) st None chain_fuel Hwf HL)
        as (st1 & last1 & Hrun & Hwf1).
      { discriminate. }
      { apply path_at_end_length in HL; [|assumption]. unfold chain_fuel. lia. }
      destruct (IH (S c) st1 last1 Hwf1) as (st' & last' & Hrest & Hwf'); [lia|].
      exists st', last'. split; [|assumption].
      rewrite (forEachCanMap_loop_step
                 (fun s : CanMap store * option nat => selMap d (fst s)) _ _ _ (st, last)
                 e He Hne).
      unfold forEachPosMap.
      match goal with
      | |- context [forEachPosMap_loop ?a ?b ?f ?c0 ?s0] =>
          replace (forEachPosMap_loop a b f c0 s0)
            with (Some (Next (R := unit) (st1, last1))) by (symmetry; exact Hrun)
      end.
      exact Hrest.
Qed.

(** [RemoveFromMap] returns on every table that satisfies the invariant,
    keeps the invariant, and its result is 0 *)
Lemma RemoveFromMap_well_formed d (st : CanMap store) param :
  well_formed st ->
  exists st', RemoveFromMap d st param = Some (st', 0) /\ well_formed st'.
Proof.
  intros Hwf.
  destruct (RemoveFromMap_loop d param MAX_MESSAGES 0%nat st None Hwf)
    as (st' & last' & Hrun & Hwf'); [lia|].
  exists st'. split; [|assumption].
  unfold RemoveFromMap, forEachCanMap.
  match goal with
  | |- context [forEachCanMap_loop ?a ?b ?n ?c0 ?s0] =>
      replace (forEachCanMap_loop a b n c0 s0)
        with (Some (Next (R := unit) (st', last'))) by (symmetry; exact Hrun)
  end.
  reflexivity.
Qed.

Lemma Remove_well_formed (st : CanMap store) param :
  well_formed st ->
  exists st', Remove st param = Some (st', 0) /\ well_formed st'.
Proof.
  intros Hwf.
  destruct (RemoveFromMap_well_formed SendMap st param Hwf) as (st1 & H1 & Hwf1).
  destruct (RemoveFromMap_well_formed RecvMap st1 param Hwf1) as (st2 & H2 & Hwf2).
  exists st2. split; [|assumption].
  unfold Remove. rewrite H1. simpl. rewrite H2. reflexivity.
Qed.

End Removal.

Section Reachable.
Context {cfg : BuildConfig} {store : Type} {PS : ParamStore store}.

Local Arguments Add : simpl never.
Local Arguments FindById : simpl never.

Lemma ProcessSDO_well_formed (st st' : CanMap store) data :
  well_formed st -> ProcessSDO st data = Some st' -> well_formed st'.
Proof.
  intros Hwf. unfold ProcessSDO.
  destruct ((8192 <=? SDO.index data) && _ && _).
  { destruct (SDO.cmd data =? SDO_WRITE).
    - destruct (Param_Set _ _ _) as [ps rc].
      destruct (rc =? 0); simpl; intros [= <-];
        apply (well_formed_keeps_tables st); auto.
    - destruct (SDO.cmd data =? SDO_READ); simpl; intros [= <-];
        apply (well_formed_keeps_tables st); auto. }
  destruct ((12288 <=? SDO.index data) && _ && _).
  2:{ simpl. intros [= <-]. apply (well_formed_keeps_tables st); auto. }
  destruct (SDO.cmd data =? SDO_WRITE).
  2:{ simpl. intros [= <-]. apply (well_formed_keeps_tables st); auto. }
  destruct (_ =? 16384).
  - destruct (AddRecv _ _ _ _ _ _ _) as [[st1 r]|] eqn:E; [|discriminate].
    apply AddRecv_well_formed in E; [|assumption].
    destruct r; simpl; intros [= <-]; apply (well_formed_keeps_tables st1); auto.
  - unfold AddSend.
    destruct (Add _ _ _ _ _ _ _ _) as [[st1 r]|] eqn:E; [|discriminate].
    apply Add_well_formed in E; [|assumption].
    destruct r; simpl; intros [= <-]; apply (well_formed_keeps_tables st1); auto.
Qed.

Lemma HandleRx_well_formed (st st' : CanMap store) id data b :
  well_formed st -> HandleRx st id data = Some (st', b) -> well_formed st'.
Proof.
  intros Hwf. unfold HandleRx.
  destruct (id =? _).
  { destruct (ProcessSDO st data) as [st1|] eqn:E; [|discriminate].
    simpl. intros [= <- _]. eapply ProcessSDO_well_formed; eassumption. }
  destruct (isSaving st); [intros [= <- _]; assumption|].
  destruct (FindById (canRecvMap st) id) as [[i|]|]; simpl; try discriminate.
  2:{ intros [= <- _]. assumption. }
  destruct (canRecvMap st !! i) as [e|]; simpl; [|discriminate].
  destruct (forEachPosMap _ _ _ _) as [[ps|r]|]; try discriminate.
  intros [= <- _]. apply (well_formed_keeps_tables st); auto.
Qed.

Lemma SendAll_well_formed (st st' : CanMap store) :
  well_formed st -> SendAll st = Some st' -> well_formed st'.
Proof.
  intros Hwf. unfold SendAll.
  destruct (forEachCanMap _ _ _) as [[hw|r]|]; try discriminate;
    intros [= <-]; [|assumption].
  apply (well_formed_keeps_tables st); auto.
Qed.

Lemma reachable_well_formed (st : CanMap store) :
  (MAX_ITEMS < ITEM_UNSET)%nat -> reachable st -> well_formed st.
Proof.
  intros Hmax. induction 1 as
    [raw Hraw
    |st param id ofs len g off st' r _ IH Hrun
    |st param id ofs len g off st' r _ IH Hrun
    |st param st' r _ IH Hrun
    |st id data st' b _ IH Hrun
    |st st' _ IH Hrun
    |st b _ IH
    |st ps _ IH].
  - apply ClearMap_well_formed; assumption.
  - eapply Add_well_formed; eassumption.
  - eapply AddRecv_well_formed; eassumption.
  - destruct (Remove_well_formed st param IH) as (st1 & Hrm & Hwf).
    rewrite Hrm in Hrun. injection Hrun as <- _. assumption.
  - eapply HandleRx_well_formed; eassumption.
  - eapply SendAll_well_formed; eassumption.
  - apply (well_formed_keeps_tables st); auto.
  - apply (well_formed_keeps_tables st); auto.
Qed.

(** X1: every state the object goes through, from the cleared tables on,
    satisfies the invariant: the arrays have their sizes, every chain of
    either table leads to the end marker, and the slot at [MAX_ITEMS] is
    marked free. *)
Theorem X1_reachable_tables_are_well_formed (st : CanMap store) :
  (MAX_ITEMS < ITEM_UNSET)%nat -> reachable st -> well_formed st.
Proof. apply reachable_well_formed. Qed.

(** X2: on every table that satisfies the invariant [Remove] comes to an
    end and leaves a table that satisfies it. *)
Theorem X2_Remove_ends_and_keeps_the_invariant (st : CanMap store) param :
  well_formed st ->
  exists st' removed, Remove st param = Some (st', removed) /\ well_formed st'.
Proof.
  intros Hwf. destruct (Remove_well_formed st param Hwf) as (st' & Hrun & Hwf').
  eauto.
Qed.

(** on a table that satisfies the invariant the walk of [forEachPosMap]
    from a head link is the walk to the end marker *)
Lemma well_formed_chain (st : CanMap store) i L :
  well_formed st -> path (canPosMap st) at_end i L -> chain (canPosMap st) i L.
Proof.
  intros (Hmax & (_ & _ & Hp & _) & _ & Hsent) HL.
  pose proof (path_links_set _ _ _ Hmax Hp HL) as Hlinks.
  induction HL as [i Hs|i c l Hs Hc Hl IH].
  - unfold at_end in Hs. subst. by constructor.
  - inversion Hlinks as [|? ? Hn Hrest]; subst.
    constructor; [|assumption|apply IH; assumption].
    intros (c' & Hc' & Hn'). simpl in Hn. congruence.
Qed.

(** ... so every visited message has its chain, and the send sweep and
    the iterations return *)
Lemma well_formed_chains d (st : CanMap store) :
  well_formed st ->
  exists chains,
    Forall2 (fun e l => chain (canPosMap st) (first e) l) (visible (selMap d st)) chains.
Proof.
  intros Hwf. pose proof Hwf as (_ & _ & Hch & _).
  assert (H : forall t, (forall e, e ∈ t -> exists l, chain (canPosMap st) (first e) l) ->
            exists chains, Forall2 (fun e l => chain (canPosMap st) (first e) l) t chains).
  { induction t as [|e t IH]; intros Hall; [exists []; constructor|].
    destruct (Hall e) as [l Hl]; [by left|].
    destruct IH as [chains Hchains]; [intros x Hx; apply Hall; by right|].
    exists (l :: chains). by constructor. }
  apply H. intros e He.
  apply list_elem_of_lookup in He as [j Hj].
  apply visible_lookup in Hj as (Hj & _).
  destruct (Hch d j e Hj) as [l Hl]. exists l. by apply well_formed_chain.
Qed.

End Reachable.

(** ** Lookup and iteration *)

Section Lookup.
Context {cfg : BuildConfig} {store : Type} {PS : ParamStore store}.

Lemma list_find_app_items (p : Z) (l1 l2 : list MapItem) :
  snd <$> list_find (fun it => item_param it = p) (l1 ++ l2)
  = match snd <$> list_find (fun it => item_param it = p) l1 with
    | Some it => Some it
    | None => snd <$> list_find (fun it => item_param it = p) l2
    end.
Proof.
  induction l1 as [|a l1 IH]; simpl.
  - reflexivity.
  - destruct (decide (item_param a = p)); simpl; [reflexivity|].
    destruct (list_find _ (l1 ++ l2)) as [[i x]|] eqn:E1;
      destruct (list_find _ l1) as [[j y]|] eqn:E2; simpl in *; auto;
      destruct (list_find _ l2) as [[k z]|]; simpl in *; congruence.
Qed.

(** the walk of one chain: what [IterateCanMap] appends and what [FindMap]
    returns *)
Lemma FindMap_chain (p : list CANPOS) (curMap : CANIDMAP) (rx : bool) (param : Z) :
  forall fuel c calls calls',
    forEachPosMap_loop (R := unit) (fun _ : list MapItem => p)
      (fun _ curPos calls =>
         Some (Next (calls ++ [(mapParam curPos, canId curMap, offsetBits curPos,
                                numBits curPos, gain curPos, rx)])))
      fuel c calls = Some (Next calls') ->
    exists items,
      calls' = calls ++ items /\
      forEachPosMap_loop (fun _ : unit => p)
        (fun _ curPos s =>
           if mapParam curPos =? param then
             Some (Return {| mi_canId := canId curMap; mi_offset := offsetBits curPos;
                             mi_length := numBits curPos; mi_gain := gain curPos;
                             mi_rx := rx |})
           else Some (Next s))
        fuel c tt
      = Some (match snd <$> list_find (fun it => item_param it = param) items with
              | Some it => Return (item_info it)
              | None => Next tt
              end).
Proof.
  induction fuel as [|fuel IH]; intros c calls calls'; simpl; [discriminate|].
  destruct (p !! c) as [pos|] eqn:Hc; [|discriminate].
  destruct (next pos =? ITEM_UNSET)%nat.
  - intros [= <-]. exists []. rewrite app_nil_r. auto.
  - intros Hrun. apply IH in Hrun as (items & -> & Hfind).
    exists ((mapParam pos, canId curMap, offsetBits pos, numBits pos, gain pos, rx) :: items).
    split; [by rewrite <- app_assoc|].
    simpl. unfold item_param at 1. simpl.
    destruct (decide (mapParam pos = param)) as [E|E].
    + apply Z.eqb_eq in E. rewrite E. reflexivity.
    + apply Z.eqb_neq in E. rewrite E, Hfind.
      rewrite <- option_fmap_compose.
      destruct (list_find _ items) as [[i x]|]; reflexivity.
Qed.

Lemma FindMap_table (t : list CANIDMAP) (p : list CANPOS) (rx : bool) (param : Z) :
  forall n c calls calls',
    forEachCanMap_loop (R := unit) (fun _ : list MapItem => t)
      (fun _ curMap calls =>
         forEachPosMap (fun _ : list MapItem => p)
           (fun _ curPos calls =>
              Some (Next (calls ++ [(mapParam curPos, canId curMap, offsetBits curPos,
                                     numBits curPos, gain curPos, rx)])))
           curMap calls)
      n c calls = Some (Next calls') ->
    exists items,
      calls' = calls ++ items /\
      forEachCanMap_loop (fun _ : unit => t)
        (fun _ curMap s =>
           forEachPosMap (fun _ : unit => p)
             (fun _ curPos s =>
                if mapParam curPos =? param then
                  Some (Return {| mi_canId := canId curMap; mi_offset := offsetBits curPos;
                                  mi_length := numBits curPos; mi_gain := gain curPos;
                                  mi_rx := rx |})
                else Some (Next s))
             curMap s)
        n c tt
      = Some (match snd <$> list_find (fun it => item_param it = param) items with
              | Some it => Return (item_info it)
              | None => Next tt
              end).
Proof.
  induction n as [|n IH]; intros c calls calls'; simpl.
  - intros [= <-]. exists []. rewrite app_nil_r. auto.
  - destruct (t !! c) as [e|]; [|discriminate].
    destruct (first e =? MAX_ITEMS)%nat.
    + intros [= <-]. exists []. rewrite app_nil_r. auto.
    + unfold forEachPosMap.
      destruct (forEachPosMap_loop _ _ chain_fuel (first e) calls) as [[calls1|[]]|] eqn:E1;
        try discriminate.
      apply (FindMap_chain p e rx param) in E1 as (items1 & -> & F1).
      intros Hrun. apply IH in Hrun as (items2 & -> & F2).
      exists (items1 ++ items2). split; [by rewrite app_assoc|].
      rewrite F1, list_find_app_items.
      destruct (snd <$> list_find _ items1) as [it|]; [reflexivity|].
      destruct (Next tt) as [[]|] eqn:Ett in F2 |- *; try discriminate.
      exact F2.
Qed.

Lemma FindMap_pass_items d rx (st : CanMap store) param calls calls' :
  IterateCanMap_pass d rx st calls = Some calls' ->
  exists items,
    calls' = calls ++ items /\
    FindMap_pass d rx st param
    = Some (match snd <$> list_find (fun it => item_param it = param) items with
            | Some it => Return (item_info it)
            | None => Next tt
            end).
Proof.
  unfold IterateCanMap_pass, FindMap_pass, forEachCanMap.
  destruct (forEachCanMap_loop _ _ MAX_MESSAGES 0%nat calls) as [[calls1|[]]|] eqn:E1;
    try discriminate.
  intros [= <-].
  apply (FindMap_table _ _ rx param) in E1 as (items & -> & F1).
  exists items. split; [reflexivity|exact F1].
Qed.

Lemma FindMap_first_item (st : CanMap store)
    (param : Z) (items : list MapItem) :
  IterateCanMap st = Some items ->
  FindMap st param
  = Some (item_info <$> (snd <$> list_find (fun it => item_param it = param) items)).
Proof.
  unfold IterateCanMap, FindMap.
  destruct (IterateCanMap_pass SendMap false st []) as [calls|] eqn:E1;
    simpl; [|discriminate].
  intros E2.
  apply (FindMap_pass_items _ _ _ param) in E1 as (items1 & -> & F1).
  apply (FindMap_pass_items _ _ _ param) in E2 as (items2 & -> & F2).
  simpl. rewrite F1, list_find_app_items.
  destruct (snd <$> list_find _ items1) as [it|]; [reflexivity|].
  rewrite F2.
  destruct (snd <$> list_find _ items2) as [it|]; reflexivity.
Qed.

(** X3: whenever the iteration over both tables returns, [FindMap] returns
    too, and what it finds is the first item of the iteration that has the
    parameter: [true] with that item's identifier, position, width, gain
    and direction, [false] when the iteration has no such item. *)
Theorem X3_FindMap_finds_the_first_item_of_the_iteration (st : CanMap store)
    (param : Z) (items : list MapItem) :
  IterateCanMap st = Some items ->
  FindMap st param
  = Some (item_info <$> (snd <$> list_find (fun it => item_param it = param) items)).
Proof. apply FindMap_first_item. Qed.

End Lookup.

(** ** The readers on tables that satisfy the invariant *)

Section WellFormedReaders.
Context {cfg : BuildConfig} {store : Type} {PS : ParamStore store}.

Lemma walk_chain (p : list CANPOS) i l :
  chain p i l -> forall fuel, (length l < fuel)%nat -> walk p fuel i = l.
Proof.
  intros Hch.
  induction Hch as [i [c [Hc Hn]]|i c l Hs Hc Hp IH]; intros fuel Hfuel;
    (destruct fuel as [|fuel]; [simpl in Hfuel; lia|]); simpl.
  - rewrite Hc, Hn. reflexivity.
  - rewrite Hc.
    destruct (next c =? ITEM_UNSET)%nat eqn:E.
    + exfalso. apply Hs. exists c. split; [assumption|]. by apply Nat.eqb_eq.
    + f_equal. apply IH. simpl in Hfuel. lia.
Qed.

Lemma bindings_chain (st : CanMap store) e l :
  length (canPosMap st) = S MAX_ITEMS ->
  chain (canPosMap st) (first e) l -> bindings st e = l.
Proof.
  intros Hlen Hch. apply walk_chain; [assumption|].
  apply path_length in Hch. unfold chain_fuel. lia.
Qed.

Lemma well_formed_bindings d (st : CanMap store) j e :
  well_formed st -> selMap d st !! j = Some e ->
  chain (canPosMap st) (first e) (bindings st e) /\
  path (canPosMap st) at_end (first e) (bindings st e).
Proof.
  intros Hwf Hj. pose proof Hwf as (_ & (_ & _ & Hlen & _) & Hch & _).
  destruct (Hch d j e Hj) as [l Hl].
  pose proof (well_formed_chain st _ _ Hwf Hl) as Hc.
  rewrite (bindings_chain st e l Hlen Hc). auto.
Qed.

(** the walk of one chain by a body that goes on to the next binding *)
Lemma forEachPosMap_bindings {St : Type} d (st : CanMap store) j e
    (f : CANPOS -> St -> St) (body : nat -> CANPOS -> St -> option (Flow St unit)) s :
  well_formed st -> selMap d st !! j = Some e ->
  (forall c pos s, body c pos s = Some (Next (f pos s))) ->
  forEachPosMap (fun _ => canPosMap st) body e s
  = Some (Next (foldl (fun s ic => f ic.2 s) s (bindings st e))).
Proof.
  intros Hwf Hj Hbody.
  destruct (well_formed_bindings d st j e Hwf Hj) as [Hc _].
  unfold forEachPosMap.
  apply forEachPosMap_loop_fold; [assumption|assumption|].
  destruct Hwf as (_ & (_ & _ & Hlen & _) & _).
  apply path_length in Hc. unfold chain_fuel. lia.
Qed.

(** the walk of a table by a body that goes on to the next entry *)
Lemma forEachCanMap_loop_visible {St : Type} (t : list CANIDMAP)
    (g : CANIDMAP -> St -> St) (body : nat -> CANIDMAP -> St -> option (Flow St unit)) :
  (forall j e s, t !! j = Some e -> first e <> MAX_ITEMS -> body j e s = Some (Next (g e s))) ->
  forall n c s, (n <= length (drop c t))%nat ->
    forEachCanMap_loop (fun _ => t) body n c s
    = Some (Next (foldl (fun s e => g e s) s (visible_from (take n (drop c t))))).
Proof.
  intros Hbody. induction n as [|n IH]; intros c s Hn; [reflexivity|].
  destruct (drop c t) as [|e r] eqn:Hd; [simpl in Hn; lia|].
  apply drop_lookup_cons in Hd as Hd'. destruct Hd' as [Hc Hr].
  simpl. rewrite Hc.
  destruct (first e =? MAX_ITEMS)%nat eqn:E; [reflexivity|].
  apply Nat.eqb_neq in E. rewrite (Hbody c e s Hc E).
  rewrite IH by (rewrite Hr; simpl in Hn; lia).
  rewrite Hr. reflexivity.
Qed.

Lemma forEachCanMap_visible {St : Type} (t : list CANIDMAP)
    (g : CANIDMAP -> St -> St) (body : nat -> CANIDMAP -> St -> option (Flow St unit)) s :
  (MAX_MESSAGES <= length t)%nat ->
  (forall j e s, t !! j = Some e -> first e <> MAX_ITEMS -> body j e s = Some (Next (g e s))) ->
  forEachCanMap (fun _ => t) body s
  = Some (Next (foldl (fun s e => g e s) s (visible t))).
Proof.
  intros Hlen Hbody. unfold forEachCanMap, visible.
  rewrite (forEachCanMap_loop_visible t g body Hbody) by (rewrite drop_0; lia).
  rewrite drop_0. reflexivity.
Qed.

Lemma foldl_snoc_items rx e (l : list (nat * CANPOS)) (calls : list MapItem) :
  foldl (fun calls ic => calls ++ [(mapParam ic.2, canId e, offsetBits ic.2,
                                    numBits ic.2, gain ic.2, rx)]) calls l
  = calls ++ items_of rx e l.
Proof.
  revert calls. induction l as [|ic l IH]; intros calls; simpl.
  - by rewrite app_nil_r.
  - rewrite IH, <- app_assoc. reflexivity.
Qed.

Lemma foldl_app_concat {A B : Type} (f : A -> list B) (l : list A) (acc : list B) :
  foldl (fun acc x => acc ++ f x) acc l = acc ++ concat (f <$> l).
Proof.
  revert acc. induction l as [|x l IH]; intros acc; simpl.
  - by rewrite app_nil_r.
  - rewrite IH, <- app_assoc. reflexivity.
Qed.

Lemma well_formed_length d (st : CanMap store) :
  well_formed st -> length (selMap d st) = MAX_MESSAGES.
Proof. intros (_ & (Hs & Hr & _) & _). by destruct d. Qed.

Lemma IterateCanMap_pass_well_formed d rx (st : CanMap store) calls :
  well_formed st ->
  IterateCanMap_pass d rx st calls
  = Some (calls ++ concat ((fun e => items_of rx e (bindings st e)) <$> visible (selMap d st))).
Proof.
  intros Hwf. unfold IterateCanMap_pass.
  rewrite (forEachCanMap_visible (selMap d st)
             (fun e calls => calls ++ items_of rx e (bindings st e))).
  - rewrite foldl_app_concat. reflexivity.
  - rewrite (well_formed_length d st Hwf). lia.
  - intros j e s Hj _.
    rewrite (forEachPosMap_bindings d st j e
               (fun pos calls => calls ++ [(mapParam pos, canId e, offsetBits pos,
                                            numBits pos, gain pos, rx)]))
      by (try assumption; reflexivity).
    rewrite foldl_snoc_items. reflexivity.
Qed.

Lemma IterateCanMap_items (st : CanMap store) :
  well_formed st ->
  IterateCanMap st = Some (items_of_table SendMap st ++ items_of_table RecvMap st).
Proof.
  intros Hwf. unfold IterateCanMap.
  rewrite (IterateCanMap_pass_well_formed SendMap false st [] Hwf). simpl.
  rewrite (IterateCanMap_pass_well_formed RecvMap true st _ Hwf). reflexivity.
Qed.

(** X4: on every table that satisfies the invariant [IterateCanMap]
    returns; it calls back once for every binding of every visited send
    message, in table and chain order and with [rx = false], then once
    for every binding of every visited receive message, with
    [rx = true]. *)
Theorem X4_IterateCanMap_calls_back_for_every_visited_binding (st : CanMap store) :
  well_formed st ->
  IterateCanMap st = Some (items_of_table SendMap st ++ items_of_table RecvMap st).
Proof. apply IterateCanMap_items. Qed.

Lemma setHw_same (st : CanMap store) : setHw (canHardware st) st = st.
Proof. by destruct st. Qed.

Lemma foldl_Send_all (f : CANIDMAP -> Frame) (l : list CANIDMAP) hw :
  foldl (fun hw e => Send hw (f e).1 (f e).2) hw l = Send_all hw (f <$> l).
Proof.
  revert hw. induction l as [|e l IH]; intros hw; simpl; [reflexivity|].
  rewrite IH. reflexivity.
Qed.

Lemma Send_all_sent hw frames : sent (Send_all hw frames) = sent hw ++ frames.
Proof.
  revert hw. induction frames as [|[id d] frames IH]; intros hw; simpl.
  - by rewrite app_nil_r.
  - unfold Send_all in IH |- *. simpl. rewrite IH. simpl. by rewrite <- app_assoc.
Qed.

Lemma Send_all_rest hw frames :
  userIds (Send_all hw frames) = userIds hw /\
  nextUserMessageIndex (Send_all hw frames) = nextUserMessageIndex hw /\
  filterConfigs (Send_all hw frames) = filterConfigs hw.
Proof.
  revert hw. induction frames as [|[id d] frames IH]; intros hw; simpl; [auto|].
  unfold Send_all in IH |- *. simpl.
  destruct (IH (Send hw id d)) as (H1 & H2 & H3). auto.
Qed.

(** a visited message of a table that satisfies the invariant has a
    binding *)
Lemma well_formed_first_binding d (st : CanMap store) j e :
  well_formed st -> selMap d st !! j = Some e -> first e <> MAX_ITEMS ->
  exists c, canPosMap st !! first e = Some c /\ next c <> ITEM_UNSET.
Proof.
  intros Hwf Hj Hfirst.
  destruct (well_formed_bindings d st j e Hwf Hj) as [Hc Hp].
  destruct (bindings st e) as [|[i c] l].
  - inversion Hp; subst. contradiction.
  - inversion Hc as [|? ? ? Hns Hlk _]; subst.
    exists c. split; [assumption|].
    intros Hn. apply Hns. exists c. auto.
Qed.

Lemma SendAll_frames (st : CanMap store) :
  well_formed st ->
  SendAll st
  = Some (if isSaving st then st
          else setHw (Send_all (canHardware st) (frames_of st)) st) /\
  fst <$> frames_of st = canId <$> visible (canSendMap st).
Proof.
  intros Hwf. split.
  2:{ unfold frames_of. rewrite <- list_fmap_compose. reflexivity. }
  unfold SendAll.
  destruct (isSaving st) eqn:Hsav.
  - unfold forEachCanMap.
    destruct MAX_MESSAGES as [|n] eqn:Hmax; [simpl; by rewrite setHw_same|].
    destruct (canSendMap st !! 0%nat) as [e|] eqn:H0.
    2:{ apply lookup_ge_None in H0.
        pose proof (well_formed_length SendMap st Hwf) as Hl. simpl in Hl. lia. }
    simpl. rewrite H0.
    destruct (first e =? MAX_ITEMS)%nat eqn:E; [by rewrite setHw_same|].
    apply Nat.eqb_neq in E.
    destruct (well_formed_first_binding SendMap st 0 e Hwf H0 E) as (c & Hc & Hn).
    unfold forEachPosMap, chain_fuel. simpl. rewrite Hc.
    apply Nat.eqb_neq in Hn. rewrite Hn. reflexivity.
  - rewrite (forEachCanMap_visible (canSendMap st)
               (fun e hw => Send hw
                  (frame_of scale_gain_offset (params st) e (bindings st e)).1
                  (frame_of scale_gain_offset (params st) e (bindings st e)).2)).
    + rewrite (foldl_Send_all
                 (fun e => frame_of scale_gain_offset (params st) e (bindings st e))).
      reflexivity.
    + pose proof (well_formed_length SendMap st Hwf) as Hl. simpl in Hl. lia.
    + intros j e hw Hj _.
      rewrite (forEachPosMap_bindings SendMap st j e
                 (fun pos data =>
                    or_field (scale_gain_offset (Param_GetFloat (params st) (mapParam pos)) pos)
                             pos data)); [reflexivity|assumption|assumption|].
      intros _ pos s. unfold or_field, scale_gain_offset.
      destruct (offsetBits pos >? 31); reflexivity.
Qed.

(** X5: on every table that satisfies the invariant the send sweep
    returns.  With the flag [isSaving] clear it hands one frame to [Send]
    for every visited send message, in table order and under the message's
    identifier, and changes nothing but the log of sent frames; with the
    flag set it sends nothing and changes nothing. *)
Theorem X5_SendAll_sends_one_frame_per_visited_message (st : CanMap store) :
  well_formed st ->
  SendAll st
  = Some (if isSaving st then st
          else setHw (Send_all (canHardware st) (frames_of st)) st) /\
  fst <$> frames_of st = canId <$> visible (canSendMap st).
Proof. apply SendAll_frames. Qed.

Lemma HandleRx_received (st : CanMap store) id data :
  well_formed st -> isSaving st = false -> id <> Word.u32 (0x600 + nodeId st) ->
  HandleRx st id data
  = Some (match list_find (fun e => canId e = id) (visible (canRecvMap st)) with
          | Some (_, e) => (setParams (received st e data) st, true)
          | None => (st, false)
          end).
Proof.
  intros Hwf Hsav Hid. unfold HandleRx.
  apply Z.eqb_neq in Hid. rewrite Hid, Hsav.
  pose proof (well_formed_length RecvMap st Hwf) as Hl. simpl in Hl.
  rewrite FindById_visible by lia.
  simpl.
  destruct (list_find _ (visible (canRecvMap st))) as [[i e]|] eqn:Hfind; simpl;
    [|reflexivity].
  apply list_find_Some in Hfind as (Hi & _ & _).
  apply visible_lookup in Hi as (Hi & _ & _).
  rewrite Hi. simpl.
  rewrite (forEachPosMap_bindings RecvMap st i e
             (fun pos ps => Param_write ps (mapParam pos) (rx_value pos data)));
    [reflexivity|assumption|assumption|].
  intros _ pos ps. unfold Param_write, rx_value, rx_field.
  destruct (offsetBits pos >? 31); destruct (Param_IsParam (mapParam pos)); reflexivity.
Qed.

(** X6: a frame that is no SDO request, received while the flag
    [isSaving] is clear by a table that satisfies the invariant.  When no
    visited receive message has the identifier, [HandleRx] returns [false]
    and changes nothing.  Otherwise it returns [true], and for every
    binding of the first such message, in chain order, it has written
    (bits + offset) * gain to the binding's parameter, the bits cut out of
    the high word for bit offsets of 32 and more; the tables and the
    hardware are as before. *)
Theorem X6_HandleRx_writes_every_binding_of_the_message (st : CanMap store) id data :
  well_formed st -> isSaving st = false -> id <> Word.u32 (0x600 + nodeId st) ->
  HandleRx st id data
  = Some (match list_find (fun e => canId e = id) (visible (canRecvMap st)) with
          | Some (_, e) => (setParams (received st e data) st, true)
          | None => (st, false)
          end).
Proof. apply HandleRx_received. Qed.

End WellFormedReaders.

(** ** The list of user messages *)

Section UserMessages.
Context {cfg : BuildConfig}.

Lemma existsb_eqb_true (id : Z) (l : list Z) :
  existsb (Z.eqb id) l = true -> id ∈ l.
Proof.
  induction l as [|x l IH]; simpl; [discriminate|].
  destruct (id =? x) eqn:E; simpl.
  - intros _. apply Z.eqb_eq in E. subst. by left.
  - intros H. right. auto.
Qed.

Lemma registered_after (hw : CanHardware) (id : Z) :
  (nextUserMessageIndex hw < length (userIds hw))%nat ->
  registered {| userIds := <[nextUserMessageIndex hw := id]> (userIds hw);
                nextUserMessageIndex := S (nextUserMessageIndex hw);
                filterConfigs := S (filterConfigs hw);
                sent := sent hw |}
  = registered hw ++ [id].
Proof.
  intros Hlt. unfold registered. simpl.
  rewrite (take_S_r _ _ id) by (by apply list_lookup_insert_eq).
  rewrite take_insert_ge by lia. reflexivity.
Qed.

(** the state of the list that every operation keeps: the array has its
    declared size, the count is within it and no identifier is in use
    twice *)
Lemma RegisterUserMessage_cases (hw : CanHardware) (id : Z) :
  length (userIds hw) = MAX_USER_MESSAGES ->
  (nextUserMessageIndex hw <= MAX_USER_MESSAGES)%nat ->
  NoDup (registered hw) ->
  length (userIds (RegisterUserMessage hw id).1) = MAX_USER_MESSAGES /\
  (nextUserMessageIndex (RegisterUserMessage hw id).1 <= MAX_USER_MESSAGES)%nat /\
  NoDup (registered (RegisterUserMessage hw id).1) /\
  sent (RegisterUserMessage hw id).1 = sent hw /\
  ((RegisterUserMessage hw id).2 = true ->
   (id ∉ registered hw) /\ (nextUserMessageIndex hw < MAX_USER_MESSAGES)%nat /\
   registered (RegisterUserMessage hw id).1 = registered hw ++ [id] /\
   filterConfigs (RegisterUserMessage hw id).1 = S (filterConfigs hw)) /\
  ((RegisterUserMessage hw id).2 = false ->
   (RegisterUserMessage hw id).1 = hw /\
   (id ∈ registered hw \/ nextUserMessageIndex hw = MAX_USER_MESSAGES)).
Proof.
  intros Hlen Hnext Hnd. unfold RegisterUserMessage.
  destruct (nextUserMessageIndex hw <? MAX_USER_MESSAGES)%nat eqn:Hlt.
  - apply Nat.ltb_lt in Hlt.
    destruct (existsb (Z.eqb id) (take (nextUserMessageIndex hw) (userIds hw))) eqn:Hex.
    + apply existsb_eqb_true in Hex. simpl.
      split; [assumption|]. split; [assumption|]. split; [assumption|].
      split; [reflexivity|]. split; [discriminate|].
      intros _. split; [reflexivity|by left].
    + assert (Hnot : id ∉ registered hw).
      { intros Hin. unfold registered in Hin.
        assert (existsb (Z.eqb id) (take (nextUserMessageIndex hw) (userIds hw)) = true);
          [|congruence].
        apply existsb_exists. exists id. split; [|apply Z.eqb_refl].
        by apply list_elem_of_In. }
      cbn [fst snd].
      rewrite registered_after by lia.
      split; [simpl; by rewrite length_insert|].
      split; [simpl; lia|].
      split.
      { apply NoDup_app. split; [assumption|]. split.
        - intros x Hx Hx'. apply list_elem_of_singleton in Hx'. by subst.
        - apply NoDup_singleton. }
      split; [reflexivity|]. split; [|discriminate].
      intros _. auto.
  - apply Nat.ltb_ge in Hlt. simpl.
    split; [assumption|]. split; [assumption|]. split; [assumption|].
    split; [reflexivity|]. split; [discriminate|].
    intros _. split; [reflexivity|right; lia].
Qed.

(** X7: as long as the array [userIds] has [MAX_USER_MESSAGES] elements,
    [RegisterUserMessage] keeps the identifiers in use free of duplicates
    and their number at [MAX_USER_MESSAGES] at most.  It returns [true]
    exactly when the identifier was not in use and there was room; then
    the identifier is the last one in use and the filters have been
    configured once more.  When it returns [false] nothing has changed:
    the identifier was in use already, or the list was full. *)
Theorem X7_RegisterUserMessage_keeps_the_identifiers_distinct (hw : CanHardware) (id : Z) :
  length (userIds hw) = MAX_USER_MESSAGES ->
  (nextUserMessageIndex hw <= MAX_USER_MESSAGES)%nat ->
  NoDup (registered hw) ->
  length (userIds (RegisterUserMessage hw id).1) = MAX_USER_MESSAGES /\
  (nextUserMessageIndex (RegisterUserMessage hw id).1 <= MAX_USER_MESSAGES)%nat /\
  NoDup (registered (RegisterUserMessage hw id).1) /\
  sent (RegisterUserMessage hw id).1 = sent hw /\
  ((RegisterUserMessage hw id).2 = true ->
   (id ∉ registered hw) /\ (nextUserMessageIndex hw < MAX_USER_MESSAGES)%nat /\
   registered (RegisterUserMessage hw id).1 = registered hw ++ [id] /\
   filterConfigs (RegisterUserMessage hw id).1 = S (filterConfigs hw)) /\
  ((RegisterUserMessage hw id).2 = false ->
   (RegisterUserMessage hw id).1 = hw /\
   (id ∈ registered hw \/ nextUserMessageIndex hw = MAX_USER_MESSAGES)).
Proof. apply RegisterUserMessage_cases. Qed.

Lemma Register_all_spec (ids : list Z) :
  forall hw, userIds_ok hw ->
    userIds_ok (Register_all hw ids) /\
    sent (Register_all hw ids) = sent hw /\
    registered hw `prefix_of` registered (Register_all hw ids) /\
    (forall id, id ∈ registered (Register_all hw ids) -> id ∈ registered hw \/ id ∈ ids) /\
    ((nextUserMessageIndex hw + length ids <= MAX_USER_MESSAGES)%nat ->
     forall id, id ∈ ids -> id ∈ registered (Register_all hw ids)).
Proof.
  induction ids as [|x ids IH]; intros hw (Hlen & Hnext & Hnd).
  - simpl. split; [by repeat split|]. split; [reflexivity|].
    split; [reflexivity|]. split; [auto|].
    intros _ id Hin. by apply elem_of_nil in Hin.
  - destruct (RegisterUserMessage_cases hw x Hlen Hnext Hnd)
      as (Hlen1 & Hnext1 & Hnd1 & Hsent1 & Htrue & Hfalse).
    destruct (IH (RegisterUserMessage hw x).1) as (Hok & Hsent & Hpre & Hmem & Hcap);
      [by repeat split|].
    change (Register_all hw (x :: ids)) with (Register_all (RegisterUserMessage hw x).1 ids).
    assert (Hstep : registered hw `prefix_of` registered (RegisterUserMessage hw x).1).
    { destruct (RegisterUserMessage hw x).2 eqn:E.
      - destruct (Htrue eq_refl) as (_ & _ & -> & _). by apply prefix_app_r.
      - destruct (Hfalse eq_refl) as (-> & _). reflexivity. }
    assert (Hin1 : forall id, id ∈ registered (RegisterUserMessage hw x).1 ->
                              id ∈ registered hw \/ id = x).
    { intros id. destruct (RegisterUserMessage hw x).2 eqn:E.
      - destruct (Htrue eq_refl) as (_ & _ & -> & _).
        rewrite elem_of_app, list_elem_of_singleton. tauto.
      - destruct (Hfalse eq_refl) as (-> & _). auto. }
    split; [assumption|]. split; [congruence|].
    split; [by etrans|]. split.
    + intros id Hid. destruct (Hmem id Hid) as [H1|H1].
      * destruct (Hin1 id H1) as [H2| ->]; [by left|right; by left].
      * right. by right.
    + simpl. intros Hroom id Hid.
      assert (Hx : x ∈ registered (RegisterUserMessage hw x).1).
      { destruct (RegisterUserMessage hw x).2 eqn:E.
        - destruct (Htrue eq_refl) as (_ & _ & -> & _).
          rewrite elem_of_app, list_elem_of_singleton. auto.
        - destruct (Hfalse eq_refl) as (-> & [Hin|Hfull]); [assumption|lia]. }
      assert (Hn : (nextUserMessageIndex (RegisterUserMessage hw x).1
                    <= S (nextUserMessageIndex hw))%nat).
      { destruct (RegisterUserMessage hw x).2 eqn:E.
        - destruct (Htrue eq_refl) as (_ & _ & Hreg & _).
          apply (f_equal length) in Hreg. rewrite length_app in Hreg. simpl in Hreg.
          unfold registered in Hreg. rewrite !length_take in Hreg. lia.
        - destruct (Hfalse eq_refl) as (-> & _). lia. }
      apply elem_of_cons in Hid as [->|Hid].
      * destruct Hpre as [k ->]. apply elem_of_app. by left.
      * apply Hcap; [lia|assumption].
Qed.

Lemma HandleClear_registers {store : Type}
    (st : CanMap store) :
  (MAX_MESSAGES <= length (canRecvMap st))%nat ->
  userIds_ok (canHardware st) ->
  let ids := canId <$> visible (canRecvMap st) in
  let hw' := Register_all (canHardware st) ids in
  HandleClear st = Some (setHw hw' st) /\
  userIds_ok hw' /\
  sent hw' = sent (canHardware st) /\
  registered (canHardware st) `prefix_of` registered hw' /\
  (forall id, id ∈ registered hw' -> id ∈ registered (canHardware st) \/ id ∈ ids) /\
  ((nextUserMessageIndex (canHardware st) + length ids <= MAX_USER_MESSAGES)%nat ->
   forall id, id ∈ ids -> id ∈ registered hw').
Proof.
  intros Hlen Hok ids hw'. split; [|by apply Register_all_spec].
  unfold HandleClear.
  rewrite (forEachCanMap_visible (canRecvMap st)
             (fun e hw => (RegisterUserMessage hw (canId e)).1)) by auto.
  unfold hw', ids, Register_all. f_equal. f_equal.
  generalize (canHardware st).
  induction (visible (canRecvMap st)) as [|e l IH]; intros hw; simpl; [reflexivity|].
  apply IH.
Qed.

(** X8: [HandleClear] calls [RegisterUserMessage] for the identifier of
    every visited receive message, in table order, and changes nothing
    else.  The identifiers in use before stay in use, at their places;
    every identifier in use afterwards was in use before or is the
    identifier of a visited receive message; and when the list has room
    for all the visited messages, the identifier of each of them is in use
    afterwards. *)
Theorem X8_HandleClear_registers_the_visited_receive_messages {store : Type}
    (st : CanMap store) :
  (MAX_MESSAGES <= length (canRecvMap st))%nat ->
  userIds_ok (canHardware st) ->
  let ids := canId <$> visible (canRecvMap st) in
  let hw' := Register_all (canHardware st) ids in
  HandleClear st = Some (setHw hw' st) /\
  userIds_ok hw' /\
  sent hw' = sent (canHardware st) /\
  registered (canHardware st) `prefix_of` registered hw' /\
  (forall id, id ∈ registered hw' -> id ∈ registered (canHardware st) \/ id ∈ ids) /\
  ((nextUserMessageIndex (canHardware st) + length ids <= MAX_USER_MESSAGES)%nat ->
   forall id, id ∈ ids -> id ∈ registered hw').
Proof. apply HandleClear_registers. Qed.

End UserMessages.

(** ** Requests to a remote node *)

Lemma testbit_above (x k n : Z) : 0 <= x < 2 ^ k -> k <= n -> Z.testbit x n = false.
Proof.
  intros Hx Hk.
  destruct (Z.eq_dec x 0) as [->|Hne]; [apply Z.bits_0|].
  apply Z.bits_above_log2; [lia|].
  assert (0 <= k).
  { destruct (Z.le_gt_cases 0 k); [assumption|]. rewrite Z.pow_neg_r in Hx; lia. }
  apply Z.lt_le_trans with k; [|assumption].
  apply Z.log2_lt_pow2; lia.
Qed.

Lemma testbit_64 n : Z.testbit 64 n = (n =? 6).
Proof.
  change 64 with (2 ^ 6).
  destruct (Z.le_gt_cases 0 n).
  - rewrite Z.pow2_bits_eqb by lia. apply Z.eqb_sym.
  - rewrite Z.testbit_neg_r by lia. symmetry. apply Z.eqb_neq. lia.
Qed.

Ltac bitwise n Hn :=
  apply Z.bits_inj'; intros n Hn;
  repeat first [rewrite Z.land_spec | rewrite Z.lor_spec
               | rewrite Z.shiftl_spec by lia | rewrite Z.shiftr_spec by lia
               | rewrite Z.testbit_ones by lia | rewrite testbit_64 ].

Section RemoteRequests.
Context {cfg : BuildConfig} {store : Type} {PS : ParamStore store}.

Lemma land_byte (x : Z) : 0 <= x < 256 -> Z.land x 0xFF = x.
Proof.
  intros H. change 0xFF with (Z.ones 8). rewrite Z.land_ones by lia.
  apply Z.mod_small. lia.
Qed.

Lemma land_half (x : Z) : 0 <= x < 65536 -> Z.land x 0xFFFF = x.
Proof.
  intros H. change 0xFFFF with (Z.ones 16). rewrite Z.land_ones by lia.
  apply Z.mod_small. lia.
Qed.

(** the word the overlay of [SDOWrite] fills, read back through the
    overlay *)
Lemma SDO_request_fields (index subIndex data : Z) :
  0 <= index < 65536 -> 0 <= subIndex < 256 ->
  let d := (Z.lor (Z.lor SDO_WRITE (Z.shiftl (Z.land index 0xFFFF) 8))
                  (Z.shiftl (Z.land subIndex 0xFF) 24), data) in
  SDO.cmd d = SDO_WRITE /\ SDO.index d = index /\ SDO.subIndex d = subIndex /\
  SDO.data d = data.
Proof.
  intros Hi Hs. simpl.
  rewrite (land_half index Hi), (land_byte subIndex Hs).
  unfold SDO.cmd, SDO.index, SDO.subIndex, SDO.data, SDO_WRITE. simpl.
  change 255 with (Z.ones 8). change 65535 with (Z.ones 16).
  repeat split.
  - bitwise n Hn.
    destruct (Z.ltb_spec n 8); [|lia].
    rewrite (Z.testbit_neg_r index), (Z.testbit_neg_r subIndex) by lia. lia.
  - bitwise n Hn.
    replace (n + 8 - 8) with n by lia.
    destruct (Z.ltb_spec n 16).
    + rewrite (Z.testbit_neg_r subIndex) by lia. destruct (Z.testbit index n); lia.
    + rewrite (testbit_above index 16 n) by lia. lia.
  - bitwise n Hn.
    replace (n + 24 - 24) with n by lia.
    rewrite (testbit_above index 16) by lia.
    destruct (Z.ltb_spec n 8).
    + destruct (Z.testbit subIndex n); lia.
    + rewrite (testbit_above subIndex 8 n) by lia. lia.
Qed.

Lemma u32_small (x : Z) : 0 <= x < 2 ^ 32 -> Word.u32 x = x.
Proof. intros H. unfold Word.u32. apply Z.mod_small. lia. Qed.

Lemma SDOWrite_sent (st : CanMap store) node index subIndex data :
  0 <= node < 256 -> 0 <= index < 65536 -> 0 <= subIndex < 256 -> 0 <= data < 2 ^ 32 ->
  exists d,
    sent (canHardware (SDOWrite st node index subIndex data))
    = sent (canHardware st) ++ [(0x600 + node, d)] /\
    SDO.cmd d = SDO_WRITE /\ SDO.index d = index /\ SDO.subIndex d = subIndex /\
    SDO.data d = data.
Proof.
  intros Hn Hi Hs Hd. unfold SDOWrite.
  rewrite (land_byte node Hn), (u32_small data Hd).
  eexists. split; [reflexivity|].
  apply SDO_request_fields; assumption.
Qed.

(** X9: a request that [SDOWrite] sends to a node for index 0x2000 or
    0x2001, when that node handles it.  The node calls [Param::Set] for
    the parameter named by the sub-index (under 0x2001, for the parameter
    with that unique identifier) with the 32 data bits read as a signed
    number, and answers on 0x580 + its node id: with the command 0x23 when
    the store returned 0, with the command 0x80 and the data 0x06090030
    otherwise. *)
Theorem X9_SDOWrite_reaches_Param_Set_of_the_remote_node (snd rcv : CanMap store)
    (index p v : Z) :
  0 <= nodeId rcv < 256 -> 0x2000 <= index <= 0x2001 ->
  0 <= p < 256 -> p < PARAM_LAST -> 0 <= v < 2 ^ 32 ->
  let paramIdx := if index =? 0x2001 then Param_NumFromId p else p in
  let result := Param_Set (params rcv) paramIdx (Word.s32 v) in
  exists d,
    sent (canHardware (SDOWrite snd (nodeId rcv) index p v))
    = sent (canHardware snd) ++ [(0x600 + nodeId rcv, d)] /\
    HandleRx rcv (0x600 + nodeId rcv) d
    = Some (setHw (Send (canHardware rcv) (0x580 + nodeId rcv)
                     (if result.2 =? 0 then SDO.set_cmd SDO_WRITE_REPLY d
                      else SDO.set_data SDO_ERR_RANGE (SDO.set_cmd SDO_ABORT d)))
                  (setParams result.1 rcv), true).
Proof.
  intros Hn Hi Hp Hlast Hv paramIdx result.
  destruct (SDOWrite_sent snd (nodeId rcv) index p v) as (d & Hsent & Hc & Hidx & Hsub & Hdat);
    try lia.
  exists d. split; [exact Hsent|].
  unfold HandleRx, ProcessSDO.
  rewrite !u32_small by lia. rewrite Z.eqb_refl.
  rewrite Hc, Hidx, Hsub, Hdat.
  replace ((8192 <=? index) && (index <=? 8193) && (p <? PARAM_LAST)) with true by lia.
  rewrite Z.eqb_refl. fold paramIdx. fold result.
  destruct result as [ps rc]. simpl.
  destruct (rc =? 0); simpl; rewrite u32_small by lia; reflexivity.
Qed.

Lemma mapping_data_fields (ofs len g : Z) :
  0 <= ofs < 256 -> 0 <= len < 256 -> 0 <= g < 65536 ->
  let data := ofs + len * 2 ^ 8 + g * 2 ^ 16 in
  0 <= data < 2 ^ 32 /\
  Z.land data 0xFF = ofs /\ Z.land (Z.shiftr data 8) 0xFF = len /\ Z.shiftr data 16 = g.
Proof.
  intros Ho Hl Hg data. subst data.
  change 0xFF with (Z.ones 8).
  rewrite !Z.land_ones, !Z.shiftr_div_pow2 by lia.
  split; [lia|].
  assert (H16 : (ofs + len * 2 ^ 8 + g * 2 ^ 16) / 2 ^ 16 = g).
  { symmetry. apply (Z.div_unique _ _ _ (ofs + len * 2 ^ 8)); lia. }
  assert (H8 : (ofs + len * 2 ^ 8 + g * 2 ^ 16) / 2 ^ 8 = len + g * 2 ^ 8).
  { symmetry. apply (Z.div_unique _ _ _ ofs); lia. }
  split; [|split; [|exact H16]].
  - symmetry. apply (Z.mod_unique _ _ (len + g * 2 ^ 8)); lia.
  - rewrite H8. symmetry. apply (Z.mod_unique _ _ g); lia.
Qed.

Lemma land_index_send (canId_ : Z) :
  0 <= canId_ < 0x800 ->
  Z.land (0x3000 + canId_) 0x4000 = 0 /\ Z.land (0x3000 + canId_) 0x7FF = canId_.
Proof.
  intros H. change 0x7FF with (Z.ones 11). rewrite Z.land_ones by lia.
  split.
  - change 0x4000 with (2 ^ 14). apply Z.bits_inj'. intros n Hn.
    rewrite Z.land_spec, Z.bits_0, Z.pow2_bits_eqb by lia.
    destruct (Z.eqb_spec 14 n) as [<-|]; [|by rewrite andb_false_r].
    rewrite (testbit_above _ 14 14) by lia. reflexivity.
  - symmetry. apply (Z.mod_unique _ _ 6); lia.
Qed.

Lemma land_index_recv (canId_ : Z) :
  0 <= canId_ < 0x800 ->
  Z.land (0x4000 + canId_) 0x4000 = 0x4000 /\ Z.land (0x4000 + canId_) 0x7FF = canId_.
Proof.
  intros H. change 0x7FF with (Z.ones 11). rewrite Z.land_ones by lia.
  split.
  - change (0x4000 + canId_) with (2 ^ 14 + canId_). change 0x4000 with (2 ^ 14).
    apply Z.bits_inj'. intros n Hn.
    rewrite Z.land_spec, Z.pow2_bits_eqb by lia.
    destruct (Z.eqb_spec 14 n) as [<-|]; [|by rewrite andb_false_r].
    rewrite andb_true_r.
    replace (2 ^ 14 + canId_) with (canId_ + 1 * 2 ^ 14) by lia.
    rewrite Z.add_b2z_double_bit0 || idtac.
    rewrite <- (Z.add_0_l 14) at 2.
    rewrite <- Z.div_pow2_bits by lia.
    replace ((canId_ + 1 * 2 ^ 14) / 2 ^ 14) with 1; [reflexivity|].
    apply (Z.div_unique _ _ _ canId_); lia.
  - symmetry. apply (Z.mod_unique _ _ 8); lia.
Qed.

Lemma AddRecv_nodeId (st : CanMap store) param id ofs len g off st' r :
  AddRecv st param id ofs len g off = Some (st', r) -> nodeId st' = nodeId st.
Proof.
  unfold AddRecv.
  destruct (Add RecvMap st param id ofs len g off) as [[st1 r1]|] eqn:E; [|discriminate].
  simpl. intros [= <- <-]. simpl.
  apply Add_keeps_rest in E as (_ & Hn & _). exact Hn.
Qed.

Lemma AddSend_nodeId (st : CanMap store) param id ofs len g off st' r :
  AddSend st param id ofs len g off = Some (st', r) -> nodeId st' = nodeId st.
Proof.
  unfold AddSend. intros E. apply Add_keeps_rest in E as (_ & Hn & _). exact Hn.
Qed.

(** X10: a request that [SDOWrite] sends to a node for index 0x3000 +
    [id] (send) or 0x4000 + [id] (receive), with the bit offset in the low
    byte of the data, the width in the next byte and the gain in the upper
    half, when that node handles it.  The node runs [AddSend] or [AddRecv]
    for the parameter named by the sub-index with these arguments, the
    gain converted to a float and the offset 0, and answers on 0x580 + its
    node id: with the command 0x23 when the add returned a count, with the
    command 0x80 and the data 0x06090030 when it returned an error. *)
Theorem X10_SDOWrite_maps_a_parameter_of_the_remote_node (snd rcv : CanMap store)
    (rx : bool) (p id ofs len g : Z) :
  0 <= nodeId rcv < 256 -> 0 <= p < 256 -> p < PARAM_LAST ->
  0 <= id < 0x800 -> 0 <= ofs < 256 -> 0 <= len < 256 -> 0 <= g < 65536 ->
  let index := (if rx then 0x4000 else 0x3000) + id in
  let data := ofs + len * 2 ^ 8 + g * 2 ^ 16 in
  exists d,
    sent (canHardware (SDOWrite snd (nodeId rcv) index p data))
    = sent (canHardware snd) ++ [(0x600 + nodeId rcv, d)] /\
    HandleRx rcv (0x600 + nodeId rcv) d
    = match (if rx then AddRecv rcv p id ofs len (F32.of_Z g) 0
             else AddSend rcv p id ofs len (F32.of_Z g) 0) with
      | Some (st1, r) =>
          Some (setHw (Send (canHardware st1) (0x580 + nodeId rcv)
                         (match r with
                          | Count _ => SDO.set_cmd SDO_WRITE_REPLY d
                          | Fault _ => SDO.set_data SDO_ERR_RANGE (SDO.set_cmd SDO_ABORT d)
                          end)) st1, true)
      | None => None
      end.
Proof.
  intros Hn Hp Hlast Hid Hofs Hlen Hg index data.
  destruct (mapping_data_fields ofs len g Hofs Hlen Hg) as (Hd & Hf1 & Hf2 & Hf3).
  fold data in Hd, Hf1, Hf2, Hf3.
  destruct (SDOWrite_sent snd (nodeId rcv) index p data)
    as (d & Hsent & Hc & Hidx & Hsub & Hdat); try lia.
  { subst index. destruct rx; lia. }
  exists d. split; [exact Hsent|].
  unfold HandleRx, ProcessSDO.
  rewrite !u32_small by lia. rewrite Z.eqb_refl.
  rewrite Hc, Hidx, Hsub, Hdat, Hf1, Hf2, Hf3.
  replace ((8192 <=? index) && (index <=? 8193) && (p <? PARAM_LAST)) with false
    by (subst index; destruct rx; lia).
  replace ((12288 <=? index) && (index <? 18432) && (p <? PARAM_LAST)) with true
    by (subst index; destruct rx; lia).
  rewrite Z.eqb_refl.
  destruct rx; subst index.
  - destruct (land_index_recv id Hid) as [-> ->]. rewrite Z.eqb_refl.
    destruct (AddRecv rcv p id ofs len (F32.of_Z g) 0) as [[st1 r]|] eqn:E; [|reflexivity].
    apply AddRecv_nodeId in E as Hnode.
    destruct r; simpl; rewrite Hnode, u32_small by lia; reflexivity.
  - destruct (land_index_send id Hid) as [-> ->].
    change (0 =? 16384) with false. cbv iota.
    destruct (AddSend rcv p id ofs len (F32.of_Z g) 0) as [[st1 r]|] eqn:E; [|reflexivity].
    apply AddSend_nodeId in E as Hnode.
    destruct r; simpl; rewrite Hnode, u32_small by lia; reflexivity.
Qed.

End RemoteRequests.

(** ** The bits of a field, sent and received *)

Section Codec.
Context {cfg : BuildConfig} {store : Type} {PS : ParamStore store}.

Lemma mask_ones (n : Z) : 0 <= n -> Word.mask n = Z.ones (Z.min n 32).
Proof.
  intros Hn. unfold Word.mask, Word.shl, Word.u32.
  rewrite Z.shiftl_1_l, Z.ones_equiv.
  destruct (Z.lt_ge_cases n 32).
  - rewrite Z.min_l by lia.
    assert (0 < 2 ^ n < 2 ^ 32) by (split; [lia|apply Z.pow_lt_mono_r; lia]).
    rewrite (Z.mod_small (2 ^ n)) by lia.
    rewrite Z.mod_small by lia. lia.
  - rewrite Z.min_r by lia.
    replace (2 ^ n) with (2 ^ (n - 32) * 2 ^ 32) by (rewrite <- Z.pow_add_r by lia; f_equal; lia).
    rewrite Z.mod_mul by lia. reflexivity.
Qed.

Lemma testbit_mask (n j : Z) :
  0 <= n -> Z.testbit (Word.mask n) j = (0 <=? j) && (j <? Z.min n 32).
Proof.
  intros Hn. rewrite mask_ones by assumption.
  destruct (Z.le_gt_cases 0 j).
  - rewrite Z.testbit_ones by lia. reflexivity.
  - rewrite Z.testbit_neg_r by lia. lia.
Qed.

Lemma testbit_shl (x n j : Z) :
  0 <= n -> 0 <= j -> Z.testbit (Word.shl x n) j = (j <? 32) && Z.testbit x (j - n).
Proof.
  intros Hn Hj. unfold Word.shl, Word.u32.
  destruct (Z.ltb_spec j 32).
  - rewrite Z.mod_pow2_bits_low by lia. rewrite Z.shiftl_spec by lia. reflexivity.
  - rewrite Z.mod_pow2_bits_high by lia. reflexivity.
Qed.

(** the bit of the frame that bit [i] of the field of [tc] lies in *)
Lemma or_field_keeps_bit (v : Z) (c tc : CANPOS) (d : Z * Z) (i : Z) :
  0 <= offsetBits c -> 0 <= numBits c ->
  0 <= offsetBits tc ->
  (offsetBits tc + numBits tc <= 32 \/ 32 <= offsetBits tc) ->
  (offsetBits c + numBits c <= offsetBits tc \/ offsetBits tc + numBits tc <= offsetBits c) ->
  0 <= i < numBits tc ->
  (if offsetBits tc >? 31 then Z.testbit (or_field v c d).2 (i + (offsetBits tc - 32))
   else Z.testbit (or_field v c d).1 (i + offsetBits tc))
  = (if offsetBits tc >? 31 then Z.testbit d.2 (i + (offsetBits tc - 32))
     else Z.testbit d.1 (i + offsetBits tc)).
Proof.
  intros Hoc Hnc Hot Hstr Hdis Hi. unfold or_field.
  destruct (Z.gtb_spec (offsetBits tc) 31) as [Ht|Ht];
    destruct (Z.gtb_spec (offsetBits c) 31) as [Hc|Hc]; simpl; try reflexivity.
  - rewrite Z.lor_spec, testbit_shl, Z.land_spec, testbit_mask by lia.
    destruct (Z.testbit d.2 _); [reflexivity|]. simpl.
    destruct (Z.testbit v _); simpl; lia.
  - rewrite Z.lor_spec, testbit_shl, Z.land_spec, testbit_mask by lia.
    destruct (Z.testbit d.1 _); [reflexivity|]. simpl.
    destruct (Z.testbit v _); simpl; lia.
Qed.

Lemma or_field_sets_bit (v : Z) (c : CANPOS) (d : Z * Z) (i : Z) :
  0 <= offsetBits c -> 0 <= numBits c <= 32 ->
  (offsetBits c + numBits c <= 32 \/ 32 <= offsetBits c /\ offsetBits c + numBits c <= 64) ->
  0 <= i < numBits c ->
  (if offsetBits c >? 31 then Z.testbit (or_field v c d).2 (i + (offsetBits c - 32))
   else Z.testbit (or_field v c d).1 (i + offsetBits c))
  = (if offsetBits c >? 31 then Z.testbit d.2 (i + (offsetBits c - 32))
     else Z.testbit d.1 (i + offsetBits c)) || Z.testbit v i.
Proof.
  intros Hoc Hnc Hstr Hi. unfold or_field.
  destruct (Z.gtb_spec (offsetBits c) 31) as [Hc|Hc]; simpl.
  - rewrite Z.lor_spec, testbit_shl, Z.land_spec, testbit_mask by lia.
    replace (i + (offsetBits c - 32) - (offsetBits c - 32)) with i by lia.
    destruct (Z.testbit d.2 _); [reflexivity|]. simpl.
    destruct (Z.testbit v i); simpl; lia.
  - rewrite Z.lor_spec, testbit_shl, Z.land_spec, testbit_mask by lia.
    replace (i + offsetBits c - offsetBits c) with i by lia.
    destruct (Z.testbit d.1 _); [reflexivity|]. simpl.
    destruct (Z.testbit v i); simpl; lia.
Qed.

(** the bits of the field of [tc] in the frame of a chain: those of the
    value of [tc], when no other binding of the chain overlaps it *)
Lemma frame_field_bits (scale : F32.float -> CANPOS -> Z) (ps : store)
    (tc : CANPOS) (L1 L2 : list (nat * CANPOS)) (k : nat) (i : Z) :
  Forall (fun ic => 0 <= offsetBits ic.2 /\ 0 <= numBits ic.2 /\
                    (offsetBits ic.2 + numBits ic.2 <= offsetBits tc \/
                     offsetBits tc + numBits tc <= offsetBits ic.2)) (L1 ++ L2) ->
  0 <= offsetBits tc -> 0 <= numBits tc <= 32 ->
  (offsetBits tc + numBits tc <= 32 \/ 32 <= offsetBits tc /\ offsetBits tc + numBits tc <= 64) ->
  0 <= i < numBits tc ->
  let d := foldl (fun d ic => or_field (scale (Param_GetFloat ps (mapParam ic.2)) ic.2) ic.2 d)
                 (0, 0) (L1 ++ (k, tc) :: L2) in
  (if offsetBits tc >? 31 then Z.testbit d.2 (i + (offsetBits tc - 32))
   else Z.testbit d.1 (i + offsetBits tc))
  = Z.testbit (scale (Param_GetFloat ps (mapParam tc)) tc) i.
Proof.
  intros Hall Hot Hnt Hstr Hi d. subst d.
  apply Forall_app in Hall as [H1 H2].
  assert (Hkeep : forall (L : list (nat * CANPOS)) (d0 : Z * Z),
    Forall (fun ic => 0 <= offsetBits ic.2 /\ 0 <= numBits ic.2 /\
                      (offsetBits ic.2 + numBits ic.2 <= offsetBits tc \/
                       offsetBits tc + numBits tc <= offsetBits ic.2)) L ->
    (if offsetBits tc >? 31
     then Z.testbit (foldl (fun d ic =>
            or_field (scale (Param_GetFloat ps (mapParam ic.2)) ic.2) ic.2 d) d0 L).2
            (i + (offsetBits tc - 32))
     else Z.testbit (foldl (fun d ic =>
            or_field (scale (Param_GetFloat ps (mapParam ic.2)) ic.2) ic.2 d) d0 L).1
            (i + offsetBits tc))
    = (if offsetBits tc >? 31 then Z.testbit d0.2 (i + (offsetBits tc - 32))
       else Z.testbit d0.1 (i + offsetBits tc))).
  { induction L as [|ic L IH]; intros d0 HL; [reflexivity|].
    inversion HL as [|? ? (Ho & Hn & Hd) HL']; subst. simpl.
    rewrite IH by assumption.
    apply or_field_keeps_bit; try assumption; lia. }
  rewrite foldl_app. simpl.
  rewrite Hkeep by assumption.
  rewrite or_field_sets_bit by assumption.
  rewrite Hkeep by assumption.
  simpl. rewrite !Z.bits_0. destruct (offsetBits tc >? 31); reflexivity.
Qed.

(** what [HandleRx] cuts out of a frame for a binding with the position
    and width of [tc] *)
Lemma rx_field_bits (c' tc : CANPOS) (d : Z * Z) (v : Z) :
  offsetBits c' = offsetBits tc -> numBits c' = numBits tc ->
  0 <= offsetBits tc -> 0 <= numBits tc <= 32 ->
  0 <= v < 2 ^ numBits tc ->
  (forall i, 0 <= i < numBits tc ->
     (if offsetBits tc >? 31 then Z.testbit d.2 (i + (offsetBits tc - 32))
      else Z.testbit d.1 (i + offsetBits tc)) = Z.testbit v i) ->
  rx_field c' d = v.
Proof.
  intros Ho Hn Hot Hnt Hv Hbits. unfold rx_field, Word.shr. rewrite Ho, Hn.
  apply Z.bits_inj'. intros i Hi.
  destruct (Z.gtb_spec (offsetBits tc) 31) as [Ht|Ht];
    rewrite Z.land_spec, Z.shiftr_spec, testbit_mask by lia;
    (destruct (Z.ltb_spec i (numBits tc));
     [rewrite <- Hbits by lia;
      destruct (Z.gtb_spec (offsetBits tc) 31); try lia;
      destruct (Z.testbit _ _); lia
     |rewrite (testbit_above v (numBits tc) i) by lia; lia]).
Qed.

(** X11: a field travels unchanged from the send sweep of one node to the
    receive path of another.  The sender's binding [c] sits in the chain
    of a visited send message; no other binding of that chain overlaps its
    bits; the field lies in one of the two words; and the scaled value
    fits in the width.  Then the frame the sweep sends for the message,
    handled by a node that maps the identifier, makes every binding [c']
    of that node with the position and width of [c] write (value + offset
    of [c']) * gain of [c'], where value is exactly the sender's scaled
    integer. *)
Theorem X11_the_receiver_reads_the_field_the_sender_wrote
    (snd rcv : CanMap store) (m : nat) (e : CANIDMAP) (L1 L2 : list (nat * CANPOS))
    (k : nat) (c : CANPOS) (j : nat) (e' : CANIDMAP) (k' : nat) (c' : CANPOS) :
  well_formed snd -> isSaving snd = false ->
  visible (canSendMap snd) !! m = Some e ->
  bindings snd e = L1 ++ (k, c) :: L2 ->
  Forall (fun ic => 0 <= offsetBits ic.2 /\ 0 <= numBits ic.2 /\
                    (offsetBits ic.2 + numBits ic.2 <= offsetBits c \/
                     offsetBits c + numBits c <= offsetBits ic.2)) (L1 ++ L2) ->
  0 <= offsetBits c -> 0 <= numBits c <= 32 ->
  (offsetBits c + numBits c <= 32 \/ 32 <= offsetBits c /\ offsetBits c + numBits c <= 64) ->
  0 <= scale_gain_offset (Param_GetFloat (params snd) (mapParam c)) c < 2 ^ numBits c ->
  well_formed rcv -> isSaving rcv = false ->
  canId e <> Word.u32 (0x600 + nodeId rcv) ->
  list_find (fun x => canId x = canId e) (visible (canRecvMap rcv)) = Some (j, e') ->
  (k', c') ∈ bindings rcv e' ->
  offsetBits c' = offsetBits c -> numBits c' = numBits c ->
  exists snd' d,
    SendAll snd = Some snd' /\
    sent (canHardware snd') !! (length (sent (canHardware snd)) + m)%nat
    = Some (canId e, d) /\
    HandleRx rcv (canId e) d = Some (setParams (received rcv e' d) rcv, true) /\
    rx_value c' d
    = F32.mul
        (F32.add
           (F32.of_Z (scale_gain_offset (Param_GetFloat (params snd) (mapParam c)) c))
           (F32.of_Z (offset c')))
        (gain c').
Proof.
  intros Hwf Hsav Hm Hb Hall Hoc Hnc Hstr Hv Hwf' Hsav' Hid Hfind Hc' Ho Hn.
  destruct (SendAll_frames snd Hwf) as [Hrun _]. rewrite Hsav in Hrun.
  exists (setHw (Send_all (canHardware snd) (frames_of snd)) snd),
         (frame_of scale_gain_offset (params snd) e (bindings snd e)).2.
  split; [exact Hrun|]. split; [|split].
  - simpl. rewrite Send_all_sent.
    rewrite (lookup_app_r (sent (canHardware snd))) by lia.
    replace (length (sent (canHardware snd)) + m - length (sent (canHardware snd)))%nat
      with m by lia.
    unfold frames_of. rewrite list_lookup_fmap, Hm. reflexivity.
  - rewrite (HandleRx_received rcv _ _ Hwf' Hsav' Hid), Hfind. reflexivity.
  - unfold rx_value. f_equal. f_equal. f_equal.
    apply (rx_field_bits c' c); try assumption.
    intros i Hi. unfold frame_of. simpl. rewrite Hb.
    apply frame_field_bits; assumption.
Qed.

End Codec.

(** ** The receive callbacks *)

Section Callbacks.
Context {cfg : BuildConfig} {dcfg : DispatchConfig} {store : Type} {PS : ParamStore store}.

(** a map that turns a frame down has changed nothing *)
Lemma HandleRx_false (st st' : CanMap store) id data :
  HandleRx st id data = Some (st', false) -> st' = st.
Proof.
  unfold HandleRx.
  destruct (id =? Word.u32 (0x600 + nodeId st)).
  { destruct (ProcessSDO st data); simpl; intros; discriminate. }
  destruct (isSaving st); [by intros [= <-]|].
  destruct (FindById (canRecvMap st) id) as [[i|]|]; simpl; try discriminate.
  - destruct (canRecvMap st !! i); simpl; [|discriminate].
    destruct (forEachPosMap _ _ _ _) as [[ps|[]]|]; discriminate.
  - by intros [= <-].
Qed.

Lemma set_object_same k (o : CanMap store) (b : Bus store) :
  objects b !! k = Some o ->
  Hw.set_object k (setHw (canHardware o) (setHw (hardware b) o))
    (Hw.set_hardware (canHardware (setHw (hardware b) o)) b) = b.
Proof.
  intros Hk. destruct b as [h r n os]. destruct o. unfold Hw.set_object, Hw.set_hardware.
  simpl in *. f_equal. apply list_insert_id. assumption.
Qed.

Lemma call_HandleRx_false cb (b b' : Bus store) id data :
  Hw.call_HandleRx cb b id data = Some (b', false) -> b' = b.
Proof.
  destruct cb as [|k]; simpl; [by intros [= <-]|].
  destruct (objects b !! k) as [o|] eqn:Hk; simpl; [|discriminate].
  destruct (HandleRx (setHw (hardware b) o) id data) as [[o' r]|] eqn:E; simpl; [|discriminate].
  intros [= <- ->]. apply HandleRx_false in E as ->.
  by apply set_object_same.
Qed.

Lemma HandleRx_loop_spec (id : Z) (data : Z * Z) :
  forall n i (b b' : Bus store),
    Hw.HandleRx_loop n i b id data = Some b' ->
    b' = b \/
    exists j k o o',
      (i <= j < i + n)%nat /\
      recvCallback b !! j = Some (mapCallback k) /\
      objects b !! k = Some o /\
      HandleRx (setHw (hardware b) o) id data = Some (o', true) /\
      (forall j0 k0 o0,
         (i <= j0 < j)%nat -> recvCallback b !! j0 = Some (mapCallback k0) ->
         objects b !! k0 = Some o0 ->
         HandleRx (setHw (hardware b) o0) id data = Some (setHw (hardware b) o0, false)) /\
      b' = Hw.set_object k (setHw (canHardware o) o') (Hw.set_hardware (canHardware o') b).
Proof.
  induction n as [|n IH]; intros i b b'; simpl; [intros [= <-]; by left|].
  destruct (recvCallback b !! i) as [cb|] eqn:Hcb; simpl; [|discriminate].
  destruct (Hw.call_HandleRx cb b id data) as [[b1 taken]|] eqn:Hcall; simpl; [|discriminate].
  destruct taken.
  - intros [= <-]. right.
    destruct cb as [|k]; simpl in Hcall; [discriminate|].
    destruct (objects b !! k) as [o|] eqn:Hk; simpl in Hcall; [|discriminate].
    destruct (HandleRx (setHw (hardware b) o) id data) as [[o' r]|] eqn:E;
      simpl in Hcall; [|discriminate].
    injection Hcall as <- ->.
    exists i, k, o, o'. repeat split; try assumption; try lia.
  - apply call_HandleRx_false in Hcall as Hb1. subst b1.
    intros Hrun. apply IH in Hrun as [->|(j & k & o & o' & Hj & Hr & Ho & Hrx & Hbefore & ->)];
      [by left|right].
    exists j, k, o, o'. repeat split; try assumption; try lia.
    intros j0 k0 o0 Hj0 Hr0 Ho0.
    destruct (decide (j0 = i)) as [->|Hne]; [|apply (Hbefore j0 k0 o0); [lia|assumption..]].
    rewrite Hcb in Hr0. injection Hr0 as ->. simpl in Hcall.
    rewrite Ho0 in Hcall. simpl in Hcall.
    destruct (HandleRx (setHw (hardware b) o0) id data) as [[o1 r]|] eqn:E;
      simpl in Hcall; [|discriminate].
    injection Hcall as _ ->. apply HandleRx_false in E as E'. by subst o1.
Qed.

(** X12: [CanHardware::HandleRx] offers the frame to the callbacks in the
    order of their registration and stops at the first one that returns
    [true].  So it changes nothing at all, or what it changes is the work
    of one map: the first registered map whose [HandleRx] takes the frame;
    the maps registered before it have turned the frame down and are as
    they were, the ones after it have not been called. *)
Theorem X12_the_first_callback_that_takes_the_frame_ends_the_dispatch
    (b b' : Bus store) (id : Z) (data : Z * Z) :
  Hw.HandleRx b id data = Some b' ->
  b' = b \/
  exists j k o o',
    (j < nextCallbackIndex b)%nat /\
    recvCallback b !! j = Some (mapCallback k) /\
    objects b !! k = Some o /\
    HandleRx (setHw (hardware b) o) id data = Some (o', true) /\
    (forall j0 k0 o0,
       (j0 < j)%nat -> recvCallback b !! j0 = Some (mapCallback k0) ->
       objects b !! k0 = Some o0 ->
       HandleRx (setHw (hardware b) o0) id data = Some (setHw (hardware b) o0, false)) /\
    b' = Hw.set_object k (setHw (canHardware o) o') (Hw.set_hardware (canHardware o') b).
Proof.
  intros Hrun. apply HandleRx_loop_spec in Hrun
    as [->|(j & k & o & o' & Hj & Hr & Ho & Hrx & Hbefore & ->)]; [by left|right].
  exists j, k, o, o'. repeat split; try assumption; try lia.
  intros j0 k0 o0 Hj0. apply Hbefore. lia.
Qed.

Lemma set_hardware_same (b : Bus store) : Hw.set_hardware (hardware b) b = b.
Proof. by destruct b. Qed.

Lemma setHw_setHw h h' (st : CanMap store) : setHw h (setHw h' st) = setHw h st.
Proof. reflexivity. Qed.

Lemma call_HandleClear_spec cb (b : Bus store) :
  callback_ok b cb -> userIds_ok (hardware b) ->
  Hw.call_HandleClear cb b
  = Some (Hw.set_hardware (Register_all (hardware b) (callback_ids b cb)) b).
Proof.
  intros Hok Hids. destruct cb as [|k]; simpl.
  - by rewrite set_hardware_same.
  - destruct Hok as (o & Ho & Hlen). rewrite Ho. simpl.
    destruct (HandleClear_registers (setHw (hardware b) o)) as (Hrun & _); try assumption.
    simpl in Hrun. rewrite Hrun. simpl. rewrite !setHw_setHw, setHw_same.
    destruct b as [h r n os]. unfold Hw.set_object, Hw.set_hardware. simpl in *.
    rewrite list_insert_id by assumption. reflexivity.
Qed.

Lemma Register_all_app hw (l1 l2 : list Z) :
  Register_all hw (l1 ++ l2) = Register_all (Register_all hw l1) l2.
Proof. unfold Register_all. apply foldl_app. Qed.

Lemma HandleClear_loop_spec :
  forall n i (b : Bus store),
    (i + n <= length (recvCallback b))%nat ->
    Forall (callback_ok b) (take n (drop i (recvCallback b))) ->
    userIds_ok (hardware b) ->
    Hw.HandleClear_loop n i b
    = Some (Hw.set_hardware
              (Register_all (hardware b)
                 (concat (callback_ids b <$> take n (drop i (recvCallback b))))) b).
Proof.
  induction n as [|n IH]; intros i b Hlen Hok Hids; simpl.
  - by rewrite set_hardware_same.
  - destruct (drop i (recvCallback b)) as [|cb r] eqn:Hd.
    { apply (f_equal length) in Hd. rewrite length_drop in Hd. simpl in Hd. lia. }
    apply drop_lookup_cons in Hd as [Hcb Hr].
    rewrite Hcb. simpl. simpl in Hok. inversion Hok as [|? ? Hok1 Hok2]; subst.
    rewrite call_HandleClear_spec by assumption. simpl.
    rewrite IH.
    + simpl. rewrite Register_all_app. reflexivity.
    + simpl. lia.
    + simpl. assumption.
    + simpl. apply Register_all_spec. assumption.
Qed.

Lemma ClearUserMessages_spec (b : Bus store) :
  (nextCallbackIndex b <= length (recvCallback b))%nat ->
  Forall (callback_ok b) (callbacks b) ->
  length (userIds (hardware b)) = MAX_USER_MESSAGES ->
  let h0 := {| userIds := userIds (hardware b); nextUserMessageIndex := 0;
               filterConfigs := S (filterConfigs (hardware b));
               sent := sent (hardware b) |} in
  Hw.ClearUserMessages b
  = Some (Hw.set_hardware (Register_all h0 (concat (callback_ids b <$> callbacks b))) b) /\
  userIds_ok h0 /\ registered h0 = [].
Proof.
  intros Hlen Hok Hids h0.
  assert (Hok0 : userIds_ok h0).
  { repeat split; simpl; [assumption|lia|apply NoDup_nil_2]. }
  split; [|split; [assumption|reflexivity]].
  unfold Hw.ClearUserMessages. fold h0.
  rewrite HandleClear_loop_spec; simpl; rewrite ?drop_0; try assumption; try lia.
  reflexivity.
Qed.

Lemma visible_cleared (t : list CANIDMAP) :
  visible (set_first MAX_ITEMS <$> t) = [].
Proof.
  unfold visible. destruct MAX_MESSAGES; destruct t as [|e t]; simpl; try reflexivity.
  by rewrite Nat.eqb_refl.
Qed.

(** X13: [CanMap::Clear] of a registered or unregistered map.  Its two
    tables and the pool are empty afterwards, and the list of user
    messages is built anew from nothing by the callbacks in use, in the
    order of their registration; the cleared map adds no identifier to it.
    So every identifier in use afterwards is the identifier of a visited
    receive message of one of the other maps, no identifier is in use
    twice, and when the list has room for all of them, each of them is in
    use.  Nothing has been sent. *)
Theorem X13_Clear_empties_the_map_and_rebuilds_the_user_messages
    (b : Bus store) (k : nat) (o : CanMap store) :
  objects b !! k = Some o ->
  length (userIds (hardware b)) = MAX_USER_MESSAGES ->
  (nextCallbackIndex b <= length (recvCallback b))%nat ->
  Forall (callback_ok b) (callbacks b) ->
  let cleared := ClearMap RecvMap (ClearMap SendMap o) in
  let ids := concat (callback_ids (Hw.set_object k cleared b) <$> callbacks b) in
  exists h,
    Clear k b = Some {| hardware := h; recvCallback := recvCallback b;
                        nextCallbackIndex := nextCallbackIndex b;
                        objects := <[k := cleared]> (objects b) |} /\
    empty_table cleared /\
    callback_ids (Hw.set_object k cleared b) (mapCallback k) = [] /\
    userIds_ok h /\ sent h = sent (hardware b) /\
    (forall id, id ∈ registered h -> id ∈ ids) /\
    ((length ids <= MAX_USER_MESSAGES)%nat -> forall id, id ∈ ids -> id ∈ registered h).
Proof.
  intros Ho Hids Hlen Hok cleared ids.
  assert (Hcl : callback_ids (Hw.set_object k cleared b) (mapCallback k) = []).
  { simpl. rewrite list_lookup_insert_eq by (by eapply lookup_lt_Some).
    unfold cleared, ClearMap. simpl. rewrite visible_cleared. reflexivity. }
  assert (Hok' : Forall (callback_ok (Hw.set_object k cleared b))
                        (callbacks (Hw.set_object k cleared b))).
  { unfold callbacks. simpl. eapply Forall_impl; [exact Hok|].
    intros [|k'] Hcb; simpl; [exact I|].
    destruct Hcb as (o' & Ho' & Hl').
    destruct (decide (k' = k)) as [->|Hne].
    - exists cleared. rewrite list_lookup_insert_eq by (by eapply lookup_lt_Some).
      split; [reflexivity|].
      assert (o' = o) by congruence. subst o'.
      unfold cleared, ClearMap. simpl. by rewrite length_fmap.
    - exists o'. rewrite list_lookup_insert_ne by congruence. auto. }
  destruct (ClearUserMessages_spec (Hw.set_object k cleared b)) as (Hrun & Hok0 & Hreg0);
    try assumption.
  destruct (Register_all_spec ids _ Hok0) as (Hokh & Hsent & _ & Hmem & Hcap).
  eexists. split; [|split; [apply ClearMap_empty|split; [exact Hcl|]]].
  - unfold Clear. rewrite Ho. simpl. fold cleared. rewrite Hrun. reflexivity.
  - split; [exact Hokh|]. split; [exact Hsent|]. split.
    + intros id Hid. destruct (Hmem id Hid) as [H0|H0]; [|exact H0].
      rewrite Hreg0 in H0. by apply elem_of_nil in H0.
    + intros Hroom. apply Hcap. simpl. exact Hroom.
Qed.

(** the dispatch leaves every map alone that no callback in use points
    to *)
Lemma Hw_HandleRx_unregistered (b b' : Bus store) id data k :
  Hw.HandleRx b id data = Some b' ->
  mapCallback k ∉ callbacks b ->
  objects b' !! k = objects b !! k.
Proof.
  intros Hrun Hk. apply HandleRx_loop_spec in Hrun
    as [->|(j & k0 & o & o' & Hj & Hr & Ho & Hrx & Hbefore & ->)]; [reflexivity|].
  simpl. apply list_lookup_insert_ne. intros ->. apply Hk.
  unfold callbacks. apply list_elem_of_lookup. exists j.
  rewrite lookup_take_lt by lia. assumption.
Qed.

End Callbacks.

Section Construction.
Context {cfg : BuildConfig} {dcfg : DispatchConfig} {store : Type} {PS : ParamStore store}
        {FI : FlashImage}.

(** what the constructor has done to the bus when it returns *)
Lemma CanMap_CanMap_spec (raw : CanMap store) (flash : nat -> Z) (b b1 : Bus store) :
  length (recvCallback b) = MAX_RECV_CALLBACKS ->
  (nextCallbackIndex b <= MAX_RECV_CALLBACKS)%nat ->
  Forall (fun cb => forall k, cb = mapCallback k -> (k < length (objects b))%nat)
         (callbacks b) ->
  CanMap_CanMap raw flash b = Some b1 ->
  exists o,
    objects b1 = objects b ++ [o] /\
    ((nextCallbackIndex b < MAX_RECV_CALLBACKS)%nat ->
     callbacks b1 = callbacks b ++ [mapCallback (length (objects b))]) /\
    (nextCallbackIndex b = MAX_RECV_CALLBACKS ->
     (Hw.AddReceiveCallback (mapCallback (length (objects b))) b).2 = false /\
     callbacks b1 = callbacks b /\
     forall id data b2,
       Hw.HandleRx b1 id data = Some b2 ->
       objects b2 !! length (objects b) = Some o).
Proof.
  intros Hlen Hnext Hptr. unfold CanMap_CanMap, Hw.AddReceiveCallback.
  destruct (nextCallbackIndex b <? MAX_RECV_CALLBACKS)%nat eqn:Hroom; simpl.
  - apply Nat.ltb_lt in Hroom.
    destruct (CanMap_new _ flash) as [o|]; simpl; [|discriminate].
    intros [= <-]. simpl. eexists. split; [reflexivity|]. split; [|lia].
    intros _. unfold callbacks. simpl.
    rewrite (take_S_r _ _ (mapCallback (length (objects b))))
      by (apply list_lookup_insert_eq; lia).
    rewrite take_insert_ge by lia. reflexivity.
  - apply Nat.ltb_ge in Hroom.
    destruct (CanMap_new _ flash) as [o|]; simpl; [|discriminate].
    intros [= <-]. eexists. split; [reflexivity|]. split; [lia|].
    intros _. split; [reflexivity|]. split; [reflexivity|].
    intros id data b2 Hrun.
    rewrite (Hw_HandleRx_unregistered _ _ _ _ (length (objects b)) Hrun).
    + simpl. rewrite lookup_app_r by lia. by rewrite Nat.sub_diag.
    + unfold callbacks. simpl. intros Hin.
      rewrite Forall_forall in Hptr. specialize (Hptr _ Hin _ eq_refl). lia.
Qed.

End Construction.

(** ** The chains, slot by slot *)

Section ChainLemmas.
Context {cfg : BuildConfig} {store : Type} {PS : ParamStore store}.

Local Arguments findPreceding : simpl never.
Local Arguments FindById : simpl never.
Local Arguments countMessages : simpl never.
Local Arguments findFreeEntry : simpl never.
Local Arguments findFreeIndex : simpl never.
Local Arguments Add : simpl never.

Lemma path_head (p : list CANPOS) (stop : nat -> Prop) i L x N :
  path p stop i L -> L.*1 = x :: N ->
  i = x /\ exists cx L1,
    L = (x, cx) :: L1 /\ ~ stop x /\ p !! x = Some cx /\
    path p stop (next cx) L1 /\ L1.*1 = N.
Proof.
  intros Hp HL. inversion Hp as [i0 Hs|i0 c l Hs Hc Hrest]; subst; [discriminate|].
  simpl in HL. injection HL as <- <-. split; [reflexivity|].
  exists c, l. auto.
Qed.

Lemma path_elem (p : list CANPOS) (stop : nat -> Prop) i L k c :
  path p stop i L -> (k, c) ∈ L -> p !! k = Some c.
Proof.
  induction 1 as [i Hs|i c0 l Hs Hc Hp IH]; intros Hin.
  - by apply elem_of_nil in Hin.
  - apply elem_of_cons in Hin as [[= -> ->]|Hin]; auto.
Qed.

Lemma path_agree (p p' : list CANPOS) i L :
  path p at_end i L -> (forall k, k ∈ L.*1 -> p' !! k = p !! k) ->
  path p' at_end i L.
Proof.
  induction 1 as [i Hs|i c l Hs Hc Hp IH]; intros Hsame.
  - by constructor.
  - constructor; [assumption| |].
    + rewrite Hsame by (simpl; by left). assumption.
    + apply IH. intros k Hk. apply Hsame. simpl. by right.
Qed.

Lemma bindings_path (st : CanMap store) e L :
  well_formed st -> path (canPosMap st) at_end (first e) L -> bindings st e = L.
Proof.
  intros Hwf Hp. pose proof Hwf as (_ & (_ & _ & Hlen & _) & _).
  apply bindings_chain; [assumption|]. by apply well_formed_chain.
Qed.

Lemma bindings_same_pool (st st' : CanMap store) e :
  canPosMap st' = canPosMap st -> bindings st' e = bindings st e.
Proof. intros Hp. unfold bindings. by rewrite Hp. Qed.

Lemma path_first_end (p : list CANPOS) L :
  path p at_end MAX_ITEMS L -> L = [].
Proof.
  inversion 1 as [|i c l Hs]; subst; [reflexivity|]. exfalso. by apply Hs.
Qed.

(** the chain once a binding sits in the free slot [f] and is linked after
    the last slot of the chain *)
Lemma path_snoc_link (p : list CANPOS) f item :
  f <> MAX_ITEMS -> (f < length p)%nat -> next item = MAX_ITEMS ->
  forall A i j cj,
    path p at_end i (A ++ [(j, cj)]) -> f ∉ (A ++ [(j, cj)]).*1 ->
    path (alter (set_next f) j (<[f := item]> p)) at_end i
         (A ++ [(j, set_next f cj); (f, item)]).
Proof.
  intros HfN Hf Hitem. induction A as [|[x cx] A IH]; intros i j cj Hp Hoff.
  - simpl in *. inversion Hp as [|? ? ? Hs Hc Hrest]; subst.
    apply not_elem_of_cons in Hoff as [Hfj _].
    constructor; [assumption| |].
    + rewrite list_lookup_alter_eq, list_lookup_insert_ne, Hc by congruence. reflexivity.
    + simpl. constructor; [exact HfN| |].
      * rewrite list_lookup_alter_ne, list_lookup_insert_eq by congruence. reflexivity.
      * rewrite Hitem. by constructor.
  - simpl in *. inversion Hp as [|? ? ? Hs Hc Hrest]; subst.
    apply not_elem_of_cons in Hoff as [Hfx Hoff].
    assert (Hxj : x <> j).
    { apply path_NoDup in Hp. simpl in Hp. rewrite fmap_app in Hp. simpl in Hp.
      inversion Hp as [|? ? Hx _]; subst. intros ->. apply Hx.
      apply elem_of_app. right. by left. }
    constructor; [assumption| |].
    + rewrite list_lookup_alter_ne, list_lookup_insert_ne by congruence. assumption.
    + apply IH; assumption.
Qed.

Lemma items_of_set_next rx e (A : list (nat * CANPOS)) j cj f :
  items_of rx e (A ++ [(j, set_next f cj)]) = items_of rx e (A ++ [(j, cj)]).
Proof. unfold items_of. rewrite !fmap_app. reflexivity. Qed.

Lemma last_snoc_inv {A : Type} (l : list A) x :
  last l = Some x -> exists l0, l = l0 ++ [x].
Proof.
  intros Hl. destruct l as [|y l] using rev_ind; [discriminate|].
  rewrite last_snoc in Hl. injection Hl as ->. eauto.
Qed.

Lemma elem_of_nodes (L : list (nat * CANPOS)) k :
  k ∈ L.*1 <-> exists c, (k, c) ∈ L.
Proof.
  split.
  - intros Hin. apply list_elem_of_fmap in Hin as ([k' c] & -> & Hin). eauto.
  - intros [c Hin]. apply list_elem_of_fmap. exists (k, c). auto.
Qed.

Lemma nodes_off (L : list (nat * CANPOS)) k :
  Forall (fun ic => ic.1 <> k) L -> k ∉ L.*1.
Proof.
  intros Hall Hin. apply list_elem_of_fmap in Hin as ([k' c] & -> & Hin).
  rewrite Forall_forall in Hall. by apply (Hall _ Hin).
Qed.

Lemma selMap_lookup_setMap d d' j t (st : CanMap store) :
  (d', j) <> (d, j) \/ d' <> d ->
  selMap d' (setMap d t st) !! j = selMap d' st !! j.
Proof. destruct d, d'; simpl; intros [H|H]; congruence. Qed.

Lemma MapSel_cases (d d' : MapSel) : d' = d \/ d' <> d.
Proof. destruct d, d'; auto; right; discriminate. Qed.

Lemma entry_cases (d d' : MapSel) (i j : nat) :
  (d', j) = (d, i) \/ (d', j) <> (d, i).
Proof.
  destruct (MapSel_cases d d') as [->|Hd]; [|right; congruence].
  destruct (decide (j = i)) as [->|Hj]; [by left|right; congruence].
Qed.

(** the chains once [Add] has put the binding in the free slot *)
Lemma Add_linked_bindings d (st1 : CanMap store) i e item prec :
  sound st1 ->
  selMap d st1 !! i = Some e ->
  findFreeIndex (canPosMap st1) <> MAX_ITEMS ->
  findPreceding (canPosMap st1) chain_fuel (first e) None = Some prec ->
  next item = MAX_ITEMS ->
  let st' := Add_linked d st1 i item prec in
  let f := findFreeIndex (canPosMap st1) in
  well_formed st' /\
  (exists e' B,
     selMap d st' !! i = Some e' /\ canId e' = canId e /\ first e' <> MAX_ITEMS /\
     bindings st' e' = B ++ [(f, item)] /\ B.*1 = (bindings st1 e).*1 /\
     forall rx x, items_of rx x B = items_of rx x (bindings st1 e)) /\
  (forall d' j', (d', j') <> (d, i) -> selMap d' st' !! j' = selMap d' st1 !! j') /\
  (forall d' j' e', selMap d' st1 !! j' = Some e' -> (d', j') <> (d, i) ->
                    bindings st' e' = bindings st1 e') /\
  (forall d' j' e', selMap d' st1 !! j' = Some e' -> f ∉ (bindings st1 e').*1).
Proof.
  intros [Hwf Hsep] He Hfree Hprec Hitem st' f.
  pose proof (Add_linked_well_formed d st1 i e item prec Hwf He Hfree Hprec Hitem) as Hwf'.
  fold st' in Hwf'.
  pose proof Hwf as (Hmax & (Hs & Hr & Hp & Hn) & Hch & Hsent).
  destruct (findFreeIndex_free _ Hfree) as (Hf & cf & Hcf & Hnf). fold f in Hf, Hcf.
  assert (Hoff : forall d' j' e', selMap d' st1 !! j' = Some e' ->
                                  f ∉ (bindings st1 e').*1).
  { intros d' j' e' He'. destruct (well_formed_bindings d' st1 j' e' Hwf He') as [_ HL].
    apply nodes_off. eapply path_nodes_off_free; eassumption. }
  destruct (well_formed_bindings d st1 i e Hwf He) as [_ HL].
  rewrite (findPreceding_path _ _ _ HL) in Hprec.
  2:{ apply path_at_end_length in HL; [|assumption]. unfold chain_fuel. lia. }
  split; [exact Hwf'|].
  destruct (last (bindings st1 e)) as [[j0 cj]|] eqn:Hlast; injection Hprec as <-.
  - destruct (last_snoc_inv _ _ Hlast) as [A HA].
    assert (Htab : forall d', selMap d' st' = selMap d' st1) by (intros []; reflexivity).
    assert (Hpool : canPosMap st'
                    = alter (set_next f) j0 (<[f := item]> (canPosMap st1))) by reflexivity.
    assert (Hne : first e <> MAX_ITEMS).
    { intros Heq. rewrite Heq in HL. apply path_first_end in HL.
      rewrite HL in Hlast. discriminate. }
    split; [|split; [|split]].
    + exists e, (A ++ [(j0, set_next f cj)]).
      rewrite Htab. split; [assumption|]. split; [reflexivity|]. split; [assumption|].
      split; [|split].
      * rewrite <- app_assoc. simpl. apply bindings_path; [assumption|].
        rewrite Hpool. apply path_snoc_link; try lia.
        -- rewrite <- HA. assumption.
        -- rewrite <- HA. apply (Hoff d i e He).
      * rewrite HA, !fmap_app. reflexivity.
      * intros rx x. rewrite HA. apply items_of_set_next.
    + intros d' j' _. by rewrite Htab.
    + intros d' j' e' He' Hne'.
      destruct (well_formed_bindings d' st1 j' e' Hwf He') as [_ HL'].
      apply bindings_path; [assumption|]. rewrite Hpool.
      apply (path_agree (canPosMap st1)); [assumption|].
      intros k Hk.
      assert (k <> f) by (intros ->; by apply (Hoff d' j' e' He')).
      assert (k <> j0).
      { intros ->.
        assert (Hin : j0 ∈ (bindings st1 e).*1).
        { rewrite HA, fmap_app. apply elem_of_app. right. by left. }
        assert (Hdiff : (d, i) <> (d', j')) by congruence.
        exact (Hsep d i e d' j' e' He He' Hdiff j0 Hin Hk). }
      rewrite list_lookup_alter_ne, list_lookup_insert_ne by congruence. reflexivity.
    + exact Hoff.
  - assert (HLnil : bindings st1 e = []) by (by apply last_None).
    assert (Hempty : first e = MAX_ITEMS).
    { rewrite HLnil in HL. inversion HL. assumption. }
    assert (Hpool : canPosMap st' = <[f := item]> (canPosMap st1)).
    { unfold st', Add_linked. by rewrite canPosMap_setMap. }
    assert (Htab : selMap d st' = alter (set_first f) i (selMap d st1)).
    { unfold st', Add_linked. by rewrite selMap_setMap, selMap_setPos. }
    assert (Hother : forall d' j', (d', j') <> (d, i) ->
                                   selMap d' st' !! j' = selMap d' st1 !! j').
    { intros d' j' Hne. destruct (MapSel_cases d d') as [->|Hd].
      - rewrite Htab, list_lookup_alter_ne by congruence. reflexivity.
      - unfold st', Add_linked. destruct d, d'; simpl; congruence. }
    split; [|split; [|split]].
    + exists (set_first f e), [].
      rewrite Htab, list_lookup_alter_eq, He. simpl.
      split; [reflexivity|]. split; [reflexivity|]. split; [lia|].
      split; [|rewrite HLnil; auto].
      apply bindings_path; [assumption|]. rewrite Hpool. simpl.
      constructor; [unfold at_end; lia|apply list_lookup_insert_eq; lia|].
      rewrite Hitem. by constructor.
    + exact Hother.
    + intros d' j' e' He' Hne'.
      destruct (well_formed_bindings d' st1 j' e' Hwf He') as [_ HL'].
      apply bindings_path; [assumption|]. rewrite Hpool.
      apply (path_agree (canPosMap st1)); [assumption|].
      intros k Hk.
      assert (k <> f) by (intros ->; by apply (Hoff d' j' e' He')).
      rewrite list_lookup_insert_ne by congruence. reflexivity.
    + exact Hoff.
Qed.

End ChainLemmas.

(** ** [Add] keeps the chains apart *)

Section AddSound.
Context {cfg : BuildConfig} {store : Type} {PS : ParamStore store}.

Local Arguments findPreceding : simpl never.
Local Arguments FindById : simpl never.
Local Arguments countMessages : simpl never.
Local Arguments findFreeEntry : simpl never.
Local Arguments findFreeIndex : simpl never.
Local Arguments Add : simpl never.

Lemma bindings_ext (st st' : CanMap store) e e' :
  canPosMap st' = canPosMap st -> first e' = first e -> bindings st' e' = bindings st e.
Proof. intros Hp Hf. unfold bindings. by rewrite Hp, Hf. Qed.

(** a state with the same pool and the same head links has the same
    chains *)
Lemma separate_same_links (st st' : CanMap store) :
  canPosMap st' = canPosMap st ->
  (forall d j e', selMap d st' !! j = Some e' ->
     exists e, selMap d st !! j = Some e /\ first e' = first e) ->
  separate st -> separate st'.
Proof.
  intros Hp Hlinks Hsep d j e d' j' e' He He' Hne k Hk.
  destruct (Hlinks d j e He) as (e0 & He0 & Hf0).
  destruct (Hlinks d' j' e' He') as (e0' & He0' & Hf0').
  rewrite (bindings_ext st st' e0 e Hp Hf0) in Hk.
  rewrite (bindings_ext st st' e0' e' Hp Hf0').
  exact (Hsep d j e0 d' j' e0' He0 He0' Hne k Hk).
Qed.

Lemma sound_keeps_tables (st st' : CanMap store) :
  canSendMap st' = canSendMap st -> canRecvMap st' = canRecvMap st ->
  canPosMap st' = canPosMap st -> nodeId st' = nodeId st ->
  sound st -> sound st'.
Proof.
  intros H1 H2 H3 H4 [Hwf Hsep]. split.
  - by apply (well_formed_keeps_tables st).
  - apply (separate_same_links st); [assumption| |assumption].
    intros d j e' He'. exists e'. split; [|reflexivity].
    destruct d; simpl in *; congruence.
Qed.

Lemma Add_entry_links d (st : CanMap store) id i st1 :
  Add_entry d st id i st1 ->
  canPosMap st1 = canPosMap st /\
  forall d' j e', selMap d' st1 !! j = Some e' ->
    exists e, selMap d' st !! j = Some e /\ first e' = first e /\
              ((d', j) <> (d, i) -> e' = e).
Proof.
  intros [[_ ->]|[_ [_ ->]]].
  - split; [reflexivity|]. intros d' j e' He'. exists e'. auto.
  - split; [apply canPosMap_setMap|]. intros d' j e' He'.
    destruct (MapSel_cases d d') as [->|Hd].
    + rewrite selMap_setMap in He'.
      destruct (decide (j = i)) as [->|Hj].
      * rewrite list_lookup_alter_eq in He'.
        destruct (selMap d st !! i) as [e|]; [|discriminate].
        injection He' as <-. exists e. repeat split. intros H. congruence.
      * rewrite list_lookup_alter_ne in He' by congruence. exists e'. auto.
    + rewrite selMap_setMap_other in He' by congruence. exists e'. auto.
Qed.

Lemma Add_entry_sound d (st : CanMap store) id i st1 :
  Add_entry d st id i st1 -> sound st -> sound st1.
Proof.
  intros He [Hwf Hsep]. split; [eapply Add_entry_well_formed; eassumption|].
  destruct (Add_entry_links d st id i st1 He) as [Hp Hl].
  apply (separate_same_links st); [assumption| |assumption].
  intros d' j e' He'. destruct (Hl d' j e' He') as (e & H1 & H2 & _). eauto.
Qed.

Lemma Add_linked_sound d (st1 : CanMap store) i e item prec :
  sound st1 ->
  selMap d st1 !! i = Some e ->
  findFreeIndex (canPosMap st1) <> MAX_ITEMS ->
  findPreceding (canPosMap st1) chain_fuel (first e) None = Some prec ->
  next item = MAX_ITEMS ->
  sound (Add_linked d st1 i item prec).
Proof.
  intros Hsound He Hfree Hprec Hitem.
  destruct (Add_linked_bindings d st1 i e item prec Hsound He Hfree Hprec Hitem)
    as (Hwf' & (e' & B & Hi' & _ & _ & Hb & HB & _) & Hother & Hsame & Hoff).
  destruct Hsound as [Hwf Hsep].
  split; [assumption|].
  set (st' := Add_linked d st1 i item prec) in *.
  set (f := findFreeIndex (canPosMap st1)) in *.
  assert (Hold : forall d0 j0 e0, selMap d0 st' !! j0 = Some e0 -> (d0, j0) <> (d, i) ->
                 selMap d0 st1 !! j0 = Some e0 /\ bindings st' e0 = bindings st1 e0).
  { intros d0 j0 e0 He0 Hne. rewrite Hother in He0 by assumption.
    split; [assumption|]. by apply (Hsame d0 j0). }
  assert (Hnew : forall e0, selMap d st' !! i = Some e0 ->
                 (bindings st' e0).*1 = (bindings st1 e).*1 ++ [f]).
  { intros e0 He0. assert (e0 = e') by congruence. subst e0.
    rewrite Hb, fmap_app, HB. reflexivity. }
  intros da ja ea db jb eb Ha Hb' Hne k Hk.
  destruct (entry_cases d da i ja) as [Ea|Ea];
    destruct (entry_cases d db i jb) as [Eb|Eb].
  - congruence.
  - injection Ea as -> ->.
    destruct (Hold db jb eb Hb' Eb) as [Hb1 ->].
    rewrite (Hnew ea Ha) in Hk. apply elem_of_app in Hk as [Hk|Hk].
    + apply (Hsep d i e db jb eb He Hb1); [congruence|assumption].
    + apply list_elem_of_singleton in Hk as ->. by apply (Hoff db jb).
  - injection Eb as -> ->.
    destruct (Hold da ja ea Ha Ea) as [Ha1 Hba]. rewrite Hba in Hk.
    rewrite (Hnew eb Hb'). intros Hin. apply elem_of_app in Hin as [Hin|Hin].
    + exact (Hsep da ja ea d i e Ha1 He Ea k Hk Hin).
    + apply list_elem_of_singleton in Hin as ->. by apply (Hoff da ja ea).
  - destruct (Hold da ja ea Ha Ea) as [Ha1 Hba]. rewrite Hba in Hk.
    destruct (Hold db jb eb Hb' Eb) as [Hb1 ->].
    exact (Hsep da ja ea db jb eb Ha1 Hb1 Hne k Hk).
Qed.

(** [Add] keeps the chains apart, whatever it returns *)
Lemma Add_sound d (st : CanMap store) param id ofs len g off st' r :
  sound st ->
  Add d st param id ofs len g off = Some (st', r) ->
  sound st'.
Proof.
  intros Hs H. apply Add_cases in H.
  destruct H as [H|[H|[H|[H|[H|H]]]]].
  - destruct H as (_ & -> & _). assumption.
  - destruct H as (_ & _ & -> & _). assumption.
  - destruct H as (_ & _ & _ & -> & _). assumption.
  - destruct H as (_ & _ & -> & _). assumption.
  - destruct H as (i & He & _). eapply Add_entry_sound; eassumption.
  - destruct H as (i & st1 & e & prec & n & _ & _ & _ & He & Hfree & Hi & Hprec & -> & _).
    eapply Add_linked_sound; try eassumption; [|reflexivity].
    eapply Add_entry_sound; eassumption.
Qed.

Lemma AddRecv_sound (st : CanMap store) param id ofs len g off st' r :
  sound st ->
  AddRecv st param id ofs len g off = Some (st', r) ->
  sound st'.
Proof.
  intros Hs H. unfold AddRecv in H.
  destruct (Add RecvMap st param id ofs len g off) as [[st1 r1]|] eqn:E; [|discriminate].
  simpl in H. injection H as <- <-.
  apply (sound_keeps_tables st1); try reflexivity.
  eapply Add_sound; eassumption.
Qed.

Lemma empty_table_bindings (st : CanMap store) d j e :
  empty_table st -> selMap d st !! j = Some e -> bindings st e = [].
Proof.
  intros [Hfirst Hnext] He. unfold bindings, chain_fuel. simpl.
  destruct (canPosMap st !! first e) as [c|] eqn:Hc; [|reflexivity].
  rewrite (Hnext _ _ Hc). reflexivity.
Qed.

Lemma ClearMap_sound (raw : CanMap store) :
  (MAX_ITEMS < ITEM_UNSET)%nat -> shape_ok raw ->
  sound (ClearMap RecvMap (ClearMap SendMap raw)).
Proof.
  intros Hmax Hshape. split; [by apply ClearMap_well_formed|].
  intros d j e d' j' e' He He' _ k Hk.
  rewrite (empty_table_bindings _ d j e (ClearMap_empty raw) He) in Hk.
  by apply elem_of_nil in Hk.
Qed.

End AddSound.

(** ** [RemoveFromMap], turn by turn *)

Section RemovalTurns.
Context {cfg : BuildConfig} {store : Type} {PS : ParamStore store}.

(** the inner loop of [RemoveFromMap] along the chain [L] is [unlink_chain] *)
Lemma RemoveFromMap_chain_run d param i L :
  forall c (st : CanMap store) last fuel,
    well_formed st ->
    path (canPosMap st) at_end c L ->
    (forall l, last = Some l -> exists cl, canPosMap st !! l = Some cl /\ next cl = c) ->
    (length L < fuel)%nat ->
    exists last',
      forEachPosMap_loop (R := unit)
        (fun s : CanMap store * option nat => canPosMap (fst s))
        (fun c curPos s =>
           let '(st1, lastPosMap) := s in
           let st2 :=
             if mapParam curPos =? param then
               match lastPosMap with
               | Some l => setPos (alter (set_next (next curPos)) l (canPosMap st1)) st1
               | None => setMap d (alter (set_first (next curPos)) i (selMap d st1)) st1
               end
             else st1 in
           Some (Next (st2, Some c)))
        fuel c (st, last) = Some (Next (unlink_chain d param i L st last, last')) /\
      well_formed (unlink_chain d param i L st last).
Proof.
  induction L as [|[c0 pc] L3 IH]; intros c st last fuel Hwf HL Hlast Hfuel;
    (destruct fuel as [|fuel]; [simpl in Hfuel; lia|]).
  - inversion HL as [? Hend|]; subst. unfold at_end in Hend. subst c.
    pose proof Hwf as (Hmax & Hshape & Hch & (cs & Hcs & Hns)).
    exists last. split; [|exact Hwf].
    apply (forEachPosMap_loop_stop
             (fun s : CanMap store * option nat => canPosMap (fst s)) _ _ _ _ cs);
      assumption.
  - assert (c0 = c) by (inversion HL; reflexivity). subst c0.
    destruct (unlink_step_well_formed d param i st last c pc L3 Hwf HL Hlast)
      as (Hwf' & HL3 & Hpc').
    assert (Hpc : canPosMap st !! c = Some pc) by (inversion HL; assumption).
    assert (Hset : next pc <> ITEM_UNSET).
    { destruct Hwf as (Hmax & (_ & _ & Hp & _) & _ & _).
      pose proof (path_links_set _ _ _ Hmax Hp HL) as Hlinks.
      inversion Hlinks; subst. assumption. }
    destruct (IH (next pc) (unlink_step d param i pc st last) (Some c) fuel Hwf' HL3)
      as (last' & Hrun & Hwf'').
    { intros l [= <-]. eauto. }
    { simpl in Hfuel. lia. }
    exists last'. split; [|exact Hwf''].
    simpl unlink_chain. rewrite <- Hrun.
    apply (forEachPosMap_loop_step
             (fun s : CanMap store * option nat => canPosMap (fst s)) _ _ _ (st, last)
             (unlink_step d param i pc st last, Some c) pc pc); try assumption.
    reflexivity.
Qed.

(** the outer loop of [RemoveFromMap] is [unlink_table] *)
Lemma RemoveFromMap_loop_run d param :
  forall n c (st : CanMap store) last,
    well_formed st -> (c + n <= MAX_MESSAGES)%nat ->
    exists last',
      forEachCanMap_loop (R := unit)
        (fun s : CanMap store * option nat => selMap d (fst s))
        (fun i curMap s =>
           forEachPosMap (fun s : CanMap store * option nat => canPosMap (fst s))
             (fun c curPos s =>
                let '(st1, lastPosMap) := s in
                let st2 :=
                  if mapParam curPos =? param then
                    match lastPosMap with
                    | Some l => setPos (alter (set_next (next curPos)) l (canPosMap st1)) st1
                    | None => setMap d (alter (set_first (next curPos)) i (selMap d st1)) st1
                    end
                  else st1 in
                Some (Next (st2, Some c)))
             curMap (fst s, None))
        n c (st, last) = Some (Next (unlink_table d param n c st, last')) /\
      well_formed (unlink_table d param n c st).
Proof.
  induction n as [|n IH]; intros c st last Hwf Hn.
  - exists last. split; [reflexivity|assumption].
  - pose proof Hwf as (Hmax & (Hs & Hr & Hp & Hnode) & Hch & Hsent).
    destruct (lookup_lt_is_Some_2 (selMap d st) c) as [e He].
    { destruct d; simpl; lia. }
    simpl unlink_table. rewrite He.
    destruct (decide (first e = MAX_ITEMS)) as [Hgap|Hne].
    + rewrite Hgap, Nat.eqb_refl. exists last. split; [|assumption].
      apply forEachCanMap_loop_stop.
      * right. simpl. destruct d; simpl; lia.
      * intros e'. simpl. rewrite He. intros [= <-]. assumption.
    + apply Nat.eqb_neq in Hne as Hne'. rewrite Hne'.
      destruct (well_formed_bindings d st c e Hwf He) as [_ HL].
      destruct (RemoveFromMap_chain_run d param c (bindings st e) (first e) st None
                  chain_fuel Hwf HL) as (last1 & Hrun & Hwf1).
      { discriminate. }
      { apply path_at_end_length in HL; [|assumption]. unfold chain_fuel. lia. }
      destruct (IH (S c) (unlink_chain d param c (bindings st e) st None) last1 Hwf1)
        as (last' & Hrest & Hwf'); [lia|].
      exists last'. split; [|assumption].
      rewrite (forEachCanMap_loop_step
                 (fun s : CanMap store * option nat => selMap d (fst s)) _ _ _ (st, last)
                 e He Hne).
      unfold forEachPosMap.
      match goal with
      | |- context [forEachPosMap_loop ?a ?b ?f ?c0 ?s0] =>
          replace (forEachPosMap_loop a b f c0 s0)
            with (Some (Next (R := unit)
                    (unlink_chain d param c (bindings st e) st None, last1)))
            by (symmetry; exact Hrun)
      end.
      exact Hrest.
Qed.

Lemma RemoveFromMap_run d (st : CanMap store) param :
  well_formed st ->
  RemoveFromMap d st param = Some (unlink_table d param MAX_MESSAGES 0 st, 0) /\
  well_formed (unlink_table d param MAX_MESSAGES 0 st).
Proof.
  intros Hwf.
  destruct (RemoveFromMap_loop_run d param MAX_MESSAGES 0%nat st None Hwf)
    as (last' & Hrun & Hwf'); [lia|].
  split; [|assumption].
  unfold RemoveFromMap, forEachCanMap.
  match goal with
  | |- context [forEachCanMap_loop ?a ?b ?n ?c0 ?s0] =>
      replace (forEachCanMap_loop a b n c0 s0)
        with (Some (Next (R := unit) (unlink_table d param MAX_MESSAGES 0 st, last')))
        by (symmetry; exact Hrun)
  end.
  reflexivity.
Qed.

End RemovalTurns.

(** ** What [RemoveFromMap] leaves *)

Section RemovalFacts.
Context {cfg : BuildConfig} {store : Type} {PS : ParamStore store}.

Lemma same_binding_refl c : same_binding c c.
Proof. repeat split; auto. Qed.

Lemma same_binding_trans c0 c1 c2 :
  same_binding c0 c1 -> same_binding c1 c2 -> same_binding c0 c2.
Proof.
  intros (A1 & A2 & A3 & A4 & A5 & A6) (B1 & B2 & B3 & B4 & B5 & B6).
  repeat split; try congruence; tauto.
Qed.

Lemma same_use_refl p : same_use p p.
Proof. split; [reflexivity|]. intros k c Hc. exists c. split; [assumption|apply same_binding_refl]. Qed.

Lemma same_use_trans p0 p1 p2 : same_use p0 p1 -> same_use p1 p2 -> same_use p0 p2.
Proof.
  intros [L1 H1] [L2 H2]. split; [congruence|].
  intros k c2 Hc2. destruct (H2 k c2 Hc2) as (c1 & Hc1 & S12).
  destruct (H1 k c1 Hc1) as (c0 & Hc0 & S01).
  exists c0. split; [assumption|]. eapply same_binding_trans; eassumption.
Qed.

(** a link of a slot in use set to a slot *)
Lemma same_use_relink (p : list CANPOS) l cl n :
  p !! l = Some cl -> next cl <> ITEM_UNSET -> n <> ITEM_UNSET ->
  same_use p (alter (set_next n) l p).
Proof.
  intros Hl Hcl Hn. split; [apply length_alter|].
  intros k c1 Hc1. destruct (decide (k = l)) as [->|Hne].
  - rewrite list_lookup_alter_eq, Hl in Hc1. injection Hc1 as <-.
    exists cl. split; [assumption|]. repeat split; simpl; tauto.
  - rewrite list_lookup_alter_ne in Hc1 by congruence.
    exists c1. split; [assumption|apply same_binding_refl].
Qed.

(** one turn of the inner loop: what it leaves alone *)
Lemma unlink_step_frame d param i (st : CanMap store) last c pc L3 :
  well_formed st ->
  path (canPosMap st) at_end c ((c, pc) :: L3) ->
  (forall l, last = Some l -> exists cl, canPosMap st !! l = Some cl /\ next cl = c) ->
  let st1 := unlink_step d param i pc st last in
  keeps_rest st st1 /\
  (forall d' j', (d', j') <> (d, i) -> selMap d' st1 !! j' = selMap d' st !! j') /\
  canId <$> selMap d st1 !! i = canId <$> selMap d st !! i /\
  same_use (canPosMap st) (canPosMap st1) /\
  (forall k, last <> Some k -> canPosMap st1 !! k = canPosMap st !! k).
Proof.
  intros Hwf Hc Hlast st1. subst st1. unfold unlink_step.
  pose proof Hwf as (Hmax & (Hs & Hr & Hp & Hn) & Hch & Hsent).
  destruct (mapParam pc =? param).
  2:{ split; [apply keeps_rest_refl|]. repeat split; auto. apply same_use_refl. }
  assert (Hpc : canPosMap st !! c = Some pc) by (inversion Hc; assumption).
  assert (Hset : next pc <> ITEM_UNSET).
  { pose proof (path_links_set _ _ _ Hmax Hp Hc) as Hlinks.
    inversion Hlinks; subst. assumption. }
  destruct last as [l|].
  - destruct (Hlast l eq_refl) as (cl & Hl & Hnl).
    split; [apply keeps_rest_setPos|]. split; [|split; [|split]].
    + intros d' j' _. by rewrite selMap_setPos.
    + by rewrite selMap_setPos.
    + simpl. apply (same_use_relink _ _ cl); try assumption.
      rewrite Hnl. apply lookup_lt_Some in Hpc. unfold ITEM_UNSET in *. lia.
    + intros k Hk. simpl. apply list_lookup_alter_ne. congruence.
  - split; [apply keeps_rest_setMap|]. split; [|split; [|split]].
    + intros d' j' Hne. destruct (MapSel_cases d d') as [->|Hd].
      * rewrite selMap_setMap, list_lookup_alter_ne by congruence. reflexivity.
      * by rewrite selMap_setMap_other by congruence.
    + rewrite selMap_setMap, list_lookup_alter_eq.
      destruct (selMap d st !! i); reflexivity.
    + rewrite canPosMap_setMap. apply same_use_refl.
    + intros k _. by rewrite canPosMap_setMap.
Qed.

(** the inner loop along a chain: what it leaves alone *)
Lemma unlink_chain_frame d param i L :
  forall c (st : CanMap store) last,
    well_formed st ->
    path (canPosMap st) at_end c L ->
    (forall l, last = Some l -> exists cl, canPosMap st !! l = Some cl /\ next cl = c) ->
    let st' := unlink_chain d param i L st last in
    keeps_rest st st' /\
    (forall d' j', (d', j') <> (d, i) -> selMap d' st' !! j' = selMap d' st !! j') /\
    canId <$> selMap d st' !! i = canId <$> selMap d st !! i /\
    same_use (canPosMap st) (canPosMap st') /\
    (forall k, k ∉ L.*1 -> last <> Some k -> canPosMap st' !! k = canPosMap st !! k).
Proof.
  induction L as [|[c0 pc] L3 IH]; intros c st last Hwf HL Hlast; simpl.
  - split; [apply keeps_rest_refl|]. repeat split; auto. apply same_use_refl.
  - assert (c0 = c) by (inversion HL; reflexivity). subst c0.
    destruct (unlink_step_well_formed d param i st last c pc L3 Hwf HL Hlast)
      as (Hwf1 & HL3 & Hpc1).
    destruct (unlink_step_frame d param i st last c pc L3 Hwf HL Hlast)
      as (K1 & O1 & I1 & U1 & P1).
    destruct (IH (next pc) (unlink_step d param i pc st last) (Some c) Hwf1 HL3)
      as (K2 & O2 & I2 & U2 & P2).
    { intros l [= <-]. eauto. }
    split; [eapply keeps_rest_trans; eassumption|]. split; [|split; [|split]].
    + intros d' j' Hne. rewrite O2, O1 by assumption. reflexivity.
    + by rewrite I2, I1.
    + eapply same_use_trans; eassumption.
    + intros k Hk Hlk. apply not_elem_of_cons in Hk as [Hkc Hk3].
      rewrite P2 by (try assumption; congruence). by apply P1.
Qed.

Lemma NoDup_app_mid (K : list nat) (c : nat) (N : list nat) :
  NoDup (K ++ c :: N) -> (c ∉ K) /\ (c ∉ N).
Proof.
  intros Hnd. apply NoDup_app in Hnd as (_ & Hdis & Hcn).
  inversion Hcn; subst. split; [|assumption].
  intros Hin. apply (Hdis c Hin). by left.
Qed.

(** the chain once the slot [l], on the chain and linked to [c], is linked
    to the successor of [c] *)
Lemma path_unlink (p : list CANPOS) l cl c pc L3 :
  p !! l = Some cl -> next cl = c ->
  path p at_end c ((c, pc) :: L3) ->
  forall K0 h Lc,
    path p at_end h Lc -> Lc.*1 = K0 ++ l :: c :: L3.*1 ->
    exists Lc', path (alter (set_next (next pc)) l p) at_end h Lc' /\
                Lc'.*1 = K0 ++ l :: L3.*1.
Proof.
  intros Hl Hn Hc. induction K0 as [|x K0 IH]; intros h Lc HLc Hnodes.
  - simpl in Hnodes.
    pose proof (path_NoDup _ _ _ _ HLc) as Hnd. rewrite Hnodes in Hnd.
    destruct (path_head _ _ _ _ _ _ HLc Hnodes) as (-> & cx & L1 & -> & Hs & Hx & HL1 & HN1).
    assert (cx = cl) by congruence. subst cx. rewrite Hn in HL1.
    pose proof (path_det _ _ _ _ HL1 _ Hc) as ->.
    inversion Hnd as [|? ? Hl1 Hnd1]; subst.
    exists ((l, set_next (next pc) cl) :: L3). split; [|reflexivity].
    constructor; [assumption| |].
    + rewrite list_lookup_alter_eq, Hl. reflexivity.
    + simpl. apply path_alter_off.
      * inversion Hc; subst. assumption.
      * apply not_in_nodes. intros Hin. apply Hl1. by right.
  - simpl in Hnodes.
    pose proof (path_NoDup _ _ _ _ HLc) as Hnd. rewrite Hnodes in Hnd.
    destruct (path_head _ _ _ _ _ _ HLc Hnodes) as (-> & cx & L1 & -> & Hs & Hx & HL1 & HN1).
    assert (Hxl : x <> l).
    { inversion Hnd as [|? ? Hx1 _]; subst. intros ->. apply Hx1.
      apply elem_of_app. right. by left. }
    destruct (IH _ _ HL1 HN1) as (L1' & HL1' & HN1').
    exists ((x, cx) :: L1'). split; [|rewrite fmap_cons, HN1'; reflexivity].
    constructor; [assumption| |assumption].
    rewrite list_lookup_alter_ne by congruence. assumption.
Qed.

Lemma unlink_step_nomatch d param i pc (st : CanMap store) prev :
  (mapParam pc =? param) = false -> unlink_step d param i pc st prev = st.
Proof. intros H. unfold unlink_step. by rewrite H. Qed.

Lemma unlink_step_head d param i pc (st : CanMap store) :
  (mapParam pc =? param) = true ->
  unlink_step d param i pc st None
  = setMap d (alter (set_first (next pc)) i (selMap d st)) st.
Proof. intros H. unfold unlink_step. by rewrite H. Qed.

Lemma unlink_step_link d param i pc (st : CanMap store) l :
  (mapParam pc =? param) = true ->
  unlink_step d param i pc st (Some l)
  = setPos (alter (set_next (next pc)) l (canPosMap st)) st.
Proof. intros H. unfold unlink_step. by rewrite H. Qed.

(** the chain of entry [i] after the inner loop: the slots before the
    walk, then what is left of the slots of the walk *)
Lemma unlink_chain_nodes d param i L :
  forall c (st : CanMap store) prev K linked e,
    well_formed st ->
    path (canPosMap st) at_end c L ->
    (forall l, prev = Some l -> exists cl, canPosMap st !! l = Some cl /\ next cl = c) ->
    selMap d st !! i = Some e ->
    (exists Lc, path (canPosMap st) at_end (first e) Lc /\ Lc.*1 = K ++ L.*1) ->
    (linked = true -> prev = last K) ->
    (linked = false -> exists l, prev = Some l /\ l ∉ K) ->
    exists e' Lc',
      selMap d (unlink_chain d param i L st prev) !! i = Some e' /\
      path (canPosMap (unlink_chain d param i L st prev)) at_end (first e') Lc' /\
      Lc'.*1 = K ++ (survivors param linked L).*1.
Proof.
  induction L as [|[c0 pc] L3 IH]; intros c st prev K linked e Hwf HL Hprev He HLc Hin Hout.
  - simpl. destruct HLc as (Lc & HLc & Hn). exists e, Lc. auto.
  - assert (c0 = c) by (inversion HL; reflexivity). subst c0.
    destruct (unlink_step_well_formed d param i st prev c pc L3 Hwf HL Hprev)
      as (Hwf1 & HL3 & Hpc1).
    assert (Hpc : canPosMap st !! c = Some pc) by (inversion HL; assumption).
    destruct HLc as (Lc & HLc & Hnodes). rewrite fmap_cons in Hnodes. cbn [fst] in Hnodes.
    assert (Hnd : NoDup (K ++ c :: L3.*1)).
    { rewrite <- Hnodes. eapply path_NoDup. eassumption. }
    simpl unlink_chain. simpl survivors.
    destruct (mapParam pc =? param) eqn:Hm; simpl andb.
    2:{ (* the binding stays *)
        rewrite unlink_step_nomatch in * by assumption.
        destruct (IH (next pc) st (Some c) (K ++ [c]) true e) as (e' & Lc' & H1 & H2 & H3);
          try assumption.
        - intros l [= <-]. eauto.
        - exists Lc. split; [assumption|]. rewrite Hnodes, <- app_assoc. reflexivity.
        - intros _. by rewrite last_snoc.
        - discriminate.
        - exists e', Lc'. split; [assumption|]. split; [assumption|].
          rewrite H3, <- app_assoc. reflexivity. }
    destruct linked.
    + (* the binding is unlinked *)
      specialize (Hin eq_refl).
      destruct prev as [l|].
      * destruct (Hprev l eq_refl) as (cl & Hl & Hnl).
        symmetry in Hin. apply last_snoc_inv in Hin as [K0 ->].
        rewrite <- app_assoc in Hnodes. cbn [app] in Hnodes.
        destruct (path_unlink _ _ _ _ _ _ Hl Hnl HL K0 _ _ HLc Hnodes) as (Lc1 & HLc1 & Hn1).
        rewrite unlink_step_link in * by assumption.
        destruct (IH (next pc) (setPos (alter (set_next (next pc)) l (canPosMap st)) st)
                    (Some c) (K0 ++ [l]) false e) as (e' & Lc' & H1 & H2 & H3);
          try assumption.
        -- intros l0 [= <-]. eauto.
        -- exists Lc1. split; [assumption|]. rewrite Hn1, <- app_assoc. reflexivity.
        -- discriminate.
        -- intros _. exists c. split; [reflexivity|].
           apply NoDup_app_mid in Hnd as [Hc _]. assumption.
        -- exists e', Lc'. auto.
      * symmetry in Hin. apply last_None in Hin. subst K. cbn [app] in *.
        destruct (path_head _ _ _ _ _ _ HLc Hnodes) as (Hfirst & _).
        rewrite unlink_step_head in * by assumption.
        destruct (IH (next pc) (setMap d (alter (set_first (next pc)) i (selMap d st)) st)
                    (Some c) [] false (set_first (next pc) e)) as (e' & Lc' & H1 & H2 & H3);
          try assumption.
        -- intros l0 [= <-]. eauto.
        -- rewrite selMap_setMap, list_lookup_alter_eq, He. reflexivity.
        -- exists L3. split; [assumption|reflexivity].
        -- discriminate.
        -- intros _. exists c. split; [reflexivity|]. apply not_elem_of_nil.
        -- exists e', Lc'. auto.
    + (* the binding before was unlinked: this one stays *)
      destruct (Hout eq_refl) as (l & -> & HlK).
      destruct (Hprev l eq_refl) as (cl & Hl & Hnl).
      rewrite unlink_step_link in * by assumption.
      assert (HlL : l ∉ ((c, pc) :: L3).*1) by (eapply path_off_predecessor; eassumption).
      destruct (IH (next pc) (setPos (alter (set_next (next pc)) l (canPosMap st)) st)
                  (Some c) (K ++ [c]) true e) as (e' & Lc' & H1 & H2 & H3);
        try assumption.
      * intros l0 [= <-]. eauto.
      * exists Lc. split; [|rewrite Hnodes, <- app_assoc; reflexivity].
        simpl. apply path_alter_off; [assumption|]. apply not_in_nodes.
        rewrite Hnodes. intros Hx. apply elem_of_app in Hx as [Hx|Hx]; [by apply HlK|].
        by apply HlL.
      * intros _. by rewrite last_snoc.
      * discriminate.
      * exists e', Lc'. split; [assumption|]. split; [assumption|].
        rewrite H3, <- app_assoc. reflexivity.
Qed.

End RemovalFacts.

(** ** [RemoveFromMap], entry by entry *)

Section RemovalEntries.
Context {cfg : BuildConfig} {store : Type} {PS : ParamStore store}.

Lemma survivors_sub param linked (L : list (nat * CANPOS)) :
  forall x, x ∈ survivors param linked L -> x ∈ L.
Proof.
  revert linked. induction L as [|ic L IH]; intros linked x; simpl; [auto|].
  destruct ((mapParam ic.2 =? param) && linked).
  - intros Hx. right. eapply IH. eassumption.
  - intros Hx. apply elem_of_cons in Hx as [->|Hx]; [by left|right; eapply IH; eassumption].
Qed.

Lemma survivors_nodes_sub param linked (L : list (nat * CANPOS)) k :
  k ∈ (survivors param linked L).*1 -> k ∈ L.*1.
Proof.
  intros Hk. apply elem_of_nodes in Hk as [c Hc]. apply elem_of_nodes.
  exists c. eapply survivors_sub. eassumption.
Qed.

(** two lists of slots with the same indices hold the same bindings when
    the pools they are read from agree on the bindings *)
Lemma items_of_same_use (p p1 : list CANPOS) rx x :
  same_use p p1 ->
  forall (L1 S : list (nat * CANPOS)),
    L1.*1 = S.*1 ->
    (forall k c, (k, c) ∈ L1 -> p1 !! k = Some c) ->
    (forall k c, (k, c) ∈ S -> p !! k = Some c) ->
    items_of rx x L1 = items_of rx x S.
Proof.
  intros [_ Huse]. induction L1 as [|[k c1] L1 IH]; intros [|[k' c0] S] Hn H1 H0;
    try discriminate; [reflexivity|].
  rewrite !fmap_cons in Hn. injection Hn as <- Hn.
  unfold items_of in *. rewrite !fmap_cons. f_equal.
  - simpl.
    destruct (Huse k c1 (H1 k c1 ltac:(by left))) as (c0' & Hc0' & (A1 & A2 & A3 & A4 & A5 & _)).
    assert (c0' = c0) by (pose proof (H0 k c0 ltac:(by left)); congruence). subst c0'.
    by rewrite A1, A2, A4, A5.
  - apply IH; [assumption| |].
    + intros k0 c Hin. apply H1. by right.
    + intros k0 c Hin. apply H0. by right.
Qed.

(** the turn of the outer loop for entry [i] *)
Lemma unlink_chain_entry d param i (st : CanMap store) e :
  sound st ->
  selMap d st !! i = Some e ->
  let st1 := unlink_chain d param i (bindings st e) st None in
  sound st1 /\
  keeps_rest st st1 /\
  same_use (canPosMap st) (canPosMap st1) /\
  (exists e1,
     selMap d st1 !! i = Some e1 /\ canId e1 = canId e /\
     (bindings st1 e1).*1 = (survivors param true (bindings st e)).*1 /\
     forall rx x, items_of rx x (bindings st1 e1)
                  = items_of rx x (survivors param true (bindings st e))) /\
  (forall d' j' e', selMap d' st !! j' = Some e' -> (d', j') <> (d, i) ->
     selMap d' st1 !! j' = Some e' /\ bindings st1 e' = bindings st e').
Proof.
  intros [Hwf Hsep] He st1.
  destruct (well_formed_bindings d st i e Hwf He) as [_ HL].
  pose proof Hwf as (Hmax & (Hs & Hr & Hp & Hn) & Hch & Hsent).
  destruct (RemoveFromMap_chain_run d param i (bindings st e) (first e) st None
              (S (length (bindings st e))) Hwf HL) as (_ & _ & Hwf1); [discriminate|lia|].
  fold st1 in Hwf1.
  destruct (unlink_chain_frame d param i (bindings st e) (first e) st None Hwf HL)
    as (Hk & Hother & Hid & Huse & Hpool); [discriminate|].
  fold st1 in Hk, Hother, Hid, Huse, Hpool.
  destruct (unlink_chain_nodes d param i (bindings st e) (first e) st None [] true e
              Hwf HL) as (e1 & Lc1 & He1 & HLc1 & Hn1); try assumption; try discriminate.
  { exists (bindings st e). auto. }
  { reflexivity. }
  fold st1 in He1, HLc1. simpl in Hn1.
  pose proof (bindings_path st1 e1 Lc1 Hwf1 HLc1) as Hb1.
  assert (Hsame : forall d' j' e', selMap d' st !! j' = Some e' -> (d', j') <> (d, i) ->
                    selMap d' st1 !! j' = Some e' /\ bindings st1 e' = bindings st e').
  { intros d' j' e' He' Hne. split; [by rewrite Hother|].
    destruct (well_formed_bindings d' st j' e' Hwf He') as [_ HL'].
    apply bindings_path; [assumption|].
    apply (path_agree (canPosMap st)); [assumption|].
    intros k Hk'. apply Hpool; [|discriminate].
    intros Hin. assert (Hdiff : (d, i) <> (d', j')) by congruence.
    exact (Hsep d i e d' j' e' He He' Hdiff k Hin Hk'). }
  assert (Hcan : canId e1 = canId e).
  { rewrite He1, He in Hid. simpl in Hid. congruence. }
  split; [|split; [assumption|split; [assumption|split; [|assumption]]]].
  - split; [assumption|].
    intros da ja ea db jb eb Ha Hb Hne k Hka.
    assert (Hback : forall d0 j0 e0, selMap d0 st1 !! j0 = Some e0 ->
              exists e0', selMap d0 st !! j0 = Some e0' /\
                forall k, k ∈ (bindings st1 e0).*1 -> k ∈ (bindings st e0').*1).
    { intros d0 j0 e0 He0. destruct (entry_cases d d0 i j0) as [E|E].
      - injection E as -> ->. assert (e0 = e1) by congruence. subst e0.
        exists e. split; [assumption|]. intros k0 Hk0. rewrite Hb1, Hn1 in Hk0.
        eapply survivors_nodes_sub. eassumption.
      - rewrite Hother in He0 by assumption. exists e0. split; [assumption|].
        intros k0. destruct (Hsame d0 j0 e0 He0 E) as [_ ->]. auto. }
    destruct (Hback da ja ea Ha) as (ea' & Ha' & Hia).
    destruct (Hback db jb eb Hb) as (eb' & Hb' & Hib).
    intros Hkb.
    exact (Hsep da ja ea' db jb eb' Ha' Hb' Hne k (Hia k Hka) (Hib k Hkb)).
  - exists e1. split; [assumption|]. split; [assumption|].
    rewrite Hb1. split; [assumption|].
    intros rx x. apply (items_of_same_use (canPosMap st) (canPosMap st1)); try assumption.
    + intros k c. apply (path_elem _ _ _ _ _ _ HLc1).
    + intros k c Hin. apply survivors_sub in Hin. apply (path_elem _ _ _ _ _ _ HL Hin).
Qed.

Lemma items_of_canId rx (e e' : CANIDMAP) (L : list (nat * CANPOS)) :
  canId e' = canId e -> items_of rx e' L = items_of rx e L.
Proof. intros H. unfold items_of. by rewrite H. Qed.

Lemma items_of_nil_inv rx e (L : list (nat * CANPOS)) : items_of rx e L = [] -> L = [].
Proof. unfold items_of. apply fmap_nil_inv. Qed.

Lemma visible_from_elem (t : list CANIDMAP) x : x ∈ visible_from t -> x ∈ t.
Proof.
  induction t as [|e t IH]; simpl; [auto|].
  destruct (first e =? MAX_ITEMS)%nat; [intros H; by apply elem_of_nil in H|].
  intros H. apply elem_of_cons in H as [->|H]; [by left|right; auto].
Qed.

Lemma elem_of_take_drop {A : Type} (t : list A) n c x :
  x ∈ take n (drop c t) -> exists j, (c <= j)%nat /\ t !! j = Some x.
Proof.
  intros H. apply list_elem_of_lookup in H as [j Hj].
  apply lookup_take_Some in Hj as [Hj _]. rewrite lookup_drop in Hj.
  exists (c + j)%nat. split; [lia|assumption].
Qed.

Lemma drop_same_tail {A : Type} (t t' : list A) c :
  length t' = length t ->
  (forall j x, (c <= j)%nat -> t !! j = Some x -> t' !! j = Some x) ->
  drop c t' = drop c t.
Proof.
  intros Hlen Hsame. apply list_eq. intros j. rewrite !lookup_drop.
  destruct (t !! (c + j)%nat) as [x|] eqn:E.
  - apply Hsame; [lia|assumption].
  - apply lookup_ge_None in E. apply lookup_ge_None. lia.
Qed.

Lemma fmap_ext_elem {A B : Type} (f g : A -> B) (l : list A) :
  (forall x, x ∈ l -> f x = g x) -> f <$> l = g <$> l.
Proof.
  induction l as [|a l IH]; intros H; [reflexivity|].
  rewrite !fmap_cons. f_equal; [apply H; by left|].
  apply IH. intros x Hx. apply H. by right.
Qed.

Lemma sound_well_formed (st : CanMap store) : sound st -> well_formed st.
Proof. by intros [H _]. Qed.

(** the outer loop from entry [c] on: what the iteration finds afterwards *)
Lemma unlink_table_spec d param rx :
  forall n c (st : CanMap store),
    sound st -> (c + n <= MAX_MESSAGES)%nat ->
    let st' := unlink_table d param n c st in
    sound st' /\ keeps_rest st st' /\ same_use (canPosMap st) (canPosMap st') /\
    (forall d' j e, selMap d' st !! j = Some e -> (d' <> d \/ (j < c)%nat) ->
       selMap d' st' !! j = Some e /\ bindings st' e = bindings st e) /\
    concat ((fun e => items_of rx e (bindings st' e))
              <$> visible_from (take n (drop c (selMap d st'))))
    = concat (until_empty
                ((fun e => items_of rx e (survivors param true (bindings st e)))
                   <$> visible_from (take n (drop c (selMap d st))))).
Proof.
  induction n as [|n IH]; intros c st Hsound Hn.
  { simpl. split; [assumption|]. split; [apply keeps_rest_refl|].
    split; [apply same_use_refl|]. split; [auto|]. reflexivity. }
  pose proof (sound_well_formed st Hsound) as Hwf.
  destruct (lookup_lt_is_Some_2 (selMap d st) c) as [e He].
  { rewrite (well_formed_length d st Hwf). lia. }
  simpl unlink_table. rewrite He.
  destruct (drop c (selMap d st)) as [|e0 r] eqn:Hd.
  { apply (f_equal length) in Hd. rewrite length_drop in Hd.
    apply lookup_lt_Some in He. simpl in Hd. lia. }
  apply drop_lookup_cons in Hd as Hd'. destruct Hd' as [He0 Hr].
  assert (e0 = e) by congruence. subst e0.
  destruct (first e =? MAX_ITEMS)%nat eqn:Hgap.
  { simpl. split; [assumption|]. split; [apply keeps_rest_refl|].
    split; [apply same_use_refl|]. split; [auto|].
    rewrite Hd. simpl. rewrite Hgap. reflexivity. }
  destruct (unlink_chain_entry d param c st e Hsound He)
    as (Hsound1 & Hk1 & Hu1 & (e1 & He1 & Hcan1 & Hn1 & Hit1) & Hoth1).
  set (st1 := unlink_chain d param c (bindings st e) st None) in *.
  destruct (IH (S c) st1 Hsound1) as (Hsound' & Hk' & Hu' & Hoth' & Hitems); [lia|].
  set (st' := unlink_table d param n (S c) st1) in *.
  pose proof (sound_well_formed st1 Hsound1) as Hwf1.
  pose proof (sound_well_formed st' Hsound') as Hwf'.
  split; [assumption|]. split; [eapply keeps_rest_trans; eassumption|].
  split; [eapply same_use_trans; eassumption|]. split.
  { intros d' j x Hx Hcase.
    assert (Hne : (d', j) <> (d, c)).
    { intros [= -> ->]. destruct Hcase; [congruence|lia]. }
    destruct (Hoth1 d' j x Hx Hne) as [Hx1 Hb1].
    destruct (Hoth' d' j x Hx1) as [Hx' Hb']; [destruct Hcase; [by left|right; lia]|].
    split; [assumption|congruence]. }
  (* the items *)
  destruct (Hoth' d c e1 He1) as [He1' Hb1']; [right; lia|].
  destruct (drop c (selMap d st')) as [|e0 r'] eqn:Hd'.
  { apply (f_equal length) in Hd'. rewrite length_drop in Hd'.
    apply lookup_lt_Some in He1'. simpl in Hd'. lia. }
  apply drop_lookup_cons in Hd' as Hd''. destruct Hd'' as [He0' Hr'].
  assert (e0 = e1) by congruence. subst e0.
  simpl take. simpl visible_from. rewrite Hgap.
  rewrite fmap_cons. rewrite <- Hr', <- Hr.
  assert (Htail : concat ((fun e => items_of rx e (bindings st' e))
                    <$> visible_from (take n (drop (S c) (selMap d st'))))
                  = concat (until_empty
                      ((fun e => items_of rx e (survivors param true (bindings st e)))
                         <$> visible_from (take n (drop (S c) (selMap d st)))))).
  { rewrite Hitems.
    assert (Hdrop : drop (S c) (selMap d st1) = drop (S c) (selMap d st)).
    { apply drop_same_tail.
      - by rewrite !well_formed_length.
      - intros j x Hj Hx. apply (Hoth1 d j x Hx). intros [= ->]. lia. }
    rewrite Hdrop. f_equal. f_equal. apply fmap_ext_elem.
    intros x Hx. apply visible_from_elem, elem_of_take_drop in Hx as (j & Hj & Hx).
    destruct (Hoth1 d j x Hx) as [_ ->]; [intros [= ->]; lia|]. reflexivity. }
  destruct (well_formed_bindings d st1 c e1 Hwf1 He1) as [_ HL1].
  destruct (decide (first e1 = MAX_ITEMS)) as [Hend|Hend].
  - rewrite Hend, Nat.eqb_refl. simpl.
    assert (Hnil : survivors param true (bindings st e) = []).
    { rewrite Hend in HL1. apply path_first_end in HL1. rewrite HL1 in Hn1.
      symmetry in Hn1. by apply fmap_nil_inv in Hn1. }
    rewrite Hnil. reflexivity.
  - apply Nat.eqb_neq in Hend as Hend'. rewrite Hend'.
    rewrite fmap_cons. simpl concat. rewrite Htail.
    rewrite Hb1', Hit1, (items_of_canId rx e e1 _ Hcan1).
    destruct (items_of rx e (survivors param true (bindings st e))) as [|it its] eqn:Hits;
      [|reflexivity].
    exfalso. apply items_of_nil_inv in Hits. rewrite Hits in Hn1.
    apply fmap_nil_inv in Hn1. rewrite Hn1 in HL1. inversion HL1; subst. contradiction.
Qed.

End RemovalEntries.

(** ** What [Remove] leaves *)

Section RemoveSpec.
Context {cfg : BuildConfig} {store : Type} {PS : ParamStore store}.

Local Arguments findPreceding : simpl never.
Local Arguments FindById : simpl never.
Local Arguments countMessages : simpl never.
Local Arguments findFreeEntry : simpl never.
Local Arguments findFreeIndex : simpl never.
Local Arguments Add : simpl never.

Lemma items_of_table_same d (st st' : CanMap store) :
  well_formed st -> well_formed st' ->
  (forall j e, selMap d st !! j = Some e ->
     selMap d st' !! j = Some e /\ bindings st' e = bindings st e) ->
  items_of_table d st' = items_of_table d st.
Proof.
  intros Hwf Hwf' Hsame. unfold items_of_table.
  assert (Ht : selMap d st' = selMap d st).
  { rewrite <- (drop_0 (selMap d st')), <- (drop_0 (selMap d st)).
    apply drop_same_tail; [by rewrite !well_formed_length|].
    intros j x _ Hx. apply (Hsame j x Hx). }
  rewrite Ht. f_equal. apply fmap_ext_elem.
  intros x Hx. unfold visible in Hx.
  apply visible_from_elem in Hx. rewrite <- (drop_0 (selMap d st)) in Hx.
  apply elem_of_take_drop in Hx as (j & _ & Hx).
  destruct (Hsame j x Hx) as [_ ->]. reflexivity.
Qed.

Lemma items_left_same d param (st st' : CanMap store) :
  well_formed st -> well_formed st' ->
  (forall j e, selMap d st !! j = Some e ->
     selMap d st' !! j = Some e /\ bindings st' e = bindings st e) ->
  items_left d param st' = items_left d param st.
Proof.
  intros Hwf Hwf' Hsame. unfold items_left.
  assert (Ht : selMap d st' = selMap d st).
  { rewrite <- (drop_0 (selMap d st')), <- (drop_0 (selMap d st)).
    apply drop_same_tail; [by rewrite !well_formed_length|].
    intros j x _ Hx. apply (Hsame j x Hx). }
  rewrite Ht. f_equal. f_equal. apply fmap_ext_elem.
  intros x Hx. unfold visible in Hx.
  apply visible_from_elem in Hx. rewrite <- (drop_0 (selMap d st)) in Hx.
  apply elem_of_take_drop in Hx as (j & _ & Hx).
  destruct (Hsame j x Hx) as [_ ->]. reflexivity.
Qed.

Lemma RemoveFromMap_spec d (st : CanMap store) param :
  sound st ->
  exists st',
    RemoveFromMap d st param = Some (st', 0) /\
    sound st' /\ keeps_rest st st' /\ same_use (canPosMap st) (canPosMap st') /\
    (forall d' j e, selMap d' st !! j = Some e -> d' <> d ->
       selMap d' st' !! j = Some e /\ bindings st' e = bindings st e) /\
    items_of_table d st' = items_left d param st.
Proof.
  intros Hsound. pose proof (sound_well_formed st Hsound) as Hwf.
  destruct (RemoveFromMap_run d st param Hwf) as [Hrun _].
  destruct (unlink_table_spec d param
              (match d with SendMap => false | RecvMap => true end)
              MAX_MESSAGES 0 st Hsound) as (Hs' & Hk & Hu & Hoth & Hitems); [lia|].
  exists (unlink_table d param MAX_MESSAGES 0 st).
  split; [assumption|]. split; [assumption|]. split; [assumption|].
  split; [assumption|]. split.
  - intros d' j e He Hne. apply Hoth; [assumption|by left].
  - rewrite !drop_0 in Hitems. exact Hitems.
Qed.

Lemma Remove_spec (st : CanMap store) param :
  sound st ->
  exists st',
    Remove st param = Some (st', 0) /\
    sound st' /\ keeps_rest st st' /\ same_use (canPosMap st) (canPosMap st') /\
    IterateCanMap st'
    = Some (items_left SendMap param st ++ items_left RecvMap param st).
Proof.
  intros Hsound. pose proof (sound_well_formed st Hsound) as Hwf.
  destruct (RemoveFromMap_spec SendMap st param Hsound)
    as (st1 & Hrun1 & Hs1 & Hk1 & Hu1 & Hoth1 & Hit1).
  pose proof (sound_well_formed st1 Hs1) as Hwf1.
  destruct (RemoveFromMap_spec RecvMap st1 param Hs1)
    as (st2 & Hrun2 & Hs2 & Hk2 & Hu2 & Hoth2 & Hit2).
  pose proof (sound_well_formed st2 Hs2) as Hwf2.
  exists st2. split; [|split; [assumption|split; [|split]]].
  - unfold Remove. rewrite Hrun1. simpl. rewrite Hrun2. reflexivity.
  - eapply keeps_rest_trans; eassumption.
  - eapply same_use_trans; eassumption.
  - rewrite (IterateCanMap_items st2 Hwf2). f_equal. f_equal.
    + rewrite <- Hit1. apply items_of_table_same; try assumption.
      intros j e He. apply (Hoth2 SendMap j e He). discriminate.
    + rewrite Hit2. apply items_left_same; try assumption.
      intros j e He. apply (Hoth1 RecvMap j e He). discriminate.
Qed.

(** X15: what [Remove] leaves, as the iteration over both tables shows it
    afterwards, on tables that satisfy the invariant and share no slot
    between chains.  [Remove] returns 0.  Of every visited chain it has
    unlinked the first binding of the parameter, and every further one
    whose predecessor stayed on the chain, so a binding of the parameter
    that follows an unlinked one stays; a message that has lost all its
    bindings ends the iteration, so the messages stored after it are not
    visited any more.  The bindings that are left are visited in their
    order, with the fields they had. *)
Theorem X15_Remove_unlinks_every_other_adjacent_binding (st : CanMap store) param :
  sound st ->
  exists st',
    Remove st param = Some (st', 0) /\
    sound st' /\ keeps_rest st st' /\ same_use (canPosMap st) (canPosMap st') /\
    IterateCanMap st'
    = Some (items_left SendMap param st ++ items_left RecvMap param st).
Proof. apply Remove_spec. Qed.

Lemma survivors_no_adjacent param (L : list (nat * CANPOS)) :
  forall linked,
    no_adjacent param L ->
    (linked = false -> match L with [] => True | ic :: _ => mapParam ic.2 <> param end) ->
    Forall (fun ic => mapParam ic.2 <> param) (survivors param linked L).
Proof.
  induction L as [|ic L IH]; intros linked Hadj Hhead; simpl; [constructor|].
  destruct Hadj as [Hpair Hadj].
  destruct (Z.eqb_spec (mapParam ic.2) param) as [Heq|Hne]; simpl.
  - destruct linked; [|exfalso; by apply (Hhead eq_refl)].
    apply IH; [assumption|]. intros _.
    destruct L as [|ic' L]; [exact I|]. intros Heq'. apply Hpair. auto.
  - constructor; [assumption|]. apply IH; [assumption|discriminate].
Qed.

Lemma list_find_none_items (param : Z) (items : list MapItem) :
  Forall (fun it => item_param it <> param) items ->
  list_find (fun it => item_param it = param) items = None.
Proof.
  intros Hall. apply list_find_None. exact Hall.
Qed.

Lemma items_left_no_param d param (st : CanMap store) :
  (forall e, e ∈ visible (selMap d st) -> no_adjacent param (bindings st e)) ->
  Forall (fun it => item_param it <> param) (items_left d param st).
Proof.
  intros Hadj. unfold items_left.
  induction (visible (selMap d st)) as [|e vis IH]; [constructor|].
  rewrite fmap_cons. simpl until_empty.
  assert (He : Forall (fun it => item_param it <> param)
                 (items_of (match d with SendMap => false | RecvMap => true end) e
                    (survivors param true (bindings st e)))).
  { unfold items_of. apply Forall_fmap.
    eapply Forall_impl; [apply survivors_no_adjacent|].
    - apply Hadj. by left.
    - discriminate.
    - intros ic Hic. exact Hic. }
  destruct (items_of _ e (survivors param true (bindings st e))) as [|it its];
    [constructor|].
  simpl concat. change (it :: its ++ ?r) with ((it :: its) ++ r).
  apply Forall_app. split; [assumption|].
  apply IH. intros x Hx. apply Hadj. by right.
Qed.

(** what a pass of [RemoveFromMap] leaves of every entry from [c] on: of
    a visited one the survivors of its chain, of the others the chain as
    it was *)
Lemma unlink_table_entries d param :
  forall n c (st : CanMap store),
    sound st -> (c + n <= MAX_MESSAGES)%nat ->
    forall j e, selMap d st !! j = Some e -> (c <= j)%nat ->
      exists e',
        selMap d (unlink_table d param n c st) !! j = Some e' /\
        forall rx x,
          items_of rx x (bindings (unlink_table d param n c st) e')
          = items_of rx x
              (if decide (j - c < length (visible_from (take n (drop c (selMap d st)))))%nat
               then survivors param true (bindings st e) else bindings st e).
Proof.
  induction n as [|n IH]; intros c st Hsound Hn j e He Hj.
  { change (unlink_table d param 0 c st) with st.
    exists e. split; [assumption|]. intros rx x.
    case_decide as H; [simpl in H; lia|reflexivity]. }
  pose proof (sound_well_formed st Hsound) as Hwf.
  destruct (lookup_lt_is_Some_2 (selMap d st) c) as [ec Hec].
  { rewrite (well_formed_length d st Hwf). lia. }
  simpl unlink_table. rewrite Hec.
  destruct (drop c (selMap d st)) as [|e0 r] eqn:Hd.
  { apply (f_equal length) in Hd. rewrite length_drop in Hd.
    apply lookup_lt_Some in Hec. simpl in Hd. lia. }
  apply drop_lookup_cons in Hd as Hd'. destruct Hd' as [He0 Hr].
  assert (e0 = ec) by congruence. subst e0.
  simpl take. simpl visible_from.
  destruct (first ec =? MAX_ITEMS)%nat eqn:Hgap.
  { exists e. split; [assumption|]. intros rx x.
    case_decide as H; [simpl in H; lia|reflexivity]. }
  destruct (unlink_chain_entry d param c st ec Hsound Hec)
    as (Hsound1 & _ & _ & (e1 & He1 & _ & _ & Hit1) & Hoth1).
  set (st1 := unlink_chain d param c (bindings st ec) st None) in *.
  pose proof (sound_well_formed st1 Hsound1) as Hwf1.
  destruct (unlink_table_spec d param false n (S c) st1 Hsound1)
    as (_ & _ & _ & Hoth' & _); [lia|].
  destruct (decide (j = c)) as [->|Hne].
  - assert (e = ec) by congruence. subst e.
    destruct (Hoth' d c e1 He1) as [He1' Hb1']; [right; lia|].
    exists e1. split; [assumption|]. intros rx x.
    rewrite Hb1', Hit1. case_decide as H; [reflexivity|simpl in H; lia].
  - destruct (Hoth1 d j e He) as [He' Hb']; [intros [= ->]; congruence|].
    destruct (IH (S c) st1 Hsound1 ltac:(lia) j e He' ltac:(lia)) as (e' & Hj' & Hit').
    exists e'. split; [assumption|]. intros rx x. rewrite Hit', Hb'.
    assert (Hdrop : drop (S c) (selMap d st1) = drop (S c) (selMap d st)).
    { apply drop_same_tail.
      - by rewrite !well_formed_length.
      - intros k y Hk Hy. apply (Hoth1 d k y Hy). intros [= ->]. lia. }
    rewrite Hdrop, <- Hr.
    repeat case_decide; try reflexivity; simpl in *; lia.
Qed.

Lemma items_of_no_param rx x (L L' : list (nat * CANPOS)) param :
  items_of rx x L = items_of rx x L' ->
  Forall (fun ic => mapParam ic.2 <> param) L' ->
  Forall (fun ic => mapParam ic.2 <> param) L.
Proof.
  intros Heq H.
  assert (H0 : Forall (fun it => item_param it <> param) (items_of rx x L)).
  { rewrite Heq. unfold items_of. apply Forall_fmap.
    eapply Forall_impl; [exact H|]. intros ic Hic. exact Hic. }
  unfold items_of in H0. rewrite Forall_fmap in H0.
  eapply Forall_impl; [exact H0|]. intros ic Hic. exact Hic.
Qed.

Lemma visible_index (t : list CANIDMAP) j e :
  (j < length (visible t))%nat -> t !! j = Some e -> e ∈ visible t.
Proof.
  intros Hj He. destruct (lookup_lt_is_Some_2 _ _ Hj) as [x Hx].
  apply list_elem_of_lookup. exists j.
  apply visible_lookup in Hx as Hx'. destruct Hx' as (Hx' & _). congruence.
Qed.

(** what [Remove] leaves of every entry of either table *)
Lemma Remove_entries (st : CanMap store) param :
  sound st ->
  exists st',
    Remove st param = Some (st', 0) /\
    forall d j e, selMap d st !! j = Some e ->
      exists e',
        selMap d st' !! j = Some e' /\
        forall rx x,
          items_of rx x (bindings st' e')
          = items_of rx x
              (if decide (j < length (visible (selMap d st)))%nat
               then survivors param true (bindings st e) else bindings st e).
Proof.
  intros Hsound. pose proof (sound_well_formed st Hsound) as Hwf.
  destruct (RemoveFromMap_run SendMap st param Hwf) as [Hrun1 Hwf1].
  set (st1 := unlink_table SendMap param MAX_MESSAGES 0 st) in *.
  destruct (unlink_table_spec SendMap param false MAX_MESSAGES 0 st Hsound)
    as (Hsound1 & _ & _ & Hoth1 & _); [lia|]. fold st1 in Hsound1, Hoth1.
  destruct (RemoveFromMap_run RecvMap st1 param Hwf1) as [Hrun2 Hwf2].
  set (st2 := unlink_table RecvMap param MAX_MESSAGES 0 st1) in *.
  destruct (unlink_table_spec RecvMap param false MAX_MESSAGES 0 st1 Hsound1)
    as (_ & _ & _ & Hoth2 & _); [lia|]. fold st2 in Hoth2.
  exists st2. split.
  { unfold Remove. rewrite Hrun1. simpl. rewrite Hrun2. reflexivity. }
  intros d j e He. destruct d.
  - destruct (unlink_table_entries SendMap param MAX_MESSAGES 0 st Hsound ltac:(lia)
                j e He ltac:(lia)) as (e1 & He1 & Hit1).
    fold st1 in He1, Hit1.
    destruct (Hoth2 SendMap j e1 He1) as [He2 Hb2]; [by left|].
    exists e1. split; [assumption|]. intros rx x.
    rewrite Hb2, Hit1, Nat.sub_0_r, drop_0. reflexivity.
  - destruct (Hoth1 RecvMap j e He) as [He1 Hb1]; [by left|].
    destruct (unlink_table_entries RecvMap param MAX_MESSAGES 0 st1 Hsound1 ltac:(lia)
                j e He1 ltac:(lia)) as (e2 & He2 & Hit2).
    fold st2 in He2, Hit2.
    exists e2. split; [assumption|]. intros rx x.
    rewrite Hit2, Nat.sub_0_r, drop_0, Hb1.
    assert (Ht : selMap RecvMap st1 = selMap RecvMap st).
    { rewrite <- (drop_0 (selMap RecvMap st1)), <- (drop_0 (selMap RecvMap st)).
      apply drop_same_tail; [by rewrite !well_formed_length|].
      intros k y _ Hy. apply (Hoth1 RecvMap k y Hy). by left. }
    rewrite Ht. reflexivity.
Qed.

(** X16: when [Remove] removes the parameter completely.  On tables that
    satisfy the invariant and share no slot between chains, if no two
    bindings of the parameter stand next to each other in the chain of a
    visited message, then right after [Remove] the iteration calls back
    for no binding of the parameter and [FindMap] returns [false] for
    it.  [Remove] does not come to the messages behind an entry that was
    empty already; if none of them holds a binding of the parameter
    either, then afterwards no chain of either table, visited or not,
    holds one. *)
Theorem X16_Remove_leaves_no_binding_unless_two_are_adjacent (st : CanMap store) param :
  sound st ->
  (forall d e, e ∈ visible (selMap d st) -> no_adjacent param (bindings st e)) ->
  exists st' items,
    Remove st param = Some (st', 0) /\
    IterateCanMap st' = Some items /\
    Forall (fun it => item_param it <> param) items /\
    FindMap st' param = Some None /\
    ((forall d j e, selMap d st !! j = Some e ->
        (length (visible (selMap d st)) <= j)%nat ->
        Forall (fun ic => mapParam ic.2 <> param) (bindings st e)) ->
     forall d j e', selMap d st' !! j = Some e' ->
       Forall (fun ic => mapParam ic.2 <> param) (bindings st' e')).
Proof.
  intros Hsound Hadj.
  destruct (Remove_spec st param Hsound) as (st' & Hrun & Hsound' & _ & _ & Hit).
  destruct (Remove_entries st param Hsound) as (st2 & Hrun2 & Hentries).
  assert (st2 = st') by congruence. subst st2.
  assert (Hall : Forall (fun it => item_param it <> param)
                   (items_left SendMap param st ++ items_left RecvMap param st)).
  { apply Forall_app. split; apply items_left_no_param; intros e He;
      [by apply (Hadj SendMap)|by apply (Hadj RecvMap)]. }
  exists st', (items_left SendMap param st ++ items_left RecvMap param st).
  split; [assumption|]. split; [assumption|]. split; [assumption|]. split.
  { rewrite (FindMap_first_item st' param _ Hit), list_find_none_items by assumption.
    reflexivity. }
  intros Hhidden d j e' He'.
  pose proof (sound_well_formed st Hsound) as Hwf.
  pose proof (sound_well_formed st' Hsound') as Hwf'.
  destruct (lookup_lt_is_Some_2 (selMap d st) j) as [e He].
  { apply lookup_lt_Some in He'.
    rewrite (well_formed_length d st Hwf). by rewrite (well_formed_length d st' Hwf') in He'. }
  destruct (Hentries d j e He) as (e2 & He2 & Hitems).
  assert (e2 = e') by congruence. subst e2.
  apply (items_of_no_param false e' _ _ param (Hitems false e')).
  destruct (decide (j < length (visible (selMap d st)))%nat) as [Hv|Hv].
  - eapply Forall_impl; [apply survivors_no_adjacent|].
    + apply (Hadj d). by apply (visible_index _ j).
    + discriminate.
    + intros ic Hic. exact Hic.
  - apply (Hhidden d j e He). lia.
Qed.

End RemoveSpec.

(** ** The pool after [Remove] *)

Section PoolUse.
Context {cfg : BuildConfig} {store : Type} {PS : ParamStore store}.

Local Arguments findPreceding : simpl never.
Local Arguments FindById : simpl never.
Local Arguments countMessages : simpl never.
Local Arguments findFreeEntry : simpl never.
Local Arguments Add : simpl never.

Lemma unlink_table_frame d param :
  forall n c (st : CanMap store),
    well_formed st -> (c + n <= MAX_MESSAGES)%nat ->
    well_formed (unlink_table d param n c st) /\
    keeps_rest st (unlink_table d param n c st) /\
    same_use (canPosMap st) (canPosMap (unlink_table d param n c st)).
Proof.
  induction n as [|n IH]; intros c st Hwf Hn; simpl.
  { split; [assumption|]. split; [apply keeps_rest_refl|apply same_use_refl]. }
  destruct (selMap d st !! c) as [e|] eqn:He.
  2:{ split; [assumption|]. split; [apply keeps_rest_refl|apply same_use_refl]. }
  destruct (first e =? MAX_ITEMS)%nat.
  { split; [assumption|]. split; [apply keeps_rest_refl|apply same_use_refl]. }
  destruct (well_formed_bindings d st c e Hwf He) as [_ HL].
  destruct (RemoveFromMap_chain_run d param c (bindings st e) (first e) st None
              (S (length (bindings st e))) Hwf HL) as (_ & _ & Hwf1); [discriminate|lia|].
  destruct (unlink_chain_frame d param c (bindings st e) (first e) st None Hwf HL)
    as (Hk & _ & _ & Huse & _); [discriminate|].
  destruct (IH (S c) _ Hwf1) as (Hwf' & Hk' & Hu'); [lia|].
  split; [assumption|]. split; [eapply keeps_rest_trans; eassumption|].
  eapply same_use_trans; eassumption.
Qed.

Lemma findFreeIndex_same_use_aux (p p' : list CANPOS) :
  length p' = length p ->
  (forall k c c', p !! k = Some c -> p' !! k = Some c' ->
                  (next c' = ITEM_UNSET <-> next c = ITEM_UNSET)) ->
  fst <$> list_find (fun c => next c = ITEM_UNSET) p'
  = fst <$> list_find (fun c => next c = ITEM_UNSET) p.
Proof.
  revert p'. induction p as [|c p IH]; intros [|c' p'] Hlen Hsame; try discriminate;
    [reflexivity|].
  simpl.
  pose proof (Hsame 0%nat c c' eq_refl eq_refl) as H0.
  assert (HIH := IH p' ltac:(simpl in Hlen; lia)
                   (fun k x x' Hx Hx' => Hsame (S k) x x' Hx Hx')).
  repeat case_decide; try tauto; try reflexivity.
  destruct (list_find _ p') as [[i x]|]; destruct (list_find _ p) as [[j y]|];
    simpl in *; congruence.
Qed.

Lemma findFreeIndex_same_use (p p' : list CANPOS) :
  same_use p p' -> findFreeIndex p' = findFreeIndex p.
Proof.
  intros [Hlen Huse]. unfold findFreeIndex.
  assert (H : fst <$> list_find (fun c => next c = ITEM_UNSET) (take MAX_ITEMS p')
              = fst <$> list_find (fun c => next c = ITEM_UNSET) (take MAX_ITEMS p)).
  { apply findFreeIndex_same_use_aux; [by rewrite !length_take, Hlen|].
    intros k c c' Hc Hc'.
    apply lookup_take_Some in Hc as [Hc _]. apply lookup_take_Some in Hc' as [Hc' _].
    destruct (Huse k c' Hc') as (c0 & Hc0 & (_ & _ & _ & _ & _ & Hfree)).
    assert (c0 = c) by congruence. subst c0. exact Hfree. }
  destruct (list_find _ (take MAX_ITEMS p')) as [[i x]|];
    destruct (list_find _ (take MAX_ITEMS p)) as [[j y]|]; simpl in H; congruence.
Qed.

Lemma Remove_frees_no_slot (st : CanMap store) param :
  well_formed st ->
  exists st',
    Remove st param = Some (st', 0) /\
    well_formed st' /\
    same_use (canPosMap st) (canPosMap st') /\
    findFreeIndex (canPosMap st') = findFreeIndex (canPosMap st) /\
    (findFreeIndex (canPosMap st) = MAX_ITEMS ->
     forall d p id ofs len g off st2 r,
       Add d st' p id ofs len g off = Some (st2, r) -> exists err, r = Fault err).
Proof.
  intros Hwf.
  destruct (RemoveFromMap_run SendMap st param Hwf) as [Hrun1 _].
  destruct (unlink_table_frame SendMap param MAX_MESSAGES 0 st Hwf) as (Hwf1 & _ & Hu1);
    [lia|].
  destruct (RemoveFromMap_run RecvMap _ param Hwf1) as [Hrun2 _].
  destruct (unlink_table_frame RecvMap param MAX_MESSAGES 0 _ Hwf1) as (Hwf2 & _ & Hu2);
    [lia|].
  pose proof (same_use_trans _ _ _ Hu1 Hu2) as Hu.
  pose proof (findFreeIndex_same_use _ _ Hu) as Hfree.
  eexists. split; [|split; [exact Hwf2|split; [exact Hu|split; [exact Hfree|]]]].
  - unfold Remove. rewrite Hrun1. simpl. rewrite Hrun2. reflexivity.
  - intros Hfull d p id ofs len g off st2 r Hadd.
    apply Add_cases in Hadd.
    destruct Hadd as [H|[H|[H|[H|[H|H]]]]].
    + destruct H as (_ & _ & ->). eauto.
    + destruct H as (_ & _ & _ & ->). eauto.
    + destruct H as (_ & _ & _ & _ & ->). eauto.
    + destruct H as (_ & _ & _ & ->). eauto.
    + destruct H as (i & _ & _ & ->). eauto.
    + destruct H as (i & st1 & e & prec & n & _ & _ & _ & He & Hnf & _).
      exfalso. apply Hnf.
      destruct (Add_entry_shape _ _ _ _ _ He) as (-> & _). congruence.
Qed.

(** X17: [Remove] gives no slot of the pool back.  On every table that
    satisfies the invariant it changes links of slots in use only: every
    slot holds the binding it held, and is free afterwards exactly when it
    was free before.  So the free slot the next [Add] finds is the one it
    would have found before, and once the pool is used up, no [Add] after
    a [Remove] returns a count. *)
Theorem X17_Remove_frees_no_slot_of_the_pool (st : CanMap store) param :
  well_formed st ->
  exists st',
    Remove st param = Some (st', 0) /\
    well_formed st' /\
    same_use (canPosMap st) (canPosMap st') /\
    findFreeIndex (canPosMap st') = findFreeIndex (canPosMap st) /\
    (findFreeIndex (canPosMap st) = MAX_ITEMS ->
     forall d p id ofs len g off st2 r,
       Add d st' p id ofs len g off = Some (st2, r) -> exists err, r = Fault err).
Proof. apply Remove_frees_no_slot. Qed.

End PoolUse.

(** ** The chains of the states the object goes through *)

Section ReachableSound.
Context {cfg : BuildConfig} {store : Type} {PS : ParamStore store}.

Local Arguments Add : simpl never.
Local Arguments FindById : simpl never.

Lemma ProcessSDO_sound (st st' : CanMap store) data :
  sound st -> ProcessSDO st data = Some st' -> sound st'.
Proof.
  intros Hs. unfold ProcessSDO.
  destruct ((8192 <=? SDO.index data) && _ && _).
  { destruct (SDO.cmd data =? SDO_WRITE).
    - destruct (Param_Set _ _ _) as [ps rc].
      destruct (rc =? 0); simpl; intros [= <-];
        apply (sound_keeps_tables st); auto.
    - destruct (SDO.cmd data =? SDO_READ); simpl; intros [= <-];
        apply (sound_keeps_tables st); auto. }
  destruct ((12288 <=? SDO.index data) && _ && _).
  2:{ simpl. intros [= <-]. apply (sound_keeps_tables st); auto. }
  destruct (SDO.cmd data =? SDO_WRITE).
  2:{ simpl. intros [= <-]. apply (sound_keeps_tables st); auto. }
  destruct (_ =? 16384).
  - destruct (AddRecv _ _ _ _ _ _ _) as [[st1 r]|] eqn:E; [|discriminate].
    apply AddRecv_sound in E; [|assumption].
    destruct r; simpl; intros [= <-]; apply (sound_keeps_tables st1); auto.
  - unfold AddSend.
    destruct (Add _ _ _ _ _ _ _ _) as [[st1 r]|] eqn:E; [|discriminate].
    apply Add_sound in E; [|assumption].
    destruct r; simpl; intros [= <-]; apply (sound_keeps_tables st1); auto.
Qed.

Lemma HandleRx_sound (st st' : CanMap store) id data b :
  sound st -> HandleRx st id data = Some (st', b) -> sound st'.
Proof.
  intros Hs. unfold HandleRx.
  destruct (id =? _).
  { destruct (ProcessSDO st data) as [st1|] eqn:E; [|discriminate].
    simpl. intros [= <- _]. eapply ProcessSDO_sound; eassumption. }
  destruct (isSaving st); [intros [= <- _]; assumption|].
  destruct (FindById (canRecvMap st) id) as [[i|]|]; simpl; try discriminate.
  2:{ intros [= <- _]. assumption. }
  destruct (canRecvMap st !! i) as [e|]; simpl; [|discriminate].
  destruct (forEachPosMap _ _ _ _) as [[ps|r]|]; try discriminate.
  intros [= <- _]. apply (sound_keeps_tables st); auto.
Qed.

Lemma SendAll_sound (st st' : CanMap store) :
  sound st -> SendAll st = Some st' -> sound st'.
Proof.
  intros Hs. unfold SendAll.
  destruct (forEachCanMap _ _ _) as [[hw|r]|]; try discriminate;
    intros [= <-]; [|assumption].
  apply (sound_keeps_tables st); auto.
Qed.

Lemma reachable_sound (st : CanMap store) :
  (MAX_ITEMS < ITEM_UNSET)%nat -> reachable st -> sound st.
Proof.
  intros Hmax. induction 1 as
    [raw Hraw
    |st param id ofs len g off st' r _ IH Hrun
    |st param id ofs len g off st' r _ IH Hrun
    |st param st' r _ IH Hrun
    |st id data st' b _ IH Hrun
    |st st' _ IH Hrun
    |st b _ IH
    |st ps _ IH].
  - apply ClearMap_sound; assumption.
  - eapply Add_sound; eassumption.
  - eapply AddRecv_sound; eassumption.
  - destruct (Remove_spec st param IH) as (st1 & Hrm & Hs & _).
    rewrite Hrm in Hrun. injection Hrun as <- _. assumption.
  - eapply HandleRx_sound; eassumption.
  - eapply SendAll_sound; eassumption.
  - apply (sound_keeps_tables st); auto.
  - apply (sound_keeps_tables st); auto.
Qed.

(** X18: in every state the object goes through, from the cleared tables
    on, no slot of the pool lies on the chains of two message entries,
    whether of one table or of both, visited or not: a binding belongs to
    one message of one direction. *)
Theorem X18_reachable_chains_share_no_slot (st : CanMap store) :
  (MAX_ITEMS < ITEM_UNSET)%nat -> reachable st ->
  forall d j e d' j' e',
    selMap d st !! j = Some e -> selMap d' st !! j' = Some e' ->
    (d, j) <> (d', j') ->
    forall k, k ∈ (bindings st e).*1 -> k ∉ (bindings st e').*1.
Proof. intros Hmax Hr. by destruct (reachable_sound st Hmax Hr) as [_ Hsep]. Qed.

End ReachableSound.

(** ** The map after a successful [Add] *)

Section AddSuccess.
Context {cfg : BuildConfig} {store : Type} {PS : ParamStore store}.

Local Arguments findPreceding : simpl never.
Local Arguments FindById : simpl never.
Local Arguments countMessages : simpl never.
Local Arguments findFreeEntry : simpl never.
Local Arguments findFreeIndex : simpl never.
Local Arguments Add : simpl never.

Lemma visible_from_split (l : list CANIDMAP) i :
  (forall j x, (j < i)%nat -> l !! j = Some x -> first x <> MAX_ITEMS) ->
  visible_from l = take i l ++ visible_from (drop i l).
Proof.
  revert l. induction i as [|i IH]; intros l Hpre; [by rewrite drop_0|].
  destruct l as [|e l]; [reflexivity|]. simpl.
  assert (He : first e <> MAX_ITEMS) by (apply (Hpre 0%nat e); [lia|reflexivity]).
  apply Nat.eqb_neq in He. rewrite He. f_equal. apply IH.
  intros j x Hj Hx. apply (Hpre (S j) x); [lia|exact Hx].
Qed.

(** the visited entries of a table whose entries before [i] are in use *)
Lemma visible_split (t : list CANIDMAP) i e :
  (i < MAX_MESSAGES)%nat -> t !! i = Some e ->
  (forall j x, (j < i)%nat -> t !! j = Some x -> first x <> MAX_ITEMS) ->
  visible t
  = take i t ++ (if (first e =? MAX_ITEMS)%nat then []
                 else e :: visible_from (take (MAX_MESSAGES - S i) (drop (S i) t))).
Proof.
  intros Hi He Hpre. unfold visible.
  rewrite (visible_from_split (take MAX_MESSAGES t) i).
  2:{ intros j x Hj Hx. apply lookup_take_Some in Hx as [Hx _]. eauto. }
  rewrite take_take, Nat.min_l by lia. f_equal.
  assert (Hd : drop i (take MAX_MESSAGES t) = take (MAX_MESSAGES - i) (drop i t)).
  { rewrite take_drop_commute. f_equal. f_equal. lia. }
  rewrite Hd.
  replace (MAX_MESSAGES - i)%nat with (S (MAX_MESSAGES - S i)) by lia.
  erewrite drop_S by eassumption. simpl.
  destruct (first e =? MAX_ITEMS)%nat; reflexivity.
Qed.

Lemma take_same_prefix {A : Type} (t t' : list A) i :
  (i <= length t)%nat -> (i <= length t')%nat ->
  (forall j, (j < i)%nat -> t' !! j = t !! j) -> take i t' = take i t.
Proof.
  intros Hl Hl' Hsame. apply list_eq. intros j.
  destruct (decide (j < i)%nat) as [Hj|Hj].
  - rewrite !lookup_take_lt by assumption. by apply Hsame.
  - rewrite !lookup_take_ge by lia. reflexivity.
Qed.

Lemma bindings_gap (st : CanMap store) e :
  well_formed st -> first e = MAX_ITEMS -> bindings st e = [].
Proof.
  intros Hwf He. apply bindings_path; [assumption|]. rewrite He. by constructor.
Qed.

(** the entry that [Add] has linked the binding to, and what the tables
    hold around it *)
Lemma Add_success d (st : CanMap store) param id ofs len g off st' n :
  sound st ->
  Add d st param id ofs len g off = Some (st', Count n) ->
  let item := {| mapParam := param; gain := g; offset := off; offsetBits := ofs;
                 numBits := len; next := MAX_ITEMS |} in
  sound st' /\
  n = length (visible (selMap d st')) /\
  exists i e0 e' B,
    (i < MAX_MESSAGES)%nat /\
    selMap d st !! i = Some e0 /\
    (first e0 <> MAX_ITEMS -> FindById (selMap d st) id = Some (Some i) /\
                              selMap d st' = selMap d st) /\
    (forall j x, (j < i)%nat -> selMap d st !! j = Some x ->
                 first x <> MAX_ITEMS /\ canId x <> id) /\
    selMap d st' !! i = Some e' /\
    ((first e0 <> MAX_ITEMS -> canId e' = id) /\
     (first e0 = MAX_ITEMS -> canId e' = stored_canId id)) /\
    first e' <> MAX_ITEMS /\
    bindings st' e' = B ++ [(findFreeIndex (canPosMap st), item)] /\
    (forall rx x, items_of rx x B = items_of rx x (bindings st e0)) /\
    (forall d' j x, (d', j) <> (d, i) -> selMap d' st !! j = Some x ->
       selMap d' st' !! j = Some x /\ bindings st' x = bindings st x).
Proof.
  intros Hsound Hadd item.
  pose proof (Add_sound _ _ _ _ _ _ _ _ _ _ Hsound Hadd) as Hsound'.
  pose proof (sound_well_formed st Hsound) as Hwf.
  pose proof (sound_well_formed st' Hsound') as Hwf'.
  split; [assumption|].
  apply Add_cases in Hadd.
  destruct Hadd as [H|[H|[H|[H|[H|H]]]]].
  { destruct H as (_ & _ & Hr). discriminate Hr. }
  { destruct H as (_ & _ & _ & Hr). discriminate Hr. }
  { destruct H as (_ & _ & _ & _ & Hr). discriminate Hr. }
  { destruct H as (_ & _ & _ & Hr). discriminate Hr. }
  { destruct H as (i & _ & _ & Hr). discriminate Hr. }
  destruct H as (i & st1 & e & prec & n0 & Hid & Hofs & Hlen & He & Hfree & Hi & Hprec
                 & -> & Hcount & [= <-]).
  split.
  { rewrite countMessages_visible in Hcount by (rewrite well_formed_length; [lia|assumption]).
    congruence. }
  pose proof (Add_entry_sound d st id i st1 He Hsound) as Hsound1.
  destruct (Add_entry_links d st id i st1 He) as [Hpool1 Hlinks1].
  destruct (Add_linked_bindings d st1 i e item prec Hsound1 Hi Hfree Hprec eq_refl)
    as (_ & (e' & B & Hi' & Hcan' & Hfirst' & Hb' & _ & HB) & Hother & Hsame & _).
  rewrite Hpool1 in Hb'.
  destruct (Hlinks1 d i e Hi) as (e0 & He0 & Hf0 & _).
  assert (Hbind1 : forall x, bindings st1 x = bindings st x).
  { intros x. by apply bindings_same_pool. }
  destruct (Add_entry_shape d st id i st1 He) as (_ & _ & Hilt & _).
  exists i, e0, e', B.
  split; [assumption|]. split; [assumption|].
  destruct He as [[Hfound ->]|(Hnone & Hfe & ->)].
  - (* the identifier was there *)
    assert (e0 = e) by congruence. subst e0.
    destruct (FindById_Some _ _ _ Hfound) as (_ & e2 & He2 & Hcan2 & Hne2).
    assert (e2 = e) by congruence. subst e2.
    assert (Htab : selMap d (Add_linked d st i item prec) = selMap d st).
    { apply list_eq. intros j. destruct (decide (j = i)) as [->|Hj].
      - rewrite Hi', Hi. f_equal.
        destruct (well_formed_bindings d st i e Hwf Hi) as [_ HL].
        rewrite (findPreceding_path _ _ _ HL) in Hprec.
        2:{ destruct Hwf as (_ & (_ & _ & Hp & _) & _).
            apply path_at_end_length in HL; [|assumption]. unfold chain_fuel. lia. }
        destruct (last (bindings st e)) as [[j0 cj]|] eqn:Hlast; injection Hprec as <-.
        + unfold Add_linked in Hi'. rewrite !selMap_setPos in Hi'. congruence.
        + apply last_None in Hlast. rewrite Hlast in HL. inversion HL. contradiction.
      - apply Hother. congruence. }
    split; [auto|]. split.
    { intros j x Hj Hx. split.
      - pose proof (FindById_loop_prefix (selMap d st) id i MAX_MESSAGES 0) as Hp.
        unfold FindById, forEachCanMap in Hfound.
        destruct (forEachCanMap_loop _ _ MAX_MESSAGES 0%nat tt) as [[[]|r]|] eqn:E;
          try discriminate.
        injection Hfound as ->.
        destruct (Hp eq_refl j) as (x' & Hx' & Hne'); [lia|]. congruence.
      - intros Hc.
        rewrite FindById_visible in Hfound
          by (rewrite well_formed_length; [lia|assumption]).
        destruct (list_find _ _) as [[i0 x0]|] eqn:Hlf; [|discriminate].
        simpl in Hfound. injection Hfound as ->.
        apply list_find_Some in Hlf as (Hv & _ & Hmin).
        assert (Hvj : visible (selMap d st) !! j = Some x).
        { unfold visible.
          rewrite (visible_from_split (take MAX_MESSAGES (selMap d st)) (S j)).
          - rewrite lookup_app_l by (rewrite length_take, length_take; apply lookup_lt_Some in Hv;
              rewrite well_formed_length by assumption; lia).
            rewrite lookup_take_lt by lia. rewrite lookup_take_lt by lia. assumption.
          - intros j1 x1 Hj1 Hx1. apply lookup_take_Some in Hx1 as [Hx1 _].
            pose proof (visible_from_prefix (take MAX_MESSAGES (selMap d st)) i x0 Hv j1 x1) as Hq.
            apply Hq; [lia|]. rewrite lookup_take_lt by lia. assumption. }
        exact (Hmin j x Hvj Hj Hc). }
    split; [assumption|].
    split; [split; [intros _; congruence|intros Hc; contradiction]|].
    split; [assumption|].
    split; [assumption|]. split.
    { intros rx x. rewrite HB. reflexivity. }
    intros d' j x Hne Hx. split; [by rewrite Hother|].
    exact (Hsame d' j x Hx Hne).
  - (* the first free entry was taken *)
    destruct (findFreeEntry_Some _ _ Hfe) as (_ & (eg & Heg & Hgap) & Hbefore).
    assert (e0 = eg) by congruence. subst e0.
    split; [intros Hc; contradiction|]. split.
    { intros j x Hj Hx. split; [by apply (Hbefore j x)|].
      intros Hc.
      rewrite FindById_visible in Hnone
        by (rewrite well_formed_length; [lia|assumption]).
      destruct (list_find _ _) as [[i0 x0]|] eqn:Hlf; [discriminate|].
      apply list_find_None in Hlf. rewrite Forall_forall in Hlf.
      apply (Hlf x); [|assumption].
      rewrite (visible_split (selMap d st) i eg Hilt Heg Hbefore).
      apply elem_of_app. left. apply list_elem_of_lookup. exists j.
      rewrite lookup_take_lt by lia. assumption. }
    split; [assumption|].
    assert (Hcane : canId e = stored_canId id).
    { rewrite selMap_setMap, list_lookup_alter_eq, Heg in Hi. simpl in Hi.
      injection Hi as <-. reflexivity. }
    split; [split; [intros Hc; contradiction|intros _; congruence]|].
    split; [assumption|]. split; [assumption|]. split.
    { intros rx x. rewrite HB, Hbind1.
      rewrite (bindings_gap st eg Hwf Hgap).
      rewrite bindings_gap; [reflexivity|assumption|].
      rewrite selMap_setMap, list_lookup_alter_eq, Heg in Hi. simpl in Hi.
      injection Hi as <-. simpl. assumption. }
    intros d' j x Hne Hx.
    assert (Hx1 : selMap d' (setMap d (alter (set_canId (stored_canId id)) i (selMap d st)) st) !! j
                  = Some x).
    { destruct (MapSel_cases d d') as [->|Hd].
      - rewrite selMap_setMap, list_lookup_alter_ne by congruence. assumption.
      - rewrite selMap_setMap_other by congruence. assumption. }
    split; [by rewrite Hother|].
    etrans; [exact (Hsame d' j x Hx1 Hne)|apply Hbind1].
Qed.

Lemma items_of_app rx e (L1 L2 : list (nat * CANPOS)) :
  items_of rx e (L1 ++ L2) = items_of rx e L1 ++ items_of rx e L2.
Proof. unfold items_of. apply fmap_app. Qed.

Lemma items_of_params rx rx' e e' (L : list (nat * CANPOS)) (param : Z) :
  Forall (fun it => item_param it <> param) (items_of rx e L) ->
  Forall (fun it => item_param it <> param) (items_of rx' e' L).
Proof.
  unfold items_of. rewrite !Forall_fmap. intros H.
  eapply Forall_impl; [exact H|]. intros ic Hic. exact Hic.
Qed.

Lemma list_find_first_after (param : Z) (l1 l2 : list MapItem) (x : MapItem) :
  Forall (fun it => item_param it <> param) l1 -> item_param x = param ->
  snd <$> list_find (fun it => item_param it = param) (l1 ++ x :: l2) = Some x.
Proof.
  intros H1 Hx. rewrite list_find_app_items.
  rewrite (list_find_none_items param l1 H1). simpl.
  rewrite decide_True by assumption. reflexivity.
Qed.

Lemma list_find_some_after (param : Z) (l1 l2 : list MapItem) (x : MapItem) :
  item_param x = param ->
  exists y, snd <$> list_find (fun it => item_param it = param) (l1 ++ x :: l2) = Some y.
Proof.
  intros Hx. rewrite list_find_app_items.
  destruct (snd <$> list_find _ l1) as [y|]; [eauto|].
  simpl. rewrite decide_True by assumption. eauto.
Qed.

Lemma FindMap_none_items (st : CanMap store) param :
  well_formed st -> FindMap st param = Some None ->
  Forall (fun it => item_param it <> param)
         (items_of_table SendMap st ++ items_of_table RecvMap st).
Proof.
  intros Hwf Hfind.
  rewrite (FindMap_first_item st param _ (IterateCanMap_items st Hwf)) in Hfind.
  destruct (list_find _ _) as [[i x]|] eqn:E; [discriminate|].
  by apply list_find_None in E.
Qed.

(** the items of the table [Add] has linked a binding in: the items that
    were visited before it, the new one, and what follows *)
Lemma Add_items d (st : CanMap store) param id ofs len g off st' n :
  sound st ->
  Add d st param id ofs len g off = Some (st', Count n) ->
  exists P R id',
    items_of_table d st'
    = P ++ (param, id', ofs, len, g, match d with SendMap => false | RecvMap => true end) :: R /\
    ((exists e, e ∈ visible (selMap d st) /\ canId e = id) ->
     id' = id /\ items_of_table d st = P ++ R) /\
    ((forall e, e ∈ visible (selMap d st) -> canId e <> id) ->
     id' = stored_canId id /\ items_of_table d st = P) /\
    (items_of_table d st = P ++ R \/ items_of_table d st = P) /\
    (forall d', d' <> d -> items_of_table d' st' = items_of_table d' st).
Proof.
  intros Hsound Hadd.
  destruct (Add_success d st param id ofs len g off st' n Hsound Hadd)
    as (Hsound' & _ & i & e0 & e' & B & Hi & He0 & Hfound & Hbefore & He' & Hcan' & Hfirst'
        & Hb' & HB & Hother).
  pose proof (sound_well_formed st Hsound) as Hwf.
  pose proof (sound_well_formed st' Hsound') as Hwf'.
  set (rx := match d with SendMap => false | RecvMap => true end).
  assert (Htake : take i (selMap d st') = take i (selMap d st)).
  { apply take_same_prefix; try (rewrite well_formed_length by assumption; lia).
    intros j Hj. destruct (lookup_lt_is_Some_2 (selMap d st) j) as [x Hx].
    { rewrite well_formed_length by assumption. lia. }
    rewrite Hx. apply (Hother d j x); [intros [= ->]; lia|assumption]. }
  assert (Hpre' : forall j x, (j < i)%nat -> selMap d st' !! j = Some x ->
                              first x <> MAX_ITEMS).
  { intros j x Hj Hx.
    assert (Hx0 : selMap d st !! j = Some x).
    { rewrite <- (lookup_take_lt _ i j Hj), <- Htake, lookup_take_lt; assumption. }
    apply (Hbefore j x Hj Hx0). }
  assert (Hpre : concat ((fun e => items_of rx e (bindings st' e)) <$> take i (selMap d st'))
                 = concat ((fun e => items_of rx e (bindings st e)) <$> take i (selMap d st))).
  { rewrite Htake. f_equal. apply fmap_ext_elem. intros x Hx.
    apply list_elem_of_lookup in Hx as [j Hj].
    apply lookup_take_Some in Hj as [Hj Hji].
    destruct (Hother d j x) as [_ ->]; [intros [= ->]; lia|assumption|reflexivity]. }
  pose proof (visible_split (selMap d st) i e0 Hi He0
                (fun j x Hj Hx => proj1 (Hbefore j x Hj Hx))) as Hvis.
  assert (Hold : items_of_table d st
                 = concat ((fun e => items_of rx e (bindings st e)) <$> take i (selMap d st))
                   ++ (if (first e0 =? MAX_ITEMS)%nat then []
                       else items_of rx e0 (bindings st e0)
                            ++ concat ((fun e => items_of rx e (bindings st e)) <$>
                                 visible_from (take (MAX_MESSAGES - S i)
                                                    (drop (S i) (selMap d st)))))).
  { unfold items_of_table. fold rx. rewrite Hvis, fmap_app, concat_app.
    destruct (first e0 =? MAX_ITEMS)%nat; reflexivity. }
  assert (Hgap : first e0 = MAX_ITEMS ->
                 forall e, e ∈ visible (selMap d st) -> canId e <> id).
  { intros Hg e He. rewrite Hvis in He. apply Nat.eqb_eq in Hg. rewrite Hg, app_nil_r in He.
    apply list_elem_of_lookup in He as [j Hj].
    apply lookup_take_Some in Hj as [Hj Hji]. apply (Hbefore j e Hji Hj). }
  assert (Hhit : first e0 <> MAX_ITEMS ->
                 e' = e0 /\ e0 ∈ visible (selMap d st) /\
                 concat ((fun e => items_of rx e (bindings st' e)) <$>
                    visible_from (take (MAX_MESSAGES - S i) (drop (S i) (selMap d st'))))
                 = concat ((fun e => items_of rx e (bindings st e)) <$>
                    visible_from (take (MAX_MESSAGES - S i) (drop (S i) (selMap d st))))).
  { intros Hne. destruct (Hfound Hne) as [_ Hsame].
    rewrite Hsame in He'. split; [congruence|]. split.
    - rewrite Hvis. apply Nat.eqb_neq in Hne. rewrite Hne.
      apply elem_of_app. right. by left.
    - rewrite Hsame. f_equal. apply fmap_ext_elem. intros x Hx.
      apply visible_from_elem, elem_of_take_drop in Hx as (j & Hj & Hx).
      destruct (Hother d j x) as [_ ->]; [intros [= ->]; lia|assumption|reflexivity]. }
  unfold items_of_table at 1. fold rx.
  rewrite (visible_split (selMap d st') i e' Hi He' Hpre').
  apply Nat.eqb_neq in Hfirst' as Hf'. rewrite Hf'.
  rewrite fmap_app, fmap_cons, concat_app. simpl concat.
  rewrite Hb', items_of_app.
  match goal with |- context [items_of rx e' [?b]] =>
    replace (items_of rx e' [b]) with [((param, canId e', ofs, len, g, rx) : MapItem)]
      by reflexivity end.
  rewrite <- !app_assoc. simpl app. rewrite Hpre, HB.
  eexists (concat ((fun e => items_of rx e (bindings st e)) <$> take i (selMap d st))
           ++ items_of rx e' (bindings st e0)), _, (canId e').
  split; [rewrite <- app_assoc; reflexivity|].
  assert (Hcases : (first e0 = MAX_ITEMS /\
                    items_of_table d st
                    = concat ((fun e => items_of rx e (bindings st e)) <$> take i (selMap d st))
                      ++ items_of rx e' (bindings st e0)) \/
                   (first e0 <> MAX_ITEMS /\
                    items_of_table d st
                    = (concat ((fun e => items_of rx e (bindings st e)) <$>
                                 take i (selMap d st))
                       ++ items_of rx e' (bindings st e0))
                      ++ concat ((fun e => items_of rx e (bindings st' e)) <$>
                           visible_from (take (MAX_MESSAGES - S i)
                                              (drop (S i) (selMap d st')))))).
  { destruct (first e0 =? MAX_ITEMS)%nat eqn:Hg.
    - left. apply Nat.eqb_eq in Hg. split; [assumption|].
      rewrite Hold, (bindings_gap st e0 Hwf Hg). reflexivity.
    - right. apply Nat.eqb_neq in Hg. split; [assumption|].
      destruct (Hhit Hg) as (-> & _ & ->). rewrite Hold, <- app_assoc. reflexivity. }
  split; [|split; [|split]].
  - intros (e & He & Hid). destruct Hcases as [[Hg _]|[Hg ->]].
    + destruct (Hgap Hg e He Hid).
    + split; [exact (proj1 Hcan' Hg)|reflexivity].
  - intros Hno. destruct Hcases as [[Hg ->]|[Hg _]].
    + split; [exact (proj2 Hcan' Hg)|reflexivity].
    + destruct (Hhit Hg) as (<- & Hin & _). destruct (Hno e' Hin (proj1 Hcan' Hg)).
  - destruct Hcases as [[_ ->]|[_ ->]]; [by right|by left].
  - intros d' Hd'. apply items_of_table_same; try assumption.
    intros j x Hx. apply Hother; [congruence|assumption].
Qed.

Lemma Forall_either {A : Type} (Q : A -> Prop) (l P R : list A) :
  l = P ++ R \/ l = P -> Forall Q l -> Forall Q P.
Proof.
  intros [->| ->] H; [|assumption]. by apply Forall_app in H as [H _].
Qed.

Lemma FindMap_setHw h (st : CanMap store) param :
  FindMap (setHw h st) param = FindMap st param.
Proof. reflexivity. Qed.

Lemma Add_then_FindMap d (st : CanMap store) param id ofs len g off st' n :
  sound st ->
  Add d st param id ofs len g off = Some (st', Count n) ->
  exists info,
    FindMap st' param = Some (Some info) /\
    (FindMap st param = Some None ->
     mi_offset info = ofs /\ mi_length info = len /\ mi_gain info = g /\
     mi_rx info = match d with SendMap => false | RecvMap => true end /\
     ((exists e, e ∈ visible (selMap d st) /\ canId e = id) -> mi_canId info = id) /\
     ((forall e, e ∈ visible (selMap d st) -> canId e <> id) ->
      mi_canId info = stored_canId id)).
Proof.
  intros Hsound Hadd.
  pose proof (Add_sound _ _ _ _ _ _ _ _ _ _ Hsound Hadd) as Hsound'.
  pose proof (sound_well_formed st Hsound) as Hwf.
  pose proof (sound_well_formed st' Hsound') as Hwf'.
  destruct (Add_items d st param id ofs len g off st' n Hsound Hadd)
    as (P & R & id' & Hitems & Hhit & Hnew & HP & Hoth).
  rewrite (FindMap_first_item st' param _ (IterateCanMap_items st' Hwf')).
  set (new := (param, id', ofs, len, g, match d with SendMap => false | RecvMap => true end)
              : MapItem) in *.
  assert (Hfacts : forall y, y = new ->
            mi_offset (item_info y) = ofs /\ mi_length (item_info y) = len /\
            mi_gain (item_info y) = g /\
            mi_rx (item_info y) = match d with SendMap => false | RecvMap => true end /\
            ((exists e, e ∈ visible (selMap d st) /\ canId e = id) ->
             mi_canId (item_info y) = id) /\
            ((forall e, e ∈ visible (selMap d st) -> canId e <> id) ->
             mi_canId (item_info y) = stored_canId id)).
  { intros y ->. repeat (split; [reflexivity|]). split.
    - intros H. exact (proj1 (Hhit H)).
    - intros H. exact (proj1 (Hnew H)). }
  destruct d.
  - rewrite Hitems, <- app_assoc. simpl app.
    destruct (list_find_some_after param P (R ++ items_of_table RecvMap st') new eq_refl)
      as [y Hy].
    exists (item_info y).
    split; [exact (f_equal (fun o => Some (item_info <$> o)) Hy)|].
    intros Hnone. apply FindMap_none_items in Hnone; [|assumption].
    apply Forall_app in Hnone as [Hs _].
    rewrite (list_find_first_after param P _ new (Forall_either _ _ _ _ HP Hs) eq_refl) in Hy.
    injection Hy as <-. by apply Hfacts.
  - rewrite (Hoth SendMap) by discriminate. rewrite Hitems, app_assoc.
    destruct (list_find_some_after param (items_of_table SendMap st ++ P) R new eq_refl)
      as [y Hy].
    exists (item_info y).
    split; [exact (f_equal (fun o => Some (item_info <$> o)) Hy)|].
    intros Hnone. apply FindMap_none_items in Hnone; [|assumption].
    apply Forall_app in Hnone as [Hs Hr].
    rewrite (list_find_first_after param _ _ new) in Hy;
      [|apply Forall_app; split; [assumption|apply (Forall_either _ _ _ _ HP Hr)]|reflexivity].
    injection Hy as <-. by apply Hfacts.
Qed.

(** X19: a parameter that [AddSend] or [AddRecv] has mapped is found.  On
    tables that satisfy the invariant and share no slot between chains,
    when the add returns a count, [FindMap] of the parameter returns
    [true] afterwards; and when [FindMap] did not find the parameter
    before, what it returns now is the new binding: the bit offset, the
    width and the gain of the call, [rx] telling the direction, and the
    identifier of the entry the binding went to.  That is the identifier
    of the call when a visited message of the table had it, and the
    identifier as a new entry stores it otherwise: the identifier of the
    call with [CAN_EXT], its low 16 bits without. *)
Theorem X19_FindMap_finds_the_parameter_that_was_added (st : CanMap store)
    (rx : bool) param id ofs len g off st' n :
  sound st ->
  (if rx then AddRecv st param id ofs len g off
   else AddSend st param id ofs len g off) = Some (st', Count n) ->
  let t := selMap (if rx then RecvMap else SendMap) st in
  exists info,
    FindMap st' param = Some (Some info) /\
    (FindMap st param = Some None ->
     mi_offset info = ofs /\ mi_length info = len /\ mi_gain info = g /\
     mi_rx info = rx /\
     ((exists e, e ∈ visible t /\ canId e = id) -> mi_canId info = id) /\
     ((forall e, e ∈ visible t -> canId e <> id) ->
      mi_canId info = if CAN_EXT then id else Z.land id 0xFFFF)).
Proof.
  intros Hsound Hadd t. destruct rx.
  - unfold AddRecv in Hadd.
    destruct (Add RecvMap st param id ofs len g off) as [[st1 r]|] eqn:E; [|discriminate].
    simpl in Hadd. injection Hadd as <- ->.
    rewrite FindMap_setHw. eapply (Add_then_FindMap RecvMap); eassumption.
  - eapply (Add_then_FindMap SendMap); eassumption.
Qed.


End AddSuccess.

Section SaveLemmas.
Context {cfg : BuildConfig} {store : Type} {PS : ParamStore store}.

Lemma links_alter (f : CANPOS -> CANPOS) k (p : list CANPOS) :
  (forall c, next (f c) = next c) -> next <$> alter f k p = next <$> p.
Proof.
  intros Hf. apply list_eq. intros j. rewrite !list_lookup_fmap.
  destruct (decide (k = j)) as [->|Hne].
  - rewrite list_lookup_alter_eq. destruct (p !! j); simpl; [f_equal; apply Hf|done].
  - by rewrite list_lookup_alter_ne.
Qed.

Lemma links_relabel r ks (p : list CANPOS) : next <$> relabel r ks p = next <$> p.
Proof.
  revert p. unfold relabel. induction ks as [|k ks IH]; intros p; simpl; [done|].
  rewrite IH. by apply links_alter.
Qed.

Lemma links_lookup (p p' : list CANPOS) k c :
  next <$> p' = next <$> p -> p !! k = Some c ->
  exists c', p' !! k = Some c' /\ next c' = next c.
Proof.
  intros H Hk.
  assert (H' : (next <$> p') !! k = Some (next c)).
  { rewrite H, list_lookup_fmap, Hk. done. }
  rewrite list_lookup_fmap in H'. destruct (p' !! k) as [c'|]; [|discriminate].
  simpl in H'. injection H' as H'. eauto.
Qed.

Lemma links_at_unset (p p' : list CANPOS) i :
  next <$> p' = next <$> p -> at_unset p i -> at_unset p' i.
Proof.
  intros H (c & Hc & Hn). destruct (links_lookup p p' i c H Hc) as (c' & Hc' & Hn').
  exists c'. split; [assumption|congruence].
Qed.

(** pools with the same links have the same chains, slot by slot *)
Lemma links_chain (p p' : list CANPOS) i L :
  next <$> p' = next <$> p -> chain p i L ->
  exists L', chain p' i L' /\ L'.*1 = L.*1.
Proof.
  intros H Hch. unfold chain in *.
  induction Hch as [i Hs|i c l Hs Hc Hp IH].
  - exists []. split; [|reflexivity]. constructor. by apply (links_at_unset p).
  - destruct IH as (l' & Hl' & Hn).
    destruct (links_lookup p p' i c H Hc) as (c' & Hc' & Hn').
    exists ((i, c') :: l'). split; [|by rewrite !fmap_cons, Hn].
    constructor; [|assumption|by rewrite Hn'].
    intros Hu. apply Hs. by apply (links_at_unset p').
Qed.

Lemma chain_alter (f : CANPOS -> CANPOS) k (p : list CANPOS) j l :
  (forall c, next (f c) = next c) -> chain p j l -> k ∉ l.*1 ->
  chain (alter f k p) j l.
Proof.
  intros Hf Hch. unfold chain in *.
  induction Hch as [i Hs|i c l Hs Hc Hp IH]; intros Hk.
  - constructor. apply (links_at_unset p); [by apply links_alter|assumption].
  - rewrite fmap_cons in Hk. apply not_elem_of_cons in Hk as [Hki Hkl].
    constructor; [| |by apply IH].
    + intros Hu. apply Hs.
      apply (links_at_unset (alter f k p)); [symmetry; by apply links_alter|assumption].
    + rewrite list_lookup_alter_ne by (simpl in Hki; congruence). assumption.
Qed.

Lemma setPos_same (s : CanMap store) : setPos (canPosMap s) s = s.
Proof. by destruct s. Qed.

Lemma setPos_setPos p q (s : CanMap store) : setPos p (setPos q s) = setPos p s.
Proof. reflexivity. Qed.

Lemma relabel_cons r k ks (p : list CANPOS) :
  relabel r (k :: ks) p
  = relabel r ks (alter (fun c => set_mapParam (r (mapParam c)) c) k p).
Proof. reflexivity. Qed.

Lemma relabel_app r ks1 ks2 (p : list CANPOS) :
  relabel r (ks1 ++ ks2) p = relabel r ks2 (relabel r ks1 p).
Proof. unfold relabel. apply foldl_app. Qed.

(** the inner loop of the two replacements, along one chain *)
Lemma relabel_chain_loop (r : Z -> Z)
    (body : nat -> CANPOS -> CanMap store -> option (Flow (CanMap store) unit)) :
  (forall c pos s, body c pos s
     = Some (Next (setPos (alter (set_mapParam (r (mapParam pos))) c (canPosMap s)) s))) ->
  forall L (s : CanMap store) i fuel,
    chain (canPosMap s) i L -> (length L < fuel)%nat ->
    forEachPosMap_loop (fun s : CanMap store => canPosMap s) body fuel i s
    = Some (Next (setPos (relabel r L.*1 (canPosMap s)) s)).
Proof.
  intros Hbody. induction L as [|[k c] l IH]; intros s i fuel Hch Hfuel;
    (destruct fuel as [|fuel]; [simpl in Hfuel; lia|]).
  - inversion Hch as [i0 (c & Hc & Hn)|]; subst. simpl. rewrite Hc, Hn, Nat.eqb_refl.
    by rewrite setPos_same.
  - pose proof (path_NoDup _ _ _ _ Hch) as Hnd.
    inversion Hch as [|i0 c0 l0 Hs Hc Hrest]; subst. simpl.
    rewrite Hc.
    destruct (next c =? ITEM_UNSET)%nat eqn:E.
    { exfalso. apply Hs. exists c. split; [assumption|]. by apply Nat.eqb_eq. }
    rewrite Hbody. simpl. rewrite list_lookup_alter_eq, Hc. simpl.
    rewrite fmap_cons in Hnd. apply NoDup_cons in Hnd as [Hk _].
    rewrite (list_alter_ext (set_mapParam (r (mapParam c)))
               (fun x => set_mapParam (r (mapParam x)) x) (canPosMap s) (canPosMap s) k)
      by (try reflexivity; intros x Hx; congruence).
    rewrite IH.
    + reflexivity.
    + simpl. apply chain_alter; [reflexivity|assumption|assumption].
    + simpl in Hfuel. lia.
Qed.

(** the two loops of the replacements, on a state whose tables and links
    are those of the well-formed [st0] *)
Lemma relabel_table_loop (r : Z -> Z) d (st0 : CanMap store)
    (body : nat -> CANPOS -> CanMap store -> option (Flow (CanMap store) unit)) :
  (forall c pos s, body c pos s
     = Some (Next (setPos (alter (set_mapParam (r (mapParam pos))) c (canPosMap s)) s))) ->
  well_formed st0 ->
  forall n c (s : CanMap store),
    selMap d s = selMap d st0 ->
    next <$> canPosMap s = next <$> canPosMap st0 ->
    (n <= length (drop c (selMap d st0)))%nat ->
    forEachCanMap_loop (R := unit) (fun s : CanMap store => selMap d s)
      (fun _ curMap s => forEachPosMap (fun s : CanMap store => canPosMap s) body curMap s)
      n c s
    = Some (Next (setPos
        (relabel r (concat ((fun e => (bindings st0 e).*1) <$>
                              visible_from (take n (drop c (selMap d st0)))))
                 (canPosMap s)) s)).
Proof.
  intros Hbody Hwf. induction n as [|n IH]; intros c s Hsel Hlinks Hn.
  { simpl. by rewrite setPos_same. }
  destruct (drop c (selMap d st0)) as [|e rest] eqn:Hd; [simpl in Hn; lia|].
  apply drop_lookup_cons in Hd as Hd'. destruct Hd' as [Hc Hr].
  simpl. rewrite Hsel, Hc.
  destruct (first e =? MAX_ITEMS)%nat eqn:E; [simpl; by rewrite setPos_same|].
  destruct (well_formed_bindings d st0 c e Hwf Hc) as [Hch _].
  destruct (links_chain _ (canPosMap s) _ _ Hlinks Hch) as (L' & HL' & Hnodes).
  unfold forEachPosMap.
  rewrite (relabel_chain_loop r body Hbody L' s (first e) chain_fuel HL').
  2:{ apply path_length in HL'. pose proof Hwf as (_ & (_ & _ & Hlen & _) & _).
      apply (f_equal length) in Hlinks. rewrite !length_fmap in Hlinks.
      unfold chain_fuel. lia. }
  rewrite IH.
  - simpl. rewrite Hr, relabel_app, Hnodes. reflexivity.
  - assumption.
  - simpl. by rewrite links_relabel.
  - rewrite Hr. simpl in Hn. lia.
Qed.

Lemma relabel_table (r : Z -> Z) d (st0 s : CanMap store)
    (body : nat -> CANPOS -> CanMap store -> option (Flow (CanMap store) unit)) :
  (forall c pos s, body c pos s
     = Some (Next (setPos (alter (set_mapParam (r (mapParam pos))) c (canPosMap s)) s))) ->
  well_formed st0 ->
  selMap d s = selMap d st0 ->
  next <$> canPosMap s = next <$> canPosMap st0 ->
  forEachCanMap (R := unit) (fun s : CanMap store => selMap d s)
    (fun _ curMap s => forEachPosMap (fun s : CanMap store => canPosMap s) body curMap s) s
  = Some (Next (setPos (relabel r (table_nodes d st0) (canPosMap s)) s)).
Proof.
  intros Hbody Hwf Hsel Hlinks. unfold forEachCanMap.
  rewrite (relabel_table_loop r d st0 body Hbody Hwf).
  - rewrite drop_0. reflexivity.
  - assumption.
  - assumption.
  - rewrite drop_0, well_formed_length by assumption. lia.
Qed.

Lemma ReplaceParamEnumByUid_run d (st0 s : CanMap store) :
  well_formed st0 -> selMap d s = selMap d st0 ->
  next <$> canPosMap s = next <$> canPosMap st0 ->
  ReplaceParamEnumByUid d s
  = Some (setPos (relabel (fun p => Z.land (Param_attr_id p) 0xFFFF)
                          (table_nodes d st0) (canPosMap s)) s).
Proof.
  intros Hwf Hsel Hlinks. unfold ReplaceParamEnumByUid.
  rewrite (relabel_table (fun p => Z.land (Param_attr_id p) 0xFFFF) d st0 s);
    try assumption; reflexivity.
Qed.

Lemma ReplaceParamUidByEnum_run d (st0 s : CanMap store) :
  well_formed st0 -> selMap d s = selMap d st0 ->
  next <$> canPosMap s = next <$> canPosMap st0 ->
  ReplaceParamUidByEnum d s
  = Some (setPos (relabel Param_NumFromId (table_nodes d st0) (canPosMap s)) s).
Proof.
  intros Hwf Hsel Hlinks. unfold ReplaceParamUidByEnum.
  rewrite (relabel_table Param_NumFromId d st0 s); try assumption; reflexivity.
Qed.

Lemma relabel_lookup r ks (p : list CANPOS) k :
  NoDup ks ->
  relabel r ks p !! k
  = (if bool_decide (k ∈ ks) then fun c => set_mapParam (r (mapParam c)) c else id)
      <$> p !! k.
Proof.
  revert p. induction ks as [|a ks IH]; intros p Hnd.
  - rewrite bool_decide_eq_false_2 by apply not_elem_of_nil.
    unfold relabel. simpl. by destruct (p !! k).
  - apply NoDup_cons in Hnd as [Ha Hnd]. rewrite relabel_cons, IH by assumption.
    destruct (decide (k = a)) as [->|Hne].
    + rewrite list_lookup_alter_eq.
      rewrite (bool_decide_eq_false_2 _ Ha).
      rewrite bool_decide_eq_true_2 by (by left).
      by destruct (p !! a).
    + rewrite list_lookup_alter_ne by congruence.
      destruct (bool_decide (k ∈ ks)) eqn:Hin.
      * apply bool_decide_eq_true_1 in Hin.
        rewrite bool_decide_eq_true_2 by (by right). reflexivity.
      * apply bool_decide_eq_false_1 in Hin.
        rewrite bool_decide_eq_false_2; [reflexivity|].
        intros H. apply elem_of_cons in H as [H|H]; auto.
Qed.

(** the four replacements of [Save], on slots that are passed once *)
Lemma relabel_there_and_back r1 r2 NS NR (p : list CANPOS) :
  NoDup (NS ++ NR) ->
  relabel r2 NR (relabel r2 NS (relabel r1 NR (relabel r1 NS p)))
  = relabel (fun x => r2 (r1 x)) (NS ++ NR) p.
Proof.
  intros Hnd. pose proof Hnd as Hnd'.
  apply NoDup_app in Hnd' as (HS & Hdis & HR).
  apply list_eq. intros k.
  rewrite !relabel_lookup by assumption.
  destruct (p !! k) as [c|]; [|reflexivity]. simpl.
  destruct (decide (k ∈ NS)) as [Hs|Hs].
  - assert (Hr : k ∉ NR) by (by apply Hdis).
    rewrite (bool_decide_eq_true_2 _ Hs), (bool_decide_eq_false_2 _ Hr).
    rewrite bool_decide_eq_true_2 by (apply elem_of_app; by left).
    reflexivity.
  - rewrite (bool_decide_eq_false_2 _ Hs).
    destruct (decide (k ∈ NR)) as [Hr|Hr].
    + rewrite (bool_decide_eq_true_2 _ Hr).
      rewrite bool_decide_eq_true_2 by (apply elem_of_app; by right).
      reflexivity.
    + rewrite (bool_decide_eq_false_2 _ Hr).
      rewrite bool_decide_eq_false_2; [reflexivity|].
      intros H. apply elem_of_app in H as [H|H]; auto.
Qed.

Lemma relabel_fixed r ks (p : list CANPOS) :
  (forall k c, k ∈ ks -> p !! k = Some c -> r (mapParam c) = mapParam c) ->
  relabel r ks p = p.
Proof.
  induction ks as [|a ks IH]; intros Hfix; [reflexivity|].
  rewrite relabel_cons.
  assert (Ha : alter (fun c => set_mapParam (r (mapParam c)) c) a p = p).
  { apply list_eq. intros j. destruct (decide (a = j)) as [->|Hne].
    - rewrite list_lookup_alter_eq. destruct (p !! j) as [c|] eqn:Hc; [|reflexivity].
      simpl. f_equal. rewrite (Hfix j c) by (by left || assumption).
      by destruct c.
    - by rewrite list_lookup_alter_ne. }
  rewrite Ha. apply IH. intros k c Hk. apply Hfix. by right.
Qed.

Lemma elem_of_concat {A : Type} (ls : list (list A)) (k : A) :
  k ∈ concat ls -> exists l, k ∈ l /\ l ∈ ls.
Proof.
  induction ls as [|l ls IH]; simpl; intros Hin; [by apply elem_of_nil in Hin|].
  apply elem_of_app in Hin as [Hin|Hin].
  - exists l. split; [assumption|by left].
  - destruct (IH Hin) as (l' & Hk & Hl'). exists l'. split; [assumption|by right].
Qed.

Lemma NoDup_concat_apart (ls : list (list nat)) :
  (forall i l, ls !! i = Some l -> NoDup l) ->
  (forall i j l l', i <> j -> ls !! i = Some l -> ls !! j = Some l' ->
     forall k, k ∈ l -> k ∉ l') ->
  NoDup (concat ls).
Proof.
  induction ls as [|l ls IH]; intros Hnd Hap; [constructor|].
  simpl. apply NoDup_app. split; [apply (Hnd 0%nat); reflexivity|]. split.
  - intros k Hk Hin. apply elem_of_concat in Hin as (l' & Hkl' & Hl').
    apply list_elem_of_lookup in Hl' as [j Hj].
    exact (Hap 0%nat (S j) l l' ltac:(lia) eq_refl Hj k Hk Hkl').
  - apply IH.
    + intros i l0 Hi. apply (Hnd (S i)). exact Hi.
    + intros i j l0 l' Hij Hi Hj. apply (Hap (S i) (S j)); [lia|exact Hi|exact Hj].
Qed.

Lemma table_nodes_elem d (st : CanMap store) k :
  k ∈ table_nodes d st ->
  exists j e, selMap d st !! j = Some e /\ e ∈ visible (selMap d st) /\
              k ∈ (bindings st e).*1.
Proof.
  unfold table_nodes. intros Hin.
  apply elem_of_concat in Hin as (l & Hk & Hl).
  apply list_elem_of_fmap in Hl as (e & -> & He).
  pose proof He as He'. apply list_elem_of_lookup in He' as [j Hj].
  apply visible_lookup in Hj as (Hj & _). eauto.
Qed.

Lemma table_nodes_NoDup (st : CanMap store) :
  sound st -> NoDup (table_nodes SendMap st ++ table_nodes RecvMap st).
Proof.
  intros [Hwf Hsep].
  assert (Hone : forall d, NoDup (table_nodes d st)).
  { intros d. unfold table_nodes. apply NoDup_concat_apart.
    - intros i l Hi. rewrite list_lookup_fmap in Hi.
      destruct (visible (selMap d st) !! i) as [e|] eqn:He; [|discriminate].
      injection Hi as <-. apply visible_lookup in He as (He & _).
      destruct (well_formed_bindings d st i e Hwf He) as [Hch _].
      exact (path_NoDup _ _ _ _ Hch).
    - intros i j l l' Hij Hi Hj k Hk. rewrite list_lookup_fmap in Hi, Hj.
      destruct (visible (selMap d st) !! i) as [e|] eqn:He; [|discriminate].
      destruct (visible (selMap d st) !! j) as [e'|] eqn:He'; [|discriminate].
      injection Hi as <-. injection Hj as <-.
      apply visible_lookup in He as (He & _). apply visible_lookup in He' as (He' & _).
      apply (Hsep d i e d j e' He He'); [congruence|assumption]. }
  apply NoDup_app. split; [apply Hone|]. split; [|apply Hone].
  intros k Hs Hr.
  apply table_nodes_elem in Hs as (j & e & He & _ & Hk).
  apply table_nodes_elem in Hr as (j' & e' & He' & _ & Hk').
  exact (Hsep SendMap j e RecvMap j' e' He He' ltac:(congruence) k Hk Hk').
Qed.

Lemma links_path_at_end (p p' : list CANPOS) i L :
  next <$> p' = next <$> p -> path p at_end i L ->
  exists L', path p' at_end i L' /\ L'.*1 = L.*1.
Proof.
  intros H Hp. induction Hp as [i Hs|i c l Hs Hc Hp IH].
  - exists []. split; [by constructor|reflexivity].
  - destruct IH as (l' & Hl' & Hn).
    destruct (links_lookup p p' i c H Hc) as (c' & Hc' & Hn').
    exists ((i, c') :: l'). split; [|by rewrite !fmap_cons, Hn].
    constructor; [assumption|assumption|by rewrite Hn'].
Qed.

Lemma well_formed_same_links (st : CanMap store) p' :
  next <$> p' = next <$> canPosMap st -> well_formed st -> well_formed (setPos p' st).
Proof.
  intros Hlinks (Hmax & (Hs & Hr & Hp & Hid) & Hends & Hunset).
  split; [assumption|]. split; [|split].
  - split; [assumption|]. split; [assumption|]. split; [|assumption]. simpl.
    apply (f_equal length) in Hlinks. rewrite !length_fmap in Hlinks. lia.
  - intros d j e He. rewrite selMap_setPos in He.
    destruct (Hends d j e He) as [l Hl].
    destruct (links_path_at_end _ p' _ _ Hlinks Hl) as (l' & Hl' & _). eauto.
  - by apply (links_at_unset (canPosMap st)).
Qed.

(** a chain whose slots have all gone through [r] *)
Lemma chain_relabel r N (p : list CANPOS) i L :
  NoDup N -> chain p i L -> (forall k, k ∈ L.*1 -> k ∈ N) ->
  chain (relabel r N p) i ((fun ic => (ic.1, set_mapParam (r (mapParam ic.2)) ic.2)) <$> L).
Proof.
  intros Hnd Hch. unfold chain in *.
  induction Hch as [i Hs|i c l Hs Hc Hp IH]; intros Hin.
  - constructor. apply (links_at_unset p); [apply links_relabel|assumption].
  - rewrite fmap_cons. constructor.
    + intros Hu. apply Hs.
      apply (links_at_unset (relabel r N p)); [symmetry; apply links_relabel|assumption].
    + simpl. rewrite relabel_lookup by assumption.
      rewrite bool_decide_eq_true_2 by (apply Hin; simpl; by left).
      rewrite Hc. reflexivity.
    + simpl. apply IH. intros k Hk. apply Hin. simpl. by right.
Qed.

Lemma items_of_relabel r rx e (L : list (nat * CANPOS)) :
  items_of rx e ((fun ic => (ic.1, set_mapParam (r (mapParam ic.2)) ic.2)) <$> L)
  = item_relabel r <$> items_of rx e L.
Proof.
  unfold items_of. rewrite <- !list_fmap_compose. apply list_fmap_ext.
  intros j [k c] _. reflexivity.
Qed.

Lemma concat_fmap_fmap {A B C : Type} (f : B -> C) (F : A -> list B) (V : list A) :
  concat ((fun e => f <$> F e) <$> V) = f <$> concat (F <$> V).
Proof.
  induction V as [|e V IH]; [reflexivity|].
  rewrite !fmap_cons. simpl. rewrite fmap_app, IH. reflexivity.
Qed.

Lemma elem_of_concat_2 {A : Type} (ls : list (list A)) (l : list A) (k : A) :
  l ∈ ls -> k ∈ l -> k ∈ concat ls.
Proof.
  induction ls as [|l0 ls IH]; intros Hl Hk; [by apply elem_of_nil in Hl|].
  simpl. apply elem_of_app. apply elem_of_cons in Hl as [->|Hl]; [by left|right; auto].
Qed.

Lemma table_nodes_intro d (st : CanMap store) e k :
  e ∈ visible (selMap d st) -> k ∈ (bindings st e).*1 -> k ∈ table_nodes d st.
Proof.
  intros He Hk. unfold table_nodes.
  apply (elem_of_concat_2 _ ((bindings st e).*1)); [|assumption].
  apply list_elem_of_fmap. exists e. auto.
Qed.

(** the items of a table once the slots of the visited bindings have gone
    through [r] *)
Lemma items_of_table_relabel r d (st : CanMap store) N :
  well_formed st -> NoDup N ->
  (forall k, k ∈ table_nodes d st -> k ∈ N) ->
  items_of_table d (setPos (relabel r N (canPosMap st)) st)
  = item_relabel r <$> items_of_table d st.
Proof.
  intros Hwf Hnd HN. unfold items_of_table. rewrite selMap_setPos.
  rewrite <- concat_fmap_fmap. f_equal. apply fmap_ext_elem. intros e He.
  rewrite <- items_of_relabel. f_equal.
  pose proof He as He'. apply list_elem_of_lookup in He' as [j Hj].
  apply visible_lookup in Hj as (Hj & _).
  destruct (well_formed_bindings d st j e Hwf Hj) as [Hch _].
  apply bindings_chain.
  - simpl. pose proof (f_equal length (links_relabel r N (canPosMap st))) as Hl.
    rewrite !length_fmap in Hl. destruct Hwf as (_ & (_ & _ & Hp & _) & _). lia.
  - simpl. apply chain_relabel; [assumption|assumption|].
    intros k Hk. apply HN. by apply (table_nodes_intro d st e).
Qed.

Lemma items_of_table_param d (st : CanMap store) k c :
  well_formed st -> k ∈ table_nodes d st -> canPosMap st !! k = Some c ->
  exists it, it ∈ items_of_table d st /\ item_param it = mapParam c.
Proof.
  intros Hwf Hk Hc.
  apply table_nodes_elem in Hk as (j & e & Hj & He & Hk).
  apply elem_of_nodes in Hk as [c' Hk].
  destruct (well_formed_bindings d st j e Hwf Hj) as [Hch _].
  pose proof (path_elem _ _ _ _ _ _ Hch Hk) as Hc'.
  assert (c' = c) by congruence. subst c'.
  set (rx := match d with SendMap => false | RecvMap => true end).
  exists (mapParam c, canId e, offsetBits c, numBits c, gain c, rx). split; [|reflexivity].
  unfold items_of_table. fold rx.
  eapply elem_of_concat_2.
  - apply list_elem_of_fmap. exists e. split; [reflexivity|assumption].
  - unfold items_of. apply list_elem_of_fmap. exists (k, c). split; [reflexivity|assumption].
Qed.

End SaveLemmas.

Section SaveRun.
Context {cfg : BuildConfig} {store : Type} {PS : ParamStore store} {FD : FlashDevice}.

Lemma setSaving_false_idem b p (st : CanMap store) :
  setSaving false (setPos p (setSaving b st)) = setSaving false (setPos p st).
Proof. reflexivity. Qed.

Lemma Save_run (fl : Flash) (st : CanMap store) :
  sound st ->
  exists fl',
    Save fl st
    = Some (fl', setSaving false
                   (setPos (relabel uid_and_back
                              (table_nodes SendMap st ++ table_nodes RecvMap st)
                              (canPosMap st)) st)).
Proof.
  intros Hsound. pose proof Hsound as [Hwf _].
  pose proof (table_nodes_NoDup st Hsound) as Hnd.
  unfold Save.
  rewrite (ReplaceParamEnumByUid_run SendMap st (setSaving true st) Hwf)
    by reflexivity.
  simpl mbind.
  rewrite (ReplaceParamEnumByUid_run RecvMap st _ Hwf)
    by (try reflexivity; simpl; by rewrite links_relabel).
  simpl mbind.
  destruct (SaveToFlash _ (SENDMAP_WORDS + RECVMAP_WORDS) _) as [fl3 crc].
  rewrite (ReplaceParamUidByEnum_run SendMap st _ Hwf)
    by (try reflexivity; simpl; by rewrite !links_relabel).
  simpl mbind.
  rewrite (ReplaceParamUidByEnum_run RecvMap st _ Hwf)
    by (try reflexivity; simpl; by rewrite !links_relabel).
  simpl mbind. eexists. f_equal. f_equal.
  simpl. rewrite relabel_there_and_back by assumption. reflexivity.
Qed.

(** X21: what [Save] leaves in memory.  On tables that satisfy the
    invariant and share no slot between chains, [Save] returns with the
    busy flag cleared, the two tables, the node identifier, the dispatcher
    and the parameter store as they were, and with every binding the
    iteration visits where it was, its parameter [p] replaced by
    [NumFromId((uint16_t) GetAttrib(p)->id)].  When that gives back the
    parameter of every visited binding, the whole pool is as before. *)
Theorem X21_Save_gives_every_visited_binding_its_parameter_back (fl : Flash)
    (st : CanMap store) :
  sound st ->
  exists fl' st',
    Save fl st = Some (fl', st') /\
    isSaving st' = false /\
    canSendMap st' = canSendMap st /\ canRecvMap st' = canRecvMap st /\
    nodeId st' = nodeId st /\ canHardware st' = canHardware st /\
    params st' = params st /\
    IterateCanMap st'
    = Some (item_relabel uid_and_back
              <$> (items_of_table SendMap st ++ items_of_table RecvMap st)) /\
    ((forall it, it ∈ items_of_table SendMap st ++ items_of_table RecvMap st ->
                 uid_and_back (item_param it) = item_param it) ->
     canPosMap st' = canPosMap st).
Proof.
  intros Hsound. pose proof Hsound as [Hwf _].
  destruct (Save_run fl st Hsound) as [fl' Hrun].
  pose proof (table_nodes_NoDup st Hsound) as Hnd.
  set (N := table_nodes SendMap st ++ table_nodes RecvMap st) in *.
  eexists fl', _. split; [exact Hrun|].
  repeat (split; [reflexivity|]). split.
  - assert (Hwf' : well_formed (setSaving false (setPos (relabel uid_and_back N (canPosMap st)) st))).
    { apply (well_formed_keeps_tables (setPos (relabel uid_and_back N (canPosMap st)) st));
        try reflexivity.
      apply well_formed_same_links; [apply links_relabel|assumption]. }
    rewrite (IterateCanMap_items _ Hwf'). f_equal. rewrite fmap_app. f_equal.
    + apply (items_of_table_relabel uid_and_back SendMap st N Hwf Hnd).
      intros k Hk. apply elem_of_app. by left.
    + apply (items_of_table_relabel uid_and_back RecvMap st N Hwf Hnd).
      intros k Hk. apply elem_of_app. by right.
  - intros Hback. simpl. apply relabel_fixed. intros k c Hk Hc.
    apply elem_of_app in Hk as [Hk|Hk].
    + destruct (items_of_table_param SendMap st k c Hwf Hk Hc) as (it & Hit & <-).
      apply Hback. apply elem_of_app. by left.
    + destruct (items_of_table_param RecvMap st k c Hwf Hk Hc) as (it & Hit & <-).
      apply Hback. apply elem_of_app. by right.
Qed.

End SaveRun.

(** ** The page [Save] programs *)

Lemma foldl_land_bits (ws : list Z) (a n : Z) :
  Z.testbit (foldl Z.land a ws) n = true ->
  Z.testbit a n = true /\ Forall (fun w => Z.testbit w n = true) ws.
Proof.
  revert a. induction ws as [|w ws IH]; simpl; intros a H; [by split|].
  apply IH in H as [H1 H2]. rewrite Z.land_spec in H1.
  apply andb_true_iff in H1 as [Ha Hw]. split; [assumption|by constructor].
Qed.

Lemma all_ones_of_bits (w : Z) :
  0 <= w < 2 ^ 32 -> (forall n, 0 <= n < 32 -> Z.testbit w n = true) -> w = 0xFFFFFFFF.
Proof.
  intros Hw Hbits. change 0xFFFFFFFF with (Z.ones 32).
  apply Z.bits_inj'. intros n Hn.
  destruct (Z.lt_ge_cases n 32) as [Hlt|Hge].
  - rewrite Z.ones_spec_low by lia. apply Hbits. lia.
  - rewrite Z.ones_spec_high by lia. apply testbit_above with (k := 32); lia.
Qed.

(** the test of [Save] before it erases: the conjunction of words of 32
    bits is all ones only when every word is *)
Lemma foldl_land_all_ones (ws : list Z) :
  Forall (fun w => 0 <= w < 2 ^ 32) ws ->
  foldl Z.land 0xFFFFFFFF ws = 0xFFFFFFFF ->
  Forall (fun w => w = 0xFFFFFFFF) ws.
Proof.
  intros Hws H. rewrite Forall_forall in Hws. apply Forall_forall. intros w Hw.
  apply all_ones_of_bits; [by apply Hws|].
  intros n Hn.
  assert (Hbit : Z.testbit (foldl Z.land 0xFFFFFFFF ws) n = true).
  { rewrite H. change 0xFFFFFFFF with (Z.ones 32). apply Z.ones_spec_low. lia. }
  apply foldl_land_bits in Hbit as [_ Hall].
  rewrite Forall_forall in Hall. by apply Hall.
Qed.

Section SavedPage.
Context {cfg : BuildConfig} {store : Type} {PS : ParamStore store} {FD : FlashDevice}.

Lemma SaveToFlash_loop_spec (data : list Z) :
  (forall f a w k, f a = 0xFFFFFFFF ->
     flash_program_word f a w k = if (k =? a)%nat then w else f k) ->
  forall (fl : Flash) (baseAddress idx : nat) (crc : Z),
    (forall k, (baseAddress + idx <= k < baseAddress + idx + length data)%nat ->
               page fl k = 0xFFFFFFFF) ->
    let r := SaveToFlash_loop fl baseAddress idx data crc in
    (forall k, page r.1 k
               = if decide (baseAddress + idx <= k)%nat
                 then default (page fl k) (data !! (k - (baseAddress + idx))%nat)
                 else page fl k) /\
    crc_dr r.1 = foldl crc_calculate (crc_dr fl) data /\
    r.2 = match data with [] => crc | _ => foldl crc_calculate (crc_dr fl) data end.
Proof.
  intros Hprog. induction data as [|w data IH]; intros fl baseAddress idx crc Hfree; simpl.
  - split; [|split; reflexivity]. intros k. case_decide; reflexivity.
  - set (fl1 := {| page := flash_program_word (page fl) (baseAddress + idx) w;
                   crc_dr := crc_calculate (crc_dr fl) w |}).
    assert (Hpage1 : forall k, page fl1 k = if (k =? baseAddress + idx)%nat then w else page fl k).
    { intros k. simpl. apply Hprog. apply Hfree. simpl. lia. }
    destruct (IH fl1 baseAddress (S idx) (crc_calculate (crc_dr fl) w)) as (Hp & Hc & Hr).
    { intros k Hk. rewrite Hpage1.
      destruct (Nat.eqb_spec k (baseAddress + idx)); [lia|]. apply Hfree. simpl. lia. }
    split; [|split].
    + intros k. rewrite Hp, Hpage1.
      destruct (Nat.eqb_spec k (baseAddress + idx)) as [->|Hne].
      * rewrite decide_False by lia. rewrite decide_True by lia.
        rewrite Nat.sub_diag. reflexivity.
      * case_decide as H1; case_decide as H2; try lia; try reflexivity.
        replace (k - (baseAddress + idx))%nat with (S (k - (baseAddress + S idx)))
          by lia. reflexivity.
    + rewrite Hc. reflexivity.
    + rewrite Hr. destruct data; reflexivity.
Qed.

(** one call of [SaveToFlash] on erased words *)
Lemma SaveToFlash_spec (fl : Flash) (baseAddress : nat) (data : list Z) :
  (forall f a w k, f a = 0xFFFFFFFF ->
     flash_program_word f a w k = if (k =? a)%nat then w else f k) ->
  (forall k, (baseAddress <= k < baseAddress + length data)%nat ->
             page fl k = 0xFFFFFFFF) ->
  let r := SaveToFlash fl baseAddress data in
  (forall k w, data !! k = Some w -> page r.1 (baseAddress + k)%nat = w) /\
  (forall k, ~ (baseAddress <= k < baseAddress + length data)%nat ->
             page r.1 k = page fl k) /\
  crc_dr r.1 = foldl crc_calculate (crc_dr fl) data /\
  r.2 = match data with [] => 0 | _ => foldl crc_calculate (crc_dr fl) data end.
Proof.
  intros Hprog Hfree. unfold SaveToFlash.
  destruct (SaveToFlash_loop_spec data Hprog fl baseAddress 0 0) as (Hp & Hc & Hr).
  { intros k Hk. apply Hfree. lia. }
  simpl. split; [|split; [|split]]; try assumption.
  - intros k w Hk. rewrite Hp. rewrite decide_True by lia.
    replace (baseAddress + k - (baseAddress + 0))%nat with k by lia.
    rewrite Hk. reflexivity.
  - intros k Hk. rewrite Hp. case_decide as H1; [|reflexivity].
    rewrite lookup_ge_None_2 by lia. reflexivity.
Qed.

Lemma page_erased_or_checked (fl : Flash) :
  (forall k, 0 <= page fl k < 2 ^ 32) ->
  (forall f k, (k < FLASH_PAGE_WORDS)%nat -> flash_erase_page f k = 0xFFFFFFFF) ->
  let check := foldl Z.land 0xFFFFFFFF (flash_words (page fl) 0 FLASH_PAGE_WORDS) in
  forall k, (k < FLASH_PAGE_WORDS)%nat ->
    page (if check =? 0xFFFFFFFF then {| page := page fl; crc_dr := crc_reset_value |}
          else {| page := flash_erase_page (page fl); crc_dr := crc_reset_value |}) k
    = 0xFFFFFFFF.
Proof.
  intros Hwords Herase check k Hk.
  destruct (check =? 0xFFFFFFFF) eqn:E; simpl; [|by apply Herase].
  apply Z.eqb_eq in E. unfold check in E.
  apply foldl_land_all_ones in E.
  - rewrite Forall_forall in E. apply E. unfold flash_words.
    apply list_elem_of_fmap. exists k. split; [reflexivity|].
    apply elem_of_seq. lia.
  - unfold flash_words. apply Forall_fmap, Forall_forall. intros j _. apply Hwords.
Qed.

Lemma Save_flash (fl : Flash) (st : CanMap store) :
  sound st ->
  let check := foldl Z.land 0xFFFFFFFF (flash_words (page fl) 0 FLASH_PAGE_WORDS) in
  let fl1 := if check =? 0xFFFFFFFF then {| page := page fl; crc_dr := crc_reset_value |}
             else {| page := flash_erase_page (page fl); crc_dr := crc_reset_value |} in
  let r1 := SaveToFlash fl1 0 (image_send st) in
  let r2 := SaveToFlash r1.1 SENDMAP_WORDS (image_recv st) in
  let r3 := SaveToFlash r2.1 (SENDMAP_WORDS + RECVMAP_WORDS) (image_pos st) in
  exists st', Save fl st = Some ((SaveToFlash r3.1 CRC_WORD [r3.2]).1, st').
Proof.
  intros Hsound. pose proof Hsound as [Hwf _]. cbv zeta. eexists.
  unfold Save.
  rewrite (ReplaceParamEnumByUid_run SendMap st (setSaving true st) Hwf)
    by reflexivity.
  simpl mbind.
  rewrite (ReplaceParamEnumByUid_run RecvMap st _ Hwf)
    by (try reflexivity; simpl; by rewrite links_relabel).
  simpl mbind. unfold image_send, image_recv, image_pos, saved_pool. simpl.
  rewrite <- !relabel_app.
  destruct (SaveToFlash _ (SENDMAP_WORDS + RECVMAP_WORDS) _) as [fl3 crc] eqn:E3.
  rewrite (ReplaceParamUidByEnum_run SendMap st _ Hwf)
    by (try reflexivity; simpl; by rewrite !links_relabel).
  simpl mbind.
  rewrite (ReplaceParamUidByEnum_run RecvMap st _ Hwf)
    by (try reflexivity; simpl; by rewrite !links_relabel).
  simpl mbind. reflexivity.
Qed.

(** X22: the page after [Save], on a controller that erases a page to all
    ones and programs an erased word with the word given.  When the page
    holds words of 32 bits and the checksum word lies behind the three
    regions and inside the page, the page holds the words of the send
    table from word 0, those of the receive table from [SENDMAP_WORDS],
    those of the pool, with the unique identifiers in, from
    [SENDMAP_WORDS + RECVMAP_WORDS], and at [CRC_ADDRESS] the result of the
    CRC unit, reset at the start, after all these words in this order (0
    when no word of the pool is written). *)
Theorem X22_Save_programs_the_three_regions_and_their_checksum (fl : Flash)
    (st : CanMap store) :
  sound st ->
  (forall k, 0 <= page fl k < 2 ^ 32) ->
  (forall f k, (k < FLASH_PAGE_WORDS)%nat -> flash_erase_page f k = 0xFFFFFFFF) ->
  (forall f a w k, f a = 0xFFFFFFFF ->
     flash_program_word f a w k = if (k =? a)%nat then w else f k) ->
  (SENDMAP_WORDS + RECVMAP_WORDS + POSMAP_WORDS <= CRC_WORD < FLASH_PAGE_WORDS)%nat ->
  exists fl' st',
    Save fl st = Some (fl', st') /\
    (forall k w, image_send st !! k = Some w -> page fl' k = w) /\
    (forall k w, image_recv st !! k = Some w -> page fl' (SENDMAP_WORDS + k)%nat = w) /\
    (forall k w, image_pos st !! k = Some w ->
                 page fl' (SENDMAP_WORDS + RECVMAP_WORDS + k)%nat = w) /\
    page fl' CRC_WORD
    = match image_pos st with
      | [] => 0
      | _ => foldl crc_calculate crc_reset_value
               (image_send st ++ image_recv st ++ image_pos st)
      end.
Proof.
  intros Hsound Hwords Herase Hprog Hfit.
  destruct (Save_flash fl st Hsound) as [st' Hrun].
  pose proof (page_erased_or_checked fl Hwords Herase) as Hfree.
  simpl in Hrun, Hfree.
  set (fl1 := if _ =? _ then _ else _) in *.
  assert (Hcrc1 : crc_dr fl1 = crc_reset_value) by (unfold fl1; by destruct (_ =? _)).
  assert (Hl1 : (length (image_send st) <= SENDMAP_WORDS)%nat)
    by (unfold image_send; rewrite length_take; lia).
  assert (Hl2 : (length (image_recv st) <= RECVMAP_WORDS)%nat)
    by (unfold image_recv; rewrite length_take; lia).
  assert (Hl3 : (length (image_pos st) <= POSMAP_WORDS)%nat)
    by (unfold image_pos; rewrite length_take; lia).
  destruct (SaveToFlash_spec fl1 0 (image_send st) Hprog) as (Ha1 & Hb1 & Hc1 & _).
  { intros k Hk. apply Hfree. lia. }
  set (r1 := SaveToFlash fl1 0 (image_send st)) in *.
  destruct (SaveToFlash_spec r1.1 SENDMAP_WORDS (image_recv st) Hprog)
    as (Ha2 & Hb2 & Hc2 & _).
  { intros k Hk. rewrite Hb1 by lia. apply Hfree. lia. }
  set (r2 := SaveToFlash r1.1 SENDMAP_WORDS (image_recv st)) in *.
  destruct (SaveToFlash_spec r2.1 (SENDMAP_WORDS + RECVMAP_WORDS) (image_pos st) Hprog)
    as (Ha3 & Hb3 & Hc3 & Hd3).
  { intros k Hk. rewrite Hb2, Hb1 by lia. apply Hfree. lia. }
  set (r3 := SaveToFlash r2.1 (SENDMAP_WORDS + RECVMAP_WORDS) (image_pos st)) in *.
  destruct (SaveToFlash_spec r3.1 CRC_WORD [r3.2] Hprog) as (Ha4 & Hb4 & _).
  { intros k Hk. simpl in Hk. rewrite Hb3, Hb2, Hb1 by lia. apply Hfree. lia. }
  set (r4 := SaveToFlash r3.1 CRC_WORD [r3.2]) in *.
  exists r4.1, st'. split; [exact Hrun|].
  split; [|split; [|split]].
  - intros k w Hk. apply lookup_lt_Some in Hk as Hlt.
    rewrite Hb4, Hb3, Hb2 by (simpl; lia). apply (Ha1 k w Hk).
  - intros k w Hk. apply lookup_lt_Some in Hk as Hlt.
    rewrite Hb4, Hb3 by (simpl; lia). apply (Ha2 k w Hk).
  - intros k w Hk. apply lookup_lt_Some in Hk as Hlt.
    rewrite Hb4 by (simpl; lia). apply (Ha3 k w Hk).
  - specialize (Ha4 0%nat r3.2 eq_refl). rewrite Nat.add_0_r in Ha4. rewrite Ha4, Hd3.
    destruct (image_pos st) as [|w ws] eqn:E; [reflexivity|].
    rewrite Hc2, Hc1, Hcrc1, <- !foldl_app. reflexivity.
Qed.

End SavedPage.

(** ** The constructor *)

Section Construction.
Context {cfg : BuildConfig} {dcfg : DispatchConfig} {store : Type} {PS : ParamStore store}
        {FI : FlashImage}.

(** [LoadFromFlash] returns: with 0 and nothing changed when the word at
    [CRC_ADDRESS] is not the checksum of the image, and with 1 when it is
    and the chains of the image end, the parameter identifiers of the
    visited bindings replaced *)
Lemma LoadFromFlash_run (flash : nat -> Z) (st : CanMap store) :
  let img := image_copied flash st in
  (flash CRC_ADDRESS
   <> crc_calculate_block (flash_words flash 0 (SENDMAP_WORDS + RECVMAP_WORDS + POSMAP_WORDS)) ->
   LoadFromFlash flash st = Some (st, 0)) /\
  (flash CRC_ADDRESS
   = crc_calculate_block (flash_words flash 0 (SENDMAP_WORDS + RECVMAP_WORDS + POSMAP_WORDS)) ->
   well_formed img ->
   LoadFromFlash flash st
   = Some (setPos (relabel Param_NumFromId
                     (table_nodes SendMap img ++ table_nodes RecvMap img)
                     (canPosMap img)) img, 1)).
Proof.
  intros img. split.
  - intros Hne. unfold LoadFromFlash. apply Z.eqb_neq in Hne. by rewrite Hne.
  - intros Heq Hwf. unfold LoadFromFlash. apply Z.eqb_eq in Heq. rewrite Heq.
    cbv zeta. fold (image_copied flash st). fold img.
    rewrite (ReplaceParamUidByEnum_run SendMap img img Hwf eq_refl eq_refl). simpl.
    rewrite (ReplaceParamUidByEnum_run RecvMap img
               (setPos (relabel Param_NumFromId (table_nodes SendMap img) (canPosMap img)) img)
               Hwf eq_refl (links_relabel _ _ _)).
    simpl. rewrite setPos_setPos, relabel_app. reflexivity.
Qed.

Lemma HandleClear_returns (st : CanMap store) :
  (MAX_MESSAGES <= length (canRecvMap st))%nat ->
  exists hw, HandleClear st = Some (setHw hw st).
Proof.
  intros Hlen. unfold HandleClear.
  rewrite (forEachCanMap_visible (canRecvMap st)
             (fun e hw => (RegisterUserMessage hw (canId e)).1)) by auto.
  eauto.
Qed.

Lemma image_copied_setHw flash hw (st : CanMap store) :
  image_copied flash (setHw hw st) = setHw hw (image_copied flash st).
Proof. by destruct st. Qed.

Lemma CanMap_new_returns (raw : CanMap store) (flash : nat -> Z) :
  (MAX_MESSAGES <= length (canRecvMap raw))%nat ->
  (flash CRC_ADDRESS
   = crc_calculate_block (flash_words flash 0 (SENDMAP_WORDS + RECVMAP_WORDS + POSMAP_WORDS)) ->
   well_formed (image_copied flash (ClearMap RecvMap (ClearMap SendMap (setNodeId 1 raw))))) ->
  exists o, CanMap_new raw flash = Some o.
Proof.
  intros Hlen Himg. unfold CanMap_new.
  set (st := ClearMap RecvMap (ClearMap SendMap (setNodeId 1 raw))) in *.
  destruct (LoadFromFlash_run flash st) as [Hbad Hgood].
  destruct (decide (flash CRC_ADDRESS
                    = crc_calculate_block
                        (flash_words flash 0 (SENDMAP_WORDS + RECVMAP_WORDS + POSMAP_WORDS))))
    as [Heq|Hne].
  - specialize (Himg Heq). rewrite (Hgood Heq Himg). simpl.
    destruct (HandleClear_returns
                (setPos (relabel Param_NumFromId
                           (table_nodes SendMap (image_copied flash st)
                            ++ table_nodes RecvMap (image_copied flash st))
                           (canPosMap (image_copied flash st))) (image_copied flash st)))
      as [hw Hrun]; [|eauto].
    destruct Himg as (_ & (_ & Hr & _) & _). simpl in *. lia.
  - rewrite (Hbad Hne). simpl.
    destruct (HandleClear_returns st) as [hw Hrun]; [|eauto].
    unfold st, ClearMap. simpl. by rewrite length_fmap.
Qed.

(** X14: the constructor of [CanMap] registers the new map as a receive
    callback and does not look at the result.  It returns whenever the
    receive table of the object has its declared size and the image in
    flash is turned down, or is taken over with every chain of it ending.
    With room in the callback table the map is the last callback in use
    afterwards.  With [MAX_RECV_CALLBACKS] callbacks in use already,
    [AddReceiveCallback] returns [false] and changes nothing, the
    constructor goes on, and the map it leaves is never called: whatever
    frame the hardware dispatches afterwards, an SDO request for its node
    id included, the map is as it was when the dispatch returns. *)
Theorem X14_the_constructor_ignores_a_full_callback_table
    (raw : CanMap store) (flash : nat -> Z) (b : Bus store) :
  length (recvCallback b) = MAX_RECV_CALLBACKS ->
  (nextCallbackIndex b <= MAX_RECV_CALLBACKS)%nat ->
  Forall (fun cb => forall k, cb = mapCallback k -> (k < length (objects b))%nat)
         (callbacks b) ->
  (MAX_MESSAGES <= length (canRecvMap raw))%nat ->
  (flash CRC_ADDRESS
   = crc_calculate_block (flash_words flash 0 (SENDMAP_WORDS + RECVMAP_WORDS + POSMAP_WORDS)) ->
   well_formed (image_copied flash (ClearMap RecvMap (ClearMap SendMap (setNodeId 1 raw))))) ->
  exists b1 o,
    CanMap_CanMap raw flash b = Some b1 /\
    objects b1 = objects b ++ [o] /\
    ((nextCallbackIndex b < MAX_RECV_CALLBACKS)%nat ->
     callbacks b1 = callbacks b ++ [mapCallback (length (objects b))]) /\
    (nextCallbackIndex b = MAX_RECV_CALLBACKS ->
     (Hw.AddReceiveCallback (mapCallback (length (objects b))) b).2 = false /\
     callbacks b1 = callbacks b /\
     forall id data b2,
       Hw.HandleRx b1 id data = Some b2 ->
       objects b2 !! length (objects b) = Some o).
Proof.
  intros Hlen Hnext Hptr Hrecv Himg.
  assert (Hrun : exists b1, CanMap_CanMap raw flash b = Some b1).
  { unfold CanMap_CanMap.
    set (h := hardware (Hw.AddReceiveCallback (mapCallback (length (objects b))) b).1).
    destruct (CanMap_new_returns (setHw h raw) flash) as [o Ho].
    - exact Hrecv.
    - intros Heq. specialize (Himg Heq).
      revert Himg. apply well_formed_keeps_tables; by destruct raw.
    - rewrite Ho. simpl. eauto. }
  destruct Hrun as [b1 Hrun].
  destruct (CanMap_CanMap_spec raw flash b b1 Hlen Hnext Hptr Hrun) as (o & Hobj & Hroom & Hfull).
  exists b1, o. auto.
Qed.

End Construction.

(** ** The claims on concrete tables *)

Import Demo.

Lemma demo_shape : shape_ok Demo.empty.
Proof. vm_compute. repeat split; congruence. Qed.

Lemma demo_empty : empty_table Demo.empty.
Proof. apply ClearMap_empty. Qed.

(** C1 (the code at the failing input): with ten messages and seventy
    bindings configured, parameter 5 is bound in send message 0x100;
    [FindMap] finds it; [Remove] of parameter 5 unlinks the binding, as
    [FindMap] shows afterwards, and returns 0, not 1. *)
Theorem C1_Remove_returns_0_for_the_binding_it_removed :
  AddSend Demo.empty 5 0x100 0 8 Demo.one 0 = Some (Demo.one_binding, Count 1) /\
  (exists info, FindMap Demo.one_binding 5 = Some (Some info)) /\
  Remove Demo.one_binding 5 = Some (Demo.unbound, 0) /\
  FindMap Demo.unbound 5 = Some None.
Proof.
  split; [vm_compute; reflexivity|].
  split; [eexists; vm_compute; reflexivity|].
  split; vm_compute; reflexivity.
Qed.

(** C2 (the code at the failing inputs): parameter 5 bound twice in send
    message 0x100 is still found after [Remove] of parameter 5, which has
    unlinked the first binding only; and after [Remove] of its only
    binding, slot 0 of the pool still has the link [MAX_ITEMS], not
    [ITEM_UNSET], so the free-slot scan of the next [Add] passes it and
    gives slot 1. *)
Theorem C2_Remove_misses_a_binding_and_frees_no_slot :
  (AddSend Demo.one_binding 5 0x100 8 8 Demo.one 0 = Some (Demo.twice_bound, Count 1) /\
   Remove Demo.twice_bound 5 = Some (Demo.half_unbound, 0) /\
   exists info,
     FindMap Demo.half_unbound 5 = Some (Some info) /\
     mi_canId info = 0x100 /\ mi_offset info = 8) /\
  (Remove Demo.one_binding 5 = Some (Demo.unbound, 0) /\
   FindMap Demo.unbound 5 = Some None /\
   exists c,
     canPosMap Demo.unbound !! 0%nat = Some c /\ mapParam c = 5 /\
     next c = MAX_ITEMS /\ next c <> ITEM_UNSET /\
     findFreeIndex (canPosMap Demo.unbound) = 1%nat).
Proof.
  split.
  - split; [vm_compute; reflexivity|].
    split; [vm_compute; reflexivity|].
    eexists. split; [vm_compute; reflexivity|]. vm_compute. auto.
  - split; [vm_compute; reflexivity|].
    split; [vm_compute; reflexivity|].
    eexists. split; [vm_compute; reflexivity|].
    vm_compute. repeat split; congruence.
Qed.

(** C3 (the code at the failing input): parameter 5 on send message
    0x100, parameter 6 on 0x200, then [Remove] of parameter 5.  The first
    entry is empty, the second still holds the binding of parameter 6,
    which [FindMap] found before, and no iteration comes to it: [FindMap]
    of 6 fails, [IterateCanMap] calls back for nothing, the send sweep
    sends no frame.  On the receive side the lookup of 0x200 fails and the
    frame is turned down.  The message is hidden, not gone: once an add of
    the unrelated message 0x300 has taken the emptied entry, [FindMap]
    finds parameter 6 on 0x200 again; and an add to 0x200 while it is
    hidden writes the identifier to the emptied entry, so that two entries
    of the table hold it. *)
Theorem C3_iteration_stops_before_a_populated_entry :
  AddSend Demo.one_binding 6 0x200 0 8 Demo.one 0 = Some (Demo.two_messages, Count 2) /\
  (exists info, FindMap Demo.two_messages 6 = Some (Some info) /\ mi_canId info = 0x200) /\
  Remove Demo.two_messages 5 = Some (Demo.send_gap, 0) /\
  canSendMap Demo.send_gap !! 0%nat = Some {| canId := 0x100; first := MAX_ITEMS |} /\
  canSendMap Demo.send_gap !! 1%nat = Some {| canId := 0x200; first := 1 |} /\
  ~ visits_every_populated_entry SendMap Demo.send_gap /\
  FindMap Demo.send_gap 6 = Some None /\
  IterateCanMap Demo.send_gap = Some [] /\
  SendAll Demo.send_gap = Some Demo.send_gap /\
  canRecvMap Demo.recv_gap !! 1%nat = Some {| canId := 0x200; first := 1 |} /\
  FindById (canRecvMap Demo.recv_gap) 0x200 = Some None /\
  HandleRx Demo.recv_gap 0x200 (0xAB, 0) = Some (Demo.recv_gap, false) /\
  AddSend Demo.send_gap 7 0x300 0 8 Demo.one 0 = Some (Cases.gap_filled, Count 2) /\
  (exists info, FindMap Cases.gap_filled 6 = Some (Some info) /\ mi_canId info = 0x200) /\
  (exists st',
     AddSend Demo.send_gap 8 0x200 8 8 Demo.one 0 = Some (st', Count 2) /\
     canSendMap st' !! 0%nat = Some {| canId := 0x200; first := 2 |} /\
     canSendMap st' !! 1%nat = Some {| canId := 0x200; first := 1 |}).
Proof.
  split; [vm_compute; reflexivity|].
  split; [eexists; split; vm_compute; reflexivity|].
  split; [vm_compute; reflexivity|].
  split; [vm_compute; reflexivity|].
  split; [vm_compute; reflexivity|].
  split.
  { intros H.
    destruct (H 1%nat {| canId := 0x200; first := 1 |}
                {| mapParam := 6; gain := Demo.one; offset := 0; offsetBits := 0;
                   numBits := 8; next := 70 |}) as [info Hinfo];
      try (vm_compute; congruence); try (vm_compute; lia).
    vm_compute in Hinfo. discriminate. }
  split; [vm_compute; reflexivity|].
  split; [vm_compute; reflexivity|].
  split; [vm_compute; reflexivity|].
  split; [vm_compute; reflexivity|].
  split; [vm_compute; reflexivity|].
  split; [vm_compute; reflexivity|].
  split; [vm_compute; reflexivity|].
  split; [eexists; split; vm_compute; reflexivity|].
  eexists. split; [vm_compute; reflexivity|]. split; vm_compute; reflexivity.
Qed.

(** C4, counterexample: a send binding with gain 2 and offset 1 of a
    parameter that holds 1.0.  The sweep sends the field 1 * 2 + 1 = 3; the
    order of the specification, offset first, would give (1 + 1) * 2 = 4. *)
Lemma C4_offset_before_gain_counterexample :
  exists st' e c,
    canSendMap Demo.scaled_binding !! 0%nat = Some e /\
    canPosMap Demo.scaled_binding !! first e = Some c /\
    gain c = Demo.two /\ offset c = 1 /\
    Param_GetFloat (params Demo.scaled_binding) (mapParam c) = Demo.one /\
    SendAll Demo.scaled_binding = Some st' /\
    sent (canHardware st') = [(0x100, (3, 0))] /\
    frame_of scale_offset_gain (params Demo.scaled_binding) e [(first e, c)]
    = (0x100, (4, 0)) /\
    sent (canHardware st')
    <> [frame_of scale_offset_gain (params Demo.scaled_binding) e [(first e, c)]].
Proof.
  eexists _, _, _.
  split; [vm_compute; reflexivity|].
  split; [vm_compute; reflexivity|].
  split; [vm_compute; reflexivity|].
  split; [vm_compute; reflexivity|].
  split; [vm_compute; reflexivity|].
  split; [vm_compute; reflexivity|].
  split; [vm_compute; reflexivity|].
  split; [vm_compute; reflexivity|].
  vm_compute. discriminate.
Qed.

(** ** The general statements at concrete inputs *)

(** X23 at the send table with the emptied first entry: no lookup returns
    an entry, and [Add] of identifier 0x300 takes the emptied entry *)
Lemma X23_send_gap_witness :
  (forall id i, FindById (canSendMap Demo.send_gap) id = Some (Some i) -> (i < 0)%nat) /\
  (exists st' n,
     Add SendMap Demo.send_gap 7 0x300 0 8 Demo.one 0 = Some (st', Count n) /\
     canSendMap st' !! 0%nat = Some {| canId := 0x300; first := 2 |}).
Proof.
  destruct (X23_an_emptied_entry_ends_every_iteration SendMap Demo.send_gap 0
              {| canId := 0x100; first := 70 |}) as (_ & Hfind & Hadd);
    [vm_compute; reflexivity|vm_compute; reflexivity|].
  split; [exact Hfind|].
  destruct (Hadd 7 0x300 0 8 Demo.one 0) as (st' & n & Hrun & Hentry & _).
  - vm_compute. lia.
  - vm_compute. lia.
  - intros j x Hj. lia.
  - lia.
  - lia.
  - lia.
  - vm_compute. congruence.
  - exists st', n. split; [exact Hrun|exact Hentry].
Defined.

(** C4 (amended) at the binding with gain 2 and offset 1: the field is 3 *)
Lemma C4_send_sweep_witness :
  exists st',
    SendAll Demo.scaled_binding = Some st' /\
    sent (canHardware st') = [(0x100, (3, 0))].
Proof.
  destruct (C4_send_sweep_scales_by_gain_then_offset Demo.scaled_binding
              [[(0%nat, {| mapParam := 5; gain := Demo.two; offset := 1; offsetBits := 0;
                           numBits := 8; next := 70 |})]])
    as (st' & Hrun & Hsent & _).
  - reflexivity.
  - vm_compute. repeat split; congruence.
  - change (visible (canSendMap Demo.scaled_binding))
      with [{| canId := 0x100; first := 0 |}].
    constructor; [|constructor].
    apply path_cons.
    + intros (c & Hc & Hn). vm_compute in Hc. injection Hc as <-. discriminate Hn.
    + vm_compute. reflexivity.
    + apply path_nil. eexists. split; vm_compute; reflexivity.
  - exists st'. split; [exact Hrun|]. rewrite Hsent. vm_compute. reflexivity.
Defined.

(** C5 at a full pool: [Add] of a new identifier fails with "max items"
    after writing the identifier into the free second entry, and nothing
    that reads the map sees a difference *)
Lemma C5_pool_full_witness :
  exists st',
    Add (cfg := Tiny.build) SendMap Tiny.full 6 0x200 0 8 Demo.one 0
    = Some (st', Fault CAN_ERR_MAXITEMS) /\
    canSendMap Tiny.full !! 1%nat = Some {| canId := 0; first := 1 |} /\
    canSendMap st' !! 1%nat = Some {| canId := 0x200; first := 1 |} /\
    unchanged_for_readers (cfg := Tiny.build) Tiny.full st'.
Proof.
  eexists. split; [vm_compute; reflexivity|].
  split; [vm_compute; reflexivity|].
  split; [vm_compute; reflexivity|].
  destruct (C5_Add_rejects_and_keeps_the_table (cfg := Tiny.build)
              SendMap Tiny.full 6 0x200 0 8 Demo.one 0) as (_ & _ & _ & _ & H).
  apply H. vm_compute. reflexivity.
Defined.

(** C6 on the concrete store, for parameter 7: 171.0 is read back *)
Lemma C6_receive_then_remove_witness :
  exists st1 n st2 st3 removed,
    AddRecv Demo.empty 7 0x201 0 8 (F32.of_Z 1) 0 = Some (st1, Count n) /\
    HandleRx st1 0x201 (0xAB, 0) = Some (st2, true) /\
    Param_GetFloat (params st2) 7 = F32.of_Z 171 /\
    Remove st2 7 = Some (st3, removed) /\
    HandleRx st3 0x201 (0xAB, 0) = Some (st3, false) /\
    Param_GetFloat (params st3) 7 = F32.of_Z 171.
Proof.
  destruct (C6_receive_then_remove Demo.empty 7 0)
    as (st1 & n & st2 & st3 & removed & H1 & H2 & H3 & H4 & H5 & H6).
  - simpl. lia.
  - vm_compute. congruence.
  - simpl. lia.
  - exact demo_shape.
  - exact demo_empty.
  - reflexivity.
  - exists st1, n, st2, st3, removed.
    split; [exact H1|]. split; [exact H2|].
    split; [rewrite H3; vm_compute; reflexivity|].
    split; [exact H4|]. split; [exact H5|].
    rewrite H6, H3. vm_compute. reflexivity.
Defined.

(** C7 at a request for index 0x1000 *)
Lemma C7_bad_index_witness :
  exists st' reply,
    HandleRx Demo.empty 0x601 Demo.bad_index_request = Some (st', true) /\
    sent (canHardware st') = [(0x581, reply)] /\
    SDO.cmd reply = 0x80 /\ SDO.data reply = 0x06020000.
Proof.
  destruct (C7_SDO_request_is_answered_once Demo.empty Demo.bad_index_request
              demo_shape (empty_table_chains_end _ demo_empty))
    as (st' & reply & Hrun & Hsent & Hinv).
  exists st', reply. split; [exact Hrun|]. split; [exact Hsent|].
  apply Hinv; change (SDO.index Demo.bad_index_request) with 0x1000; lia.
Defined.

(** C8 at an erased page, whose last word is not its checksum *)
Lemma C8_erased_page_witness :
  LoadFromFlash Demo.erased Demo.empty = Some (Demo.empty, 0) /\
  CanMap_new Demo.raw Demo.erased
  = Some (ClearMap RecvMap (ClearMap SendMap (setNodeId 1 Demo.raw))).
Proof.
  destruct (C8_load_keeps_the_empty_table_on_a_bad_checksum Demo.erased Demo.empty)
    as [Hload Hnew].
  - vm_compute. congruence.
  - split; [exact Hload|]. apply Hnew. vm_compute. lia.
Defined.

(** C9 at a mapping request that arrives while the flag is set: the
    binding is installed *)
Lemma C9_mapping_while_saving_witness :
  exists st' reply,
    HandleRx (setSaving true Demo.empty) 0x601 Demo.map_request = Some (st', true) /\
    sent (canHardware st') = [(0x581, reply)] /\
    isSaving st' = true /\
    FindMap (setSaving true Demo.empty) 5 = Some None /\
    exists info, FindMap st' 5 = Some (Some info) /\ mi_canId info = 0x123.
Proof.
  destruct (C9_SDO_is_processed_while_saving Demo.empty Demo.map_request) as (_ & H & _).
  destruct (H demo_shape (empty_table_chains_end _ demo_empty))
    as (st' & reply & Hrun & Hsent).
  exists st', reply. split; [exact Hrun|]. split; [exact Hsent|].
  vm_compute in Hrun. injection Hrun as <-.
  split; [reflexivity|]. split; [vm_compute; reflexivity|].
  eexists. split; vm_compute; reflexivity.
Defined.

(** C10 at an identifier over the limit: [Add] fails, the identifier is
    registered all the same *)
Lemma C10_failed_AddRecv_registers_witness :
  exists st',
    AddRecv Demo.empty 5 0x20000000 0 8 Demo.one 0 = Some (st', Fault CAN_ERR_INVALID_ID) /\
    nextUserMessageIndex (canHardware Demo.empty) = 0%nat /\
    userIds (canHardware st') !! 0%nat = Some 0x20000000 /\
    nextUserMessageIndex (canHardware st') = 1%nat.
Proof.
  destruct (C10_AddRecv_registers_whatever_Add_returns Demo.empty 5 0x20000000 0 8 Demo.one 0)
    as [_ H].
  destruct (H Demo.empty CAN_ERR_INVALID_ID) as (st' & Hrun & Hid & Hn & _).
  - reflexivity.
  - simpl. lia.
  - simpl. lia.
  - simpl. apply not_elem_of_nil.
  - exists st'. split; [exact Hrun|]. split; [reflexivity|]. split; [exact Hid|exact Hn].
Defined.

Lemma demo_raw_shape : shape_ok Demo.raw.
Proof. vm_compute. repeat split; congruence. Qed.

Lemma demo_twice_bound_reachable : reachable Demo.twice_bound.
Proof.
  apply (reach_AddSend Demo.one_binding 5 0x100 8 8 Demo.one 0 _ (Count 1));
    [|vm_compute; reflexivity].
  apply (reach_AddSend Demo.empty 5 0x100 0 8 Demo.one 0 _ (Count 1));
    [|vm_compute; reflexivity].
  apply reach_Clear. exact demo_raw_shape.
Qed.

(** X1 at the table with the emptied first entry *)
Lemma X1_send_gap_witness : well_formed Demo.send_gap.
Proof.
  apply X1_reachable_tables_are_well_formed; [vm_compute; lia|].
  apply (reach_Remove Demo.two_messages 5 _ 0); [|vm_compute; reflexivity].
  apply (reach_AddSend Demo.one_binding 6 0x200 0 8 Demo.one 0 _ (Count 2));
    [|vm_compute; reflexivity].
  apply (reach_AddSend Demo.empty 5 0x100 0 8 Demo.one 0 _ (Count 1));
    [|vm_compute; reflexivity].
  apply reach_Clear. exact demo_raw_shape.
Defined.

(** X2 at the table with parameter 5 bound twice *)
Lemma X2_twice_bound_witness :
  exists st' removed,
    Remove Demo.twice_bound 5 = Some (st', removed) /\ well_formed st'.
Proof.
  apply X2_Remove_ends_and_keeps_the_invariant.
  apply reachable_well_formed; [vm_compute; lia|exact demo_twice_bound_reachable].
Defined.

(** ** The further properties on concrete tables *)

Import Cases.

Lemma demo_limit : (MAX_ITEMS < ITEM_UNSET)%nat.
Proof. vm_compute. lia. Qed.

Lemma demo_empty_reachable : reachable Demo.empty.
Proof. apply reach_Clear. exact demo_raw_shape. Qed.

Lemma demo_one_binding_reachable : reachable Demo.one_binding.
Proof.
  apply (reach_AddSend Demo.empty 5 0x100 0 8 Demo.one 0 _ (Count 1));
    [exact demo_empty_reachable|vm_compute; reflexivity].
Qed.

Lemma demo_two_messages_reachable : reachable Demo.two_messages.
Proof.
  apply (reach_AddSend Demo.one_binding 6 0x200 0 8 Demo.one 0 _ (Count 2));
    [exact demo_one_binding_reachable|vm_compute; reflexivity].
Qed.

Lemma demo_send_gap_reachable : reachable Demo.send_gap.
Proof.
  apply (reach_Remove Demo.two_messages 5 _ 0);
    [exact demo_two_messages_reachable|vm_compute; reflexivity].
Qed.

Lemma cases_receiver_reachable : reachable Cases.receiver.
Proof.
  apply (reach_AddRecv Demo.empty 7 0x100 0 8 Demo.one 0 _ (Count 1));
    [exact demo_empty_reachable|vm_compute; reflexivity].
Qed.

Lemma cases_sender_reachable : reachable Cases.sender.
Proof.
  unfold Cases.sender. apply reach_params.
  apply (reach_AddSend Demo.empty 5 0x100 0 8 Demo.two 1 _ (Count 1));
    [exact demo_empty_reachable|vm_compute; reflexivity].
Qed.

Lemma cases_thrice_bound_reachable : reachable Cases.thrice_bound.
Proof.
  apply (reach_AddSend Demo.twice_bound 5 0x100 16 8 Demo.one 0 _ (Count 1));
    [exact demo_twice_bound_reachable|vm_compute; reflexivity].
Qed.

Lemma cases_empty_image_well_formed :
  well_formed (image_copied Cases.empty_image
                 (ClearMap RecvMap (ClearMap SendMap (setNodeId 1 Demo.raw)))).
Proof.
  split; [exact demo_limit|]. split; [|split].
  - repeat split; by vm_compute.
  - intros d j e He. exists []. apply path_nil.
    assert (Hall : Forall (fun e => first e = MAX_ITEMS)
                     (selMap d (image_copied Cases.empty_image
                        (ClearMap RecvMap (ClearMap SendMap (setNodeId 1 Demo.raw))))))
      by (destruct d; vm_compute; repeat constructor).
    exact (Forall_lookup_1 _ _ _ _ Hall He).
  - eexists. split; vm_compute; reflexivity.
Qed.

(** X3 at the table with parameter 5 bound twice *)
Lemma X3_twice_bound_witness :
  FindMap Demo.twice_bound 5
  = Some (item_info <$> (snd <$> list_find (fun it => item_param it = 5)
            [(5, 0x100, 0, 8, Demo.one, false); (5, 0x100, 8, 8, Demo.one, false)])).
Proof.
  apply X3_FindMap_finds_the_first_item_of_the_iteration. vm_compute. reflexivity.
Defined.

(** X4 at the table with the emptied first entry *)
Lemma X4_send_gap_witness :
  IterateCanMap Demo.send_gap
  = Some (items_of_table SendMap Demo.send_gap ++ items_of_table RecvMap Demo.send_gap).
Proof.
  apply X4_IterateCanMap_calls_back_for_every_visited_binding.
  exact (reachable_well_formed _ demo_limit demo_send_gap_reachable).
Defined.

(** X5 at the table with two send messages *)
Lemma X5_two_messages_witness :
  SendAll Demo.two_messages
  = Some (if isSaving Demo.two_messages then Demo.two_messages
          else setHw (Send_all (canHardware Demo.two_messages)
                               (frames_of Demo.two_messages)) Demo.two_messages) /\
  fst <$> frames_of Demo.two_messages = canId <$> visible (canSendMap Demo.two_messages).
Proof.
  apply X5_SendAll_sends_one_frame_per_visited_message.
  exact (reachable_well_formed _ demo_limit demo_two_messages_reachable).
Defined.

(** X6 at the table with one receive binding, for its message *)
Lemma X6_receiver_witness :
  HandleRx Cases.receiver 0x100 (0xAB, 0)
  = Some (match list_find (fun e => canId e = 0x100)
                          (visible (canRecvMap Cases.receiver)) with
          | Some (_, e) =>
              (setParams (received Cases.receiver e (0xAB, 0)) Cases.receiver, true)
          | None => (Cases.receiver, false)
          end).
Proof.
  apply X6_HandleRx_writes_every_binding_of_the_message.
  - exact (reachable_well_formed _ demo_limit cases_receiver_reachable).
  - reflexivity.
  - vm_compute. discriminate.
Defined.

(** X7 at the hardware without a user message, for the identifier 0x100 *)
Lemma X7_blank_hw_witness :
  registered (RegisterUserMessage Demo.blank_hw 0x100).1 = [0x100] /\
  (RegisterUserMessage Demo.blank_hw 0x100).2 = true.
Proof.
  destruct (X7_RegisterUserMessage_keeps_the_identifiers_distinct Demo.blank_hw 0x100)
    as (_ & _ & _ & _ & Htrue & _).
  - vm_compute. reflexivity.
  - vm_compute. lia.
  - vm_compute. apply NoDup_nil_2.
  - split; [|vm_compute; reflexivity].
    destruct Htrue as (_ & _ & Hreg & _); [vm_compute; reflexivity|]. exact Hreg.
Defined.

(** X8 at the table with one receive binding *)
Lemma X8_receiver_witness :
  HandleClear Cases.receiver
  = Some (setHw (Register_all (canHardware Cases.receiver)
                   (canId <$> visible (canRecvMap Cases.receiver))) Cases.receiver).
Proof.
  apply X8_HandleClear_registers_the_visited_receive_messages.
  - vm_compute. lia.
  - split; [vm_compute; reflexivity|]. split; [vm_compute; lia|].
    vm_compute. apply NoDup_singleton.
Defined.

(** X9 at two cleared maps: parameter 5 of node 1 is set to 3.0 *)
Lemma X9_empty_witness :
  exists d,
    sent (canHardware (SDOWrite Demo.empty 1 0x2000 5 96)) = [(0x601, d)] /\
    HandleRx Demo.empty 0x601 d
    = Some (setHw (Send (canHardware Demo.empty) 0x581 (SDO.set_cmd SDO_WRITE_REPLY d))
                  (setParams (Param_Set (params Demo.empty) 5 96).1 Demo.empty), true).
Proof.
  destruct (X9_SDOWrite_reaches_Param_Set_of_the_remote_node
              Demo.empty Demo.empty 0x2000 5 96) as (d & Hsent & Hrx).
  - change (nodeId Demo.empty) with 1. lia.
  - lia.
  - lia.
  - change PARAM_LAST with 120. lia.
  - lia.
  - exists d. split; [exact Hsent|exact Hrx].
Defined.

(** X10 at two cleared maps: parameter 5 of node 1 is mapped to the send
    message 0x123 *)
Lemma X10_empty_witness :
  exists d,
    sent (canHardware (SDOWrite Demo.empty 1 0x3123 5 0x200800)) = [(0x601, d)] /\
    HandleRx Demo.empty 0x601 d
    = match AddSend Demo.empty 5 0x123 0 8 (F32.of_Z 32) 0 with
      | Some (st1, r) =>
          Some (setHw (Send (canHardware st1) 0x581
                         (match r with
                          | Count _ => SDO.set_cmd SDO_WRITE_REPLY d
                          | Fault _ => SDO.set_data SDO_ERR_RANGE (SDO.set_cmd SDO_ABORT d)
                          end)) st1, true)
      | None => None
      end.
Proof.
  destruct (X10_SDOWrite_maps_a_parameter_of_the_remote_node
              Demo.empty Demo.empty false 5 0x123 0 8 32) as (d & Hsent & Hrx).
  - change (nodeId Demo.empty) with 1. lia.
  - lia.
  - change PARAM_LAST with 120. lia.
  - lia.
  - lia.
  - lia.
  - lia.
  - exists d. split; [exact Hsent|exact Hrx].
Defined.

(** X11 at the sender with gain 2 and offset 1 and the parameter at 1.0,
    and the table with one receive binding on the same bits *)
Lemma X11_sender_receiver_witness :
  exists snd' d e' c',
    SendAll Cases.sender = Some snd' /\
    sent (canHardware snd') !! 0%nat = Some (0x100, d) /\
    HandleRx Cases.receiver 0x100 d
    = Some (setParams (received Cases.receiver e' d) Cases.receiver, true) /\
    rx_value c' d = F32.mul (F32.add (F32.of_Z 3) (F32.of_Z 0)) Demo.one.
Proof.
  destruct (X11_the_receiver_reads_the_field_the_sender_wrote
              Cases.sender Cases.receiver 0
              {| canId := 0x100; first := 0 |} [] []
              0 {| mapParam := 5; gain := Demo.two; offset := 1; offsetBits := 0;
                   numBits := 8; next := 70 |}
              0 {| canId := 0x100; first := 0 |}
              0 {| mapParam := 7; gain := Demo.one; offset := 0; offsetBits := 0;
                   numBits := 8; next := 70 |})
    as (snd' & d & Hsend & Hsent & Hrx & Hval).
  - exact (reachable_well_formed _ demo_limit cases_sender_reachable).
  - reflexivity.
  - vm_compute. reflexivity.
  - vm_compute. reflexivity.
  - constructor.
  - vm_compute. discriminate.
  - vm_compute. split; discriminate.
  - left. vm_compute. discriminate.
  - vm_compute. split; [discriminate|reflexivity].
  - exact (reachable_well_formed _ demo_limit cases_receiver_reachable).
  - reflexivity.
  - vm_compute. discriminate.
  - vm_compute. reflexivity.
  - vm_compute. apply list_elem_of_here.
  - reflexivity.
  - reflexivity.
  - exists snd', d. eexists _, _. split; [exact Hsend|]. split; [exact Hsent|].
    split; [exact Hrx|]. exact Hval.
Defined.

(** X12 at the bus whose only callback is the map with one receive
    binding, for a frame of its message *)
Lemma X12_full_bus_witness :
  Cases.bus_after_frame = Cases.full_bus \/
  exists j k o o',
    (j < nextCallbackIndex Cases.full_bus)%nat /\
    recvCallback Cases.full_bus !! j = Some (mapCallback k) /\
    objects Cases.full_bus !! k = Some o /\
    HandleRx (setHw (hardware Cases.full_bus) o) 0x100 (0xAB, 0) = Some (o', true) /\
    (forall j0 k0 o0,
       (j0 < j)%nat -> recvCallback Cases.full_bus !! j0 = Some (mapCallback k0) ->
       objects Cases.full_bus !! k0 = Some o0 ->
       HandleRx (setHw (hardware Cases.full_bus) o0) 0x100 (0xAB, 0)
       = Some (setHw (hardware Cases.full_bus) o0, false)) /\
    Cases.bus_after_frame
    = Hw.set_object k (setHw (canHardware o) o')
        (Hw.set_hardware (canHardware o') Cases.full_bus).
Proof.
  apply X12_the_first_callback_that_takes_the_frame_ends_the_dispatch.
  vm_compute. reflexivity.
Defined.

(** X13 at the same bus: [Clear] of its map *)
Lemma X13_full_bus_witness :
  exists h,
    Clear 0 Cases.full_bus
    = Some {| hardware := h; recvCallback := recvCallback Cases.full_bus;
              nextCallbackIndex := nextCallbackIndex Cases.full_bus;
              objects := [ClearMap RecvMap (ClearMap SendMap Cases.receiver)] |} /\
    registered h = [].
Proof.
  destruct (X13_Clear_empties_the_map_and_rebuilds_the_user_messages
              Cases.full_bus 0 Cases.receiver)
    as (h & Hclear & _ & Hids & _ & _ & Hreg & _).
  - reflexivity.
  - vm_compute. reflexivity.
  - vm_compute. lia.
  - constructor; [|constructor].
    exists Cases.receiver. split; [reflexivity|vm_compute; lia].
  - exists h. split; [exact Hclear|].
    destruct (registered h) as [|id r] eqn:E; [reflexivity|].
    specialize (Hreg id ltac:(by left)). vm_compute in Hreg.
    by apply elem_of_nil in Hreg.
Defined.

(** X14 at the same bus, whose callback table is full: the construction
    of a second map, over an erased page and over the image of an empty
    table with its checksum *)
Lemma X14_full_bus_witness :
  (exists o,
     CanMap_CanMap Demo.raw Demo.erased Cases.full_bus = Some Cases.bus_two_maps /\
     objects Cases.bus_two_maps = objects Cases.full_bus ++ [o] /\
     callbacks Cases.bus_two_maps = callbacks Cases.full_bus /\
     forall id data b2,
       Hw.HandleRx Cases.bus_two_maps id data = Some b2 -> objects b2 !! 1%nat = Some o) /\
  (exists b1 o,
     CanMap_CanMap Demo.raw Cases.empty_image Cases.full_bus = Some b1 /\
     objects b1 = objects Cases.full_bus ++ [o] /\
     callbacks b1 = callbacks Cases.full_bus /\
     forall id data b2,
       Hw.HandleRx b1 id data = Some b2 -> objects b2 !! 1%nat = Some o).
Proof.
  split.
  - destruct (X14_the_constructor_ignores_a_full_callback_table
                Demo.raw Demo.erased Cases.full_bus)
      as (b1 & o & Hrun & Hobj & _ & Hfull).
    + reflexivity.
    + vm_compute. lia.
    + constructor; [|constructor]. intros k [= <-]. vm_compute. lia.
    + vm_compute. lia.
    + intros Heq. vm_compute in Heq. discriminate.
    + assert (b1 = Cases.bus_two_maps) as ->.
      { assert (E : CanMap_CanMap Demo.raw Demo.erased Cases.full_bus
                    = Some Cases.bus_two_maps) by (vm_compute; reflexivity).
        congruence. }
      exists o. split; [exact Hrun|]. split; [exact Hobj|].
      destruct (Hfull eq_refl) as (_ & Hcb & Hrx). split; [exact Hcb|exact Hrx].
  - destruct (X14_the_constructor_ignores_a_full_callback_table
                Demo.raw Cases.empty_image Cases.full_bus)
      as (b1 & o & Hrun & Hobj & _ & Hfull).
    + reflexivity.
    + vm_compute. lia.
    + constructor; [|constructor]. intros k [= <-]. vm_compute. lia.
    + vm_compute. lia.
    + intros _. exact cases_empty_image_well_formed.
    + exists b1, o. split; [exact Hrun|]. split; [exact Hobj|].
      destruct (Hfull eq_refl) as (_ & Hcb & Hrx). split; [exact Hcb|exact Hrx].
Defined.

(** X15 at the table with parameter 5 bound three times in a row *)
Lemma X15_thrice_bound_witness :
  exists st',
    Remove Cases.thrice_bound 5 = Some (st', 0) /\
    sound st' /\ keeps_rest Cases.thrice_bound st' /\
    same_use (canPosMap Cases.thrice_bound) (canPosMap st') /\
    IterateCanMap st'
    = Some (items_left SendMap 5 Cases.thrice_bound
            ++ items_left RecvMap 5 Cases.thrice_bound).
Proof.
  apply X15_Remove_unlinks_every_other_adjacent_binding.
  exact (reachable_sound _ demo_limit cases_thrice_bound_reachable).
Defined.

Lemma unvisited_gaps_hold_nothing (st : CanMap Demo.store) d param :
  well_formed st ->
  Forall (fun e => first e = MAX_ITEMS)
         (drop (length (visible (selMap d st))) (selMap d st)) ->
  forall j e, selMap d st !! j = Some e ->
    (length (visible (selMap d st)) <= j)%nat ->
    Forall (fun ic => mapParam ic.2 <> param) (bindings st e).
Proof.
  intros Hwf Hall j e He Hj.
  assert (Hd : drop (length (visible (selMap d st))) (selMap d st)
               !! (j - length (visible (selMap d st)))%nat = Some e).
  { rewrite lookup_drop.
    replace (length (visible (selMap d st)) + (j - length (visible (selMap d st))))%nat
      with j by lia. exact He. }
  rewrite (bindings_gap st e Hwf (Forall_lookup_1 _ _ _ _ Hall Hd)). constructor.
Qed.

(** X16 at the table with two send messages, parameter 5 bound once, the
    entries that are not visited empty *)
Lemma X16_two_messages_witness :
  exists st' items,
    Remove Demo.two_messages 5 = Some (st', 0) /\
    IterateCanMap st' = Some items /\
    Forall (fun it => item_param it <> 5) items /\
    FindMap st' 5 = Some None /\
    forall d j e', selMap d st' !! j = Some e' ->
      Forall (fun ic => mapParam ic.2 <> 5) (bindings st' e').
Proof.
  destruct (X16_Remove_leaves_no_binding_unless_two_are_adjacent Demo.two_messages 5)
    as (st' & items & Hrun & Hit & Hall & Hfind & Hchains).
  - exact (reachable_sound _ demo_limit demo_two_messages_reachable).
  - intros d e He. destruct d.
    + change (visible (selMap SendMap Demo.two_messages))
        with [{| canId := 0x100; first := 0 |}; {| canId := 0x200; first := 1 |}] in He.
      apply elem_of_cons in He as [->|He];
        [vm_compute; auto|apply elem_of_cons in He as [->|He]];
        [vm_compute; auto|by apply elem_of_nil in He].
    + change (visible (selMap RecvMap Demo.two_messages)) with (@nil CANIDMAP) in He.
      by apply elem_of_nil in He.
  - exists st', items. split; [exact Hrun|]. split; [exact Hit|].
    split; [exact Hall|]. split; [exact Hfind|].
    apply Hchains. intros d j e He Hj.
    apply (unvisited_gaps_hold_nothing Demo.two_messages d 5
             (reachable_well_formed _ demo_limit demo_two_messages_reachable)
             ltac:(destruct d; vm_compute; repeat constructor) j e He Hj).
Defined.

(** X17 at the table with parameter 5 bound twice *)
Lemma X17_twice_bound_witness :
  exists st',
    Remove Demo.twice_bound 5 = Some (st', 0) /\
    well_formed st' /\
    same_use (canPosMap Demo.twice_bound) (canPosMap st') /\
    findFreeIndex (canPosMap st') = findFreeIndex (canPosMap Demo.twice_bound) /\
    (findFreeIndex (canPosMap Demo.twice_bound) = MAX_ITEMS ->
     forall d p id ofs len g off st2 r,
       Add d st' p id ofs len g off = Some (st2, r) -> exists err, r = Fault err).
Proof.
  apply X17_Remove_frees_no_slot_of_the_pool.
  exact (reachable_well_formed _ demo_limit demo_twice_bound_reachable).
Defined.

(** X18 at the table with two send messages: slot 0, on the chain of the
    first, is not on the chain of the second *)
Lemma X18_two_messages_witness :
  0%nat ∈ (bindings Demo.two_messages {| canId := 0x100; first := 0 |}).*1 /\
  0%nat ∉ (bindings Demo.two_messages {| canId := 0x200; first := 1 |}).*1.
Proof.
  assert (H0 : 0%nat ∈ (bindings Demo.two_messages {| canId := 0x100; first := 0 |}).*1)
    by (vm_compute; apply list_elem_of_here).
  split; [exact H0|].
  apply (X18_reachable_chains_share_no_slot Demo.two_messages demo_limit
           demo_two_messages_reachable
           SendMap 0 {| canId := 0x100; first := 0 |}
           SendMap 1 {| canId := 0x200; first := 1 |});
    [reflexivity|reflexivity|congruence|exact H0].
Defined.

(** X19 at the cleared table: the first send binding *)
Lemma X19_empty_witness :
  exists info,
    FindMap Demo.one_binding 5 = Some (Some info) /\
    mi_canId info = 0x100 /\ mi_offset info = 0 /\ mi_length info = 8 /\
    mi_gain info = Demo.one /\ mi_rx info = false.
Proof.
  destruct (X19_FindMap_finds_the_parameter_that_was_added
              Demo.empty false 5 0x100 0 8 Demo.one 0 Demo.one_binding 1)
    as (info & Hfind & Hnew).
  - exact (reachable_sound _ demo_limit demo_empty_reachable).
  - vm_compute. reflexivity.
  - destruct Hnew as (Hofs & Hlen & Hg & Hrx & _ & Hid); [vm_compute; reflexivity|].
    exists info. split; [exact Hfind|].
    split; [|split; [exact Hofs|split; [exact Hlen|split; [exact Hg|exact Hrx]]]].
    apply Hid. intros e He.
    change (visible (selMap SendMap Demo.empty)) with (@nil CANIDMAP) in He.
    by apply elem_of_nil in He.
Defined.


(** X21 at the table with two send messages *)
Lemma X21_two_messages_witness :
  exists fl' st',
    Save Cases.erased_flash Demo.two_messages = Some (fl', st') /\
    isSaving st' = false /\
    canSendMap st' = canSendMap Demo.two_messages /\
    canRecvMap st' = canRecvMap Demo.two_messages /\
    nodeId st' = nodeId Demo.two_messages /\
    canHardware st' = canHardware Demo.two_messages /\
    params st' = params Demo.two_messages /\
    IterateCanMap st'
    = Some (item_relabel uid_and_back
              <$> (items_of_table SendMap Demo.two_messages
                   ++ items_of_table RecvMap Demo.two_messages)) /\
    ((forall it, it ∈ items_of_table SendMap Demo.two_messages
                      ++ items_of_table RecvMap Demo.two_messages ->
                 uid_and_back (item_param it) = item_param it) ->
     canPosMap st' = canPosMap Demo.two_messages).
Proof.
  apply X21_Save_gives_every_visited_binding_its_parameter_back.
  exact (reachable_sound _ demo_limit demo_two_messages_reachable).
Defined.

(** X22 at the same table and an erased page *)
Lemma X22_two_messages_witness :
  exists fl' st',
    Save Cases.erased_flash Demo.two_messages = Some (fl', st') /\
    (forall k w, image_send Demo.two_messages !! k = Some w -> page fl' k = w) /\
    (forall k w, image_recv Demo.two_messages !! k = Some w ->
                 page fl' (SENDMAP_WORDS + k)%nat = w) /\
    (forall k w, image_pos Demo.two_messages !! k = Some w ->
                 page fl' (SENDMAP_WORDS + RECVMAP_WORDS + k)%nat = w) /\
    page fl' CRC_WORD
    = match image_pos Demo.two_messages with
      | [] => 0
      | _ => foldl crc_calculate crc_reset_value
               (image_send Demo.two_messages ++ image_recv Demo.two_messages
                ++ image_pos Demo.two_messages)
      end.
Proof.
  apply X22_Save_programs_the_three_regions_and_their_checksum.
  - exact (reachable_sound _ demo_limit demo_two_messages_reachable).
  - intros k. change (page Cases.erased_flash k) with 0xFFFFFFFF. lia.
  - intros f k _. reflexivity.
  - intros f a w k _. reflexivity.
  - vm_compute. lia.
Defined.
